(** * BitStream: a shallow embedding of engine/source/core/bitStream.cpp

    The stream treats a byte buffer as a sequence of bits (LSB first inside
    each byte).  The embedding keeps the shape of the C++ code:

    - machine integers are [Z] with the wrap-around of their C++ type written
      out ([wrapU8], [wrapS32], [wrapU32]);
    - the buffer behind [dataPtr] is a [list Z] whose length is the extent of
      the allocation; every access through [dataPtr] is bounds checked and an
      access outside the allocation makes the operation return [None];
    - member functions are state transformers [BitStream -> option _]. *)

From stdpp Require Import base option list numbers.
From Stdlib Require Import ZArith Lia Bool.
From Stdlib Require Import SpecFloat.

Local Open Scope Z_scope.

(** ** Machine integers *)

Definition wrapU8 (v : Z) : Z := v mod 256.
Definition wrapU32 (v : Z) : Z := v mod 2 ^ 32.
Definition wrapS32 (v : Z) : Z := (v + 2 ^ 31) mod 2 ^ 32 - 2 ^ 31.

(** ** Memory behind a [U8*] *)

(** [*(p + i)] read as a [U8]. *)
Definition load (m : list Z) (i : Z) : option Z :=
  if 0 <=? i then wrapU8 <$> m !! Z.to_nat i else None.

(** [*(p + i) = v] with [v] converted to [U8]. *)
Definition store (m : list Z) (i : Z) (v : Z) : option (list Z) :=
  if (0 <=? i) && (i <? Z.of_nat (length m))
  then Some (<[Z.to_nat i := wrapU8 v]> m)
  else None.

(** ** The stream object *)

(** A [Point3F]; an [F32] is carried as its 32-bit pattern. *)
Record Point3F := mkPoint3F { px : Z; py : Z; pz : Z }.

(** Modelled from the spec: the class declaration lives in core/bitStream.h,
    which is not among the sources; the fields are the ones the member
    functions of bitStream.cpp use (spec section 3, "Stream").  [mMinSpace]
    is the extra field of the two growing variants. *)
Record BitStream := mkBitStream {
  dataPtr : list Z;
  bitNum : Z;
  bufSize : Z;
  error : bool;
  maxReadBitNum : Z;
  maxWriteBitNum : Z;
  stringBuffer : option (list Z);
  mCompressPoint : Point3F;
  mMinSpace : Z
}.

Definition set_dataPtr (d : list Z) (s : BitStream) : BitStream :=
  mkBitStream d (bitNum s) (bufSize s) (error s) (maxReadBitNum s)
    (maxWriteBitNum s) (stringBuffer s) (mCompressPoint s) (mMinSpace s).

Definition set_bitNum (n : Z) (s : BitStream) : BitStream :=
  mkBitStream (dataPtr s) n (bufSize s) (error s) (maxReadBitNum s)
    (maxWriteBitNum s) (stringBuffer s) (mCompressPoint s) (mMinSpace s).

Definition set_error (e : bool) (s : BitStream) : BitStream :=
  mkBitStream (dataPtr s) (bitNum s) (bufSize s) e (maxReadBitNum s)
    (maxWriteBitNum s) (stringBuffer s) (mCompressPoint s) (mMinSpace s).

Definition set_stringBuffer (b : option (list Z)) (s : BitStream) : BitStream :=
  mkBitStream (dataPtr s) (bitNum s) (bufSize s) (error s) (maxReadBitNum s)
    (maxWriteBitNum s) b (mCompressPoint s) (mMinSpace s).

Definition set_mCompressPoint (p : Point3F) (s : BitStream) : BitStream :=
  mkBitStream (dataPtr s) (bitNum s) (bufSize s) (error s) (maxReadBitNum s)
    (maxWriteBitNum s) (stringBuffer s) p (mMinSpace s).

(** ** BitStream::writeBits

    [bitPtr] is an untyped pointer: the function reads
    [1 + (endPtr - stPtr)] bytes through it, one more than
    [ceil(bitCount / 8)] when the field straddles a byte boundary.  The
    memory behind it is therefore presented as a map from offsets to bytes.
    [AssertFatal] is compiled out (release build). *)

(** The [while (stPtr <= endPtr)] loop; [k] is [endPtr + 1 - stPtr]. *)
Fixpoint writeBits_loop (k : nat) (ptr : Z -> Z) (pi : Z) (d : list Z)
    (stPtr : Z) (upShift downShift curB : Z) : option (list Z) :=
  match k with
  | O => Some d
  | S k' =>
      let nextB := wrapU8 (ptr pi) in
      d' ← store d stPtr (Z.lor (Z.shiftr curB downShift) (Z.shiftl nextB upShift));
      writeBits_loop k' ptr (pi + 1) d' (stPtr + 1) upShift downShift nextB
  end.

Definition writeBits (bitCount : Z) (bitPtr : Z -> Z) (s : BitStream)
    : option BitStream :=
  if bitCount =? 0 then Some s
  else if wrapS32 (bitCount + bitNum s) >? maxWriteBitNum s
  then Some (set_error true s)
  else
    let stPtr := Z.shiftr (bitNum s) 3 in
    let endPtr := Z.shiftr (wrapS32 (wrapS32 (bitCount + bitNum s) - 1)) 3 in
    let upShift := Z.land (bitNum s) 7 in
    let downShift := 8 - upShift in
    let lastMask :=
      wrapU8 (Z.shiftr 255
                (7 - Z.land (wrapS32 (wrapS32 (bitNum s + bitCount) - 1)) 7)) in
    let startMask := wrapU8 (Z.shiftr 255 downShift) in
    let curB := wrapU8 (bitPtr 0) in
    old ← load (dataPtr s) stPtr;
    d1 ← store (dataPtr s) stPtr
           (Z.lor (Z.shiftl curB upShift) (Z.land old startMask));
    d2 ← writeBits_loop (Z.to_nat (endPtr - stPtr)) bitPtr 1 d1 (stPtr + 1)
           upShift downShift curB;
    last ← load d2 endPtr;
    d3 ← store d2 endPtr (Z.land last lastMask);
    Some (set_bitNum (wrapS32 (bitNum s + bitCount)) (set_dataPtr d3 s)).

(** ** BitStream::writeFlag *)

Definition writeFlag (val : bool) (s : BitStream) : option (bool * BitStream) :=
  if wrapS32 (bitNum s + 1) >? maxWriteBitNum s
  then Some (false, set_error true s)
  else
    let i := Z.shiftr (bitNum s) 3 in
    let bit := Z.shiftl 1 (Z.land (bitNum s) 7) in
    old ← load (dataPtr s) i;
    d ← store (dataPtr s) i
          (if val then Z.lor old bit else Z.land old (Z.lnot bit));
    Some (val, set_bitNum (wrapS32 (bitNum s + 1)) (set_dataPtr d s)).

(** ** BitStream::readBits

    [dst] is the memory behind [bitPtr]; the function stores
    [(bitCount + 7) >> 3] bytes into it.  A negative [byteCount] would make
    [while (byteCount--)] run off the buffer. *)

Fixpoint readBits_loop (byteCount : nat) (d : list Z) (stPtr : Z)
    (dst : list Z) (ptr : Z) (downShift upShift curB : Z) : option (list Z) :=
  match byteCount with
  | O => Some dst
  | S k =>
      nextB ← load d (stPtr + 1);
      dst' ← store dst ptr (Z.lor (Z.shiftr curB downShift) (Z.shiftl nextB upShift));
      readBits_loop k d (stPtr + 1) dst' (ptr + 1) downShift upShift nextB
  end.

Definition readBits (bitCount : Z) (dst : list Z) (s : BitStream)
    : option (list Z * BitStream) :=
  if bitCount =? 0 then Some (dst, s)
  else if wrapS32 (bitCount + bitNum s) >? maxReadBitNum s
  then Some (dst, set_error true s)
  else
    let stPtr := Z.shiftr (bitNum s) 3 in
    let byteCount := Z.shiftr (wrapS32 (bitCount + 7)) 3 in
    let downShift := Z.land (bitNum s) 7 in
    let upShift := 8 - downShift in
    if byteCount <? 0 then None
    else
      curB ← load (dataPtr s) stPtr;
      dst' ← readBits_loop (Z.to_nat byteCount) (dataPtr s) stPtr dst 0
               downShift upShift curB;
      Some (dst', set_bitNum (wrapS32 (bitNum s + bitCount)) s).

(** ** BitStream::readFlag *)

(** Modelled from the spec: [readFlag] is an inline member of
    core/bitStream.h, which is not among the sources.  Spec 4.1: a
    single-bit read at [bit_cursor]; spec 3 and 7: a read past
    [max_read_bits] sets [error] and is a no-op. *)
Definition readFlag (s : BitStream) : option (bool * BitStream) :=
  if wrapS32 (bitNum s + 1) >? maxReadBitNum s
  then Some (false, set_error true s)
  else
    let mask := Z.shiftl 1 (Z.land (bitNum s) 7) in
    b ← load (dataPtr s) (Z.shiftr (bitNum s) 3);
    Some (negb (Z.land b mask =? 0), set_bitNum (wrapS32 (bitNum s + 1)) s).

(** ** Position *)

Definition getPosition (s : BitStream) : Z :=
  wrapU32 (Z.shiftr (wrapS32 (bitNum s + 7)) 3).

Definition setPosition (pos : Z) (s : BitStream) : BitStream :=
  set_bitNum (wrapS32 (Z.shiftl pos 3)) s.

(** Modelled from the spec: [getCurPos] and [setCurPos] are inline members
    of core/bitStream.h, which is not among the sources.  Spec 4.1: "a
    separate bit-level cursor accessor". *)
Definition getCurPos (s : BitStream) : Z := bitNum s.
Definition setCurPos (pos : Z) (s : BitStream) : BitStream := set_bitNum pos s.

(** ** Buffer binding *)

Definition clearCompressionPoint (s : BitStream) : BitStream :=
  set_mCompressPoint (mkPoint3F 0 0 0) s.

Definition setCompressionPoint (p : Point3F) (s : BitStream) : BitStream :=
  set_mCompressPoint p s.

Definition setStringBuffer (buffer : option (list Z)) (s : BitStream) : BitStream :=
  set_stringBuffer buffer s.

Definition setBuffer (bufPtr : list Z) (size maxSize : Z) (s : BitStream)
    : BitStream :=
  let maxSize := if maxSize <? 0 then size else maxSize in
  clearCompressionPoint
    (mkBitStream bufPtr 0 size false (wrapS32 (Z.shiftl size 3))
       (wrapS32 (Z.shiftl maxSize 3)) (stringBuffer s) (mCompressPoint s)
       (mMinSpace s)).

(** [MaxPacketDataSize] comes from platform/event.h, which is not among the
    sources; [gPacketBuffer] is the current content of the static array.
    [writeSize] is a [U32]; [setBuffer] takes its sizes as [S32], so both
    arguments are converted at the call. *)
Definition getPacketStream (MaxPacketDataSize : Z) (gPacketBuffer : list Z)
    (writeSize : Z) (gPacketStream : BitStream) : BitStream :=
  let writeSize := if writeSize =? 0 then MaxPacketDataSize else writeSize in
  setPosition 0
    (setBuffer gPacketBuffer (wrapS32 writeSize) (wrapS32 MaxPacketDataSize)
       gPacketStream).

(** ** Integer codecs *)

Section Codecs.

(** The bytes that lie after a 4-byte temporary whose address is handed to
    [writeBits]; nothing is assumed about them. *)
Variable adjacent : Z -> Z.

(** Byte [k] of the little-endian image of [v]. *)
Definition byteOf (v k : Z) : Z := wrapU8 (Z.shiftr v (8 * k)).

(** The memory at the address of a 32-bit object holding [v] (after
    [convertHostToLEndian], so the image is little-endian on every host). *)
Definition mem32 (v : Z) : Z -> Z :=
  fun k => if (0 <=? k) && (k <? 4) then byteOf v k else adjacent k.

(** The four bytes of a 32-bit object holding [v]. *)
Definition obj32 (v : Z) : list Z := [byteOf v 0; byteOf v 1; byteOf v 2; byteOf v 3].

(** The unsigned value of a little-endian byte image. *)
Definition leU32 (m : list Z) : Z :=
  foldr (fun b acc => wrapU8 b + 256 * acc) 0 m.

Definition _read (size : Z) (dst : list Z) (s : BitStream)
    : option (list Z * BitStream) :=
  readBits (wrapS32 (Z.shiftl size 3)) dst s.

Definition _write (size : Z) (ptr : Z -> Z) (s : BitStream) : option BitStream :=
  writeBits (wrapS32 (Z.shiftl size 3)) ptr s.

Definition readInt (bitCount : Z) (s : BitStream) : option (Z * BitStream) :=
  '(m, s') ← readBits bitCount (obj32 0) s;
  let ret := wrapS32 (leU32 m) in
  if bitCount =? 32 then Some (ret, s')
  else Some (Z.land ret (wrapS32 (wrapS32 (Z.shiftl 1 bitCount) - 1)), s').

Definition writeInt (val bitCount : Z) (s : BitStream) : option BitStream :=
  writeBits bitCount (mem32 val) s.

Definition writeSignedInt (value bitCount : Z) (s : BitStream)
    : option BitStream :=
  '(f, s1) ← writeFlag (value <? 0) s;
  if (f : bool) then writeInt (wrapS32 (- value)) (wrapS32 (bitCount - 1)) s1
  else writeInt value (wrapS32 (bitCount - 1)) s1.

Definition readSignedInt (bitCount : Z) (s : BitStream)
    : option (Z * BitStream) :=
  '(f, s1) ← readFlag s;
  if (f : bool) then
    '(r, s2) ← readInt (wrapS32 (bitCount - 1)) s1; Some (wrapS32 (- r), s2)
  else readInt (wrapS32 (bitCount - 1)) s1.

End Codecs.

(** ** Vectors and C strings *)

Definition wrapS16 (v : Z) : Z := (v + 2 ^ 15) mod 2 ^ 16 - 2 ^ 15.

(** [v[i]] and [v[i] = x] on a [Vector] or array of records. *)
Definition getAt {A : Type} (v : list A) (i : Z) : option A :=
  if 0 <=? i then v !! Z.to_nat i else None.

Definition setAt {A : Type} (v : list A) (i : Z) (x : A) : option (list A) :=
  if (0 <=? i) && (i <? Z.of_nat (length v))
  then Some (<[Z.to_nat i := x]> v)
  else None.

(** [dStrlen] and [dStrncpy] belong to the platform layer, which is not
    among the sources; they are the C library's [strlen] and [strncpy].
    A [const char*] is the memory behind it, terminator included. *)
Fixpoint dStrlen_from (m : list Z) (i : Z) : option Z :=
  match m with
  | [] => None
  | c :: m' => if wrapU8 c =? 0 then Some i else dStrlen_from m' (i + 1)
  end.

Definition dStrlen (m : list Z) : option Z := dStrlen_from m 0.

Fixpoint dStrncpy_loop (k : nat) (dst src : list Z) (i : Z) (pad : bool)
    : option (list Z) :=
  match k with
  | O => Some dst
  | S k' =>
      if pad then
        dst' ← store dst i 0; dStrncpy_loop k' dst' src (i + 1) true
      else
        c ← load src i;
        dst' ← store dst i c;
        dStrncpy_loop k' dst' src (i + 1) (c =? 0)
  end.

Definition dStrncpy (dst src : list Z) (n : Z) : option (list Z) :=
  dStrncpy_loop (Z.to_nat n) dst src 0 false.

(** ** HuffmanProcessor *)

Record HuffNode := mkHuffNode { nodePop : Z; index0 : Z; index1 : Z }.

Record HuffLeaf := mkHuffLeaf {
  leafPop : Z;
  numBits : Z;
  symbol : Z;
  code : Z
}.

(** A wrap points either into [m_huffNodes] or into [m_huffLeaves]; a
    pointer into a vector is the index of the element. *)
Inductive HuffWrap :=
  | WrapNode (pNode : Z)
  | WrapLeaf (pLeaf : Z).

Record HuffmanProcessor := mkHuffmanProcessor {
  m_tablesBuilt : bool;
  m_huffNodes : list HuffNode;
  m_huffLeaves : list HuffLeaf
}.

Definition csm_charFreqs : list Z :=
  [
   0; 0; 0; 0; 0; 0; 0; 0; 0; 329; 21; 0; 0; 0; 0; 0;
   0; 0; 0; 0; 0; 0; 0; 0; 0; 0; 0; 0; 0; 0; 0; 0;
   2809; 68; 0; 27; 0; 58; 3; 62; 4; 7; 0; 0; 15; 65; 554; 3;
   394; 404; 189; 117; 30; 51; 27; 15; 34; 32; 80; 1; 142; 3; 142; 39;
   0; 144; 125; 44; 122; 275; 70; 135; 61; 127; 8; 12; 113; 246; 122; 36;
   185; 1; 149; 309; 335; 12; 11; 14; 54; 151; 0; 0; 2; 0; 0; 211;
   0; 2090; 344; 736; 993; 2872; 701; 605; 646; 1552; 328; 305; 1240; 735; 1533; 1713;
   562; 3; 1775; 1149; 1469; 979; 407; 553; 59; 279; 31; 0; 0; 0; 68; 0;
   0; 0; 0; 0; 0; 0; 0; 0; 0; 0; 0; 0; 0; 0; 0; 0;
   0; 0; 0; 0; 0; 0; 0; 0; 0; 0; 0; 0; 0; 0; 0; 0;
   0; 0; 0; 0; 0; 0; 0; 0; 0; 0; 0; 0; 0; 0; 0; 0;
   0; 0; 0; 0; 0; 0; 0; 0; 0; 0; 0; 0; 0; 0; 0; 0;
   0; 0; 0; 0; 0; 0; 0; 0; 0; 0; 0; 0; 0; 0; 0; 0;
   0; 0; 0; 0; 0; 0; 0; 0; 0; 0; 0; 0; 0; 0; 0; 0;
   0; 0; 0; 0; 0; 0; 0; 0; 0; 0; 0; 0; 0; 0; 0; 0;
   0; 0; 0; 0; 0; 0; 0; 0; 0; 0; 0; 0; 0; 0; 0; 0
  ].

Definition getPop (nodes : list HuffNode) (leaves : list HuffLeaf)
    (w : HuffWrap) : option Z :=
  match w with
  | WrapNode i => nodePop <$> getAt nodes i
  | WrapLeaf i => leafPop <$> getAt leaves i
  end.

Definition determineIndex (rWrap : HuffWrap) : Z :=
  match rWrap with
  | WrapLeaf i => wrapS16 (- (i + 1))
  | WrapNode i => wrapS16 i
  end.

(** The [for (i = 0; i < currWraps; i++)] scan for the two least
    populations; [k] is [currWraps - i]. *)
Fixpoint scanWraps (k : nat) (nodes : list HuffNode) (leaves : list HuffLeaf)
    (pWrap : list HuffWrap) (i min1 min2 idx1 idx2 : Z)
    : option (Z * Z * Z * Z) :=
  match k with
  | O => Some (min1, min2, idx1, idx2)
  | S k' =>
      w ← getAt pWrap i;
      p ← getPop nodes leaves w;
      if p <? min1 then scanWraps k' nodes leaves pWrap (i + 1) p min1 i idx1
      else if p <? min2 then scanWraps k' nodes leaves pWrap (i + 1) min1 p idx1 i
      else scanWraps k' nodes leaves pWrap (i + 1) min1 min2 idx1 idx2
  end.

(** The [while (currWraps != 1)] loop. *)
Fixpoint mergeWraps (fuel : nat) (nodes : list HuffNode)
    (leaves : list HuffLeaf) (pWrap : list HuffWrap) (currWraps : Z)
    : option (list HuffNode * list HuffWrap) :=
  if currWraps =? 1 then Some (nodes, pWrap)
  else
    match fuel with
    | O => None
    | S fuel' =>
        '(min1, min2, idx1, idx2) ←
          scanWraps (Z.to_nat currWraps) nodes leaves pWrap 0
            4294967294 4294967295 (-1) (-1);
        w1 ← getAt pWrap idx1;
        w2 ← getAt pWrap idx2;
        p1 ← getPop nodes leaves w1;
        p2 ← getPop nodes leaves w2;
        let rNode :=
          mkHuffNode (wrapU32 (p1 + p2)) (determineIndex w1) (determineIndex w2) in
        let nodes' := nodes ++ [rNode] in
        let mergeIndex := if idx1 >? idx2 then idx2 else idx1 in
        let nukeIndex := if idx1 >? idx2 then idx1 else idx2 in
        pWrap1 ← setAt pWrap mergeIndex (WrapNode (Z.of_nat (length nodes)));
        pWrap2 ←
          (if negb (idx2 =? currWraps - 1)
           then tail ← getAt pWrap1 (currWraps - 1); setAt pWrap1 nukeIndex tail
           else Some pWrap1);
        mergeWraps fuel' nodes' leaves pWrap2 (currWraps - 1)
    end.

(** The first four bytes behind a pointer, as a [U32]. *)
Definition readU32 (m : list Z) : option Z :=
  if 4 <=? Z.of_nat (length m)
  then Some (foldr (fun b acc => wrapU8 b + 256 * acc) 0 (take 4 m))
  else None.

(** [generateCodes]; the recursion follows the tree, [fuel] bounds its
    depth. *)
Fixpoint generateCodes (fuel : nat) (nodes : list HuffNode)
    (leaves : list HuffLeaf) (rBS : BitStream) (index depth : Z)
    : option (list HuffLeaf * BitStream) :=
  match fuel with
  | O => None
  | S fuel' =>
      if index <? 0 then
        rLeaf ← getAt leaves (- (index + 1));
        c ← readU32 (dataPtr rBS);
        leaves' ← setAt leaves (- (index + 1))
                    (mkHuffLeaf (leafPop rLeaf) (wrapU8 depth) (symbol rLeaf) c);
        Some (leaves', rBS)
      else
        rNode ← getAt nodes index;
        let pos := getCurPos rBS in
        '(_, bs1) ← writeFlag false rBS;
        '(leaves1, bs2) ←
          generateCodes fuel' nodes leaves bs1 (index0 rNode) (wrapS32 (depth + 1));
        '(_, bs3) ← writeFlag true (setCurPos pos bs2);
        '(leaves2, bs4) ←
          generateCodes fuel' nodes leaves1 bs3 (index1 rNode) (wrapS32 (depth + 1));
        Some (leaves2, setCurPos pos bs4)
  end.

(** A stream object as its constructor leaves it before [setBuffer]. *)
Definition blankStream : BitStream :=
  mkBitStream [] 0 0 false 0 0 None (mkPoint3F 0 0 0) 0.

(** [buildTables].  [m_huffNodes.increment()] appends an element whose
    fields are not initialised (zeros here); it is overwritten by the root
    at the end.  The assertions are compiled out. *)
Definition buildTables (hp : HuffmanProcessor) : option HuffmanProcessor :=
  let leaves :=
    imap (fun i f => mkHuffLeaf (wrapU32 (f + 1)) 0 (wrapU8 (Z.of_nat i)) 0)
      csm_charFreqs in
  let nodes := m_huffNodes hp ++ [mkHuffNode 0 0 0] in
  let pWrap := imap (fun i _ => WrapLeaf (Z.of_nat i)) csm_charFreqs in
  '(nodes1, pWrap1) ← mergeWraps 256 nodes leaves pWrap 256;
  w0 ← getAt pWrap1 0;
  match w0 with
  | WrapLeaf _ => None
  | WrapNode i =>
      root ← getAt nodes1 i;
      nodes2 ← setAt nodes1 0 root;
      '(leaves1, _) ←
        generateCodes 512 nodes2 leaves
          (setBuffer [0; 0; 0; 0] 4 (-1) blankStream) 0 0;
      Some (mkHuffmanProcessor true nodes2 leaves1)
  end.

(** The processor as its constructor leaves it. *)
Definition g_huffProcessor : HuffmanProcessor := mkHuffmanProcessor false [] [].

Section Strings.

Variable adjacent : Z -> Z.

(** The memory behind a [const char*]: the string, then whatever follows. *)
Definition memOf (m : list Z) : Z -> Z :=
  fun k => default (adjacent k) (getAt m k).

Fixpoint sumBits (k : nat) (leaves : list HuffLeaf) (buf : list Z)
    (i acc : Z) : option Z :=
  match k with
  | O => Some acc
  | S k' =>
      c ← load buf i;
      rLeaf ← getAt leaves c;
      sumBits k' leaves buf (i + 1) (wrapS32 (acc + numBits rLeaf))
  end.

Fixpoint writeCodes (k : nat) (leaves : list HuffLeaf) (buf : list Z)
    (i : Z) (s : BitStream) : option BitStream :=
  match k with
  | O => Some s
  | S k' =>
      c ← load buf i;
      rLeaf ← getAt leaves c;
      s' ← writeBits (numBits rLeaf) (mem32 adjacent (code rLeaf)) s;
      writeCodes k' leaves buf (i + 1) s'
  end.

Definition writeHuffBuffer (hp : HuffmanProcessor) (pStream : BitStream)
    (out_pBuffer : option (list Z)) (maxLen : Z)
    : option (HuffmanProcessor * BitStream) :=
  match out_pBuffer with
  | None =>
      '(_, s1) ← writeFlag false pStream;
      s2 ← writeInt adjacent 0 8 s1;
      Some (hp, s2)
  | Some buf =>
      hp' ← (if m_tablesBuilt hp then Some hp else buildTables hp);
      len0 ← dStrlen buf;
      let len := if len0 >? maxLen then maxLen else len0 in
      nb ← sumBits (Z.to_nat len) (m_huffLeaves hp') buf 0 0;
      if nb >=? wrapS32 (len * 8) then
        '(_, s1) ← writeFlag false pStream;
        s2 ← writeInt adjacent len 8 s1;
        s3 ← _write len (memOf buf) s2;
        Some (hp', s3)
      else
        '(_, s1) ← writeFlag true pStream;
        s2 ← writeInt adjacent len 8 s1;
        s3 ← writeCodes (Z.to_nat len) (m_huffLeaves hp') buf 0 s2;
        Some (hp', s3)
  end.

(** The [for] loop of [writeString] that counts the common prefix; [k] is
    [maxLen - j]. *)
Fixpoint prefixLoop (k : nat) (stringBuffer string : list Z) (j : Z)
    : option Z :=
  match k with
  | O => Some j
  | S k' =>
      a ← load stringBuffer j;
      b ← load string j;
      if (a =? b) && negb (b =? 0)
      then prefixLoop k' stringBuffer string (j + 1)
      else Some j
  end.

Definition writeString (hp : HuffmanProcessor) (string : option (list Z))
    (maxLen : Z) (s : BitStream) : option (HuffmanProcessor * BitStream) :=
  let string := default [0] string in
  match stringBuffer s with
  | Some sb =>
      j ← prefixLoop (Z.to_nat maxLen) sb string 0;
      sb1 ← dStrncpy sb string maxLen;
      sb2 ← store sb1 maxLen 0;
      '(f, s1) ← writeFlag (j >? 2) (set_stringBuffer (Some sb2) s);
      if (f : bool) then
        s2 ← writeInt adjacent j 8 s1;
        writeHuffBuffer hp s2 (Some (drop (Z.to_nat j) string))
          (wrapS32 (maxLen - j))
      else writeHuffBuffer hp s1 (Some string) maxLen
  | None => writeHuffBuffer hp s (Some string) maxLen
  end.

End Strings.

(** ** Reading strings *)

Section ReadStrings.

(** The descent [while (true)] of [readHuffBuffer] for one symbol; [fuel]
    bounds the number of steps. *)
Fixpoint decodeSymbol (fuel : nat) (hp : HuffmanProcessor) (index : Z)
    (s : BitStream) : option (Z * BitStream) :=
  match fuel with
  | O => None
  | S fuel' =>
      if index >=? 0 then
        '(f, s') ← readFlag s;
        rNode ← getAt (m_huffNodes hp) index;
        decodeSymbol fuel' hp (if (f : bool) then index1 rNode else index0 rNode) s'
      else
        rLeaf ← getAt (m_huffLeaves hp) (- (index + 1));
        Some (symbol rLeaf, s)
  end.

Fixpoint decodeSymbols (k : nat) (hp : HuffmanProcessor) (out : list Z)
    (i : Z) (s : BitStream) : option (list Z * BitStream) :=
  match k with
  | O => Some (out, s)
  | S k' =>
      '(c, s') ← decodeSymbol 512 hp 0 s;
      out' ← store out i c;
      decodeSymbols k' hp out' (i + 1) s'
  end.

Definition readHuffBuffer (hp : HuffmanProcessor) (pStream : BitStream)
    (out_pBuffer : list Z)
    : option (HuffmanProcessor * list Z * BitStream) :=
  hp' ← (if m_tablesBuilt hp then Some hp else buildTables hp);
  '(f, s1) ← readFlag pStream;
  if (f : bool) then
    '(len, s2) ← readInt 8 s1;
    '(out, s3) ← decodeSymbols (Z.to_nat len) hp' out_pBuffer 0 s2;
    out' ← store out len 0;
    Some (hp', out', s3)
  else
    '(len, s2) ← readInt 8 s1;
    '(out, s3) ← _read (wrapU32 len) out_pBuffer s2;
    out' ← store out (wrapU32 len) 0;
    Some (hp', out', s3).

(** [dStrcpy] is the C library's [strcpy]. *)
Fixpoint dStrcpy_loop (fuel : nat) (dst src : list Z) (i : Z)
    : option (list Z) :=
  match fuel with
  | O => None
  | S fuel' =>
      c ← load src i;
      dst' ← store dst i c;
      if c =? 0 then Some dst' else dStrcpy_loop fuel' dst' src (i + 1)
  end.

Definition dStrcpy (dst src : list Z) : option (list Z) :=
  dStrcpy_loop (S (length src)) dst src 0.

(** [readString]; the result is the processor, [buf] and the stream. *)
Definition readString (hp : HuffmanProcessor) (buf : list Z) (s : BitStream)
    : option (HuffmanProcessor * list Z * BitStream) :=
  let plain (s0 : BitStream) :=
    '(hp', buf', s1) ← readHuffBuffer hp s0 buf;
    match stringBuffer s1 with
    | Some sb => sb' ← dStrcpy sb buf';
                 Some (hp', buf', set_stringBuffer (Some sb') s1)
    | None => Some (hp', buf', s1)
    end in
  match stringBuffer s with
  | Some sb =>
      '(f, s1) ← readFlag s;
      if (f : bool) then
        '(offset, s2) ← readInt 8 s1;
        '(hp', tail, s3) ← readHuffBuffer hp s2 (drop (Z.to_nat offset) sb);
        let sb' := take (Z.to_nat offset) sb ++ tail in
        buf' ← dStrcpy buf sb';
        Some (hp', buf', set_stringBuffer (Some sb') s3)
      else plain s1
  | None => plain s
  end.

End ReadStrings.

(** ** Growing variants *)

(** [dMalloc], [dRealloc], [dMemcpy] and [dMemset] belong to the platform
    layer, which is not among the sources; they are the C library's.  The
    content of fresh memory is [uninit]; a copy that leaves either object
    has no result. *)
Definition dMalloc (uninit : Z -> Z) (n : Z) : list Z := uninit <$> seqZ 0 n.

Definition dRealloc (uninit : Z -> Z) (p : list Z) (n : Z) : list Z :=
  take (Z.to_nat n) p
  ++ (uninit <$> seqZ (Z.of_nat (length p)) (n - Z.of_nat (length p))).

Definition dMemcpy (dst src : list Z) (n : Z) : option (list Z) :=
  if (0 <=? n) && (n <=? Z.of_nat (length dst)) && (n <=? Z.of_nat (length src))
  then Some (take (Z.to_nat n) src ++ drop (Z.to_nat n) dst)
  else None.

(** [BitStream::clear]. *)
Definition clear (s : BitStream) : option BitStream :=
  if (0 <=? bufSize s) && (bufSize s <=? Z.of_nat (length (dataPtr s)))
  then Some (set_dataPtr (replicate (Z.to_nat (bufSize s)) 0
                            ++ drop (Z.to_nat (bufSize s)) (dataPtr s)) s)
  else None.

Module ResizeBitStream.

Definition validate (uninit : Z -> Z) (s : BitStream) : BitStream :=
  if wrapU32 (getPosition s + mMinSpace s) >? wrapU32 (bufSize s) then
    let bufSize' := wrapS32 (wrapU32 (getPosition s + wrapU32 (mMinSpace s * 2))) in
    mkBitStream (dRealloc uninit (dataPtr s) bufSize') (bitNum s) bufSize'
      (error s) (wrapS32 (Z.shiftl bufSize' 3)) (wrapS32 (Z.shiftl bufSize' 3))
      (stringBuffer s) (mCompressPoint s) (mMinSpace s)
  else s.

End ResizeBitStream.

Module InfiniteBitStream.

Definition reset (s : BitStream) : BitStream := setPosition 0 s.

Definition validate (uninit : Z -> Z) (upcomingBytes : Z) (s : BitStream)
    : BitStream :=
  if wrapU32 (wrapU32 (getPosition s + upcomingBytes) + mMinSpace s)
     >? wrapU32 (bufSize s)
  then
    let bufSize' :=
      wrapS32 (wrapU32 (wrapU32 (getPosition s + upcomingBytes) + mMinSpace s)) in
    mkBitStream (dRealloc uninit (dataPtr s) bufSize') (bitNum s) bufSize'
      (error s) (wrapS32 (Z.shiftl bufSize' 3)) (wrapS32 (Z.shiftl bufSize' 3))
      (stringBuffer s) (mCompressPoint s) (mMinSpace s)
  else s.

(** [compact]: [tmp] is allocated with the size [bufSize] has on entry,
    before [bufSize] is recomputed. *)
Definition compact (uninit : Z -> Z) (s : BitStream) : option BitStream :=
  let oldSize := wrapU32 (bufSize s) in
  let tmp := dMalloc uninit (bufSize s) in
  let bufSize' := wrapS32 (wrapU32 (getPosition s + wrapU32 (mMinSpace s * 2))) in
  tmp' ← dMemcpy tmp (dataPtr s) oldSize;
  Some (mkBitStream tmp' (bitNum s) bufSize' (error s)
          (wrapS32 (Z.shiftl bufSize' 3)) (wrapS32 (Z.shiftl bufSize' 3))
          (stringBuffer s) (mCompressPoint s) (mMinSpace s)).

End InfiniteBitStream.

(** ** Floating-point codecs *)

(** The math library is an external collaborator (spec section 1).  A
    floating-point value is carried as an opaque code (for an [F32] object,
    its 32-bit pattern) and the arithmetic on such codes is an interface. *)
Class MathOps := {
  f32_of_s32 : Z -> Z;                 (* (F32) i *)
  s32_of_f32 : Z -> Z;                 (* (S32) f *)
  fadd : Z -> Z -> Z;
  fsub : Z -> Z -> Z;
  fmul : Z -> Z -> Z;
  fdiv : Z -> Z -> Z;
  flt : Z -> Z -> bool;                (* a < b *)
  fgt : Z -> Z -> bool;                (* a > b *)
  len : Point3F -> Z;                  (* Point3F::len() *)
  f_one : Z;                           (* 1.0f *)
  f_half : Z;                          (* .5 *)
  f_epsilon : Z;                       (* 0.00001f *)
  M_PI : Z;
  M_2PI : Z;
  mAtan : Z -> Z -> Z;
  mSqrt : Z -> Z;
  mSin : Z -> Z;
  mCos : Z -> Z;
  mFabs : Z -> Z;
  mClampF : Z -> Z -> Z -> Z;
  getMin : Z -> Z -> Z;
  fneg : Z -> Z;
  MatrixF : Type;
  QuatF : Type;
  quat_x : QuatF -> Z;
  quat_y : QuatF -> Z;
  quat_z : QuatF -> Z;
  quat_w : QuatF -> Z;
  mkQuatF : Z -> Z -> Z -> Z -> QuatF;
  getColumn3 : MatrixF -> Point3F;     (* matrix.getColumn(3, &pos) *)
  setColumn3 : Point3F -> MatrixF -> MatrixF;
  quatOfMatrix : MatrixF -> QuatF;     (* QuatF q(matrix); q.normalize() *)
  matrixOfQuat : QuatF -> MatrixF      (* q.setMatrix(matrix) *)
}.

Definition gBitCounts : list Z := [16; 18; 20; 32].

Section FloatCodecs.

Context {math : MathOps}.
Variable adjacent : Z -> Z.

(** [Stream::write] and [Stream::read] of an [F32] (core/stream.h, not among
    the sources): spec 4.2, "primitive read/write of fixed-width numeric
    types route through readBits/writeBits(sizeof * 8, ...)". *)
Definition writeF32 (f : Z) (s : BitStream) : option BitStream :=
  _write 4 (mem32 adjacent f) s.

Definition readF32 (old : Z) (s : BitStream) : option (Z * BitStream) :=
  '(m, s') ← _read 4 (obj32 old) s; Some (leU32 m, s').

Definition writeFloat (f bitCount : Z) (s : BitStream) : option BitStream :=
  writeInt adjacent
    (s32_of_f32 (fmul f (f32_of_s32 (wrapS32 (wrapS32 (Z.shiftl 1 bitCount) - 1)))))
    bitCount s.

Definition readFloat (bitCount : Z) (s : BitStream) : option (Z * BitStream) :=
  '(i, s') ← readInt bitCount s;
  Some (fdiv (f32_of_s32 i)
          (f32_of_s32 (wrapS32 (wrapS32 (Z.shiftl 1 bitCount) - 1))), s').

Definition writeSignedFloat (f bitCount : Z) (s : BitStream)
    : option BitStream :=
  writeInt adjacent
    (s32_of_f32 (fmul (fmul (fadd f f_one) f_half)
                   (f32_of_s32 (wrapS32 (wrapS32 (Z.shiftl 1 bitCount) - 1)))))
    bitCount s.

Definition readSignedFloat (bitCount : Z) (s : BitStream)
    : option (Z * BitStream) :=
  '(i, s') ← readInt bitCount s;
  Some (fsub (fdiv (f32_of_s32 (wrapS32 (i * 2)))
                (f32_of_s32 (wrapS32 (wrapS32 (Z.shiftl 1 bitCount) - 1))))
          f_one, s').

(** The two-angle normal. *)
Definition writeNormalVector (vec : Point3F) (bitCount : Z) (s : BitStream)
    : option BitStream :=
  let phi := fdiv (mAtan (px vec) (py vec)) M_PI in
  let theta :=
    fdiv (mAtan (pz vec) (mSqrt (fadd (fmul (px vec) (px vec))
                                   (fmul (py vec) (py vec)))))
         (fmul M_PI f_half) in
  s1 ← writeSignedFloat phi (wrapS32 (bitCount + 1)) s;
  writeSignedFloat theta bitCount s1.

Definition readNormalVector (bitCount : Z) (s : BitStream)
    : option (Point3F * BitStream) :=
  '(a, s1) ← readSignedFloat (wrapS32 (bitCount + 1)) s;
  '(b, s2) ← readSignedFloat bitCount s1;
  let phi := fmul a M_PI in
  let theta := fmul b (fmul M_PI f_half) in
  Some (mkPoint3F (fmul (mSin phi) (mCos theta))
          (fmul (mCos phi) (mCos theta)) (mSin theta), s2).

(** The azimuth/elevation normal. *)
Definition writeNormalVector2 (vec : Point3F) (angleBitCount zBitCount : Z)
    (s : BitStream) : option BitStream :=
  s1 ← writeSignedFloat (mClampF (pz vec) (fneg f_one) f_one) zBitCount s;
  if fgt (mFabs (px vec)) f_epsilon || fgt (mFabs (py vec)) f_epsilon
  then writeSignedFloat (fdiv (mAtan (px vec) (py vec)) M_2PI) angleBitCount s1
  else writeSignedFloat 0 angleBitCount s1.

Definition readNormalVector2 (vec : Point3F) (angleBitCount zBitCount : Z)
    (s : BitStream) : option (Point3F * BitStream) :=
  '(z, s1) ← readSignedFloat zBitCount s;
  '(a, s2) ← readSignedFloat angleBitCount s1;
  let angle := fmul M_2PI a in
  let mult0 := fsub f_one (fmul z z) in
  let mult := if fgt mult0 0 then mSqrt mult0 else 0 in
  Some (mkPoint3F (fmul mult (mSin angle)) (fmul mult (mCos angle)) z, s2).

Definition scalePoint (k : Z) (p : Point3F) : Point3F :=
  mkPoint3F (fmul (px p) k) (fmul (py p) k) (fmul (pz p) k).

Definition writeVector (vec : Point3F) (minMag maxMag magBits angleBits zBits : Z)
    (s : BitStream) : option BitStream :=
  let mag := len vec in
  '(f1, s1) ← writeFlag (fgt mag minMag) s;
  if (f1 : bool) then
    '(f2, s2) ← writeFlag (flt mag maxMag) s1;
    s3 ← (if (f2 : bool) then writeFloat (fdiv mag maxMag) magBits s2
          else writeF32 mag s2);
    writeNormalVector2 (scalePoint (fdiv f_one mag) vec) angleBits zBits s3
  else Some s1.

Definition readVector (vec : Point3F) (minMag maxMag magBits angleBits zBits : Z)
    (s : BitStream) : option (Point3F * BitStream) :=
  '(f1, s1) ← readFlag s;
  if (f1 : bool) then
    '(f2, s2) ← readFlag s1;
    '(mag, s3) ← (if (f2 : bool)
                  then '(m, s') ← readFloat magBits s2; Some (fmul m maxMag, s')
                  else readF32 0 s2);
    '(v, s4) ← readNormalVector2 vec angleBits zBits s3;
    Some (scalePoint mag v, s4)
  else Some (mkPoint3F 0 0 0, s1).

(** [mathWrite] and [mathRead] of a [Point3F] (math/mathIO.h): three raw
    floats (spec 4.3). *)
Definition mathWrite (p : Point3F) (s : BitStream) : option BitStream :=
  s1 ← writeF32 (px p) s; s2 ← writeF32 (py p) s1; writeF32 (pz p) s2.

Definition mathRead (p : Point3F) (s : BitStream) : option (Point3F * BitStream) :=
  '(x, s1) ← readF32 (px p) s;
  '(y, s2) ← readF32 (py p) s1;
  '(z, s3) ← readF32 (pz p) s2;
  Some (mkPoint3F x y z, s3).

Definition writeAffineTransform (matrix : MatrixF) (s : BitStream)
    : option BitStream :=
  s1 ← mathWrite (getColumn3 matrix) s;
  let q := quatOfMatrix matrix in
  s2 ← writeF32 (quat_x q) s1;
  s3 ← writeF32 (quat_y q) s2;
  s4 ← writeF32 (quat_z q) s3;
  '(_, s5) ← writeFlag (flt (quat_w q) 0) s4;
  Some s5.

Definition readAffineTransform (pos0 : Point3F) (q0 : QuatF) (s : BitStream)
    : option (MatrixF * BitStream) :=
  '(pos, s1) ← mathRead pos0 s;
  '(x, s2) ← readF32 (quat_x q0) s1;
  '(y, s3) ← readF32 (quat_y q0) s2;
  '(z, s4) ← readF32 (quat_z q0) s3;
  let w := mSqrt (fsub f_one
                    (getMin (fadd (fadd (fmul x x) (fmul y y)) (fmul z z)) f_one)) in
  '(f, s5) ← readFlag s4;
  let w := if (f : bool) then fneg w else w in
  Some (setColumn3 pos (matrixOfQuat (mkQuatF x y z w)), s5).

(** ** The compressed point *)

Definition writeCompressedPoint (p : Point3F) (scale : Z) (s : BitStream)
    : option BitStream :=
  let invScale := fdiv f_one scale in
  let vec := mkPoint3F (fsub (px p) (px (mCompressPoint s)))
               (fsub (py p) (py (mCompressPoint s)))
               (fsub (pz p) (pz (mCompressPoint s))) in
  let dist := fmul (len vec) invScale in
  let type :=
    if flt dist (f32_of_s32 (Z.shiftl 1 15)) then 0
    else if flt dist (f32_of_s32 (Z.shiftl 1 17)) then 1
    else if flt dist (f32_of_s32 (Z.shiftl 1 19)) then 2
    else 3 in
  s1 ← writeInt adjacent type 2 s;
  if negb (type =? 3) then
    type' ← getAt gBitCounts type;
    s2 ← writeSignedInt adjacent (s32_of_f32 (fmul (px vec) invScale)) type' s1;
    s3 ← writeSignedInt adjacent (s32_of_f32 (fmul (py vec) invScale)) type' s2;
    writeSignedInt adjacent (s32_of_f32 (fmul (pz vec) invScale)) type' s3
  else
    s2 ← writeF32 (px p) s1;
    s3 ← writeF32 (py p) s2;
    writeF32 (pz p) s3.

Definition readCompressedPoint (p : Point3F) (scale : Z) (s : BitStream)
    : option (Point3F * BitStream) :=
  '(t, s1) ← readInt 2 s;
  let type := wrapU32 t in
  if type =? 3 then
    '(x, s2) ← readF32 (px p) s1;
    '(y, s3) ← readF32 (py p) s2;
    '(z, s4) ← readF32 (pz p) s3;
    Some (mkPoint3F x y z, s4)
  else
    type' ← getAt gBitCounts type;
    '(x, s2) ← readSignedInt type' s1;
    '(y, s3) ← readSignedInt type' s2;
    '(z, s4) ← readSignedInt type' s3;
    Some (mkPoint3F
            (fadd (px (mCompressPoint s4)) (fmul (f32_of_s32 x) scale))
            (fadd (py (mCompressPoint s4)) (fmul (f32_of_s32 y) scale))
            (fadd (pz (mCompressPoint s4)) (fmul (f32_of_s32 z) scale)), s4).

(** ** Class ids

    [NetClassBitSize] and [NetClassCount] are tables of
    console/consoleObject.h, which is not among the sources. *)
Definition writeClassId (NetClassBitSize : Z -> Z -> Z)
    (classId classType classGroup : Z) (s : BitStream) : option BitStream :=
  writeInt adjacent classId (NetClassBitSize classGroup classType) s.

Definition readClassId (NetClassBitSize NetClassCount : Z -> Z -> Z)
    (classType classGroup : Z) (s : BitStream) : option (Z * BitStream) :=
  '(ret, s') ← readInt (NetClassBitSize classGroup classType) s;
  if ret >? NetClassCount classGroup classType then Some (-1, s')
  else Some (ret, s').

End FloatCodecs.

(** ** The public interface as a set of operations *)

Section Interface.

Context {math : MathOps}.

(** The operations of the stream that act on its state, with their
    arguments. *)
Inductive StreamOp : Type :=
  | OpWriteBits (bitCount : Z) (bitPtr : Z -> Z)
  | OpReadBits (bitCount : Z) (dst : list Z)
  | OpWriteFlag (val : bool)
  | OpReadFlag
  | OpWrite (size : Z) (ptr : Z -> Z)
  | OpRead (size : Z) (dst : list Z)
  | OpWriteInt (val bitCount : Z)
  | OpReadInt (bitCount : Z)
  | OpWriteSignedInt (value bitCount : Z)
  | OpReadSignedInt (bitCount : Z)
  | OpWriteFloat (f bitCount : Z)
  | OpReadFloat (bitCount : Z)
  | OpWriteSignedFloat (f bitCount : Z)
  | OpReadSignedFloat (bitCount : Z)
  | OpWriteNormalVector (vec : Point3F) (bitCount : Z)
  | OpReadNormalVector (bitCount : Z)
  | OpWriteNormalVector2 (vec : Point3F) (angleBitCount zBitCount : Z)
  | OpReadNormalVector2 (vec : Point3F) (angleBitCount zBitCount : Z)
  | OpWriteVector (vec : Point3F) (minMag maxMag magBits angleBits zBits : Z)
  | OpReadVector (vec : Point3F) (minMag maxMag magBits angleBits zBits : Z)
  | OpWriteAffineTransform (matrix : MatrixF)
  | OpReadAffineTransform (pos0 : Point3F) (q0 : QuatF)
  | OpWriteCompressedPoint (p : Point3F) (scale : Z)
  | OpReadCompressedPoint (p : Point3F) (scale : Z)
  | OpWriteClassId (NetClassBitSize : Z -> Z -> Z) (classId classType classGroup : Z)
  | OpReadClassId (NetClassBitSize NetClassCount : Z -> Z -> Z)
      (classType classGroup : Z)
  | OpWriteString (hp : HuffmanProcessor) (string : option (list Z)) (maxLen : Z)
  | OpReadString (hp : HuffmanProcessor) (buf : list Z)
  | OpSetPosition (pos : Z)
  | OpSetCurPos (pos : Z)
  | OpSetCompressionPoint (p : Point3F)
  | OpClearCompressionPoint
  | OpSetStringBuffer (buffer : option (list Z))
  | OpClear
  | OpResizeValidate
  | OpInfiniteReset
  | OpInfiniteValidate (upcomingBytes : Z)
  | OpInfiniteCompact
  | OpSetBuffer (bufPtr : list Z) (size maxSize : Z)
  | OpGetPacketStream (MaxPacketDataSize : Z) (gPacketBuffer : list Z)
      (writeSize : Z).

(** The operations that bind a buffer. *)
Definition rebinds (op : StreamOp) : bool :=
  match op with
  | OpSetBuffer _ _ _ | OpGetPacketStream _ _ _ => true
  | _ => false
  end.

Variable adjacent : Z -> Z.
Variable uninit : Z -> Z.

(** The stream an operation leaves behind. *)
Definition runOp (op : StreamOp) (s : BitStream) : option BitStream :=
  match op with
  | OpWriteBits n ptr => writeBits n ptr s
  | OpReadBits n dst => snd <$> readBits n dst s
  | OpWriteFlag val => snd <$> writeFlag val s
  | OpReadFlag => snd <$> readFlag s
  | OpWrite size ptr => _write size ptr s
  | OpRead size dst => snd <$> _read size dst s
  | OpWriteInt v n => writeInt adjacent v n s
  | OpReadInt n => snd <$> readInt n s
  | OpWriteSignedInt v n => writeSignedInt adjacent v n s
  | OpReadSignedInt n => snd <$> readSignedInt n s
  | OpWriteFloat f n => writeFloat adjacent f n s
  | OpReadFloat n => snd <$> readFloat n s
  | OpWriteSignedFloat f n => writeSignedFloat adjacent f n s
  | OpReadSignedFloat n => snd <$> readSignedFloat n s
  | OpWriteNormalVector vec n => writeNormalVector adjacent vec n s
  | OpReadNormalVector n => snd <$> readNormalVector n s
  | OpWriteNormalVector2 vec a z => writeNormalVector2 adjacent vec a z s
  | OpReadNormalVector2 vec a z => snd <$> readNormalVector2 vec a z s
  | OpWriteVector vec mn mx mb ab zb => writeVector adjacent vec mn mx mb ab zb s
  | OpReadVector vec mn mx mb ab zb => snd <$> readVector vec mn mx mb ab zb s
  | OpWriteAffineTransform m => writeAffineTransform adjacent m s
  | OpReadAffineTransform pos0 q0 => snd <$> readAffineTransform pos0 q0 s
  | OpWriteCompressedPoint p scale => writeCompressedPoint adjacent p scale s
  | OpReadCompressedPoint p scale => snd <$> readCompressedPoint p scale s
  | OpWriteClassId bs id ty gr => writeClassId adjacent bs id ty gr s
  | OpReadClassId bs cnt ty gr => snd <$> readClassId bs cnt ty gr s
  | OpWriteString hp str maxLen => snd <$> writeString adjacent hp str maxLen s
  | OpReadString hp buf => snd <$> readString hp buf s
  | OpSetPosition pos => Some (setPosition pos s)
  | OpSetCurPos pos => Some (setCurPos pos s)
  | OpSetCompressionPoint p => Some (setCompressionPoint p s)
  | OpClearCompressionPoint => Some (clearCompressionPoint s)
  | OpSetStringBuffer b => Some (setStringBuffer b s)
  | OpClear => clear s
  | OpResizeValidate => Some (ResizeBitStream.validate uninit s)
  | OpInfiniteReset => Some (InfiniteBitStream.reset s)
  | OpInfiniteValidate n => Some (InfiniteBitStream.validate uninit n s)
  | OpInfiniteCompact => InfiniteBitStream.compact uninit s
  | OpSetBuffer buf size maxSize => Some (setBuffer buf size maxSize s)
  | OpGetPacketStream mx buf writeSize => Some (getPacketStream mx buf writeSize s)
  end.

End Interface.

(* ================================================================== *)
(** * Specification vocabulary *)

(** The byte the loop stores at offset [t] from its start. *)
Definition spliced (ptr : Z -> Z) (pi upShift downShift curB t : Z) : Z :=
  Z.lor (Z.shiftr (if t =? 0 then curB else wrapU8 (ptr (pi + t - 1))) downShift)
        (Z.shiftl (wrapU8 (ptr (pi + t))) upShift).

(** Bit [i] of the stream (LSB first inside each byte). *)
Definition bitAt (m : list Z) (i : Z) : bool :=
  from_option (fun b => Z.testbit b (i mod 8)) false (load m (i / 8)).

(** Bit [j] of the memory behind a source pointer. *)
Definition srcBit (ptr : Z -> Z) (j : Z) : bool :=
  Z.testbit (wrapU8 (ptr (j / 8))) (j mod 8).

(** The first [n] values of a bit sequence given by index. *)
Definition bitsOf (f : Z -> bool) (n : Z) : list bool := f <$> seqZ 0 n.

(** The low [n] bits of [v], least significant first. *)
Definition intBits (v n : Z) : list bool := bitsOf (Z.testbit v) n.

(** The first [n] bits of the memory behind a source pointer. *)
Definition srcBits (ptr : Z -> Z) (n : Z) : list bool := bitsOf (srcBit ptr) n.

(** [appended s s' bits]: [s'] is [s] with [bits] written at the cursor
    of [s]: the cursor has advanced by their number, the bits before the
    old cursor are intact, and nothing but buffer and cursor has changed. *)
Definition appended (s s' : BitStream) (bits : list bool) : Prop :=
  s' = set_bitNum (bitNum s + Z.of_nat (length bits)) (set_dataPtr (dataPtr s') s) /\
  length (dataPtr s') = length (dataPtr s) /\
  (forall i, i < bitNum s -> bitAt (dataPtr s') i = bitAt (dataPtr s) i) /\
  (forall (j : nat) (b : bool),
      bits !! j = Some b -> bitAt (dataPtr s') (bitNum s + Z.of_nat j) = b).

(** [room s k]: [k] more bits fit under the write ceiling, and the
    ceiling lies inside the allocation. *)
Definition room (s : BitStream) (k : Z) : Prop :=
  0 <= bitNum s /\ bitNum s + k <= maxWriteBitNum s /\
  maxWriteBitNum s <= 8 * Z.of_nat (length (dataPtr s)) /\
  maxWriteBitNum s < 2 ^ 31.

(** [holds m c bits]: the buffer [m] carries [bits] from bit [c] on. *)
Definition holds (m : list Z) (c : Z) (bits : list bool) : Prop :=
  forall (j : nat) (b : bool),
    bits !! j = Some b -> bitAt m (c + Z.of_nat j) = b.

(** [readable r k]: [k] more bits lie under the read ceiling, and the
    buffer extends one byte past them (the byte [readBits] loads after the
    field). *)
Definition readable (r : BitStream) (k : Z) : Prop :=
  0 <= bitNum r /\ bitNum r + k <= maxReadBitNum r /\
  bitNum r + k + 8 <= 8 * Z.of_nat (length (dataPtr r)) /\
  bitNum r + k < 2 ^ 31.

(** A signed integer of width [w] on the wire: sign flag, then the
    magnitude in [w - 1] bits; and the value that reads back. *)
Definition signedBits (v w : Z) : list bool :=
  (v <? 0) :: intBits (if v <? 0 then wrapS32 (- v) else v) (w - 1).

Definition decodeSigned (v w : Z) : Z :=
  let m := (if v <? 0 then wrapS32 (- v) else v) mod 2 ^ (w - 1) in
  if v <? 0 then wrapS32 (- m) else m.

Section PointWire.

Context {math : MathOps}.

(** Spec 4.4: the tier of a scaled distance and the width of its
    components. *)
Definition tierOf (dist : Z) : Z :=
  if flt dist (f32_of_s32 (2 ^ 15)) then 0
  else if flt dist (f32_of_s32 (2 ^ 17)) then 1
  else if flt dist (f32_of_s32 (2 ^ 19)) then 2
  else 3.

Definition tierWidth (T : Z) : Z :=
  if T =? 0 then 16 else if T =? 1 then 18 else 20.

(** The delta [p - a], its scaled length and scaled components. *)
Definition delta (a p : Point3F) : Point3F :=
  mkPoint3F (fsub (px p) (px a)) (fsub (py p) (py a)) (fsub (pz p) (pz a)).

Definition scaledDist (a p : Point3F) (scale : Z) : Z :=
  fmul (len (delta a p)) (fdiv f_one scale).

Definition quantized (a p : Point3F) (scale : Z) : Point3F :=
  mkPoint3F (s32_of_f32 (fmul (px (delta a p)) (fdiv f_one scale)))
    (s32_of_f32 (fmul (py (delta a p)) (fdiv f_one scale)))
    (s32_of_f32 (fmul (pz (delta a p)) (fdiv f_one scale))).

(** The distance and the components in the words of spec 4.4 and of its
    end-to-end property: the quotients [|p - a| / scale] and
    [(p - a) / scale], to be compared with [scaledDist] and [quantized]. *)
Definition quotientDist (a p : Point3F) (scale : Z) : Z :=
  fdiv (len (delta a p)) scale.

Definition quotientQuantized (a p : Point3F) (scale : Z) : Point3F :=
  mkPoint3F (s32_of_f32 (fdiv (px (delta a p)) scale))
    (s32_of_f32 (fdiv (py (delta a p)) scale))
    (s32_of_f32 (fdiv (pz (delta a p)) scale)).

(** What [writeCompressedPoint] puts on the wire for the point [p] with
    anchor [a]. *)
Definition pointWire (a p : Point3F) (scale : Z) : list bool :=
  let T := tierOf (scaledDist a p scale) in
  let q := quantized a p scale in
  intBits T 2
  ++ (if T <? 3
      then signedBits (px q) (tierWidth T) ++ signedBits (py q) (tierWidth T)
           ++ signedBits (pz q) (tierWidth T)
      else intBits (px p) 32 ++ intBits (py p) 32 ++ intBits (pz p) 32).

(** What [readCompressedPoint] makes of it. *)
Definition pointRead (a p : Point3F) (scale : Z) : Point3F :=
  let T := tierOf (scaledDist a p scale) in
  let q := quantized a p scale in
  if T <? 3
  then mkPoint3F
         (fadd (px a) (fmul (f32_of_s32 (decodeSigned (px q) (tierWidth T))) scale))
         (fadd (py a) (fmul (f32_of_s32 (decodeSigned (py q) (tierWidth T))) scale))
         (fadd (pz a) (fmul (f32_of_s32 (decodeSigned (pz q) (tierWidth T))) scale))
  else mkPoint3F (wrapU32 (px p)) (wrapU32 (py p)) (wrapU32 (pz p)).

End PointWire.

(** An instance of the math interface for the concrete runs: fixed-point
    numbers, a value [x] being carried as the integer [x]. *)
#[export] Instance integerMath : MathOps := {|
  f32_of_s32 := fun i => i;
  s32_of_f32 := fun f => f;
  fadd := Z.add;
  fsub := Z.sub;
  fmul := Z.mul;
  fdiv := Z.quot;
  flt := Z.ltb;
  fgt := Z.gtb;
  len := fun p => Z.sqrt (px p * px p + py p * py p + pz p * pz p);
  f_one := 1;
  f_half := 0;
  f_epsilon := 0;
  M_PI := 3;
  M_2PI := 6;
  mAtan := fun _ _ => 0;
  mSqrt := Z.sqrt;
  mSin := fun _ => 0;
  mCos := fun _ => 1;
  mFabs := Z.abs;
  mClampF := fun v lo hi => Z.max lo (Z.min v hi);
  getMin := Z.min;
  fneg := Z.opp;
  MatrixF := Point3F;
  QuatF := Point3F;
  quat_x := px;
  quat_y := py;
  quat_z := pz;
  quat_w := fun _ => 1;
  mkQuatF := fun x y z _ => mkPoint3F x y z;
  getColumn3 := fun m => m;
  setColumn3 := fun p _ => p;
  quatOfMatrix := fun m => m;
  matrixOfQuat := fun q => q
|}.

(** *** IEEE binary32 arithmetic

    An [F32] is carried as its 32-bit pattern.  The arithmetic is that of
    the Standard Library's specification of IEEE 754 ([SpecFloat]) at
    precision 24 and maximal exponent 128, rounding to nearest, ties to
    even. *)
Definition f32_prec : Z := 24.
Definition f32_emax : Z := 128.

Definition f32_decode (b : Z) : spec_float :=
  let b := wrapU32 b in
  let sign := Z.testbit b 31 in
  let e := Z.shiftr b 23 mod 256 in
  let m := b mod 2 ^ 23 in
  if e =? 0 then
    match m with
    | Zpos p => S754_finite sign p (-149)
    | _ => S754_zero sign
    end
  else if e =? 255 then
    if m =? 0 then S754_infinity sign else S754_nan
  else
    match m + 2 ^ 23 with
    | Zpos p => S754_finite sign p (e - 150)
    | _ => S754_nan
    end.

Definition f32_encode (f : spec_float) : Z :=
  match f with
  | S754_zero s => if s then 2 ^ 31 else 0
  | S754_infinity s => (if s then 2 ^ 31 else 0) + 255 * 2 ^ 23
  | S754_nan => 255 * 2 ^ 23 + 2 ^ 22
  | S754_finite s m e =>
      (if s then 2 ^ 31 else 0)
      + (if Zpos m <? 2 ^ 23 then Zpos m
         else (e + 150) * 2 ^ 23 + (Zpos m - 2 ^ 23))
  end.

Definition f32_op2 (op : Z -> Z -> spec_float -> spec_float -> spec_float)
    (a b : Z) : Z :=
  f32_encode (op f32_prec f32_emax (f32_decode a) (f32_decode b)).

Definition f32_mul : Z -> Z -> Z := f32_op2 SFmul.
Definition f32_div : Z -> Z -> Z := f32_op2 SFdiv.
Definition f32_add : Z -> Z -> Z := f32_op2 SFadd.
Definition f32_sub : Z -> Z -> Z := f32_op2 SFsub.
Definition f32_sqrt (a : Z) : Z :=
  f32_encode (SFsqrt f32_prec f32_emax (f32_decode a)).
Definition f32_lt (a b : Z) : bool := SFltb (f32_decode a) (f32_decode b).

(** [(F32) i] and [(S32) f]; the cast of a value outside the [S32] range
    (undefined in C++) gives what x86 gives, the smallest [S32]. *)
Definition f32_of_int (i : Z) : Z :=
  f32_encode (binary_normalize f32_prec f32_emax i 0 false).

Definition f32_to_int (a : Z) : Z :=
  match f32_decode a with
  | S754_zero _ => 0
  | S754_finite s m e =>
      let mag := if 0 <=? e then Zpos m * 2 ^ e else Zpos m / 2 ^ (- e) in
      let v := if s then - mag else mag in
      if (- 2 ^ 31 <=? v) && (v <? 2 ^ 31) then v else - 2 ^ 31
  | _ => - 2 ^ 31
  end.

(** The math interface at binary32, for the runs of the integer, float and
    point codecs.  [len] is [sqrt (x*x + y*y + z*z)].  The interface's
    trigonometric functions and its matrix and quaternion types have no
    binary32 definition here (the codecs named do not call them): they
    are constant. *)
Definition binary32Math : MathOps := {|
  f32_of_s32 := f32_of_int;
  s32_of_f32 := f32_to_int;
  fadd := f32_add;
  fsub := f32_sub;
  fmul := f32_mul;
  fdiv := f32_div;
  flt := f32_lt;
  fgt := fun a b => f32_lt b a;
  len := fun p =>
    f32_sqrt (f32_add (f32_add (f32_mul (px p) (px p)) (f32_mul (py p) (py p)))
                (f32_mul (pz p) (pz p)));
  f_one := 1065353216;
  f_half := 1056964608;
  f_epsilon := 925353388;
  M_PI := 1078530011;
  M_2PI := 1086918619;
  mAtan := fun _ _ => 0;
  mSqrt := f32_sqrt;
  mSin := fun _ => 0;
  mCos := fun _ => 0;
  mFabs := fun a => f32_encode (SFabs (f32_decode a));
  mClampF := fun v lo hi => if f32_lt v lo then lo else if f32_lt hi v then hi else v;
  getMin := fun a b => if f32_lt a b then a else b;
  fneg := fun a => f32_encode (SFopp (f32_decode a));
  MatrixF := Point3F;
  QuatF := Point3F;
  quat_x := px;
  quat_y := py;
  quat_z := pz;
  quat_w := fun _ => 1065353216;
  mkQuatF := fun x y z _ => mkPoint3F x y z;
  getColumn3 := fun m => m;
  setColumn3 := fun p _ => p;
  quatOfMatrix := fun m => m;
  matrixOfQuat := fun q => q
|}.

(** A point and a scale at which the product with the rounded reciprocal
    and the quotient differ: [118710.0f] on the x axis, and the scale with
    the pattern [0x4067DB01] (about 3.6227).  [floatPoint] is the point
    [(100.0f, -7.0f, 0.0f)]; the scale [1.0f] is [f_one]. *)
Definition reciprocalPoint : Point3F := mkPoint3F 1206377216 0 0.
Definition reciprocalScale : Z := 1080548097.
Definition floatPoint : Point3F := mkPoint3F 1120403456 3235905536 0.

(** *** The Huffman body on the wire *)

(** The tables a string operation works with: built on first use. *)
Definition tablesOf (hp : HuffmanProcessor) : option HuffmanProcessor :=
  if m_tablesBuilt hp then Some hp else buildTables hp.

(** The leaf of a character. *)
Definition leafOf (leaves : list HuffLeaf) (c : Z) : HuffLeaf :=
  default (mkHuffLeaf 0 0 0 0) (getAt leaves (wrapU8 c)).

(** [numBits] summed over the characters. *)
Definition totalBits (leaves : list HuffLeaf) (str : list Z) : Z :=
  foldr (fun c acc => numBits (leafOf leaves c) + acc) 0 str.

Definition codeBits (leaves : list HuffLeaf) (c : Z) : list bool :=
  intBits (code (leafOf leaves c)) (numBits (leafOf leaves c)).

Definition rawBits (str : list Z) : list bool :=
  mjoin ((fun c => intBits c 8) <$> str).

(** Spec 4.5 step 3, for the characters [str] that are sent. *)
Definition huffmanBody (leaves : list HuffLeaf) (str : list Z) : list bool :=
  if totalBits leaves str >=? 8 * Z.of_nat (length str)
  then false :: intBits (Z.of_nat (length str)) 8 ++ rawBits str
  else true :: intBits (Z.of_nat (length str)) 8
            ++ mjoin (codeBits leaves <$> str).

(** Every character has a leaf and no code is longer than 32 bits. *)
Definition leaves_ok (leaves : list HuffLeaf) : Prop :=
  length leaves = 256%nat /\
  Forall (fun l => 0 <= numBits l <= 32) leaves.

(** The characters of a C string: the bytes before the first NUL. *)
Definition chars (m : list Z) : list Z :=
  take (Z.to_nat (default 0 (dStrlen m))) m.

(** The length of the longest common prefix of two byte sequences. *)
Fixpoint commonPrefix (a b : list Z) : nat :=
  match a, b with
  | x :: a', y :: b' =>
      if wrapU8 x =? wrapU8 y then S (commonPrefix a' b') else O
  | _, _ => O
  end.

(** What [strncpy] followed by [dst[n] = 0] leaves in the first [n + 1]
    bytes of the destination when the source holds the characters [str]:
    the characters truncated to [n], zero padding up to [n], the
    terminator. *)
Definition truncated (str : list Z) (n : Z) : list Z :=
  take (Z.to_nat n) (wrapU8 <$> str)
  ++ replicate (Z.to_nat n - length str) 0 ++ [0].

(** The tables [buildTables] computes from [csm_charFreqs]. *)
Definition builtTables : HuffmanProcessor :=
  Eval vm_compute in default g_huffProcessor (buildTables g_huffProcessor).

(** What [writeString] puts on the wire when a scratch buffer is bound:
    [j] is the common prefix count and [sent] the input truncated to
    [maxLen]. *)
Definition stringWire (leaves : list HuffLeaf) (j : Z) (sent : list Z)
    : list bool :=
  if j >? 2
  then true :: intBits j 8 ++ huffmanBody leaves (drop (Z.to_nat j) sent)
  else false :: huffmanBody leaves sent.

(** The 32-byte fixed stream of the end-to-end scenarios (spec section 8). *)
Definition exampleStream : BitStream :=
  setBuffer (replicate 32 0) 32 (-1)
    (mkBitStream [] 0 0 false 0 0 None (mkPoint3F 0 0 0) 0).

(** A one-byte stream whose read ceiling is the whole buffer. *)
Definition oneByteStream : BitStream :=
  setBuffer [171] 1 (-1)
    (mkBitStream [] 0 0 false 0 0 None (mkPoint3F 0 0 0) 0).

(** A two-byte buffer whose read ceiling is its first byte. *)
Definition twoByteStream : BitStream :=
  setBuffer [171; 205] 1 (-1)
    (mkBitStream [] 0 0 false 0 0 None (mkPoint3F 0 0 0) 0).

(** The strings of the end-to-end scenarios 4 and 5 (spec section 8), as
    the memory behind a [const char*], and a scratch buffer that holds
    "helloX". *)
Definition hello : list Z := [104; 101; 108; 108; 111].
Definition helloworld : list Z :=
  [104; 101; 108; 108; 111; 119; 111; 114; 108; 100].
Definition scratchHelloX : list Z :=
  [104; 101; 108; 108; 111; 88] ++ replicate 250 0.

(** The stream of scenario 5: the 32-byte stream with the scratch buffer
    bound. *)
Definition scratchStream : BitStream :=
  setStringBuffer (Some scratchHelloX) exampleStream.

(** An unbounded-append stream over a 4-byte buffer, two bytes written,
    with [mMinSpace = 8]. *)
Definition compactExample : BitStream :=
  mkBitStream [1; 2; 3; 4] 16 4 false 32 32 None (mkPoint3F 0 0 0) 8.

(** Memory after a temporary, for the concrete runs. *)
Definition noise : Z -> Z := fun k => 165 + k.


(* ================================================================== *)
(** * The rest of the stream interface *)

(** ** BitStream::setBit, BitStream::testBit *)

Definition setBit (bitCount : Z) (set : bool) (s : BitStream) : option BitStream :=
  let i := Z.shiftr bitCount 3 in
  let bit := Z.shiftl 1 (Z.land bitCount 7) in
  old ← load (dataPtr s) i;
  d ← store (dataPtr s) i
        (if set then Z.lor old bit else Z.land old (Z.lnot bit));
  Some (set_dataPtr d s).

Definition testBit (bitCount : Z) (s : BitStream) : option bool :=
  b ← load (dataPtr s) (Z.shiftr bitCount 3);
  Some (negb (Z.land b (Z.shiftl 1 (Z.land bitCount 7)) =? 0)).

(** ** Sizes *)

Definition getReadByteSize (s : BitStream) : Z :=
  wrapU32 (Z.shiftr (maxReadBitNum s) 3 - getPosition s).

(** ** Construction *)

(** Modelled from the spec: the constructor
    [BitStream(bufPtr, bufSize, maxWriteSize = -1)] is an inline member of
    core/bitStream.h, which is not among the sources.  Spec 6 lists
    "stream construction, buffer binding" together; spec 3: the string
    scratch is optional and absent until bound.  The constructor binds the
    buffer through [setBuffer] and leaves no scratch buffer. *)
Definition newBitStream (bufPtr : list Z) (size maxSize : Z) : BitStream :=
  set_stringBuffer None (setBuffer bufPtr size maxSize blankStream).

(** [ResizeBitStream::ResizeBitStream], on the base object
    [BitStream(NULL, 0, 0)]. *)
Definition newResizeBitStream (uninit : Z -> Z) (minSpace initialSize : Z)
    : BitStream :=
  let base := newBitStream [] 0 0 in
  let base :=
    mkBitStream (dataPtr base) (bitNum base) (bufSize base) (error base)
      (maxReadBitNum base) (maxWriteBitNum base) (stringBuffer base)
      (mCompressPoint base) minSpace in
  let initialSize :=
    if initialSize =? 0 then wrapU32 (minSpace * 2) else initialSize in
  setBuffer (dMalloc uninit initialSize) (wrapS32 initialSize)
    (wrapS32 initialSize) base.

(** ** BitStream::dumbDownNormal *)

Section DumbDown.

Context {math : MathOps}.
Variable adjacent : Z -> Z.
(** The content of the local [U8 buffer[128]] on entry. *)
Variable stack : list Z.

Definition dumbDownNormal (vec : Point3F) (bitCount : Z) : option Point3F :=
  let temp := newBitStream stack 128 (-1) in
  temp1 ← writeNormalVector adjacent vec bitCount temp;
  '(ret, _) ← readNormalVector bitCount (setCurPos 0 temp1);
  Some ret.

End DumbDown.

(** ** Vocabulary for the Huffman tree *)

(** Following [bits] down the tree from node [index]: 0 goes to [index0],
    1 to [index1]; a negative index is a leaf and has no children. *)
Fixpoint descend (nodes : list HuffNode) (index : Z) (bits : list bool)
    : option Z :=
  match bits with
  | [] => Some index
  | b :: rest =>
      if index <? 0 then None
      else
        rNode ← getAt nodes index;
        descend nodes (if b then index1 rNode else index0 rNode) rest
  end.

(** The code of the byte [c] leads from the root to the leaf of [c], and
    that leaf carries [c]. *)
Definition code_reaches (hp : HuffmanProcessor) (c : Z) : bool :=
  match descend (m_huffNodes hp) 0 (codeBits (m_huffLeaves hp) c) with
  | Some i => (i =? - (c + 1)) && (symbol (leafOf (m_huffLeaves hp) c) =? c)
              && (1 <=? numBits (leafOf (m_huffLeaves hp) c))
  | None => false
  end.

(** Tables with which every byte can be sent and read back. *)
Definition tables_ok (hp : HuffmanProcessor) : Prop :=
  leaves_ok (m_huffLeaves hp) /\
  forall c, 0 <= c < 256 -> code_reaches hp c = true.

(** ** Vocabulary for the growing streams *)

(** The allocation has the recorded size, both ceilings stand at its end,
    and the cursor lies inside it. *)
Definition sized (s : BitStream) : Prop :=
  Z.of_nat (length (dataPtr s)) = bufSize s /\
  maxReadBitNum s = 8 * bufSize s /\ maxWriteBitNum s = 8 * bufSize s /\
  0 <= bitNum s <= 8 * bufSize s.

(** ** Vocabulary for the quantised floats *)

Section FloatWire.

Context {math : MathOps}.

(** The integers [writeFloat] and [writeSignedFloat] send for [f] at width
    [n]. *)
Definition floatCode (f n : Z) : Z :=
  s32_of_f32 (fmul f (f32_of_s32 (2 ^ n - 1))).

Definition signedFloatCode (f n : Z) : Z :=
  s32_of_f32 (fmul (fmul (fadd f f_one) f_half) (f32_of_s32 (2 ^ n - 1))).

(** The values [readFloat] and [readSignedFloat] make of them. *)
Definition floatRead (f n : Z) : Z :=
  fdiv (f32_of_s32 (floatCode f n mod 2 ^ n)) (f32_of_s32 (2 ^ n - 1)).

Definition signedFloatRead (f n : Z) : Z :=
  fsub (fdiv (f32_of_s32 (wrapS32 (signedFloatCode f n mod 2 ^ n * 2)))
          (f32_of_s32 (2 ^ n - 1)))
    f_one.

(** The normal [readNormalVector] rebuilds from the two angles of [vec]
    quantised at [bitCount + 1] and [bitCount] bits. *)
Definition quantizedNormal (vec : Point3F) (bitCount : Z) : Point3F :=
  let phi := fdiv (mAtan (px vec) (py vec)) M_PI in
  let theta :=
    fdiv (mAtan (pz vec) (mSqrt (fadd (fmul (px vec) (px vec))
                                   (fmul (py vec) (py vec)))))
         (fmul M_PI f_half) in
  let phi' := fmul (signedFloatRead phi (bitCount + 1)) M_PI in
  let theta' := fmul (signedFloatRead theta bitCount) (fmul M_PI f_half) in
  mkPoint3F (fmul (mSin phi') (mCos theta')) (fmul (mCos phi') (mCos theta'))
    (mSin theta').

(** The unit vector [readNormalVector] (two widths) rebuilds from the
    clamped z and the azimuth of [vec]. *)
Definition azimuthOf (vec : Point3F) : Z :=
  if fgt (mFabs (px vec)) f_epsilon || fgt (mFabs (py vec)) f_epsilon
  then fdiv (mAtan (px vec) (py vec)) M_2PI
  else 0.

Definition normalRead2 (vec : Point3F) (angleBits zBits : Z) : Point3F :=
  let z := signedFloatRead (mClampF (pz vec) (fneg f_one) f_one) zBits in
  let angle := fmul M_2PI (signedFloatRead (azimuthOf vec) angleBits) in
  let mult0 := fsub f_one (fmul z z) in
  let mult := if fgt mult0 0 then mSqrt mult0 else 0 in
  mkPoint3F (fmul mult (mSin angle)) (fmul mult (mCos angle)) z.

(** What [writeVector] puts on the wire for a vector longer than
    [minMag], and what [readVector] makes of it. *)
Definition vectorWire (vec : Point3F) (maxMag magBits angleBits zBits : Z)
    : list bool :=
  let mag := len vec in
  let unit := scalePoint (fdiv f_one mag) vec in
  [true; flt mag maxMag]
  ++ (if flt mag maxMag then intBits (floatCode (fdiv mag maxMag) magBits) magBits
      else intBits mag 32)
  ++ intBits (signedFloatCode (mClampF (pz unit) (fneg f_one) f_one) zBits) zBits
  ++ intBits (signedFloatCode (azimuthOf unit) angleBits) angleBits.

Definition vectorRead (vec : Point3F) (maxMag magBits angleBits zBits : Z)
    : Point3F :=
  let mag := len vec in
  let mag' :=
    if flt mag maxMag then fmul (floatRead (fdiv mag maxMag) magBits) maxMag
    else wrapU32 mag in
  scalePoint mag' (normalRead2 (scalePoint (fdiv f_one mag) vec) angleBits zBits).

End FloatWire.

(* ================================================================== *)
(** * Properties *)

(** ** Arithmetic of the machine integers *)

Lemma wrapS32_id (v : Z) : - 2 ^ 31 <= v < 2 ^ 31 -> wrapS32 v = v.
Proof.
  intros Hv. unfold wrapS32.
  rewrite Z.mod_small by lia. lia.
Qed.

Lemma wrapU8_range (v : Z) : 0 <= wrapU8 v < 256.
Proof. unfold wrapU8. apply Z.mod_pos_bound. lia. Qed.

Lemma wrapU8_id (v : Z) : 0 <= v < 256 -> wrapU8 v = v.
Proof. intros Hv. unfold wrapU8. apply Z.mod_small. lia. Qed.

Lemma wrapU8_idemp (v : Z) : wrapU8 (wrapU8 v) = wrapU8 v.
Proof. apply wrapU8_id, wrapU8_range. Qed.

Lemma shiftr3 (v : Z) : Z.shiftr v 3 = v / 8.
Proof. rewrite Z.shiftr_div_pow2 by lia. reflexivity. Qed.

Lemma land7 (v : Z) : Z.land v 7 = v mod 8.
Proof. change 7 with (Z.ones 3). rewrite Z.land_ones by lia. reflexivity. Qed.

Lemma testbit_wrapU8 (v b : Z) :
  Z.testbit (wrapU8 v) b = (b <? 8) && Z.testbit v b.
Proof.
  unfold wrapU8. change 256 with (2 ^ 8).
  destruct (Z.ltb_spec b 0) as [Hneg | Hpos].
  - rewrite !Z.testbit_neg_r by lia. now rewrite andb_false_r.
  - rewrite Z.testbit_mod_pow2 by lia. reflexivity.
Qed.

Lemma testbit_shiftl (a n m : Z) :
  0 <= n -> Z.testbit (Z.shiftl a n) m = (n <=? m) && Z.testbit a (m - n).
Proof.
  intros Hn. destruct (Z.leb_spec n m) as [Hle | Hlt]; simpl.
  - apply Z.shiftl_spec. lia.
  - destruct (Z.ltb_spec m 0).
    + apply Z.testbit_neg_r. lia.
    + apply Z.shiftl_spec_low. lia.
Qed.

Lemma testbit_shiftr (a n m : Z) :
  0 <= m -> Z.testbit (Z.shiftr a n) m = Z.testbit a (m + n).
Proof. apply Z.shiftr_spec. Qed.

Lemma testbit_255 (b : Z) : Z.testbit 255 b = (0 <=? b) && (b <? 8).
Proof.
  change 255 with (Z.ones 8).
  destruct (Z.leb_spec 0 b) as [Hpos | Hneg]; simpl.
  - apply Z.testbit_ones_nonneg; lia.
  - apply Z.testbit_neg_r. lia.
Qed.

(** ** Loads and stores *)

Lemma load_inv (m : list Z) (i v : Z) :
  load m i = Some v ->
  0 <= i < Z.of_nat (length m) /\
  exists b, m !! Z.to_nat i = Some b /\ v = wrapU8 b.
Proof.
  unfold load. destruct (Z.leb_spec 0 i) as [Hi | Hi]; [| discriminate].
  destruct (m !! Z.to_nat i) as [b |] eqn:Hb; simpl; [| discriminate].
  intros [= <-]. apply lookup_lt_Some in Hb. split; [lia | eauto].
Qed.

Lemma load_in_range (m : list Z) (i : Z) :
  0 <= i < Z.of_nat (length m) -> exists b, load m i = Some (wrapU8 b) /\ m !! Z.to_nat i = Some b.
Proof.
  intros Hi. unfold load.
  destruct (Z.leb_spec 0 i); [| lia].
  destruct (lookup_lt_is_Some_2 m (Z.to_nat i)) as [b Hb]; [lia |].
  exists b. rewrite Hb. auto.
Qed.

Lemma load_out_of_range (m : list Z) (i : Z) :
  Z.of_nat (length m) <= i -> load m i = None.
Proof.
  intros Hi. unfold load. destruct (0 <=? i); [| reflexivity].
  rewrite lookup_ge_None_2 by lia. reflexivity.
Qed.

Lemma load_is_Some (m : list Z) (i : Z) :
  is_Some (load m i) -> 0 <= i < Z.of_nat (length m).
Proof.
  intros [v Hv]. unfold load in Hv.
  destruct (Z.leb_spec 0 i) as [Hi | Hi]; [| discriminate].
  destruct (m !! Z.to_nat i) as [b |] eqn:Hb; [| discriminate].
  apply lookup_lt_Some in Hb. lia.
Qed.

Lemma store_inv (m : list Z) (i v : Z) (m' : list Z) :
  store m i v = Some m' ->
  0 <= i < Z.of_nat (length m) /\ m' = <[Z.to_nat i := wrapU8 v]> m.
Proof.
  unfold store.
  destruct (Z.leb_spec 0 i), (Z.ltb_spec i (Z.of_nat (length m)));
    simpl; intros [= <-]; auto.
Qed.

Lemma store_in_range (m : list Z) (i v : Z) :
  0 <= i < Z.of_nat (length m) ->
  store m i v = Some (<[Z.to_nat i := wrapU8 v]> m).
Proof.
  intros Hi. unfold store.
  destruct (Z.leb_spec 0 i), (Z.ltb_spec i (Z.of_nat (length m)));
    simpl; auto; lia.
Qed.

Lemma store_length (m : list Z) (i v : Z) (m' : list Z) :
  store m i v = Some m' -> length m' = length m.
Proof. intros H. apply store_inv in H as [_ ->]. apply length_insert. Qed.

Lemma store_lookup_ne (m : list Z) (i v : Z) (m' : list Z) (j : nat) :
  store m i v = Some m' -> Z.of_nat j <> i -> m' !! j = m !! j.
Proof.
  intros H Hne. apply store_inv in H as [Hi ->].
  apply list_lookup_insert_ne. lia.
Qed.

Lemma store_lookup_eq (m : list Z) (i v : Z) (m' : list Z) :
  store m i v = Some m' -> m' !! Z.to_nat i = Some (wrapU8 v).
Proof.
  intros H. apply store_inv in H as [Hi ->].
  apply list_lookup_insert_eq. lia.
Qed.

Lemma load_lookup (m : list Z) (i v : Z) :
  0 <= i -> m !! Z.to_nat i = Some v -> load m i = Some (wrapU8 v).
Proof.
  intros Hi Hv. unfold load. destruct (Z.leb_spec 0 i); [| lia].
  now rewrite Hv.
Qed.

Lemma store_load_eq (m : list Z) (i v : Z) (m' : list Z) :
  store m i v = Some m' -> load m' i = Some (wrapU8 v).
Proof.
  intros H. apply store_inv in H as [Hi ->]. unfold load.
  destruct (Z.leb_spec 0 i); [| lia].
  rewrite list_lookup_insert_eq by lia. simpl. now rewrite wrapU8_idemp.
Qed.

Lemma store_load_ne (m : list Z) (i v : Z) (m' : list Z) (j : Z) :
  store m i v = Some m' -> j <> i -> load m' j = load m j.
Proof.
  intros H Hne. unfold load. destruct (Z.leb_spec 0 j); [| reflexivity].
  rewrite (store_lookup_ne m i v m'); auto.
  apply store_inv in H as [Hi _]. lia.
Qed.

Lemma load_ext (m m' : list Z) (i : Z) :
  m' !! Z.to_nat i = m !! Z.to_nat i -> load m' i = load m i.
Proof. intros H. unfold load. now rewrite H. Qed.

(** ** The splice loop of [writeBits] *)

Lemma writeBits_loop_spec (k : nat) (ptr : Z -> Z) :
  forall pi d stPtr upShift downShift curB d',
    writeBits_loop k ptr pi d stPtr upShift downShift curB = Some d' ->
    length d' = length d /\
    (forall j : nat,
        Z.of_nat j < stPtr \/ stPtr + Z.of_nat k <= Z.of_nat j ->
        d' !! j = d !! j) /\
    (forall t, 0 <= t < Z.of_nat k ->
        d' !! Z.to_nat (stPtr + t)
        = Some (wrapU8 (spliced ptr pi upShift downShift curB t))).
Proof.
  induction k as [| k IH]; intros pi d stPtr upShift downShift curB d' Hrun.
  - simpl in Hrun. injection Hrun as <-.
    split; [reflexivity |]. split; [reflexivity |]. intros t Ht. lia.
  - simpl in Hrun.
    destruct (store d stPtr _) as [d1 |] eqn:Hst; simpl in Hrun; [| discriminate].
    apply IH in Hrun as (Hlen & Hout & Hin).
    pose proof (store_length _ _ _ _ Hst) as Hlen1.
    pose proof (store_inv _ _ _ _ Hst) as [Hrange _].
    split; [congruence |]. split.
    + intros j Hj. rewrite Hout by lia.
      apply (store_lookup_ne _ _ _ _ _ Hst). lia.
    + intros t Ht. destruct (Z.eq_dec t 0) as [-> | Hne].
      * rewrite Z.add_0_r. rewrite Hout by lia.
        rewrite (store_lookup_eq _ _ _ _ Hst). unfold spliced.
        rewrite Z.add_0_r. reflexivity.
      * replace (stPtr + t) with (stPtr + 1 + (t - 1)) by lia.
        rewrite Hin by lia. unfold spliced.
        destruct (Z.eqb_spec t 0) as [| _]; [lia |].
        replace (pi + 1 + (t - 1)) with (pi + t) by lia.
        destruct (Z.eqb_spec (t - 1) 0) as [H1 | H1].
        -- replace (pi + t - 1) with pi by lia. reflexivity.
        -- replace (pi + 1 + (t - 1) - 1) with (pi + t - 1) by lia. reflexivity.
Qed.

Lemma writeBits_loop_total (k : nat) (ptr : Z -> Z) :
  forall pi d stPtr upShift downShift curB,
    0 <= stPtr -> stPtr + Z.of_nat k <= Z.of_nat (length d) ->
    is_Some (writeBits_loop k ptr pi d stPtr upShift downShift curB).
Proof.
  induction k as [| k IH]; intros pi d stPtr upShift downShift curB H0 Hk.
  - simpl. eauto.
  - simpl. rewrite store_in_range by lia. simpl.
    apply IH; [lia |]. rewrite length_insert. lia.
Qed.

(** ** Bits of the spliced bytes *)

Ltac split_cmp :=
  repeat match goal with
    | |- context [Z.ltb ?a ?b] => destruct (Z.ltb_spec a b)
    | |- context [Z.leb ?a ?b] => destruct (Z.leb_spec a b)
    | |- context [Z.eqb ?a ?b] => destruct (Z.eqb_spec a b)
    end.

Ltac bits :=
  repeat first
    [ rewrite Z.lor_spec | rewrite Z.land_spec | rewrite testbit_wrapU8
    | rewrite testbit_255
    | rewrite testbit_shiftl by lia | rewrite testbit_shiftr by lia ];
  split_cmp; simpl;
  rewrite ?andb_true_r, ?andb_false_r, ?orb_false_r, ?orb_true_r, ?orb_false_l;
  try reflexivity; try lia.

Lemma first_byte_bit (p0 old upShift b : Z) :
  0 <= upShift < 8 -> 0 <= b < 8 ->
  Z.testbit (Z.lor (Z.shiftl (wrapU8 p0) upShift)
                   (Z.land old (wrapU8 (Z.shiftr 255 (8 - upShift))))) b
  = if b <? upShift then Z.testbit old b else Z.testbit (wrapU8 p0) (b - upShift).
Proof. intros Hu Hb. bits. Qed.

Lemma spliced_bit (p q upShift b : Z) :
  0 <= upShift < 8 -> 0 <= b < 8 ->
  Z.testbit (Z.lor (Z.shiftr (wrapU8 p) (8 - upShift))
                   (Z.shiftl (wrapU8 q) upShift)) b
  = if b <? upShift then Z.testbit (wrapU8 p) (b + 8 - upShift)
    else Z.testbit (wrapU8 q) (b - upShift).
Proof.
  intros Hu Hb. bits.
  replace (b + (8 - upShift)) with (b + 8 - upShift) by lia. reflexivity.
Qed.

Lemma lastMask_bit (e b : Z) :
  0 <= e < 8 -> 0 <= b ->
  Z.testbit (wrapU8 (Z.shiftr 255 (7 - e))) b = (b <=? e).
Proof. intros He Hb. bits. Qed.

(** ** [writeBits]: what a successful call leaves in the buffer *)

Lemma div8_facts (v : Z) : v = 8 * (v / 8) + v mod 8 /\ 0 <= v mod 8 < 8.
Proof. split; [apply Z.div_mod; lia | apply Z.mod_pos_bound; lia]. Qed.

Lemma div8_eq (t b : Z) : 0 <= b < 8 -> (8 * t + b) / 8 = t.
Proof. intros Hb. symmetry. apply Z.div_unique with b; lia. Qed.

Lemma mod8_eq (t b : Z) : 0 <= b < 8 -> (8 * t + b) mod 8 = b.
Proof. intros Hb. symmetry. apply Z.mod_unique with t; lia. Qed.

Lemma bitAt_lookup (m : list Z) (t b v : Z) :
  0 <= t -> 0 <= b < 8 -> m !! Z.to_nat t = Some v ->
  bitAt m (8 * t + b) = Z.testbit v b.
Proof.
  intros Ht Hb Hv. unfold bitAt.
  rewrite div8_eq, mod8_eq by lia.
  unfold load. destruct (Z.leb_spec 0 t); [| lia].
  rewrite Hv. simpl. rewrite testbit_wrapU8.
  destruct (Z.ltb_spec b 8); [reflexivity | lia].
Qed.

Lemma bitAt_byte (m : list Z) (i v : Z) :
  0 <= i / 8 -> m !! Z.to_nat (i / 8) = Some v ->
  bitAt m i = Z.testbit v (i mod 8).
Proof.
  intros Hi Hv. destruct (div8_facts i) as [Hidiv Himod].
  unfold bitAt. rewrite (load_lookup _ _ _ Hi Hv). simpl.
  rewrite testbit_wrapU8.
  destruct (Z.ltb_spec (i mod 8) 8); [reflexivity | lia].
Qed.

Lemma srcBit_at (ptr : Z -> Z) (t b : Z) :
  0 <= b < 8 -> srcBit ptr (8 * t + b) = Z.testbit (wrapU8 (ptr t)) b.
Proof.
  intros Hb. unfold srcBit.
  rewrite div8_eq, mod8_eq by lia.
  reflexivity.
Qed.

Lemma writeBits_run (n : Z) (ptr : Z -> Z) (s s' : BitStream) :
  0 <= bitNum s -> 0 < n -> bitNum s + n < 2 ^ 31 ->
  bitNum s + n <= maxWriteBitNum s ->
  writeBits n ptr s = Some s' ->
  s' = set_bitNum (bitNum s + n) (set_dataPtr (dataPtr s') s) /\
  length (dataPtr s') = length (dataPtr s) /\
  (bitNum s + n - 1) / 8 < Z.of_nat (length (dataPtr s)) /\
  (forall j : nat,
      Z.of_nat j < bitNum s / 8 \/ (bitNum s + n - 1) / 8 < Z.of_nat j ->
      dataPtr s' !! j = dataPtr s !! j) /\
  (forall t, bitNum s / 8 <= t <= (bitNum s + n - 1) / 8 ->
      exists v, dataPtr s' !! Z.to_nat t = Some v /\ 0 <= v < 256 /\
        forall b, 0 <= b < 8 ->
          Z.testbit v b
          = if 8 * t + b <? bitNum s then bitAt (dataPtr s) (8 * t + b)
            else if 8 * t + b <? bitNum s + n then srcBit ptr (8 * t + b - bitNum s)
            else false).
Proof.
  intros Hc Hn Hov Hmax. unfold writeBits.
  destruct (Z.eqb_spec n 0) as [| _]; [lia |].
  replace (n + bitNum s) with (bitNum s + n) by lia.
  rewrite !(wrapS32_id (bitNum s + n)) by lia.
  rewrite !(wrapS32_id (bitNum s + n - 1)) by lia.
  destruct (Z.gtb_spec (bitNum s + n) (maxWriteBitNum s)) as [| _]; [lia |].
  rewrite !shiftr3, !land7.
  set (c := bitNum s) in *.
  destruct (div8_facts c) as [Hcdiv Hcmod].
  destruct (div8_facts (c + n - 1)) as [Hediv Hemod].
  set (st := c / 8) in *. set (up := c mod 8) in *.
  set (en := (c + n - 1) / 8) in *. set (e := (c + n - 1) mod 8) in *.
  destruct (load (dataPtr s) st) as [old |] eqn:Hold; simpl; [| discriminate].
  destruct (store (dataPtr s) st _) as [d1 |] eqn:Hd1; simpl; [| discriminate].
  destruct (writeBits_loop _ _ _ _ _ _ _ _) as [d2 |] eqn:Hd2; simpl; [| discriminate].
  destruct (load d2 en) as [last |] eqn:Hlast; simpl; [| discriminate].
  destruct (store d2 en _) as [d3 |] eqn:Hd3; simpl; [| discriminate].
  intros [= <-]. simpl.
  apply writeBits_loop_spec in Hd2 as (Hlen2 & Hout2 & Hin2).
  pose proof (store_length _ _ _ _ Hd1) as Hlen1.
  pose proof (store_length _ _ _ _ Hd3) as Hlen3.
  pose proof (store_inv _ _ _ _ Hd3) as [Hen _].
  assert (Hsten : st <= en) by lia.
  rewrite Z2Nat.id in Hout2, Hin2 by lia.
  split; [reflexivity |]. split; [congruence |].
  split; [rewrite <- Hlen1, <- Hlen2; lia |]. split.
  - intros j Hj.
    rewrite (store_lookup_ne _ _ _ _ j Hd3) by lia.
    rewrite Hout2 by lia.
    apply (store_lookup_ne _ _ _ _ j Hd1). lia.
  - intros t Ht.
    (* the byte of [d2] at [t], before the tail mask *)
    assert (Hpre : exists w, d2 !! Z.to_nat t = Some (wrapU8 w) /\
              forall b, 0 <= b < 8 ->
                Z.testbit w b
                = if 8 * t + b <? c then bitAt (dataPtr s) (8 * t + b)
                  else srcBit ptr (8 * t + b - c)).
    { destruct (Z.eq_dec t st) as [-> | Hne].
      - eexists. split.
        + rewrite Hout2 by lia. apply (store_lookup_eq _ _ _ _ Hd1).
        + intros b Hb. rewrite first_byte_bit by lia.
          apply load_inv in Hold as (_ & o & Ho & ->).
          destruct (Z.ltb_spec b up), (Z.ltb_spec (8 * st + b) c); try lia.
          * rewrite (bitAt_lookup _ _ _ o) by (auto; lia).
            rewrite testbit_wrapU8.
            destruct (Z.ltb_spec b 8); [reflexivity | lia].
          * replace (8 * st + b - c) with (8 * 0 + (b - up)) by lia.
            rewrite srcBit_at by lia. reflexivity.
      - eexists. split.
        + replace t with (st + 1 + (t - st - 1)) at 1 by lia.
          apply Hin2. lia.
        + intros b Hb. unfold spliced.
          replace (if t - st - 1 =? 0 then wrapU8 (ptr 0)
                   else wrapU8 (ptr (1 + (t - st - 1) - 1)))
            with (wrapU8 (ptr (t - st - 1)))
            by (destruct (Z.eqb_spec (t - st - 1) 0) as [-> | _];
                [reflexivity | f_equal; f_equal; lia]).
          rewrite spliced_bit by lia.
          destruct (Z.ltb_spec (8 * t + b) c); [lia |].
          destruct (Z.ltb_spec b up).
          * replace (8 * t + b - c) with (8 * (t - st - 1) + (b + 8 - up)) by lia.
            rewrite srcBit_at by lia. reflexivity.
          * replace (8 * t + b - c) with (8 * (1 + (t - st - 1)) + (b - up)) by lia.
            rewrite srcBit_at by lia. reflexivity. }
    destruct Hpre as (w & Hw & Hbits).
    destruct (Z.eq_dec t en) as [-> | Hne].
    + apply store_inv in Hd3 as [_ ->].
      rewrite list_lookup_insert_eq by lia.
      eexists. split; [reflexivity |]. split; [apply wrapU8_range |].
      intros b Hb. rewrite (load_lookup _ _ _ (proj1 Hen) Hw) in Hlast.
      injection Hlast as <-.
      rewrite testbit_wrapU8, Z.land_spec, lastMask_bit, !testbit_wrapU8 by lia.
      rewrite Hbits by lia.
      destruct (Z.ltb_spec b 8); [| lia]. simpl.
      destruct (Z.leb_spec b e), (Z.ltb_spec (8 * en + b) c),
        (Z.ltb_spec (8 * en + b) (c + n));
        rewrite ?andb_true_r, ?andb_false_r; try reflexivity; lia.
    + rewrite (store_lookup_ne _ _ _ _ _ Hd3) by lia.
      exists (wrapU8 w). split; [exact Hw |]. split; [apply wrapU8_range |].
      intros b Hb. rewrite testbit_wrapU8, Hbits by lia.
      destruct (Z.ltb_spec b 8); [| lia]. simpl.
      destruct (Z.ltb_spec (8 * t + b) c); [reflexivity |].
      destruct (Z.ltb_spec (8 * t + b) (c + n)); [reflexivity | lia].
Qed.

Lemma writeBits_total (n : Z) (ptr : Z -> Z) (s : BitStream) :
  0 <= bitNum s -> 0 < n -> bitNum s + n < 2 ^ 31 ->
  bitNum s + n <= maxWriteBitNum s ->
  (bitNum s + n - 1) / 8 < Z.of_nat (length (dataPtr s)) ->
  is_Some (writeBits n ptr s).
Proof.
  intros Hc Hn Hov Hmax Hlen. unfold writeBits.
  destruct (Z.eqb_spec n 0) as [| _]; [lia |].
  replace (n + bitNum s) with (bitNum s + n) by lia.
  rewrite !(wrapS32_id (bitNum s + n)) by lia.
  rewrite !(wrapS32_id (bitNum s + n - 1)) by lia.
  destruct (Z.gtb_spec (bitNum s + n) (maxWriteBitNum s)) as [| _]; [lia |].
  rewrite !shiftr3, !land7.
  set (c := bitNum s) in *.
  destruct (div8_facts c) as [Hcdiv Hcmod].
  destruct (div8_facts (c + n - 1)) as [Hediv Hemod].
  set (st := c / 8) in *. set (en := (c + n - 1) / 8) in *.
  assert (Hst : 0 <= st <= en) by lia.
  destruct (load_in_range (dataPtr s) st) as (o & -> & _); [lia |]. simpl.
  rewrite store_in_range by lia. simpl.
  match goal with
  | |- context [writeBits_loop ?k ?p ?pi ?d ?si ?u ?dn ?cb] =>
      destruct (writeBits_loop_total k p pi d si u dn cb) as [d2 Hd2];
      [lia | rewrite length_insert; lia |];
      pose proof (writeBits_loop_spec _ _ _ _ _ _ _ _ _ Hd2) as (Hlen2 & _ & _);
      rewrite Hd2
  end. simpl.
  rewrite length_insert in Hlen2.
  destruct (load_in_range d2 en) as (l & -> & _); [lia |]. simpl.
  rewrite store_in_range by lia. simpl. eauto.
Qed.

(** Every bit of the buffer after a successful [writeBits]. *)
Lemma writeBits_bitAt (n : Z) (ptr : Z -> Z) (s s' : BitStream) (i : Z) :
  0 <= bitNum s -> 0 < n -> bitNum s + n < 2 ^ 31 ->
  bitNum s + n <= maxWriteBitNum s ->
  writeBits n ptr s = Some s' ->
  bitAt (dataPtr s') i
  = if (i <? bitNum s) || (8 * ((bitNum s + n - 1) / 8 + 1) <=? i)
    then bitAt (dataPtr s) i
    else if i <? bitNum s + n then srcBit ptr (i - bitNum s) else false.
Proof.
  intros Hc Hn Hov Hmax Hrun.
  destruct (writeBits_run _ _ _ _ Hc Hn Hov Hmax Hrun)
    as (_ & Hlen & Hin & Hout & Hbytes).
  destruct (div8_facts (bitNum s)) as [Hcdiv Hcmod].
  destruct (div8_facts (bitNum s + n - 1)) as [Hediv Hemod].
  destruct (div8_facts i) as [Hidiv Himod].
  destruct (Z_lt_le_dec (i / 8) (bitNum s / 8)) as [Hlo | Hlo];
    [| destruct (Z_lt_le_dec ((bitNum s + n - 1) / 8) (i / 8)) as [Hhi | Hhi]].
  - replace ((i <? bitNum s) || _) with true
      by (destruct (Z.ltb_spec i (bitNum s)); [reflexivity | lia]).
    unfold bitAt, load. destruct (Z.leb_spec 0 (i / 8)); [| reflexivity].
    rewrite Hout by lia. reflexivity.
  - replace ((i <? bitNum s) || _) with true
      by (destruct (Z.ltb_spec i (bitNum s)); [reflexivity |];
          destruct (Z.leb_spec (8 * ((bitNum s + n - 1) / 8 + 1)) i);
          [reflexivity | lia]).
    unfold bitAt, load. destruct (Z.leb_spec 0 (i / 8)); [| reflexivity].
    rewrite Hout by lia. reflexivity.
  - destruct (Hbytes (i / 8) ltac:(lia)) as (v & Hv & _ & Hbits).
    rewrite Hidiv at 1.
    rewrite (bitAt_lookup _ _ _ v) by (auto; lia).
    rewrite Hbits by lia. rewrite <- Hidiv.
    destruct (Z.ltb_spec i (bitNum s)); simpl; [reflexivity |].
    destruct (Z.leb_spec (8 * ((bitNum s + n - 1) / 8 + 1)) i); [lia |].
    reflexivity.
Qed.

(** ** [writeFlag] *)

Lemma testbit_1 (k : Z) : Z.testbit 1 k = (k =? 0).
Proof.
  change 1 with (Z.ones 1) at 1.
  destruct (Z.eqb_spec k 0) as [-> | Hk]; [reflexivity |].
  destruct (Z_lt_le_dec k 0).
  - apply Z.testbit_neg_r. lia.
  - apply Z.ones_spec_high. lia.
Qed.

Lemma writeFlag_run (val : bool) (s : BitStream) (r : bool) (s' : BitStream) :
  0 <= bitNum s -> bitNum s + 1 < 2 ^ 31 ->
  bitNum s + 1 <= maxWriteBitNum s ->
  writeFlag val s = Some (r, s') ->
  r = val /\
  s' = set_bitNum (bitNum s + 1) (set_dataPtr (dataPtr s') s) /\
  length (dataPtr s') = length (dataPtr s) /\
  bitNum s / 8 < Z.of_nat (length (dataPtr s)) /\
  (forall j : nat, Z.of_nat j <> bitNum s / 8 ->
      dataPtr s' !! j = dataPtr s !! j) /\
  (forall i, bitAt (dataPtr s') i
             = if i =? bitNum s then val else bitAt (dataPtr s) i).
Proof.
  intros Hc Hov Hmax. unfold writeFlag.
  rewrite wrapS32_id by lia.
  destruct (Z.gtb_spec (bitNum s + 1) (maxWriteBitNum s)) as [| _]; [lia |].
  rewrite !shiftr3, !land7.
  set (c := bitNum s) in *.
  destruct (div8_facts c) as [Hcdiv Hcmod].
  destruct (load (dataPtr s) (c / 8)) as [old |] eqn:Hold; simpl; [| discriminate].
  destruct (store (dataPtr s) (c / 8) _) as [d |] eqn:Hd; simpl; [| discriminate].
  intros [= <- <-]. simpl.
  pose proof (store_inv _ _ _ _ Hd) as [Hr _].
  split; [reflexivity |]. split; [reflexivity |].
  split; [apply (store_length _ _ _ _ Hd) |]. split; [lia |]. split.
  - intros j Hj. apply (store_lookup_ne _ _ _ _ _ Hd). lia.
  - intros i. destruct (div8_facts i) as [Hidiv Himod].
    destruct (Z.eq_dec (i / 8) (c / 8)) as [Heq | Hne].
    + apply load_inv in Hold as (_ & o & Ho & ->).
      rewrite (bitAt_byte (dataPtr s) i o) by (rewrite ?Heq; auto; lia).
      rewrite (bitAt_byte d i _ ltac:(lia)
                 ltac:(rewrite Heq; apply (store_lookup_eq _ _ _ _ Hd))).
      rewrite testbit_wrapU8.
      destruct (Z.ltb_spec (i mod 8) 8); [| lia]. simpl.
      destruct val.
      * rewrite Z.lor_spec, testbit_wrapU8, testbit_shiftl, testbit_1 by lia.
        destruct (Z.ltb_spec (i mod 8) 8); [| lia].
        destruct (Z.eqb_spec i c),
          (Z.leb_spec (c mod 8) (i mod 8)),
          (Z.eqb_spec (i mod 8 - c mod 8) 0); simpl;
          rewrite ?orb_true_r, ?orb_false_r; try reflexivity; lia.
      * rewrite Z.land_spec, testbit_wrapU8, Z.lnot_spec,
          testbit_shiftl, testbit_1 by lia.
        destruct (Z.ltb_spec (i mod 8) 8); [| lia].
        destruct (Z.eqb_spec i c),
          (Z.leb_spec (c mod 8) (i mod 8)),
          (Z.eqb_spec (i mod 8 - c mod 8) 0); simpl;
          rewrite ?andb_true_r, ?andb_false_r; try reflexivity; lia.
    + destruct (Z.eqb_spec i c) as [-> | _]; [congruence |].
      unfold bitAt. rewrite (store_load_ne _ _ _ _ _ Hd) by exact Hne.
      reflexivity.
Qed.

Lemma writeFlag_total (val : bool) (s : BitStream) :
  0 <= bitNum s -> bitNum s + 1 < 2 ^ 31 ->
  bitNum s + 1 <= maxWriteBitNum s ->
  bitNum s / 8 < Z.of_nat (length (dataPtr s)) ->
  is_Some (writeFlag val s).
Proof.
  intros Hc Hov Hmax Hlen. unfold writeFlag.
  rewrite wrapS32_id by lia.
  destruct (Z.gtb_spec (bitNum s + 1) (maxWriteBitNum s)) as [| _]; [lia |].
  rewrite !shiftr3.
  destruct (div8_facts (bitNum s)) as [Hcdiv Hcmod].
  destruct (load_in_range (dataPtr s) (bitNum s / 8)) as (o & -> & _); [lia |].
  simpl. rewrite store_in_range by lia. simpl. eauto.
Qed.

(** ** [readBits] *)

Lemma gathered_bit (p q downShift b : Z) :
  0 <= downShift < 8 -> 0 <= b < 8 ->
  Z.testbit (Z.lor (Z.shiftr (wrapU8 p) downShift)
                   (Z.shiftl (wrapU8 q) (8 - downShift))) b
  = if b + downShift <? 8 then Z.testbit p (b + downShift)
    else Z.testbit q (b + downShift - 8).
Proof.
  intros Hd Hb. bits.
  replace (b - (8 - downShift)) with (b + downShift - 8) by lia. reflexivity.
Qed.

Lemma readBits_loop_spec (k : nat) (d : list Z) :
  forall stPtr dst ptr downShift upShift curB dst',
    readBits_loop k d stPtr dst ptr downShift upShift curB = Some dst' ->
    load d stPtr = Some curB ->
    length dst' = length dst /\
    (k <> O -> 0 <= ptr /\ ptr + Z.of_nat k <= Z.of_nat (length dst) /\
               stPtr + Z.of_nat k < Z.of_nat (length d)) /\
    (forall j : nat,
        Z.of_nat j < ptr \/ ptr + Z.of_nat k <= Z.of_nat j ->
        dst' !! j = dst !! j) /\
    (forall t, 0 <= t < Z.of_nat k ->
        exists p q,
          load d (stPtr + t) = Some p /\ load d (stPtr + t + 1) = Some q /\
          dst' !! Z.to_nat (ptr + t)
          = Some (wrapU8 (Z.lor (Z.shiftr p downShift) (Z.shiftl q upShift)))).
Proof.
  induction k as [| k IH];
    intros stPtr dst ptr downShift upShift curB dst' Hrun Hcur.
  - simpl in Hrun. injection Hrun as <-.
    split; [reflexivity |]. split; [congruence |].
    split; [reflexivity |]. intros t Ht. lia.
  - simpl in Hrun.
    destruct (load d (stPtr + 1)) as [nextB |] eqn:Hnext; simpl in Hrun;
      [| discriminate].
    destruct (store dst ptr _) as [dst1 |] eqn:Hst; simpl in Hrun;
      [| discriminate].
    apply IH in Hrun as (Hlen & Hrange & Hout & Hin); [| exact Hnext].
    pose proof (store_length _ _ _ _ Hst) as Hlen1.
    pose proof (store_inv _ _ _ _ Hst) as [Hr _].
    pose proof (load_inv _ _ _ Hnext) as [Hn _].
    split; [congruence |]. split.
    + intros _. destruct k as [| k']; [lia |].
      specialize (Hrange ltac:(discriminate)). lia.
    + split.
      * intros j Hj. rewrite Hout by lia.
        apply (store_lookup_ne _ _ _ _ _ Hst). lia.
      * intros t Ht. destruct (Z.eq_dec t 0) as [-> | Hne].
        -- exists curB, nextB. rewrite !Z.add_0_r.
           split; [exact Hcur |]. split; [exact Hnext |].
           rewrite Hout by lia. apply (store_lookup_eq _ _ _ _ Hst).
        -- destruct (Hin (t - 1) ltac:(lia)) as (p & q & Hp & Hq & Hv).
           exists p, q.
           replace (stPtr + 1 + (t - 1)) with (stPtr + t) in Hp, Hq by lia.
           replace (ptr + 1 + (t - 1)) with (ptr + t) in Hv by lia.
           auto.
Qed.

Lemma readBits_loop_total (k : nat) (d : list Z) :
  forall stPtr dst ptr downShift upShift curB,
    0 <= ptr -> ptr + Z.of_nat k <= Z.of_nat (length dst) ->
    0 <= stPtr -> stPtr + Z.of_nat k < Z.of_nat (length d) ->
    is_Some (readBits_loop k d stPtr dst ptr downShift upShift curB).
Proof.
  induction k as [| k IH];
    intros stPtr dst ptr downShift upShift curB Hp Hpk Hs Hsk.
  - simpl. eauto.
  - simpl.
    destruct (load_in_range d (stPtr + 1)) as (o & -> & _); [lia |]. simpl.
    rewrite store_in_range by lia. simpl.
    apply IH; try lia. rewrite length_insert. lia.
Qed.

Lemma readBits_run (n : Z) (dst : list Z) (s : BitStream)
    (dst' : list Z) (s' : BitStream) :
  0 <= bitNum s -> 0 < n -> bitNum s + n < 2 ^ 31 -> n + 7 < 2 ^ 31 ->
  bitNum s + n <= maxReadBitNum s ->
  readBits n dst s = Some (dst', s') ->
  s' = set_bitNum (bitNum s + n) s /\
  length dst' = length dst /\
  (n + 7) / 8 <= Z.of_nat (length dst) /\
  bitNum s / 8 + (n + 7) / 8 < Z.of_nat (length (dataPtr s)) /\
  (forall j : nat, (n + 7) / 8 <= Z.of_nat j -> dst' !! j = dst !! j) /\
  (forall t, 0 <= t < (n + 7) / 8 ->
      exists v, dst' !! Z.to_nat t = Some v /\ 0 <= v < 256 /\
        forall b, 0 <= b < 8 ->
          Z.testbit v b = bitAt (dataPtr s) (bitNum s + 8 * t + b)).
Proof.
  intros Hc Hn Hov Hov7 Hmax. unfold readBits.
  destruct (Z.eqb_spec n 0) as [| _]; [lia |].
  replace (n + bitNum s) with (bitNum s + n) by lia.
  rewrite !(wrapS32_id (bitNum s + n)), (wrapS32_id (n + 7)) by lia.
  destruct (Z.gtb_spec (bitNum s + n) (maxReadBitNum s)) as [| _]; [lia |].
  rewrite !shiftr3, !land7.
  set (c := bitNum s) in *.
  destruct (div8_facts c) as [Hcdiv Hcmod].
  destruct (div8_facts (n + 7)) as [Hndiv Hnmod].
  set (st := c / 8) in *. set (down := c mod 8) in *.
  set (bc := (n + 7) / 8) in *.
  destruct (Z.ltb_spec bc 0) as [| _]; [lia |].
  destruct (load (dataPtr s) st) as [cur |] eqn:Hcur; simpl; [| discriminate].
  destruct (readBits_loop _ _ _ _ _ _ _ _) as [d2 |] eqn:Hd2; simpl;
    [| discriminate].
  intros [= <- <-].
  apply readBits_loop_spec in Hd2 as (Hlen & Hrange & Hout & Hin);
    [| exact Hcur].
  rewrite Z2Nat.id in Hrange, Hout, Hin by lia.
  specialize (Hrange ltac:(lia)).
  split; [reflexivity |]. split; [exact Hlen |].
  split; [lia |]. split; [lia |]. split.
  - intros j Hj. apply Hout. lia.
  - intros t Ht. destruct (Hin t Ht) as (p & q & Hp & Hq & Hv).
    rewrite Z.add_0_l in Hv.
    eexists. split; [exact Hv |]. split; [apply wrapU8_range |].
    intros b Hb. rewrite testbit_wrapU8.
    destruct (Z.ltb_spec b 8); [| lia]. simpl.
    apply load_inv in Hp as (Hpr & p0 & Hp0 & ->).
    apply load_inv in Hq as (Hqr & q0 & Hq0 & ->).
    rewrite gathered_bit by lia.
    destruct (Z.ltb_spec (b + down) 8).
    + replace (c + 8 * t + b) with (8 * (st + t) + (b + down)) by lia.
      rewrite (bitAt_lookup _ _ _ p0) by (auto; lia). reflexivity.
    + replace (c + 8 * t + b) with (8 * (st + t + 1) + (b + down - 8)) by lia.
      rewrite (bitAt_lookup _ _ _ q0) by (auto; lia). reflexivity.
Qed.

Lemma readBits_total (n : Z) (dst : list Z) (s : BitStream) :
  0 <= bitNum s -> 0 < n -> bitNum s + n < 2 ^ 31 -> n + 7 < 2 ^ 31 ->
  bitNum s + n <= maxReadBitNum s ->
  (n + 7) / 8 <= Z.of_nat (length dst) ->
  bitNum s / 8 + (n + 7) / 8 < Z.of_nat (length (dataPtr s)) ->
  is_Some (readBits n dst s).
Proof.
  intros Hc Hn Hov Hov7 Hmax Hdst Hlen. unfold readBits.
  destruct (Z.eqb_spec n 0) as [| _]; [lia |].
  replace (n + bitNum s) with (bitNum s + n) by lia.
  rewrite !(wrapS32_id (bitNum s + n)), (wrapS32_id (n + 7)) by lia.
  destruct (Z.gtb_spec (bitNum s + n) (maxReadBitNum s)) as [| _]; [lia |].
  rewrite !shiftr3, !land7.
  destruct (div8_facts (bitNum s)) as [Hcdiv Hcmod].
  destruct (div8_facts (n + 7)) as [Hndiv Hnmod].
  destruct (Z.ltb_spec ((n + 7) / 8) 0) as [| _]; [lia |].
  destruct (load_in_range (dataPtr s) (bitNum s / 8)) as (o & -> & _); [lia |].
  simpl.
  match goal with
  | |- context [readBits_loop ?k ?d ?si ?ds ?p ?dn ?u ?cb] =>
      destruct (readBits_loop_total k d si ds p dn u cb) as [d2 ->]; try lia
  end.
  simpl. eauto.
Qed.

(** ** [readFlag] *)

Lemma readFlag_run (s : BitStream) (r : bool) (s' : BitStream) :
  0 <= bitNum s -> bitNum s + 1 < 2 ^ 31 ->
  bitNum s + 1 <= maxReadBitNum s ->
  readFlag s = Some (r, s') ->
  r = bitAt (dataPtr s) (bitNum s) /\ s' = set_bitNum (bitNum s + 1) s.
Proof.
  intros Hc Hov Hmax. unfold readFlag.
  rewrite wrapS32_id by lia.
  destruct (Z.gtb_spec (bitNum s + 1) (maxReadBitNum s)) as [| _]; [lia |].
  rewrite !shiftr3, !land7. unfold bitAt.
  destruct (div8_facts (bitNum s)) as [Hcdiv Hcmod].
  destruct (load (dataPtr s) (bitNum s / 8)) as [b |] eqn:Hb; simpl;
    [| discriminate].
  intros [= <- <-]. split; [| reflexivity].
  destruct (Z.testbit b (bitNum s mod 8)) eqn:Hbit.
  - destruct (Z.eqb_spec (Z.land b (Z.shiftl 1 (bitNum s mod 8))) 0) as [E | _];
      [| reflexivity].
    apply (f_equal (fun v => Z.testbit v (bitNum s mod 8))) in E.
    rewrite Z.land_spec, testbit_shiftl, testbit_1, Hbit, Z.testbit_0_l in E by lia.
    destruct (Z.leb_spec (bitNum s mod 8) (bitNum s mod 8)); [| lia].
    rewrite Z.sub_diag in E. discriminate.
  - destruct (Z.eqb_spec (Z.land b (Z.shiftl 1 (bitNum s mod 8))) 0) as [_ | N];
      [reflexivity |].
    exfalso. apply N. apply Z.bits_inj'. intros k Hk.
    rewrite Z.land_spec, testbit_shiftl, testbit_1, Z.testbit_0_l by lia.
    destruct (Z.leb_spec (bitNum s mod 8) k); simpl;
      [| now rewrite andb_false_r].
    destruct (Z.eqb_spec (k - bitNum s mod 8) 0) as [E | _];
      [| now rewrite andb_false_r].
    replace k with (bitNum s mod 8) by lia. now rewrite Hbit.
Qed.

Lemma readFlag_total (s : BitStream) :
  0 <= bitNum s -> bitNum s / 8 < Z.of_nat (length (dataPtr s)) ->
  is_Some (readFlag s).
Proof.
  intros Hc Hlen. unfold readFlag.
  destruct (_ >? _); [eauto |].
  rewrite shiftr3. destruct (div8_facts (bitNum s)) as [Hcdiv Hcmod].
  destruct (load_in_range (dataPtr s) (bitNum s / 8)) as (o & -> & _); [lia |].
  simpl. eauto.
Qed.

(** ** 32-bit objects and their byte images *)

Lemma testbit_add_byte (a x j : Z) :
  0 <= a < 256 -> 0 <= j ->
  Z.testbit (a + 256 * x) j
  = if j <? 8 then Z.testbit a j else Z.testbit x (j - 8).
Proof.
  intros Ha Hj. destruct (Z.ltb_spec j 8).
  - rewrite <- (Z.mod_pow2_bits_low (a + 256 * x) 8 j) by lia.
    change (2 ^ 8) with 256.
    replace ((a + 256 * x) mod 256) with a; [reflexivity |].
    apply Z.mod_unique with x; lia.
  - replace j with (j - 8 + 8) at 1 by lia.
    rewrite <- Z.div_pow2_bits by lia. change (2 ^ 8) with 256.
    replace ((a + 256 * x) / 256) with x; [reflexivity |].
    apply Z.div_unique with a; lia.
Qed.

Lemma testbit_leU32 (m : list Z) :
  forall j, 0 <= j ->
    Z.testbit (leU32 m) j
    = from_option (fun v => Z.testbit (wrapU8 v) (j mod 8)) false
        (m !! Z.to_nat (j / 8)).
Proof.
  induction m as [| b m IH]; intros j Hj.
  - simpl. apply Z.testbit_0_l.
  - destruct (div8_facts j) as [Hjd Hjm].
    change (leU32 (b :: m)) with (wrapU8 b + 256 * leU32 m).
    rewrite testbit_add_byte by (auto using wrapU8_range).
    destruct (Z.ltb_spec j 8).
    + replace (j / 8) with 0 by lia. simpl.
      replace (j mod 8) with j by lia. reflexivity.
    + rewrite IH by lia.
      replace ((j - 8) mod 8) with (j mod 8)
        by (apply Z.mod_unique with (j / 8 - 1); lia).
      replace ((j - 8) / 8) with (j / 8 - 1)
        by (apply Z.div_unique with (j mod 8); lia).
      replace (Z.to_nat (j / 8)) with (S (Z.to_nat (j / 8 - 1))) by lia.
      reflexivity.
Qed.

Lemma testbit_wrapS32 (v j : Z) :
  0 <= j < 32 -> Z.testbit (wrapS32 v) j = Z.testbit v j.
Proof.
  intros Hj.
  rewrite <- (Z.mod_pow2_bits_low (wrapS32 v) 32 j) by lia.
  rewrite <- (Z.mod_pow2_bits_low v 32 j) by lia.
  f_equal. unfold wrapS32.
  rewrite Zminus_mod_idemp_l. f_equal. lia.
Qed.

Lemma wrapS32_range (v : Z) : - 2 ^ 31 <= wrapS32 v < 2 ^ 31.
Proof.
  unfold wrapS32.
  pose proof (Z.mod_pos_bound (v + 2 ^ 31) (2 ^ 32) ltac:(lia)). lia.
Qed.

(** [(1 << bitCount) - 1] in [S32] arithmetic. *)
Lemma mask_ones (n : Z) :
  0 <= n < 32 -> wrapS32 (wrapS32 (Z.shiftl 1 n) - 1) = Z.ones n.
Proof.
  intros Hn. rewrite Z.shiftl_1_l, Z.ones_equiv.
  destruct (Z.eq_dec n 31) as [-> | Hne]; [reflexivity |].
  assert (0 < 2 ^ n <= 2 ^ 30).
  { split; [apply Z.pow_pos_nonneg; lia | apply Z.pow_le_mono_r; lia]. }
  rewrite (wrapS32_id (2 ^ n)) by lia. rewrite wrapS32_id by lia. lia.
Qed.

Section CodecProps.

Variable adjacent : Z -> Z.

Lemma srcBit_mem32 (v j : Z) :
  0 <= j < 32 -> srcBit (mem32 adjacent v) j = Z.testbit v j.
Proof.
  intros Hj. destruct (div8_facts j) as [Hjd Hjm].
  unfold srcBit, mem32, byteOf.
  destruct (Z.leb_spec 0 (j / 8)), (Z.ltb_spec (j / 8) 4); try lia. simpl.
  rewrite wrapU8_idemp, testbit_wrapU8, testbit_shiftr by lia.
  destruct (Z.ltb_spec (j mod 8) 8); [| lia]. simpl.
  f_equal. lia.
Qed.

(** ** [readInt] *)

Lemma readInt_run (n : Z) (s : BitStream) (r : Z) (s' : BitStream) :
  0 <= bitNum s -> 0 < n <= 32 -> bitNum s + n < 2 ^ 31 ->
  bitNum s + n <= maxReadBitNum s ->
  readInt n s = Some (r, s') ->
  s' = set_bitNum (bitNum s + n) s /\
  (forall j, 0 <= j < n -> Z.testbit r j = bitAt (dataPtr s) (bitNum s + j)) /\
  (n < 32 -> 0 <= r < 2 ^ n) /\
  - 2 ^ 31 <= r < 2 ^ 31.
Proof.
  intros Hc Hn Hov Hmax. unfold readInt.
  destruct (readBits n (obj32 0) s) as [[m s1] |] eqn:Hrd; simpl;
    [| discriminate].
  apply readBits_run in Hrd as (-> & Hlen & _ & _ & _ & Hbytes); try lia.
  assert (Hbits : forall j, 0 <= j < n ->
            Z.testbit (wrapS32 (leU32 m)) j = bitAt (dataPtr s) (bitNum s + j)).
  { intros j Hj. destruct (div8_facts j) as [Hjd Hjm].
    destruct (div8_facts (n + 7)) as [Hnd Hnm].
    rewrite testbit_wrapS32, testbit_leU32 by lia.
    destruct (Hbytes (j / 8) ltac:(lia)) as (v & -> & Hv & Hvb). simpl.
    rewrite wrapU8_id, Hvb by lia. f_equal. lia. }
  destruct (Z.eqb_spec n 32) as [-> | Hne]; intros [= <- <-].
  - split; [reflexivity |]. split; [exact Hbits |].
    split; [lia | apply wrapS32_range].
  - rewrite mask_ones by lia. rewrite Z.land_ones by lia.
    assert (Hr : 0 <= wrapS32 (leU32 m) mod 2 ^ n < 2 ^ n)
      by (apply Z.mod_pos_bound, Z.pow_pos_nonneg; lia).
    assert (2 ^ n <= 2 ^ 31) by (apply Z.pow_le_mono_r; lia).
    split; [reflexivity |]. split; [| split; [auto | lia]].
    intros j Hj. rewrite Z.mod_pow2_bits_low by lia. apply Hbits, Hj.
Qed.

Lemma readInt_total (n : Z) (s : BitStream) :
  0 <= bitNum s -> 0 < n <= 32 -> bitNum s + n < 2 ^ 31 ->
  bitNum s + n <= maxReadBitNum s ->
  bitNum s / 8 + (n + 7) / 8 < Z.of_nat (length (dataPtr s)) ->
  is_Some (readInt n s).
Proof.
  intros Hc Hn Hov Hmax Hlen. unfold readInt.
  destruct (div8_facts (n + 7)) as [Hnd Hnm].
  destruct (readBits_total n (obj32 0) s) as [[m s1] ->]; simpl; try lia.
  destruct (n =? 32); eauto.
Qed.

End CodecProps.

(** ** Signed integers *)

Lemma Z_bits_small (a b n : Z) :
  0 <= n -> 0 <= a < 2 ^ n -> 0 <= b < 2 ^ n ->
  (forall j, 0 <= j < n -> Z.testbit a j = Z.testbit b j) -> a = b.
Proof.
  intros Hn Ha Hb Hbits.
  rewrite <- (Z.mod_small a (2 ^ n)), <- (Z.mod_small b (2 ^ n)) by lia.
  apply Z.bits_inj'. intros j Hj.
  destruct (Z_lt_le_dec j n).
  - rewrite !Z.mod_pow2_bits_low by lia. apply Hbits. lia.
  - rewrite !Z.mod_pow2_bits_high by lia. reflexivity.
Qed.

Section SignedInt.

Variable adjacent : Z -> Z.

(** Writing a magnitude [m < 2^k] in [k] bits after a flag, then reading the
    flag and the magnitude back from the flag's position. *)
Lemma flag_then_int_roundtrip (s : BitStream) (f : bool) (m k : Z) :
  0 < k < 32 -> 0 <= m < 2 ^ k ->
  0 <= bitNum s -> bitNum s + 1 + k < 2 ^ 31 ->
  bitNum s + 1 + k <= maxWriteBitNum s ->
  bitNum s + 1 + k <= maxReadBitNum s ->
  (bitNum s + 1) / 8 + (k + 7) / 8 < Z.of_nat (length (dataPtr s)) ->
  exists s1 s2 s3,
    writeFlag f s = Some (f, s1) /\
    writeInt adjacent m k s1 = Some s2 /\
    bitNum s2 = bitNum s + 1 + k /\ error s2 = error s /\
    readFlag (setCurPos (bitNum s) s2) = Some (f, s3) /\
    readInt k s3 = Some (m, set_bitNum (bitNum s + 1 + k) s2).
Proof.
  intros Hk Hm Hc Hov Hmaxw Hmaxr Hlen.
  destruct (div8_facts (bitNum s)) as [Hcd Hcm].
  destruct (div8_facts (bitNum s + 1)) as [Hc1d Hc1m].
  destruct (div8_facts (k + 7)) as [Hkd Hkm].
  destruct (div8_facts (bitNum s + 1 + k - 1)) as [Hed Hem].
  (* the flag *)
  destruct (writeFlag_total f s) as [[f' s1] Hwf]; try lia.
  destruct (writeFlag_run f s f' s1 Hc ltac:(lia) ltac:(lia) Hwf)
    as (-> & Hs1 & Hlen1 & _ & _ & Hbit1).
  assert (Hc1 : bitNum s1 = bitNum s + 1) by (rewrite Hs1; reflexivity).
  assert (Hmw1 : maxWriteBitNum s1 = maxWriteBitNum s) by (rewrite Hs1; reflexivity).
  assert (Hmr1 : maxReadBitNum s1 = maxReadBitNum s) by (rewrite Hs1; reflexivity).
  assert (Her1 : error s1 = error s) by (rewrite Hs1; reflexivity).
  (* the magnitude *)
  destruct (writeBits_total k (mem32 adjacent m) s1) as [s2 Hwi];
    rewrite ?Hc1, ?Hmw1, ?Hlen1; try lia.
  pose proof (fun i => writeBits_bitAt k (mem32 adjacent m) s1 s2 i
                ltac:(lia) ltac:(lia) ltac:(lia) ltac:(lia) Hwi) as Hbit2.
  destruct (writeBits_run k (mem32 adjacent m) s1 s2
              ltac:(lia) ltac:(lia) ltac:(lia) ltac:(lia) Hwi)
    as (Hs2 & Hlen2 & _).
  rewrite Hc1 in Hbit2, Hs2.
  assert (Hc2 : bitNum s2 = bitNum s + 1 + k) by (rewrite Hs2; reflexivity).
  assert (Hmr2 : maxReadBitNum s2 = maxReadBitNum s) by (rewrite Hs2; simpl; exact Hmr1).
  assert (Her2 : error s2 = error s) by (rewrite Hs2; simpl; exact Her1).
  (* reading the flag back *)
  set (r0 := setCurPos (bitNum s) s2).
  assert (Hr0c : bitNum r0 = bitNum s) by reflexivity.
  assert (Hr0d : dataPtr r0 = dataPtr s2) by reflexivity.
  assert (Hr0m : maxReadBitNum r0 = maxReadBitNum s) by (exact Hmr2).
  destruct (readFlag_total r0) as [[g s3] Hrf];
    rewrite ?Hr0c, ?Hr0d, ?Hlen2, ?Hlen1; try lia.
  destruct (readFlag_run r0 g s3 ltac:(lia) ltac:(lia) ltac:(lia) Hrf)
    as (Hg & Hs3).
  rewrite Hr0c, Hr0d in Hg. rewrite Hr0c in Hs3.
  rewrite Hbit2 in Hg.
  destruct (Z.ltb_spec (bitNum s) (bitNum s + 1)); [| lia]. simpl in Hg.
  rewrite Hbit1, Z.eqb_refl in Hg. subst g.
  (* reading the magnitude back *)
  assert (Hc3 : bitNum s3 = bitNum s + 1) by (rewrite Hs3; reflexivity).
  assert (Hd3 : dataPtr s3 = dataPtr s2) by (rewrite Hs3; reflexivity).
  assert (Hm3 : maxReadBitNum s3 = maxReadBitNum s) by (rewrite Hs3; exact Hmr2).
  destruct (readInt_total k s3) as [[r s4] Hri];
    rewrite ?Hc3, ?Hd3, ?Hlen2, ?Hlen1; try lia.
  destruct (readInt_run k s3 r s4
              ltac:(lia) ltac:(lia) ltac:(lia) ltac:(lia) Hri)
    as (Hs4 & Hrbits & Hrange & _).
  rewrite Hc3, Hd3 in Hrbits. rewrite Hc3 in Hs4.
  assert (r = m) as ->.
  { apply (Z_bits_small r m k); try lia.
    intros j Hj. rewrite Hrbits, Hbit2 by lia.
    destruct (Z.ltb_spec (bitNum s + 1 + j) (bitNum s + 1)); [lia |].
    destruct (Z.leb_spec (8 * ((bitNum s + 1 + k - 1) / 8 + 1)) (bitNum s + 1 + j));
      [lia |]. simpl.
    destruct (Z.ltb_spec (bitNum s + 1 + j) (bitNum s + 1 + k)); [| lia].
    replace (bitNum s + 1 + j - (bitNum s + 1)) with j by lia.
    apply srcBit_mem32. lia. }
  exists s1, s2, s3. unfold writeInt.
  repeat split; auto.
  rewrite Hri. f_equal. f_equal. rewrite Hs4, Hs3. destruct s2; reflexivity.
Qed.

End SignedInt.

(** ** Writes as appended bit sequences *)

Lemma appended_refl (s : BitStream) : appended s s [].
Proof.
  unfold appended. split; [| split; [reflexivity | split; [reflexivity |]]].
  - destruct s. unfold set_bitNum, set_dataPtr. simpl. f_equal. lia.
  - intros j b Hj. discriminate.
Qed.

Lemma appended_trans (s s1 s2 : BitStream) (b1 b2 : list bool) :
  appended s s1 b1 -> appended s1 s2 b2 -> appended s s2 (b1 ++ b2).
Proof.
  intros (H1 & Hl1 & Hlo1 & Hb1) (H2 & Hl2 & Hlo2 & Hb2).
  assert (Hc1 : bitNum s1 = bitNum s + Z.of_nat (length b1))
    by (rewrite H1; reflexivity).
  unfold appended. split; [| split; [congruence | split]].
  - rewrite H2. rewrite H1 at 2. rewrite Hc1, length_app.
    unfold set_bitNum, set_dataPtr. simpl. f_equal. lia.
  - intros i Hi. rewrite Hlo2 by lia. apply Hlo1, Hi.
  - intros j b Hj.
    destruct (lookup_app_Some b1 b2 j b) as [Hsplit _].
    destruct (Hsplit Hj) as [Hin1 | [Hge Hin2]].
    + rewrite Hlo2; [apply Hb1, Hin1 |].
      apply lookup_lt_Some in Hin1. lia.
    + replace (bitNum s + Z.of_nat j)
        with (bitNum s1 + Z.of_nat (j - length b1)) by lia.
      apply Hb2, Hin2.
Qed.

Lemma appended_room (s s' : BitStream) (bits : list bool) (k : Z) :
  appended s s' bits -> room s k -> room s' (k - Z.of_nat (length bits)).
Proof.
  intros (H1 & Hl1 & _ & _) (Hc & Hmax & Hlen & Hov).
  assert (bitNum s' = bitNum s + Z.of_nat (length bits)) by (rewrite H1; reflexivity).
  assert (maxWriteBitNum s' = maxWriteBitNum s) by (rewrite H1; reflexivity).
  unfold room. rewrite Hl1. lia.
Qed.

Lemma appended_fields (s s' : BitStream) (bits : list bool) :
  appended s s' bits ->
  bitNum s' = bitNum s + Z.of_nat (length bits) /\
  error s' = error s /\ stringBuffer s' = stringBuffer s /\
  maxWriteBitNum s' = maxWriteBitNum s /\ maxReadBitNum s' = maxReadBitNum s /\
  mCompressPoint s' = mCompressPoint s /\ bufSize s' = bufSize s.
Proof. intros (-> & _). repeat split. Qed.

Lemma length_bitsOf (f : Z -> bool) (n : Z) :
  Z.of_nat (length (bitsOf f n)) = Z.max 0 n.
Proof. unfold bitsOf. rewrite length_fmap, length_seqZ. lia. Qed.

Lemma lookup_bitsOf (f : Z -> bool) (n : Z) (j : nat) (b : bool) :
  bitsOf f n !! j = Some b -> Z.of_nat j < n /\ b = f (Z.of_nat j).
Proof.
  unfold bitsOf. rewrite list_lookup_fmap.
  destruct (seqZ 0 n !! j) as [z |] eqn:Hz; simpl; [| discriminate].
  apply lookup_seqZ in Hz as [-> Hlt]. intros [= <-]. auto.
Qed.

Lemma bitsOf_ext (f g : Z -> bool) (n : Z) :
  (forall j, 0 <= j < n -> f j = g j) -> bitsOf f n = bitsOf g n.
Proof.
  intros H. unfold bitsOf. apply list_fmap_ext.
  intros i z Hz. apply lookup_seqZ in Hz as [-> Hlt]. apply H. lia.
Qed.

Lemma writeFlag_appended (val : bool) (s : BitStream) (k : Z) :
  room s k -> 1 <= k ->
  exists s', writeFlag val s = Some (val, s') /\ appended s s' [val].
Proof.
  intros (Hc & Hmax & Hlen & Hov) Hk.
  destruct (div8_facts (bitNum s)) as [Hcd Hcm].
  destruct (writeFlag_total val s) as [[r s'] Hw]; try lia.
  destruct (writeFlag_run val s r s' Hc ltac:(lia) ltac:(lia) Hw)
    as (-> & Hs' & Hl & _ & _ & Hbit).
  exists s'. split; [exact Hw |]. unfold appended.
  split; [exact Hs' |]. split; [exact Hl |]. split.
  - intros i Hi. rewrite Hbit.
    destruct (Z.eqb_spec i (bitNum s)); [lia | reflexivity].
  - intros [| j] b Hj; [| discriminate]. injection Hj as <-.
    rewrite Hbit, Z.add_0_r, Z.eqb_refl. reflexivity.
Qed.

Lemma writeBits_appended (n : Z) (ptr : Z -> Z) (s : BitStream) (k : Z) :
  room s k -> 0 <= n <= k ->
  exists s', writeBits n ptr s = Some s' /\ appended s s' (srcBits ptr n).
Proof.
  intros (Hc & Hmax & Hlen & Hov) Hn.
  destruct (Z.eq_dec n 0) as [-> | Hne].
  { exists s. split; [reflexivity | apply appended_refl]. }
  destruct (div8_facts (bitNum s + n - 1)) as [Hed Hem].
  destruct (writeBits_total n ptr s) as [s' Hw]; try lia.
  pose proof (fun i => writeBits_bitAt n ptr s s' i
                Hc ltac:(lia) ltac:(lia) ltac:(lia) Hw) as Hbit.
  destruct (writeBits_run n ptr s s' Hc ltac:(lia) ltac:(lia) ltac:(lia) Hw)
    as (Hs' & Hl & _).
  exists s'. split; [exact Hw |]. unfold appended.
  split; [| split; [exact Hl | split]].
  - unfold srcBits. rewrite length_bitsOf.
    replace (Z.max 0 n) with n by lia. exact Hs'.
  - intros i Hi. rewrite Hbit.
    destruct (Z.ltb_spec i (bitNum s)); [reflexivity | lia].
  - intros j b Hj. apply lookup_bitsOf in Hj as [Hlt ->].
    rewrite Hbit.
    destruct (Z.ltb_spec (bitNum s + Z.of_nat j) (bitNum s)); [lia |].
    destruct (Z.leb_spec (8 * ((bitNum s + n - 1) / 8 + 1)) (bitNum s + Z.of_nat j));
      [lia |]. simpl.
    destruct (Z.ltb_spec (bitNum s + Z.of_nat j) (bitNum s + n)); [| lia].
    f_equal. lia.
Qed.

Lemma writeInt_appended (adjacent : Z -> Z) (v n : Z) (s : BitStream) (k : Z) :
  room s k -> 0 <= n <= k -> n <= 32 ->
  exists s', writeInt adjacent v n s = Some s' /\ appended s s' (intBits v n).
Proof.
  intros Hroom Hn Hn32.
  destruct (writeBits_appended n (mem32 adjacent v) s k Hroom Hn)
    as (s' & Hw & Happ).
  exists s'. split; [exact Hw |].
  replace (intBits v n) with (srcBits (mem32 adjacent v) n); [exact Happ |].
  apply bitsOf_ext. intros j Hj. apply srcBit_mem32. lia.
Qed.

(** ** The Huffman body *)

Lemma getAt_lookup {A : Type} (v : list A) (i : Z) :
  0 <= i -> getAt v i = v !! Z.to_nat i.
Proof. intros Hi. unfold getAt. destruct (Z.leb_spec 0 i); [reflexivity | lia]. Qed.

Lemma leaves_ok_leaf (leaves : list HuffLeaf) (c : Z) :
  leaves_ok leaves -> 0 <= c < 256 ->
  exists l, getAt leaves c = Some l /\ leafOf leaves c = l /\
            0 <= numBits l <= 32.
Proof.
  intros [Hlen Hall] Hc.
  destruct (lookup_lt_is_Some_2 leaves (Z.to_nat c)) as [l Hl]; [lia |].
  exists l. rewrite getAt_lookup by lia. split; [exact Hl |]. split.
  - unfold leafOf. rewrite wrapU8_id, getAt_lookup, Hl by lia. reflexivity.
  - apply (Forall_lookup_1 _ _ _ _ Hall Hl).
Qed.

Lemma leafOf_wrap (leaves : list HuffLeaf) (c : Z) :
  leafOf leaves (wrapU8 c) = leafOf leaves c.
Proof. unfold leafOf. now rewrite wrapU8_idemp. Qed.

Lemma totalBits_bounds (leaves : list HuffLeaf) (str : list Z) :
  leaves_ok leaves ->
  0 <= totalBits leaves str <= 32 * Z.of_nat (length str).
Proof.
  intros Hok. induction str as [| c str IH]; simpl; [lia |].
  destruct (leaves_ok_leaf leaves (wrapU8 c) Hok (wrapU8_range c))
    as (l & _ & Hl & Hr).
  rewrite leafOf_wrap in Hl. rewrite Hl. lia.
Qed.

Lemma length_codes (leaves : list HuffLeaf) (str : list Z) :
  leaves_ok leaves ->
  Z.of_nat (length (mjoin (codeBits leaves <$> str))) = totalBits leaves str.
Proof.
  intros Hok. induction str as [| c str IH]; [reflexivity |].
  change (mjoin (codeBits leaves <$> c :: str))
    with (codeBits leaves c ++ mjoin (codeBits leaves <$> str)).
  change (totalBits leaves (c :: str))
    with (numBits (leafOf leaves c) + totalBits leaves str).
  rewrite length_app, Nat2Z.inj_add, IH.
  unfold codeBits, intBits. rewrite length_bitsOf.
  destruct (leaves_ok_leaf leaves (wrapU8 c) Hok (wrapU8_range c))
    as (l & _ & Hl & Hr).
  rewrite leafOf_wrap in Hl. rewrite Hl. lia.
Qed.

Lemma load_drop (m : list Z) (i : Z) (c : Z) :
  load m i = Some c ->
  exists x, drop (Z.to_nat i) m = x :: drop (S (Z.to_nat i)) m /\ c = wrapU8 x.
Proof.
  intros H. apply load_inv in H as (Hi & x & Hx & ->).
  exists x. split; [| reflexivity]. apply drop_S, Hx.
Qed.

Lemma sumBits_spec (leaves : list HuffLeaf) (buf : list Z) (k : nat) :
  leaves_ok leaves ->
  forall i acc,
    0 <= i -> i + Z.of_nat k <= Z.of_nat (length buf) ->
    0 <= acc -> acc + 32 * Z.of_nat k < 2 ^ 31 ->
    sumBits k leaves buf i acc
    = Some (acc + totalBits leaves (take k (drop (Z.to_nat i) buf))).
Proof.
  intros Hok. induction k as [| k IH]; intros i acc Hi Hlen Hacc Hov.
  - simpl. f_equal. lia.
  - simpl.
    destruct (load_in_range buf i) as (x & Hload & Hx); [lia |].
    rewrite Hload. simpl.
    destruct (leaves_ok_leaf leaves (wrapU8 x) Hok (wrapU8_range x))
      as (l & Hget & Hl & Hr).
    rewrite Hget. simpl.
    rewrite wrapS32_id by lia. rewrite IH by lia.
    rewrite (drop_S _ _ _ Hx). simpl.
    rewrite leafOf_wrap in Hl. rewrite Hl.
    replace (Z.to_nat (i + 1)) with (S (Z.to_nat i)) by lia.
    f_equal. lia.
Qed.

Section HuffmanBody.

Variable adjacent : Z -> Z.

Lemma writeCodes_appended (leaves : list HuffLeaf) (buf : list Z) (k : nat) :
  leaves_ok leaves ->
  forall i s r,
    0 <= i -> i + Z.of_nat k <= Z.of_nat (length buf) ->
    room s r ->
    totalBits leaves (take k (drop (Z.to_nat i) buf)) <= r ->
    exists s',
      writeCodes adjacent k leaves buf i s = Some s' /\
      appended s s' (mjoin (codeBits leaves <$> take k (drop (Z.to_nat i) buf))).
Proof.
  intros Hok. induction k as [| k IH]; intros i s r Hi Hlen Hroom Hfit.
  - exists s. split; [reflexivity | apply appended_refl].
  - simpl.
    destruct (load_in_range buf i) as (x & Hload & Hx); [lia |].
    rewrite Hload. simpl.
    destruct (leaves_ok_leaf leaves (wrapU8 x) Hok (wrapU8_range x))
      as (l & Hget & Hl & Hr).
    rewrite Hget. simpl.
    rewrite (drop_S _ _ _ Hx) in Hfit |- *. simpl in Hfit |- *.
    rewrite leafOf_wrap in Hl.
    replace (S (Z.to_nat i)) with (Z.to_nat (i + 1)) in Hfit |- * by lia.
    pose proof (totalBits_bounds leaves
                  (take k (drop (Z.to_nat (i + 1)) buf)) Hok) as Hrest.
    rewrite Hl in Hfit.
    destruct (writeInt_appended adjacent (code l) (numBits l) s r Hroom)
      as (s1 & Hw & Happ1); [lia | lia |].
    unfold writeInt in Hw. rewrite Hw. simpl.
    pose proof (appended_room _ _ _ _ Happ1 Hroom) as Hroom1.
    unfold intBits in Hroom1. rewrite length_bitsOf in Hroom1.
    replace (Z.max 0 (numBits l)) with (numBits l) in Hroom1 by lia.
    destruct (IH (i + 1) s1 (r - numBits l)) as (s2 & Hrun & Happ2);
      try lia; [exact Hroom1 |].
    exists s2. split; [exact Hrun |].
    unfold codeBits at 1. rewrite Hl.
    apply (appended_trans _ _ _ _ _ Happ1 Happ2).
Qed.

End HuffmanBody.

Lemma srcBit_shift (ptr : Z -> Z) (j : Z) :
  srcBit ptr (8 + j) = srcBit (fun k => ptr (k + 1)) j.
Proof.
  destruct (div8_facts j) as [Hjd Hjm]. unfold srcBit.
  replace ((8 + j) / 8) with (j / 8 + 1)
    by (apply Z.div_unique with (j mod 8); lia).
  replace ((8 + j) mod 8) with (j mod 8)
    by (apply Z.mod_unique with (j / 8 + 1); lia).
  reflexivity.
Qed.

Lemma srcBits_raw (str : list Z) :
  forall ptr : Z -> Z,
    (forall (t : nat) x, str !! t = Some x -> wrapU8 (ptr (Z.of_nat t)) = wrapU8 x) ->
    srcBits ptr (8 * Z.of_nat (length str)) = rawBits str.
Proof.
  induction str as [| c str IH]; intros ptr Hptr.
  - reflexivity.
  - unfold srcBits, bitsOf.
    replace (8 * Z.of_nat (length (c :: str)))
      with (8 + 8 * Z.of_nat (length str)) by (simpl length; lia).
    rewrite seqZ_app, fmap_app by lia.
    change (rawBits (c :: str)) with (intBits c 8 ++ rawBits str).
    f_equal.
    + apply (bitsOf_ext (srcBit ptr) (Z.testbit c) 8). intros j Hj.
      unfold srcBit. rewrite Z.div_small, Z.mod_small by lia.
      pose proof (Hptr O c eq_refl) as H0. change (Z.of_nat 0) with 0 in H0.
      rewrite H0, testbit_wrapU8.
      destruct (Z.ltb_spec j 8); [reflexivity | lia].
    + rewrite <- (IH (fun k => ptr (k + 1))).
      * unfold srcBits, bitsOf.
        rewrite Z.add_0_l, <- (fmap_add_seqZ 8 0), <- list_fmap_compose.
        apply list_fmap_ext. intros i z _. simpl. apply srcBit_shift.
      * intros t x Hx. rewrite <- (Hptr (S t) x Hx). f_equal. f_equal. lia.
Qed.

Lemma dStrlen_from_spec (m : list Z) :
  forall i n,
    dStrlen_from m i = Some n ->
    i <= n /\ n - i < Z.of_nat (length m) /\
    (exists z, m !! Z.to_nat (n - i) = Some z /\ wrapU8 z = 0) /\
    (forall (t : nat) x, Z.of_nat t < n - i -> m !! t = Some x -> wrapU8 x <> 0).
Proof.
  induction m as [| c m IH]; intros i n H; [discriminate |].
  simpl in H. destruct (Z.eqb_spec (wrapU8 c) 0) as [Hz | Hnz].
  - injection H as <-. rewrite Z.sub_diag. simpl.
    split; [lia |]. split; [lia |]. split; [eauto |]. intros t x Ht. lia.
  - apply IH in H as (Hle & Hlt & (z & Hz & Hz0) & Hbefore).
    simpl length. split; [lia |]. split; [lia |]. split.
    + exists z. split; [| exact Hz0].
      replace (Z.to_nat (n - i)) with (S (Z.to_nat (n - (i + 1)))) by lia.
      exact Hz.
    + intros [| t] x Ht Hx.
      * injection Hx as <-. exact Hnz.
      * apply (Hbefore t x); [lia | exact Hx].
Qed.

Lemma dStrlen_spec (m : list Z) (n : Z) :
  dStrlen m = Some n ->
  0 <= n < Z.of_nat (length m) /\
  (exists z, m !! Z.to_nat n = Some z /\ wrapU8 z = 0) /\
  (forall (t : nat) x, Z.of_nat t < n -> m !! t = Some x -> wrapU8 x <> 0).
Proof.
  intros H. apply dStrlen_from_spec in H as (H0 & Hlt & Hz & Hb).
  rewrite Z.sub_0_r in *. auto.
Qed.

Section HuffBuffer.

Variable adjacent : Z -> Z.

(** The body [writeHuffBuffer] puts on the wire, with the truncation to
    [maxLen] the function performs. *)
Lemma writeHuffBuffer_appended (hp hp' : HuffmanProcessor) (s : BitStream)
    (buf : list Z) (maxLen len0 k : Z) :
  tablesOf hp = Some hp' -> leaves_ok (m_huffLeaves hp') ->
  dStrlen buf = Some len0 -> 0 <= maxLen ->
  Z.min len0 maxLen <= 255 ->
  room s k ->
  Z.of_nat (length (huffmanBody (m_huffLeaves hp')
                      (take (Z.to_nat (Z.min len0 maxLen)) buf))) <= k ->
  exists s',
    writeHuffBuffer adjacent hp s (Some buf) maxLen = Some (hp', s') /\
    appended s s'
      (huffmanBody (m_huffLeaves hp') (take (Z.to_nat (Z.min len0 maxLen)) buf)).
Proof.
  intros Htab Hok Hlen Hmax H255 Hroom Hfit.
  apply dStrlen_spec in Hlen as Hspec. destruct Hspec as (Hl0 & _ & _).
  unfold writeHuffBuffer. unfold tablesOf in Htab. rewrite Htab. simpl.
  rewrite Hlen. simpl.
  set (len := Z.min len0 maxLen) in *.
  replace (if len0 >? maxLen then maxLen else len0) with len
    by (unfold len; destruct (Z.gtb_spec len0 maxLen); lia).
  set (str := take (Z.to_nat len) buf) in *.
  assert (Hstr : Z.of_nat (length str) = len)
    by (unfold str; rewrite length_take; lia).
  rewrite (sumBits_spec _ _ _ Hok) by lia. simpl.
  rewrite Z.add_0_l. change (take (Z.to_nat len) (drop (Z.to_nat 0) buf)) with str.
  rewrite (wrapS32_id (len * 8)) by lia.
  pose proof (totalBits_bounds (m_huffLeaves hp') str Hok) as Htot.
  unfold huffmanBody in Hfit |- *. rewrite Hstr in Hfit |- *.
  replace (len * 8) with (8 * len) by lia.
  assert (Hi8 : Z.of_nat (length (intBits len 8)) = 8)
    by (unfold intBits; rewrite length_bitsOf; lia).
  revert Hfit.
  destruct (totalBits (m_huffLeaves hp') str >=? 8 * len) eqn:Hcmp; intros Hfit.
  - (* raw *)
    simpl length in Hfit.
    destruct (writeFlag_appended false s k Hroom) as (s1 & Hw1 & Ha1); [lia |].
    rewrite Hw1. simpl.
    pose proof (appended_room _ _ _ _ Ha1 Hroom) as Hroom1. simpl in Hroom1.
    destruct (writeInt_appended adjacent len 8 s1 (k - 1) Hroom1)
      as (s2 & Hw2 & Ha2); [lia | lia |].
    rewrite Hw2. simpl.
    pose proof (appended_room _ _ _ _ Ha2 Hroom1) as Hroom2.
    rewrite Hi8 in Hroom2.
    assert (Hraw : srcBits (memOf adjacent buf) (8 * len) = rawBits str).
    { rewrite <- Hstr. apply srcBits_raw. intros t x Hx.
      unfold str in Hx. apply lookup_take_Some in Hx as [Hx _].
      unfold memOf. rewrite getAt_lookup, Nat2Z.id, Hx by lia. reflexivity. }
    assert (Hrl : Z.of_nat (length (rawBits str)) = 8 * len).
    { rewrite <- Hraw. unfold srcBits. rewrite length_bitsOf. lia. }
    destruct (writeBits_appended (8 * len) (memOf adjacent buf) s2 (k - 1 - 8)
                Hroom2) as (s3 & Hw3 & Ha3); [lia |].
    unfold _write. rewrite Z.shiftl_mul_pow2 by lia.
    change (2 ^ 3) with 8. rewrite (wrapS32_id (len * 8)) by lia.
    replace (len * 8) with (8 * len) by lia.
    rewrite Hw3. simpl. exists s3. split; [reflexivity |].
    rewrite Hraw in Ha3.
    apply (appended_trans _ _ _ [false] _ Ha1).
    apply (appended_trans _ _ _ _ _ Ha2 Ha3).
  - (* compressed *)
    simpl length in Hfit.
    pose proof (length_codes (m_huffLeaves hp') str Hok) as Hcl.
    destruct (writeFlag_appended true s k Hroom) as (s1 & Hw1 & Ha1); [lia |].
    rewrite Hw1. simpl.
    pose proof (appended_room _ _ _ _ Ha1 Hroom) as Hroom1. simpl in Hroom1.
    destruct (writeInt_appended adjacent len 8 s1 (k - 1) Hroom1)
      as (s2 & Hw2 & Ha2); [lia | lia |].
    rewrite Hw2. simpl.
    pose proof (appended_room _ _ _ _ Ha2 Hroom1) as Hroom2.
    rewrite Hi8 in Hroom2.
    destruct (writeCodes_appended adjacent (m_huffLeaves hp') buf (Z.to_nat len)
                Hok 0 s2 (k - 1 - 8)) as (s3 & Hw3 & Ha3);
      try lia; [exact Hroom2 | |].
    { change (take (Z.to_nat len) (drop (Z.to_nat 0) buf)) with str.
      lia. }
    rewrite Hw3. simpl. exists s3. split; [reflexivity |].
    change (take (Z.to_nat len) (drop (Z.to_nat 0) buf)) with str in Ha3.
    apply (appended_trans _ _ _ [true] _ Ha1).
    apply (appended_trans _ _ _ _ _ Ha2 Ha3).
Qed.

End HuffBuffer.

(** ** The tables built from [csm_charFreqs] *)

Lemma Forall_of_forallb {A : Type} (p : A -> bool) (P : A -> Prop) (l : list A) :
  (forall x, p x = true -> P x) -> forallb p l = true -> Forall P l.
Proof.
  intros Hp. induction l as [| x l IH]; intros Hb; constructor;
    simpl in Hb; apply andb_true_iff in Hb as [Hx Hl]; auto.
Qed.

Lemma buildTables_fresh : buildTables g_huffProcessor = Some builtTables.
Proof. vm_compute. reflexivity. Qed.

Lemma builtTables_ok :
  m_tablesBuilt builtTables = true /\ leaves_ok (m_huffLeaves builtTables).
Proof.
  split; [reflexivity |]. split; [reflexivity |].
  apply (Forall_of_forallb
           (fun l => (0 <=? numBits l) && (numBits l <=? 32))).
  - intros l Hl. apply andb_true_iff in Hl as [H1 H2]. lia.
  - vm_compute. reflexivity.
Qed.

(** ** C strings *)

Lemma load_app_at (pre post : list Z) (x i : Z) :
  Z.of_nat (length pre) = i -> load (pre ++ x :: post) i = Some (wrapU8 x).
Proof.
  intros <-. unfold load. destruct (Z.leb_spec 0 (Z.of_nat (length pre))); [| lia].
  rewrite Nat2Z.id, list_lookup_middle by reflexivity. reflexivity.
Qed.

Lemma store_app_at (pre post : list Z) (x v i : Z) :
  Z.of_nat (length pre) = i ->
  store (pre ++ x :: post) i v = Some (pre ++ wrapU8 v :: post).
Proof.
  intros <-. rewrite store_in_range by (rewrite length_app; simpl; lia).
  rewrite Nat2Z.id. f_equal.
  rewrite insert_app_r_alt, Nat.sub_diag by lia. reflexivity.
Qed.

Lemma dStrlen_from_chars (str rest : list Z) (i : Z) :
  Forall (fun c => wrapU8 c <> 0) str ->
  dStrlen_from (str ++ 0 :: rest) i = Some (i + Z.of_nat (length str)).
Proof.
  intros Hnz. revert i. induction Hnz as [| c str Hc Hnz IH]; intros i.
  - simpl. f_equal. lia.
  - simpl. destruct (Z.eqb_spec (wrapU8 c) 0); [contradiction |].
    rewrite IH. f_equal. lia.
Qed.

Lemma dStrlen_chars (str rest : list Z) :
  Forall (fun c => wrapU8 c <> 0) str ->
  dStrlen (str ++ 0 :: rest) = Some (Z.of_nat (length str)).
Proof. intros Hnz. unfold dStrlen. now rewrite dStrlen_from_chars. Qed.

(** The prefix count of [writeString]. *)
Lemma prefixLoop_spec (k : nat) :
  forall (preA a preB b rest : list Z) (j : Z),
    Z.of_nat (length preA) = j -> Z.of_nat (length preB) = j ->
    (k <= length a)%nat ->
    Forall (fun c => wrapU8 c <> 0) b ->
    prefixLoop k (preA ++ a) (preB ++ b ++ 0 :: rest) j
    = Some (j + Z.of_nat (Nat.min k (commonPrefix a b))).
Proof.
  induction k as [| k IH]; intros preA a preB b rest j HA HB Hk Hnz.
  - simpl. f_equal. lia.
  - destruct a as [| x a]; [simpl in Hk; lia |].
    simpl prefixLoop. rewrite (load_app_at preA a x j HA). simpl.
    destruct b as [| y b].
    + simpl app. rewrite (load_app_at preB rest 0 j HB). simpl.
      replace (wrapU8 0 =? 0) with true by reflexivity.
      rewrite andb_false_r. f_equal. simpl. lia.
    + simpl app. rewrite (load_app_at preB (b ++ 0 :: rest) y j HB). simpl.
      apply Forall_cons_1 in Hnz as [Hy Hnz].
      destruct (Z.eqb_spec (wrapU8 y) 0) as [| _]; [contradiction |].
      simpl commonPrefix.
      destruct (Z.eqb_spec (wrapU8 x) (wrapU8 y)) as [Heq | Hne]; simpl.
      * replace (preA ++ x :: a) with ((preA ++ [x]) ++ a)
          by (rewrite <- app_assoc; reflexivity).
        replace (preB ++ y :: b ++ 0 :: rest) with ((preB ++ [y]) ++ b ++ 0 :: rest)
          by (rewrite <- app_assoc; reflexivity).
        rewrite IH; try (rewrite length_app; simpl; lia); auto.
        -- f_equal. lia.
        -- simpl in Hk. lia.
      * f_equal. lia.
Qed.

(** [strncpy] *)
Lemma dStrncpy_loop_pad (k : nat) :
  forall (pre mid post src : list Z) (i : Z),
    Z.of_nat (length pre) = i -> length mid = k ->
    dStrncpy_loop k (pre ++ mid ++ post) src i true
    = Some (pre ++ replicate k 0 ++ post).
Proof.
  induction k as [| k IH]; intros pre mid post src i Hpre Hmid.
  - destruct mid; [reflexivity | discriminate].
  - destruct mid as [| m mid]; [discriminate |]. injection Hmid as Hmid.
    change ((m :: mid) ++ post) with (m :: mid ++ post).
    simpl dStrncpy_loop.
    rewrite (store_app_at pre (mid ++ post) m 0 i Hpre). simpl.
    replace (pre ++ wrapU8 0 :: mid ++ post) with ((pre ++ [0]) ++ mid ++ post)
      by (rewrite <- app_assoc; reflexivity).
    rewrite IH by (rewrite ?length_app; simpl; lia).
    rewrite <- app_assoc. reflexivity.
Qed.

Lemma dStrncpy_loop_spec (k : nat) :
  forall (pre mid post srcPre b rest : list Z) (i : Z),
    Z.of_nat (length pre) = i -> length mid = k ->
    Z.of_nat (length srcPre) = i ->
    Forall (fun c => wrapU8 c <> 0) b ->
    dStrncpy_loop k (pre ++ mid ++ post) (srcPre ++ b ++ 0 :: rest) i false
    = Some (pre ++ (take k (wrapU8 <$> b) ++ replicate (k - length b) 0) ++ post).
Proof.
  induction k as [| k IH]; intros pre mid post srcPre b rest i Hpre Hmid Hsrc Hnz.
  - destruct mid; [| discriminate]. reflexivity.
  - destruct mid as [| m mid]; [discriminate |]. injection Hmid as Hmid.
    change ((m :: mid) ++ post) with (m :: mid ++ post).
    simpl dStrncpy_loop. destruct b as [| y b].
    + change ([] ++ 0 :: rest) with (0 :: rest).
      rewrite (load_app_at srcPre rest 0 i Hsrc). simpl.
      rewrite (store_app_at pre (mid ++ post) m (wrapU8 0) i Hpre). simpl.
      replace (wrapU8 0 =? 0) with true by reflexivity.
      replace (pre ++ wrapU8 (wrapU8 0) :: mid ++ post)
        with ((pre ++ [0]) ++ mid ++ post)
        by (rewrite <- app_assoc; reflexivity).
      rewrite dStrncpy_loop_pad by (rewrite ?length_app; simpl; lia).
      rewrite <- app_assoc. reflexivity.
    + apply Forall_cons_1 in Hnz as [Hy Hnz].
      change ((y :: b) ++ 0 :: rest) with (y :: b ++ 0 :: rest).
      rewrite (load_app_at srcPre (b ++ 0 :: rest) y i Hsrc). simpl.
      rewrite (store_app_at pre (mid ++ post) m (wrapU8 y) i Hpre). simpl.
      destruct (Z.eqb_spec (wrapU8 y) 0) as [| _]; [contradiction |].
      rewrite wrapU8_idemp.
      replace (pre ++ wrapU8 y :: mid ++ post)
        with ((pre ++ [wrapU8 y]) ++ mid ++ post)
        by (rewrite <- app_assoc; reflexivity).
      replace (srcPre ++ y :: b ++ 0 :: rest)
        with ((srcPre ++ [y]) ++ b ++ 0 :: rest)
        by (rewrite <- app_assoc; reflexivity).
      rewrite IH by (rewrite ?length_app; simpl; auto; lia).
      rewrite <- app_assoc. reflexivity.
Qed.

(** The scratch buffer after [dStrncpy] and the terminating store. *)
Lemma scratch_update (sb str rest : list Z) (maxLen : Z) :
  Forall (fun c => wrapU8 c <> 0) str ->
  0 <= maxLen < Z.of_nat (length sb) ->
  (dStrncpy sb (str ++ 0 :: rest) maxLen ≫= fun sb1 => store sb1 maxLen 0)
  = Some (truncated str maxLen ++ drop (Z.to_nat maxLen + 1) sb).
Proof.
  intros Hnz Hmax. unfold dStrncpy, truncated.
  rewrite <- (take_drop (Z.to_nat maxLen) sb) at 1.
  destruct (drop (Z.to_nat maxLen) sb) as [| p post] eqn:Hpost.
  { apply (f_equal length) in Hpost. rewrite length_drop in Hpost.
    simpl in Hpost. lia. }
  pose proof (dStrncpy_loop_spec (Z.to_nat maxLen) [] (take (Z.to_nat maxLen) sb)
                (p :: post) [] str rest 0 eq_refl) as Hcopy.
  simpl app in Hcopy. rewrite Hcopy; [| rewrite length_take; lia | reflexivity | exact Hnz].
  simpl.
  rewrite (store_app_at _ post p 0 maxLen).
  - f_equal. rewrite <- !app_assoc. f_equal. f_equal.
    change (wrapU8 0) with 0. simpl. f_equal.
    rewrite <- drop_drop, Hpost. reflexivity.
  - rewrite length_app, length_take, length_replicate, length_fmap. lia.
Qed.

Lemma scratch_update_steps (sb str rest : list Z) (maxLen : Z) :
  Forall (fun c => wrapU8 c <> 0) str ->
  0 <= maxLen < Z.of_nat (length sb) ->
  exists sb1,
    dStrncpy sb (str ++ 0 :: rest) maxLen = Some sb1 /\
    store sb1 maxLen 0
    = Some (truncated str maxLen ++ drop (Z.to_nat maxLen + 1) sb).
Proof.
  intros Hnz Hmax. pose proof (scratch_update sb str rest maxLen Hnz Hmax) as H.
  destruct (dStrncpy sb (str ++ 0 :: rest) maxLen) as [sb1 |]; [| discriminate].
  exists sb1. split; [reflexivity | exact H].
Qed.

Lemma commonPrefix_le (a b : list Z) : (commonPrefix a b <= length b)%nat.
Proof.
  revert b. induction a as [| x a IH]; intros [| y b]; simpl; try lia.
  destruct (wrapU8 x =? wrapU8 y); [specialize (IH b) |]; lia.
Qed.

Lemma take_min_length {A : Type} (l : list A) (n : nat) :
  take (Nat.min (length l) n) l = take n l.
Proof.
  destruct (Nat.le_gt_cases (length l) n).
  - rewrite Nat.min_l by lia. rewrite !take_ge by lia. reflexivity.
  - rewrite Nat.min_r by lia. reflexivity.
Qed.

Lemma length_rawBits (str : list Z) :
  Z.of_nat (length (rawBits str)) = 8 * Z.of_nat (length str).
Proof.
  induction str as [| c str IH]; [reflexivity |].
  change (rawBits (c :: str)) with (intBits c 8 ++ rawBits str).
  rewrite length_app, Nat2Z.inj_add, IH. unfold intBits.
  rewrite length_bitsOf. simpl length. lia.
Qed.

Lemma length_huffmanBody (leaves : list HuffLeaf) (str : list Z) :
  leaves_ok leaves ->
  Z.of_nat (length (huffmanBody leaves str))
  = 9 + (if totalBits leaves str >=? 8 * Z.of_nat (length str)
         then 8 * Z.of_nat (length str) else totalBits leaves str).
Proof.
  intros Hok. unfold huffmanBody.
  assert (Hi8 : forall v, Z.of_nat (length (intBits v 8)) = 8)
    by (intros v; unfold intBits; rewrite length_bitsOf; lia).
  destruct (_ >=? _); cbn [length];
    rewrite length_app, Nat2Z.inj_succ, Nat2Z.inj_add, Hi8.
  - rewrite length_rawBits. lia.
  - rewrite (length_codes _ _ Hok). lia.
Qed.

(** The body of a string whose characters are [str], sent through
    [writeHuffBuffer] with the bound [maxLen]. *)
Lemma writeHuffBuffer_chars (adjacent : Z -> Z) (hp hp' : HuffmanProcessor)
    (s : BitStream) (str rest : list Z) (maxLen k : Z) :
  tablesOf hp = Some hp' -> leaves_ok (m_huffLeaves hp') ->
  Forall (fun c => wrapU8 c <> 0) str ->
  0 <= maxLen <= 255 ->
  room s k ->
  Z.of_nat (length (huffmanBody (m_huffLeaves hp') (take (Z.to_nat maxLen) str)))
    <= k ->
  exists s',
    writeHuffBuffer adjacent hp s (Some (str ++ 0 :: rest)) maxLen
    = Some (hp', s') /\
    appended s s' (huffmanBody (m_huffLeaves hp') (take (Z.to_nat maxLen) str)).
Proof.
  intros Htab Hok Hnz Hmax Hroom Hfit.
  assert (Htake : take (Z.to_nat (Z.min (Z.of_nat (length str)) maxLen))
                    (str ++ 0 :: rest) = take (Z.to_nat maxLen) str).
  { rewrite take_app_le by lia.
    replace (Z.to_nat (Z.min (Z.of_nat (length str)) maxLen))
      with (Nat.min (length str) (Z.to_nat maxLen)) by lia.
    apply take_min_length. }
  destruct (writeHuffBuffer_appended adjacent hp hp' s (str ++ 0 :: rest)
              maxLen (Z.of_nat (length str)) k) as (s' & Hw & Ha);
    auto; try lia.
  - apply dStrlen_chars, Hnz.
  - rewrite Htake. exact Hfit.
  - exists s'. rewrite Htake in Ha. auto.
Qed.

(** ** The error flag *)

Create HintDb sticky.

Ltac destruct_result m :=
  match type of m with
  | option (_ * _ * _) => destruct m as [[[? ?] ?] |] eqn:?
  | option (_ * _) => destruct m as [[? ?] |] eqn:?
  | _ => destruct m as [? |] eqn:?
  end.

Ltac sticky_step :=
  match goal with
  | H : Some _ = Some _ |- _ => injection H; clear H; intros; subst
  | H : None = Some _ |- _ => discriminate H
  | H : (?m ≫= _) = Some _ |- _ =>
      destruct_result m; cbn [mbind option_bind] in H; [| discriminate H]
  | H : (_ <$> ?m) = Some _ |- _ =>
      destruct_result m; cbn [fmap option_fmap option_map] in H;
      [| discriminate H]
  | H : (if ?c then _ else _) = Some _ |- _ => destruct c eqn:?
  | H : match ?x with Some _ => _ | None => _ end = Some _ |- _ =>
      destruct x eqn:?
  end.

Ltac sticky_op :=
  repeat sticky_step; cbn [fst snd] in *;
  cbn [error set_stringBuffer set_error set_bitNum set_dataPtr
       set_mCompressPoint];
  first [reflexivity | assumption | solve [eauto 12 with sticky nocore]].

Lemma writeBits_keeps (n : Z) (ptr : Z -> Z) (s s' : BitStream) :
  writeBits n ptr s = Some s' -> error s = true -> error s' = true.
Proof. unfold writeBits. intros H He. sticky_op. Qed.

#[export] Hint Extern 1 (error ?s1 = true) =>
  match goal with
  | E : writeBits _ _ _ = Some s1 |- _ =>
      eapply writeBits_keeps; [exact E | clear E]
  end : sticky.

Lemma readBits_keeps (n : Z) (dst dst' : list Z) (s s' : BitStream) :
  readBits n dst s = Some (dst', s') -> error s = true -> error s' = true.
Proof. unfold readBits. intros H He. sticky_op. Qed.

#[export] Hint Extern 1 (error ?s1 = true) =>
  match goal with
  | E : readBits _ _ _ = Some (_, s1) |- _ =>
      eapply readBits_keeps; [exact E | clear E]
  end : sticky.

Lemma writeFlag_keeps (val r : bool) (s s' : BitStream) :
  writeFlag val s = Some (r, s') -> error s = true -> error s' = true.
Proof. unfold writeFlag. intros H He. sticky_op. Qed.

#[export] Hint Extern 1 (error ?s1 = true) =>
  match goal with
  | E : writeFlag _ _ = Some (_, s1) |- _ =>
      eapply writeFlag_keeps; [exact E | clear E]
  end : sticky.

Lemma readFlag_keeps (r : bool) (s s' : BitStream) :
  readFlag s = Some (r, s') -> error s = true -> error s' = true.
Proof. unfold readFlag. intros H He. sticky_op. Qed.

#[export] Hint Extern 1 (error ?s1 = true) =>
  match goal with
  | E : readFlag _ = Some (_, s1) |- _ =>
      eapply readFlag_keeps; [exact E | clear E]
  end : sticky.

Lemma _write_keeps (size : Z) (ptr : Z -> Z) (s s' : BitStream) :
  _write size ptr s = Some s' -> error s = true -> error s' = true.
Proof. unfold _write. intros H He. sticky_op. Qed.

#[export] Hint Extern 1 (error ?s1 = true) =>
  match goal with
  | E : _write _ _ _ = Some s1 |- _ =>
      eapply _write_keeps; [exact E | clear E]
  end : sticky.

Lemma _read_keeps (size : Z) (dst dst' : list Z) (s s' : BitStream) :
  _read size dst s = Some (dst', s') -> error s = true -> error s' = true.
Proof. unfold _read. intros H He. sticky_op. Qed.

#[export] Hint Extern 1 (error ?s1 = true) =>
  match goal with
  | E : _read _ _ _ = Some (_, s1) |- _ =>
      eapply _read_keeps; [exact E | clear E]
  end : sticky.

Lemma readInt_keeps (n r : Z) (s s' : BitStream) :
  readInt n s = Some (r, s') -> error s = true -> error s' = true.
Proof. unfold readInt. intros H He. sticky_op. Qed.

#[export] Hint Extern 1 (error ?s1 = true) =>
  match goal with
  | E : readInt _ _ = Some (_, s1) |- _ =>
      eapply readInt_keeps; [exact E | clear E]
  end : sticky.

Lemma writeInt_keeps (adjacent : Z -> Z) (v n : Z) (s s' : BitStream) :
  writeInt adjacent v n s = Some s' -> error s = true -> error s' = true.
Proof. unfold writeInt. intros H He. sticky_op. Qed.

#[export] Hint Extern 1 (error ?s1 = true) =>
  match goal with
  | E : writeInt _ _ _ _ = Some s1 |- _ =>
      eapply writeInt_keeps; [exact E | clear E]
  end : sticky.

Lemma writeSignedInt_keeps (adjacent : Z -> Z) (v n : Z) (s s' : BitStream) :
  writeSignedInt adjacent v n s = Some s' -> error s = true -> error s' = true.
Proof. unfold writeSignedInt. intros H He. sticky_op. Qed.

#[export] Hint Extern 1 (error ?s1 = true) =>
  match goal with
  | E : writeSignedInt _ _ _ _ = Some s1 |- _ =>
      eapply writeSignedInt_keeps; [exact E | clear E]
  end : sticky.

Lemma readSignedInt_keeps (n r : Z) (s s' : BitStream) :
  readSignedInt n s = Some (r, s') -> error s = true -> error s' = true.
Proof. unfold readSignedInt. intros H He. sticky_op. Qed.

#[export] Hint Extern 1 (error ?s1 = true) =>
  match goal with
  | E : readSignedInt _ _ = Some (_, s1) |- _ =>
      eapply readSignedInt_keeps; [exact E | clear E]
  end : sticky.

Section StickyCodecs.

Context {math : MathOps}.
Variable adjacent : Z -> Z.

Lemma writeF32_keeps (f : Z) (s s' : BitStream) :
  writeF32 adjacent f s = Some s' -> error s = true -> error s' = true.
Proof. unfold writeF32. intros H He. sticky_op. Qed.

Hint Extern 1 (error ?s1 = true) =>
  match goal with
  | E : writeF32 _ _ _ = Some s1 |- _ =>
      eapply writeF32_keeps; [exact E | clear E]
  end : sticky.

Lemma readF32_keeps (old r : Z) (s s' : BitStream) :
  readF32 old s = Some (r, s') -> error s = true -> error s' = true.
Proof. unfold readF32. intros H He. sticky_op. Qed.

Hint Extern 1 (error ?s1 = true) =>
  match goal with
  | E : readF32 _ _ = Some (_, s1) |- _ =>
      eapply readF32_keeps; [exact E | clear E]
  end : sticky.

Lemma writeFloat_keeps (f n : Z) (s s' : BitStream) :
  writeFloat adjacent f n s = Some s' -> error s = true -> error s' = true.
Proof. unfold writeFloat. intros H He. sticky_op. Qed.

Hint Extern 1 (error ?s1 = true) =>
  match goal with
  | E : writeFloat _ _ _ _ = Some s1 |- _ =>
      eapply writeFloat_keeps; [exact E | clear E]
  end : sticky.

Lemma readFloat_keeps (n r : Z) (s s' : BitStream) :
  readFloat n s = Some (r, s') -> error s = true -> error s' = true.
Proof. unfold readFloat. intros H He. sticky_op. Qed.

Hint Extern 1 (error ?s1 = true) =>
  match goal with
  | E : readFloat _ _ = Some (_, s1) |- _ =>
      eapply readFloat_keeps; [exact E | clear E]
  end : sticky.

Lemma writeSignedFloat_keeps (f n : Z) (s s' : BitStream) :
  writeSignedFloat adjacent f n s = Some s' -> error s = true -> error s' = true.
Proof. unfold writeSignedFloat. intros H He. sticky_op. Qed.

Hint Extern 1 (error ?s1 = true) =>
  match goal with
  | E : writeSignedFloat _ _ _ _ = Some s1 |- _ =>
      eapply writeSignedFloat_keeps; [exact E | clear E]
  end : sticky.

Lemma readSignedFloat_keeps (n r : Z) (s s' : BitStream) :
  readSignedFloat n s = Some (r, s') -> error s = true -> error s' = true.
Proof. unfold readSignedFloat. intros H He. sticky_op. Qed.

Hint Extern 1 (error ?s1 = true) =>
  match goal with
  | E : readSignedFloat _ _ = Some (_, s1) |- _ =>
      eapply readSignedFloat_keeps; [exact E | clear E]
  end : sticky.

Lemma writeNormalVector_keeps (vec : Point3F) (n : Z) (s s' : BitStream) :
  writeNormalVector adjacent vec n s = Some s' ->
  error s = true -> error s' = true.
Proof. unfold writeNormalVector. intros H He. sticky_op. Qed.

Hint Extern 1 (error ?s1 = true) =>
  match goal with
  | E : writeNormalVector _ _ _ _ = Some s1 |- _ =>
      eapply writeNormalVector_keeps; [exact E | clear E]
  end : sticky.

Lemma readNormalVector_keeps (n : Z) (r : Point3F) (s s' : BitStream) :
  readNormalVector n s = Some (r, s') -> error s = true -> error s' = true.
Proof. unfold readNormalVector. intros H He. sticky_op. Qed.

Hint Extern 1 (error ?s1 = true) =>
  match goal with
  | E : readNormalVector _ _ = Some (_, s1) |- _ =>
      eapply readNormalVector_keeps; [exact E | clear E]
  end : sticky.

Lemma writeNormalVector2_keeps (vec : Point3F) (a z : Z) (s s' : BitStream) :
  writeNormalVector2 adjacent vec a z s = Some s' ->
  error s = true -> error s' = true.
Proof. unfold writeNormalVector2. intros H He. sticky_op. Qed.

Hint Extern 1 (error ?s1 = true) =>
  match goal with
  | E : writeNormalVector2 _ _ _ _ _ = Some s1 |- _ =>
      eapply writeNormalVector2_keeps; [exact E | clear E]
  end : sticky.

Lemma readNormalVector2_keeps (vec : Point3F) (a z : Z) (r : Point3F)
    (s s' : BitStream) :
  readNormalVector2 vec a z s = Some (r, s') ->
  error s = true -> error s' = true.
Proof. unfold readNormalVector2. intros H He. sticky_op. Qed.

Hint Extern 1 (error ?s1 = true) =>
  match goal with
  | E : readNormalVector2 _ _ _ _ = Some (_, s1) |- _ =>
      eapply readNormalVector2_keeps; [exact E | clear E]
  end : sticky.

Lemma writeVector_keeps (vec : Point3F) (mn mx mb ab zb : Z) (s s' : BitStream) :
  writeVector adjacent vec mn mx mb ab zb s = Some s' ->
  error s = true -> error s' = true.
Proof. unfold writeVector. intros H He. sticky_op. Qed.

Hint Extern 1 (error ?s1 = true) =>
  match goal with
  | E : writeVector _ _ _ _ _ _ _ _ = Some s1 |- _ =>
      eapply writeVector_keeps; [exact E | clear E]
  end : sticky.

Lemma readVector_keeps (vec : Point3F) (mn mx mb ab zb : Z) (r : Point3F)
    (s s' : BitStream) :
  readVector vec mn mx mb ab zb s = Some (r, s') ->
  error s = true -> error s' = true.
Proof. unfold readVector. intros H He. sticky_op. Qed.

Hint Extern 1 (error ?s1 = true) =>
  match goal with
  | E : readVector _ _ _ _ _ _ _ = Some (_, s1) |- _ =>
      eapply readVector_keeps; [exact E | clear E]
  end : sticky.

Lemma mathWrite_keeps (p : Point3F) (s s' : BitStream) :
  mathWrite adjacent p s = Some s' -> error s = true -> error s' = true.
Proof. unfold mathWrite. intros H He. sticky_op. Qed.

Hint Extern 1 (error ?s1 = true) =>
  match goal with
  | E : mathWrite _ _ _ = Some s1 |- _ =>
      eapply mathWrite_keeps; [exact E | clear E]
  end : sticky.

Lemma mathRead_keeps (p r : Point3F) (s s' : BitStream) :
  mathRead p s = Some (r, s') -> error s = true -> error s' = true.
Proof. unfold mathRead. intros H He. sticky_op. Qed.

Hint Extern 1 (error ?s1 = true) =>
  match goal with
  | E : mathRead _ _ = Some (_, s1) |- _ =>
      eapply mathRead_keeps; [exact E | clear E]
  end : sticky.

Lemma writeAffineTransform_keeps (m : MatrixF) (s s' : BitStream) :
  writeAffineTransform adjacent m s = Some s' ->
  error s = true -> error s' = true.
Proof. unfold writeAffineTransform. intros H He. sticky_op. Qed.

Hint Extern 1 (error ?s1 = true) =>
  match goal with
  | E : writeAffineTransform _ _ _ = Some s1 |- _ =>
      eapply writeAffineTransform_keeps; [exact E | clear E]
  end : sticky.

Lemma readAffineTransform_keeps (pos0 : Point3F) (q0 : QuatF) (r : MatrixF)
    (s s' : BitStream) :
  readAffineTransform pos0 q0 s = Some (r, s') ->
  error s = true -> error s' = true.
Proof. unfold readAffineTransform. intros H He. sticky_op. Qed.

Hint Extern 1 (error ?s1 = true) =>
  match goal with
  | E : readAffineTransform _ _ _ = Some (_, s1) |- _ =>
      eapply readAffineTransform_keeps; [exact E | clear E]
  end : sticky.

Lemma writeCompressedPoint_keeps (p : Point3F) (scale : Z) (s s' : BitStream) :
  writeCompressedPoint adjacent p scale s = Some s' ->
  error s = true -> error s' = true.
Proof. unfold writeCompressedPoint. intros H He. sticky_op. Qed.

Hint Extern 1 (error ?s1 = true) =>
  match goal with
  | E : writeCompressedPoint _ _ _ _ = Some s1 |- _ =>
      eapply writeCompressedPoint_keeps; [exact E | clear E]
  end : sticky.

Lemma readCompressedPoint_keeps (p : Point3F) (scale : Z) (r : Point3F)
    (s s' : BitStream) :
  readCompressedPoint p scale s = Some (r, s') ->
  error s = true -> error s' = true.
Proof. unfold readCompressedPoint. intros H He. sticky_op. Qed.

Hint Extern 1 (error ?s1 = true) =>
  match goal with
  | E : readCompressedPoint _ _ _ = Some (_, s1) |- _ =>
      eapply readCompressedPoint_keeps; [exact E | clear E]
  end : sticky.

Lemma writeClassId_keeps (bs : Z -> Z -> Z) (id ty gr : Z) (s s' : BitStream) :
  writeClassId adjacent bs id ty gr s = Some s' ->
  error s = true -> error s' = true.
Proof. unfold writeClassId. intros H He. sticky_op. Qed.

Hint Extern 1 (error ?s1 = true) =>
  match goal with
  | E : writeClassId _ _ _ _ _ _ = Some s1 |- _ =>
      eapply writeClassId_keeps; [exact E | clear E]
  end : sticky.

Lemma readClassId_keeps (bs cnt : Z -> Z -> Z) (ty gr r : Z) (s s' : BitStream) :
  readClassId bs cnt ty gr s = Some (r, s') ->
  error s = true -> error s' = true.
Proof. unfold readClassId. intros H He. sticky_op. Qed.

Hint Extern 1 (error ?s1 = true) =>
  match goal with
  | E : readClassId _ _ _ _ _ = Some (_, s1) |- _ =>
      eapply readClassId_keeps; [exact E | clear E]
  end : sticky.

(** Strings *)

Lemma writeCodes_keeps (k : nat) (leaves : list HuffLeaf) (buf : list Z) :
  forall i s s',
    writeCodes adjacent k leaves buf i s = Some s' ->
    error s = true -> error s' = true.
Proof.
  induction k as [| k IH]; intros i s s' H He; cbn [writeCodes] in H.
  - injection H as <-. exact He.
  - sticky_op.
Qed.

Hint Extern 1 (error ?s1 = true) =>
  match goal with
  | E : writeCodes _ _ _ _ _ _ = Some s1 |- _ =>
      eapply writeCodes_keeps; [exact E | clear E]
  end : sticky.

Lemma writeHuffBuffer_keeps (hp hp' : HuffmanProcessor) (buf : option (list Z))
    (maxLen : Z) (s s' : BitStream) :
  writeHuffBuffer adjacent hp s buf maxLen = Some (hp', s') ->
  error s = true -> error s' = true.
Proof. unfold writeHuffBuffer. intros H He. destruct buf; sticky_op. Qed.

Hint Extern 1 (error ?s1 = true) =>
  match goal with
  | E : writeHuffBuffer _ _ _ _ _ = Some (_, s1) |- _ =>
      eapply writeHuffBuffer_keeps; [exact E | clear E]
  end : sticky.

Lemma writeString_keeps (hp hp' : HuffmanProcessor) (str : option (list Z))
    (maxLen : Z) (s s' : BitStream) :
  writeString adjacent hp str maxLen s = Some (hp', s') ->
  error s = true -> error s' = true.
Proof.
  unfold writeString. intros H He.
  destruct (stringBuffer s) eqn:Hsb; sticky_op.
Qed.

Hint Extern 1 (error ?s1 = true) =>
  match goal with
  | E : writeString _ _ _ _ _ = Some (_, s1) |- _ =>
      eapply writeString_keeps; [exact E | clear E]
  end : sticky.

Lemma decodeSymbol_keeps (fuel : nat) (hp : HuffmanProcessor) :
  forall index s c s',
    decodeSymbol fuel hp index s = Some (c, s') ->
    error s = true -> error s' = true.
Proof.
  induction fuel as [| fuel IH]; intros index s c s' H He;
    cbn [decodeSymbol] in H.
  - discriminate.
  - sticky_op.
Qed.

Hint Extern 1 (error ?s1 = true) =>
  match goal with
  | E : decodeSymbol _ _ _ _ = Some (_, s1) |- _ =>
      eapply decodeSymbol_keeps; [exact E | clear E]
  end : sticky.

Lemma decodeSymbols_keeps (k : nat) (hp : HuffmanProcessor) :
  forall out i s out' s',
    decodeSymbols k hp out i s = Some (out', s') ->
    error s = true -> error s' = true.
Proof.
  induction k as [| k IH]; intros out i s out' s' H He;
    cbn [decodeSymbols] in H.
  - injection H as <- <-. exact He.
  - sticky_op.
Qed.

Hint Extern 1 (error ?s1 = true) =>
  match goal with
  | E : decodeSymbols _ _ _ _ _ = Some (_, s1) |- _ =>
      eapply decodeSymbols_keeps; [exact E | clear E]
  end : sticky.

Lemma readHuffBuffer_keeps (hp hp' : HuffmanProcessor) (out out' : list Z)
    (s s' : BitStream) :
  readHuffBuffer hp s out = Some (hp', out', s') ->
  error s = true -> error s' = true.
Proof. unfold readHuffBuffer. intros H He. sticky_op. Qed.

Hint Extern 1 (error ?s1 = true) =>
  match goal with
  | E : readHuffBuffer _ _ _ = Some (_, _, s1) |- _ =>
      eapply readHuffBuffer_keeps; [exact E | clear E]
  end : sticky.

Lemma readString_keeps (hp hp' : HuffmanProcessor) (buf buf' : list Z)
    (s s' : BitStream) :
  readString hp buf s = Some (hp', buf', s') ->
  error s = true -> error s' = true.
Proof. unfold readString. intros H He. cbv zeta in H. sticky_op. Qed.

Hint Extern 1 (error ?s1 = true) =>
  match goal with
  | E : readString _ _ _ = Some (_, _, s1) |- _ =>
      eapply readString_keeps; [exact E | clear E]
  end : sticky.

End StickyCodecs.

(** The codecs' hints, for use outside the section. *)

#[export] Hint Extern 1 (error ?s1 = true) =>
  match goal with
  | E : writeF32 _ _ _ = Some s1 |- _ =>
      eapply writeF32_keeps; [exact E | clear E]
  end : sticky.

#[export] Hint Extern 1 (error ?s1 = true) =>
  match goal with
  | E : readF32 _ _ = Some (_, s1) |- _ =>
      eapply readF32_keeps; [exact E | clear E]
  end : sticky.

#[export] Hint Extern 1 (error ?s1 = true) =>
  match goal with
  | E : writeFloat _ _ _ _ = Some s1 |- _ =>
      eapply writeFloat_keeps; [exact E | clear E]
  end : sticky.

#[export] Hint Extern 1 (error ?s1 = true) =>
  match goal with
  | E : readFloat _ _ = Some (_, s1) |- _ =>
      eapply readFloat_keeps; [exact E | clear E]
  end : sticky.

#[export] Hint Extern 1 (error ?s1 = true) =>
  match goal with
  | E : writeSignedFloat _ _ _ _ = Some s1 |- _ =>
      eapply writeSignedFloat_keeps; [exact E | clear E]
  end : sticky.

#[export] Hint Extern 1 (error ?s1 = true) =>
  match goal with
  | E : readSignedFloat _ _ = Some (_, s1) |- _ =>
      eapply readSignedFloat_keeps; [exact E | clear E]
  end : sticky.

#[export] Hint Extern 1 (error ?s1 = true) =>
  match goal with
  | E : writeNormalVector _ _ _ _ = Some s1 |- _ =>
      eapply writeNormalVector_keeps; [exact E | clear E]
  end : sticky.

#[export] Hint Extern 1 (error ?s1 = true) =>
  match goal with
  | E : readNormalVector _ _ = Some (_, s1) |- _ =>
      eapply readNormalVector_keeps; [exact E | clear E]
  end : sticky.

#[export] Hint Extern 1 (error ?s1 = true) =>
  match goal with
  | E : writeNormalVector2 _ _ _ _ _ = Some s1 |- _ =>
      eapply writeNormalVector2_keeps; [exact E | clear E]
  end : sticky.

#[export] Hint Extern 1 (error ?s1 = true) =>
  match goal with
  | E : readNormalVector2 _ _ _ _ = Some (_, s1) |- _ =>
      eapply readNormalVector2_keeps; [exact E | clear E]
  end : sticky.

#[export] Hint Extern 1 (error ?s1 = true) =>
  match goal with
  | E : writeVector _ _ _ _ _ _ _ _ = Some s1 |- _ =>
      eapply writeVector_keeps; [exact E | clear E]
  end : sticky.

#[export] Hint Extern 1 (error ?s1 = true) =>
  match goal with
  | E : readVector _ _ _ _ _ _ _ = Some (_, s1) |- _ =>
      eapply readVector_keeps; [exact E | clear E]
  end : sticky.

#[export] Hint Extern 1 (error ?s1 = true) =>
  match goal with
  | E : mathWrite _ _ _ = Some s1 |- _ =>
      eapply mathWrite_keeps; [exact E | clear E]
  end : sticky.

#[export] Hint Extern 1 (error ?s1 = true) =>
  match goal with
  | E : mathRead _ _ = Some (_, s1) |- _ =>
      eapply mathRead_keeps; [exact E | clear E]
  end : sticky.

#[export] Hint Extern 1 (error ?s1 = true) =>
  match goal with
  | E : writeAffineTransform _ _ _ = Some s1 |- _ =>
      eapply writeAffineTransform_keeps; [exact E | clear E]
  end : sticky.

#[export] Hint Extern 1 (error ?s1 = true) =>
  match goal with
  | E : readAffineTransform _ _ _ = Some (_, s1) |- _ =>
      eapply readAffineTransform_keeps; [exact E | clear E]
  end : sticky.

#[export] Hint Extern 1 (error ?s1 = true) =>
  match goal with
  | E : writeCompressedPoint _ _ _ _ = Some s1 |- _ =>
      eapply writeCompressedPoint_keeps; [exact E | clear E]
  end : sticky.

#[export] Hint Extern 1 (error ?s1 = true) =>
  match goal with
  | E : readCompressedPoint _ _ _ = Some (_, s1) |- _ =>
      eapply readCompressedPoint_keeps; [exact E | clear E]
  end : sticky.

#[export] Hint Extern 1 (error ?s1 = true) =>
  match goal with
  | E : writeClassId _ _ _ _ _ _ = Some s1 |- _ =>
      eapply writeClassId_keeps; [exact E | clear E]
  end : sticky.

#[export] Hint Extern 1 (error ?s1 = true) =>
  match goal with
  | E : readClassId _ _ _ _ _ = Some (_, s1) |- _ =>
      eapply readClassId_keeps; [exact E | clear E]
  end : sticky.

#[export] Hint Extern 1 (error ?s1 = true) =>
  match goal with
  | E : writeCodes _ _ _ _ _ _ = Some s1 |- _ =>
      eapply writeCodes_keeps; [exact E | clear E]
  end : sticky.

#[export] Hint Extern 1 (error ?s1 = true) =>
  match goal with
  | E : writeHuffBuffer _ _ _ _ _ = Some (_, s1) |- _ =>
      eapply writeHuffBuffer_keeps; [exact E | clear E]
  end : sticky.

#[export] Hint Extern 1 (error ?s1 = true) =>
  match goal with
  | E : writeString _ _ _ _ _ = Some (_, s1) |- _ =>
      eapply writeString_keeps; [exact E | clear E]
  end : sticky.

#[export] Hint Extern 1 (error ?s1 = true) =>
  match goal with
  | E : decodeSymbol _ _ _ _ = Some (_, s1) |- _ =>
      eapply decodeSymbol_keeps; [exact E | clear E]
  end : sticky.

#[export] Hint Extern 1 (error ?s1 = true) =>
  match goal with
  | E : decodeSymbols _ _ _ _ _ = Some (_, s1) |- _ =>
      eapply decodeSymbols_keeps; [exact E | clear E]
  end : sticky.

#[export] Hint Extern 1 (error ?s1 = true) =>
  match goal with
  | E : readHuffBuffer _ _ _ = Some (_, _, s1) |- _ =>
      eapply readHuffBuffer_keeps; [exact E | clear E]
  end : sticky.

#[export] Hint Extern 1 (error ?s1 = true) =>
  match goal with
  | E : readString _ _ _ = Some (_, _, s1) |- _ =>
      eapply readString_keeps; [exact E | clear E]
  end : sticky.

(** ** Reads of appended bits *)

Lemma appended_holds (s s' : BitStream) (bits : list bool) :
  appended s s' bits -> holds (dataPtr s') (bitNum s) bits.
Proof. intros (_ & _ & _ & H). exact H. Qed.

Lemma holds_app (m : list Z) (c : Z) (b1 b2 : list bool) :
  holds m c (b1 ++ b2) ->
  holds m c b1 /\ holds m (c + Z.of_nat (length b1)) b2.
Proof.
  intros H. split; intros j b Hj.
  - apply H. apply lookup_app_l_Some, Hj.
  - replace (c + Z.of_nat (length b1) + Z.of_nat j)
      with (c + Z.of_nat (length b1 + j)) by lia.
    apply H. rewrite lookup_app_r by lia.
    replace (length b1 + j - length b1)%nat with j by lia. exact Hj.
Qed.

Lemma readable_advance (r : BitStream) (k n : Z) :
  readable r k -> 0 <= n -> readable (set_bitNum (bitNum r + n) r) (k - n).
Proof. unfold readable. simpl. lia. Qed.

Lemma readFlag_holds (r : BitStream) (k : Z) (b : bool) (rest : list bool) :
  readable r k -> 1 <= k ->
  holds (dataPtr r) (bitNum r) (b :: rest) ->
  readFlag r = Some (b, set_bitNum (bitNum r + 1) r).
Proof.
  intros (Hc & Hmax & Hlen & Hov) Hk Hh.
  destruct (div8_facts (bitNum r)) as [Hcd Hcm].
  destruct (readFlag_total r) as [[g r'] Hrf]; try lia.
  destruct (readFlag_run r g r' Hc ltac:(lia) ltac:(lia) Hrf) as (-> & ->).
  rewrite Hrf. do 2 f_equal.
  specialize (Hh O b eq_refl). rewrite Z.add_0_r in Hh. exact Hh.
Qed.

Lemma readInt_holds (r : BitStream) (k n x : Z) (rest : list bool) :
  readable r k -> 0 < n <= 32 -> n <= k ->
  holds (dataPtr r) (bitNum r) (intBits x n ++ rest) ->
  exists v, readInt n r = Some (v, set_bitNum (bitNum r + n) r) /\
    (forall j, 0 <= j < n -> Z.testbit v j = Z.testbit x j) /\
    (n < 32 -> v = x mod 2 ^ n) /\ - 2 ^ 31 <= v < 2 ^ 31.
Proof.
  intros (Hc & Hmax & Hlen & Hov) Hn Hk Hh.
  destruct (div8_facts (bitNum r)) as [Hcd Hcm].
  destruct (div8_facts (n + 7)) as [Hnd Hnm].
  destruct (readInt_total n r) as [[v r'] Hri]; try lia.
  destruct (readInt_run n r v r' Hc Hn ltac:(lia) ltac:(lia) Hri)
    as (-> & Hbits & Hsmall & Hrange).
  exists v. split; [exact Hri |].
  assert (Hvx : forall j, 0 <= j < n -> Z.testbit v j = Z.testbit x j).
  { intros j Hj. rewrite Hbits by lia.
    replace j with (Z.of_nat (Z.to_nat j)) at 1 by lia.
    apply Hh. apply lookup_app_l_Some. unfold intBits, bitsOf.
    rewrite list_lookup_fmap, lookup_seqZ_lt by lia. simpl.
    do 2 f_equal. lia. }
  split; [exact Hvx |]. split; [| exact Hrange].
  intros Hlt. specialize (Hsmall Hlt).
  apply (Z_bits_small v (x mod 2 ^ n) n); try lia.
  - apply Z.mod_pos_bound, Z.pow_pos_nonneg; lia.
  - intros j Hj. rewrite Z.mod_pow2_bits_low by lia. apply Hvx, Hj.
Qed.

Lemma leU32_range (m : list Z) : 0 <= leU32 m < 256 ^ Z.of_nat (length m).
Proof.
  induction m as [| b m IH]; [simpl; lia |].
  change (leU32 (b :: m)) with (wrapU8 b + 256 * leU32 m).
  pose proof (wrapU8_range b).
  replace (Z.of_nat (length (b :: m))) with (Z.succ (Z.of_nat (length m)))
    by (simpl length; lia).
  rewrite Z.pow_succ_r by lia. lia.
Qed.

Section PointCodec.

Context {math : MathOps}.
Variable adjacent : Z -> Z.

Lemma writeSignedInt_appended (v w : Z) (s : BitStream) (k : Z) :
  room s k -> 1 <= w <= 33 -> w <= k ->
  exists s', writeSignedInt adjacent v w s = Some s' /\
             appended s s' (signedBits v w).
Proof.
  intros Hroom Hw Hk. unfold writeSignedInt, signedBits.
  destruct (writeFlag_appended (v <? 0) s k Hroom) as (s1 & Hw1 & Ha1); [lia |].
  rewrite Hw1. cbn [mbind option_bind].
  pose proof (appended_room _ _ _ _ Ha1 Hroom) as Hroom1. simpl in Hroom1.
  rewrite (wrapS32_id (w - 1)) by lia.
  destruct (writeInt_appended adjacent (if v <? 0 then wrapS32 (- v) else v)
              (w - 1) s1 (k - 1) Hroom1) as (s2 & Hw2 & Ha2); [lia | lia |].
  exists s2. split.
  - destruct (v <? 0); exact Hw2.
  - apply (appended_trans _ _ _ [v <? 0] _ Ha1 Ha2).
Qed.

Lemma readSignedInt_holds (r : BitStream) (k v w : Z) (rest : list bool) :
  readable r k -> 1 < w <= 32 -> w <= k ->
  holds (dataPtr r) (bitNum r) (signedBits v w ++ rest) ->
  readSignedInt w r = Some (decodeSigned v w, set_bitNum (bitNum r + w) r).
Proof.
  intros Hread Hw Hk Hh. unfold readSignedInt, signedBits in *.
  set (m := if v <? 0 then wrapS32 (- v) else v) in *.
  rewrite (readFlag_holds r k (v <? 0) (intBits m (w - 1) ++ rest) Hread
             ltac:(lia) Hh).
  cbn [mbind option_bind]. rewrite (wrapS32_id (w - 1)) by lia.
  pose proof (readable_advance r k 1 Hread ltac:(lia)) as Hread1.
  destruct (readInt_holds (set_bitNum (bitNum r + 1) r) (k - 1) (w - 1) m rest
              Hread1) as (x & Hri & _ & Hx & _); [lia | lia | |].
  { apply (holds_app _ _ [v <? 0]) in Hh as [_ Hh]. exact Hh. }
  rewrite Hri. specialize (Hx ltac:(lia)). subst x.
  unfold decodeSigned. fold m.
  replace (set_bitNum (bitNum (set_bitNum (bitNum r + 1) r) + (w - 1))
             (set_bitNum (bitNum r + 1) r))
    with (set_bitNum (bitNum r + w) r)
    by (unfold set_bitNum; simpl; f_equal; lia).
  destruct (v <? 0); reflexivity.
Qed.

Lemma writeF32_appended (f : Z) (s : BitStream) (k : Z) :
  room s k -> 32 <= k ->
  exists s', writeF32 adjacent f s = Some s' /\ appended s s' (intBits f 32).
Proof.
  intros Hroom Hk.
  destruct (writeInt_appended adjacent f 32 s k Hroom) as (s' & Hw & Ha);
    [lia | lia |].
  exists s'. split; [exact Hw | exact Ha].
Qed.

Lemma readF32_holds (r : BitStream) (k old x : Z) (rest : list bool) :
  readable r k -> 32 <= k ->
  holds (dataPtr r) (bitNum r) (intBits x 32 ++ rest) ->
  readF32 old r = Some (wrapU32 x, set_bitNum (bitNum r + 32) r).
Proof.
  intros (Hc & Hmax & Hlen & Hov) Hk Hh. unfold readF32, _read.
  change (wrapS32 (Z.shiftl 4 3)) with 32.
  destruct (div8_facts (bitNum r)) as [Hcd Hcm].
  change ((32 + 7) / 8) with 4 in *.
  destruct (readBits_total 32 (obj32 old) r) as [[m r'] Hrd];
    change ((32 + 7) / 8) with 4; try (simpl length; lia).
  rewrite Hrd. cbn [mbind option_bind].
  apply readBits_run in Hrd as (-> & Hlm & _ & _ & _ & Hbytes); try lia.
  do 2 f_equal.
  pose proof (leU32_range m) as Hr. rewrite Hlm in Hr. simpl in Hr.
  apply (Z_bits_small (leU32 m) (wrapU32 x) 32); try lia.
  - unfold wrapU32. apply Z.mod_pos_bound. lia.
  - intros j Hj. destruct (div8_facts j) as [Hjd Hjm].
    rewrite testbit_leU32 by lia.
    change ((32 + 7) / 8) with 4 in Hbytes.
    destruct (Hbytes (j / 8) ltac:(lia)) as (v & -> & Hv & Hvb). simpl.
    rewrite wrapU8_id, Hvb by lia.
    unfold wrapU32. rewrite Z.mod_pow2_bits_low by lia.
    replace (bitNum r + 8 * (j / 8) + j mod 8)
      with (bitNum r + Z.of_nat (Z.to_nat j)) by lia.
    apply Hh. apply lookup_app_l_Some. unfold intBits, bitsOf.
    rewrite list_lookup_fmap, lookup_seqZ_lt by lia. simpl.
    do 2 f_equal. lia.
Qed.

End PointCodec.

Lemma length_intBits (v n : Z) :
  0 <= n -> Z.of_nat (length (intBits v n)) = n.
Proof. intros Hn. unfold intBits. rewrite length_bitsOf. lia. Qed.

Lemma length_signedBits (v w : Z) :
  1 <= w -> Z.of_nat (length (signedBits v w)) = w.
Proof.
  intros Hw. unfold signedBits. cbn [length].
  rewrite Nat2Z.inj_succ, length_intBits by lia. lia.
Qed.

Section PointSteps.

Context {math : MathOps}.
Variable adjacent : Z -> Z.

Lemma tiered_write (x y z w : Z) (s : BitStream) (k : Z) :
  room s k -> 1 <= w <= 32 -> 3 * w <= k ->
  exists s3,
    (writeSignedInt adjacent x w s ≫= fun s2 =>
     writeSignedInt adjacent y w s2 ≫= fun s3 =>
     writeSignedInt adjacent z w s3) = Some s3 /\
    appended s s3 (signedBits x w ++ signedBits y w ++ signedBits z w).
Proof.
  intros Hroom Hw Hk.
  destruct (writeSignedInt_appended adjacent x w s k Hroom) as (s1 & H1 & A1);
    [lia | lia |].
  pose proof (appended_room _ _ _ _ A1 Hroom) as R1.
  rewrite length_signedBits in R1 by lia.
  destruct (writeSignedInt_appended adjacent y w s1 (k - w) R1) as (s2 & H2 & A2);
    [lia | lia |].
  pose proof (appended_room _ _ _ _ A2 R1) as R2.
  rewrite length_signedBits in R2 by lia.
  destruct (writeSignedInt_appended adjacent z w s2 (k - w - w) R2)
    as (s3 & H3 & A3); [lia | lia |].
  exists s3. rewrite H1. cbn [mbind option_bind]. rewrite H2.
  cbn [mbind option_bind]. split; [exact H3 |].
  apply (appended_trans _ _ _ _ _ A1). apply (appended_trans _ _ _ _ _ A2 A3).
Qed.

Lemma raw_write (x y z : Z) (s : BitStream) (k : Z) :
  room s k -> 96 <= k ->
  exists s3,
    (writeF32 adjacent x s ≫= fun s2 =>
     writeF32 adjacent y s2 ≫= fun s3 => writeF32 adjacent z s3) = Some s3 /\
    appended s s3 (intBits x 32 ++ intBits y 32 ++ intBits z 32).
Proof.
  intros Hroom Hk.
  destruct (writeF32_appended adjacent x s k Hroom) as (s1 & H1 & A1); [lia |].
  pose proof (appended_room _ _ _ _ A1 Hroom) as R1.
  rewrite length_intBits in R1 by lia.
  destruct (writeF32_appended adjacent y s1 (k - 32) R1) as (s2 & H2 & A2); [lia |].
  pose proof (appended_room _ _ _ _ A2 R1) as R2.
  rewrite length_intBits in R2 by lia.
  destruct (writeF32_appended adjacent z s2 (k - 32 - 32) R2) as (s3 & H3 & A3);
    [lia |].
  exists s3. rewrite H1. cbn [mbind option_bind]. rewrite H2.
  cbn [mbind option_bind]. split; [exact H3 |].
  apply (appended_trans _ _ _ _ _ A1). apply (appended_trans _ _ _ _ _ A2 A3).
Qed.

Lemma tiered_read (x y z w : Z) (r : BitStream) (k : Z) :
  readable r k -> 1 < w <= 32 -> 3 * w <= k ->
  holds (dataPtr r) (bitNum r)
    (signedBits x w ++ signedBits y w ++ signedBits z w) ->
  exists r1 r2,
    readSignedInt w r = Some (decodeSigned x w, r1) /\
    readSignedInt w r1 = Some (decodeSigned y w, r2) /\
    readSignedInt w r2
    = Some (decodeSigned z w, set_bitNum (bitNum r + 3 * w) r).
Proof.
  intros Hread Hw Hk Hh.
  pose proof (readSignedInt_holds r k x w _ Hread Hw ltac:(lia) Hh) as H1.
  apply holds_app in Hh as [_ Hh]. rewrite length_signedBits in Hh by lia.
  pose proof (readable_advance r k w Hread ltac:(lia)) as R1.
  pose proof (readSignedInt_holds (set_bitNum (bitNum r + w) r) (k - w) y w _
                R1 Hw ltac:(lia) Hh) as H2.
  apply holds_app in Hh as [_ Hh]. rewrite length_signedBits in Hh by lia.
  pose proof (readable_advance _ (k - w) w R1 ltac:(lia)) as R2.
  rewrite <- (app_nil_r (signedBits z w)) in Hh.
  pose proof (readSignedInt_holds _ (k - w - w) z w [] R2 Hw ltac:(lia) Hh) as H3.
  eexists. eexists. split; [exact H1 |]. split; [exact H2 |].
  rewrite H3. do 2 f_equal. unfold set_bitNum. simpl. f_equal. lia.
Qed.

Lemma raw_read (x y z ox oy oz : Z) (r : BitStream) (k : Z) :
  readable r k -> 96 <= k ->
  holds (dataPtr r) (bitNum r) (intBits x 32 ++ intBits y 32 ++ intBits z 32) ->
  exists r1 r2,
    readF32 ox r = Some (wrapU32 x, r1) /\
    readF32 oy r1 = Some (wrapU32 y, r2) /\
    readF32 oz r2 = Some (wrapU32 z, set_bitNum (bitNum r + 96) r).
Proof.
  intros Hread Hk Hh.
  pose proof (readF32_holds r k ox x _ Hread ltac:(lia) Hh) as H1.
  apply holds_app in Hh as [_ Hh]. rewrite length_intBits in Hh by lia.
  pose proof (readable_advance r k 32 Hread ltac:(lia)) as R1.
  pose proof (readF32_holds (set_bitNum (bitNum r + 32) r) (k - 32) oy y _
                R1 ltac:(lia) Hh) as H2.
  apply holds_app in Hh as [_ Hh]. rewrite length_intBits in Hh by lia.
  pose proof (readable_advance _ (k - 32) 32 R1 ltac:(lia)) as R2.
  rewrite <- (app_nil_r (intBits z 32)) in Hh.
  pose proof (readF32_holds _ (k - 32 - 32) oz z [] R2 ltac:(lia) Hh) as H3.
  eexists. eexists. split; [exact H1 |]. split; [exact H2 |].
  rewrite H3. do 2 f_equal. unfold set_bitNum. simpl. f_equal. lia.
Qed.

End PointSteps.

(** ** A guard that does not fire

    When the sum computed by the guard is not above the ceiling (as it is
    when it wrapped in [S32]) while the byte of the cursor lies outside
    the buffer, the first access leaves the buffer. *)
Lemma writeBits_off_buffer (n : Z) (ptr : Z -> Z) (s : BitStream) :
  n <> 0 -> wrapS32 (n + bitNum s) <= maxWriteBitNum s ->
  Z.of_nat (length (dataPtr s)) <= Z.shiftr (bitNum s) 3 ->
  writeBits n ptr s = None.
Proof.
  intros Hn Hg Hoff. unfold writeBits.
  destruct (Z.eqb_spec n 0); [contradiction |].
  destruct (Z.gtb_spec (wrapS32 (n + bitNum s)) (maxWriteBitNum s)); [lia |].
  rewrite load_out_of_range by exact Hoff. reflexivity.
Qed.

Lemma readBits_off_buffer (n : Z) (dst : list Z) (s : BitStream) :
  n <> 0 -> wrapS32 (n + bitNum s) <= maxReadBitNum s ->
  Z.of_nat (length (dataPtr s)) <= Z.shiftr (bitNum s) 3 ->
  readBits n dst s = None.
Proof.
  intros Hn Hg Hoff. unfold readBits.
  destruct (Z.eqb_spec n 0); [contradiction |].
  destruct (Z.gtb_spec (wrapS32 (n + bitNum s)) (maxReadBitNum s)); [lia |].
  destruct (_ <? 0); [reflexivity |].
  rewrite load_out_of_range by exact Hoff. reflexivity.
Qed.

(* ================================================================== *)
(** * The stream's contract *)

(** ** Signed integers (C1) *)

(** C1, as amended: for every width [1 < n <= 32] and every [v] with
    [-2^(n-1) < v < 2^(n-1)], [writeSignedInt v n] followed by
    [readSignedInt n] from the same bit position returns exactly [v],
    provided both operations are in range and the buffer holds the byte
    after the field that [readBits] touches.  The encoding is a sign flag
    followed by the magnitude in [n-1] bits, so [-2^(n-1)] (admitted by the
    claim as stated) is not representable. *)
Theorem signed_int_roundtrip (adjacent : Z -> Z) (s : BitStream) (n v : Z) :
  1 < n <= 32 ->
  - 2 ^ (n - 1) < v < 2 ^ (n - 1) ->
  0 <= bitNum s -> bitNum s + n < 2 ^ 31 ->
  bitNum s + n <= maxWriteBitNum s ->
  bitNum s + n <= maxReadBitNum s ->
  (bitNum s + 1) / 8 + (n + 6) / 8 < Z.of_nat (length (dataPtr s)) ->
  exists s1 s2,
    writeSignedInt adjacent v n s = Some s1 /\
    bitNum s1 = bitNum s + n /\ error s1 = error s /\
    readSignedInt n (setCurPos (bitNum s) s1) = Some (v, s2) /\
    bitNum s2 = bitNum s + n.
Proof.
  intros Hn Hv Hc Hov Hmw Hmr Hlen.
  assert (Hp : 2 ^ (n - 1) <= 2 ^ 31) by (apply Z.pow_le_mono_r; lia).
  set (m := if v <? 0 then wrapS32 (- v) else v).
  assert (Hm : 0 <= m < 2 ^ (n - 1)).
  { unfold m. destruct (Z.ltb_spec v 0); [rewrite wrapS32_id |]; lia. }
  destruct (flag_then_int_roundtrip adjacent s (v <? 0) m (n - 1))
    as (s1 & s2 & s3 & Hwf & Hwi & Hc2 & He2 & Hrf & Hri);
    try lia.
  { replace (n - 1 + 7) with (n + 6) by lia. exact Hlen. }
  exists s2, (set_bitNum (bitNum s + 1 + (n - 1)) s2).
  unfold writeSignedInt, readSignedInt.
  rewrite Hwf, Hrf. simpl. rewrite (wrapS32_id (n - 1)) by lia.
  split.
  { unfold m in Hwi. destruct (v <? 0); exact Hwi. }
  split; [lia |]. split; [exact He2 |]. split; [| simpl; lia].
  rewrite Hri. simpl. unfold m.
  destruct (Z.ltb_spec v 0); [| reflexivity].
  rewrite (wrapS32_id (- v)) by lia.
  rewrite wrapS32_id by lia. do 2 f_equal. lia.
Qed.

Lemma signed_int_roundtrip_witness :
  (1 < 16 <= 32) /\ (- 2 ^ (16 - 1) < -12345 < 2 ^ (16 - 1)) /\
  exists s1 s2,
    writeSignedInt noise (-12345) 16 exampleStream = Some s1 /\
    bitNum s1 = bitNum exampleStream + 16 /\ error s1 = error exampleStream /\
    readSignedInt 16 (setCurPos (bitNum exampleStream) s1) = Some (-12345, s2) /\
    bitNum s2 = bitNum exampleStream + 16.
Proof.
  split; [lia |]. split; [lia |].
  apply (signed_int_roundtrip noise exampleStream 16 (-12345));
    vm_compute; intuition discriminate.
Defined.

(** C1 as stated fails at the lower end of its interval: with [n = 2] the
    value [-2 = -2^(n-1)] is written as flag 1 and magnitude [2 mod 2 = 0],
    and reads back as [0]. *)
Lemma signed_int_roundtrip_fails_at_minimum :
  (1 < 2 <= 32) /\ (- 2 ^ (2 - 1) <= -2 < 2 ^ (2 - 1)) /\
  exists s1 s2,
    writeSignedInt noise (-2) 2 exampleStream = Some s1 /\ error s1 = false /\
    readSignedInt 2 (setCurPos (bitNum exampleStream) s1) = Some (0, s2) /\
    0 <> -2.
Proof.
  split; [lia |]. split; [lia |].
  eexists. eexists.
  split; [vm_compute; reflexivity |]. split; [reflexivity |].
  split; [vm_compute; reflexivity | discriminate].
Qed.

(** ** Out-of-range writes (C2) *)




(** ** Out-of-range reads (C3) *)




(** Where the sum wraps the read guard does not fire either: after
    [setPosition 268435455] a read of 16 bits sets no error and goes on at
    byte 268435455, outside the buffer. *)
Lemma readBits_sum_wraps :
  bitNum (setPosition 268435455 exampleStream) + 16
    > maxReadBitNum (setPosition 268435455 exampleStream) /\
  wrapS32 (16 + bitNum (setPosition 268435455 exampleStream)) = - 2 ^ 31 + 8 /\
  readBits 16 [171; 171] (setPosition 268435455 exampleStream) = None.
Proof.
  split; [reflexivity |]. split; [reflexivity |].
  apply readBits_off_buffer;
    [discriminate | vm_compute; discriminate | vm_compute; discriminate].
Qed.

(** ** The frame of a write (C4) *)

(** C4: after a successful [writeBits n src] at bit position [c], the last
    touched byte has no bit set above index [(c + n - 1) mod 8], the first
    touched byte keeps its bits below index [c mod 8], and the bytes outside
    [[c/8, (c+n-1)/8]] are unchanged. *)
Theorem write_frame (n : Z) (src : Z -> Z) (s s' : BitStream) :
  0 <= bitNum s -> 0 < n -> bitNum s + n < 2 ^ 31 ->
  bitNum s + n <= maxWriteBitNum s ->
  writeBits n src s = Some s' ->
  (exists last,
      dataPtr s' !! Z.to_nat ((bitNum s + n - 1) / 8) = Some last /\
      forall b, (bitNum s + n - 1) mod 8 < b -> Z.testbit last b = false) /\
  (exists first first',
      dataPtr s !! Z.to_nat (bitNum s / 8) = Some first /\
      dataPtr s' !! Z.to_nat (bitNum s / 8) = Some first' /\
      forall b, 0 <= b < bitNum s mod 8 ->
        Z.testbit first' b = Z.testbit first b) /\
  (forall j : nat,
      Z.of_nat j < bitNum s / 8 \/ (bitNum s + n - 1) / 8 < Z.of_nat j ->
      dataPtr s' !! j = dataPtr s !! j).
Proof.
  intros Hc Hn Hov Hmax Hrun.
  destruct (writeBits_run n src s s' Hc Hn Hov Hmax Hrun)
    as (_ & Hlen & Hin & Hout & Hbytes).
  destruct (div8_facts (bitNum s)) as [Hcd Hcm].
  destruct (div8_facts (bitNum s + n - 1)) as [Hed Hem].
  split; [| split; [| exact Hout]].
  - destruct (Hbytes ((bitNum s + n - 1) / 8) ltac:(lia))
      as (last & Hlast & Hrange & Hbits).
    exists last. split; [exact Hlast |]. intros b Hb.
    destruct (Z_lt_le_dec b 8) as [Hb8 | Hb8].
    + rewrite Hbits by lia.
      destruct (Z.ltb_spec (8 * ((bitNum s + n - 1) / 8) + b) (bitNum s)); [lia |].
      destruct (Z.ltb_spec (8 * ((bitNum s + n - 1) / 8) + b) (bitNum s + n));
        [lia | reflexivity].
    + rewrite <- (wrapU8_id last) by exact Hrange.
      rewrite testbit_wrapU8.
      destruct (Z.ltb_spec b 8); [lia | reflexivity].
  - destruct (Hbytes (bitNum s / 8) ltac:(lia)) as (first' & Hf' & _ & Hbits).
    destruct (lookup_lt_is_Some_2 (dataPtr s) (Z.to_nat (bitNum s / 8)))
      as [first Hf]; [lia |].
    exists first, first'. split; [exact Hf |]. split; [exact Hf' |].
    intros b Hb. rewrite Hbits by lia.
    destruct (Z.ltb_spec (8 * (bitNum s / 8) + b) (bitNum s)); [| lia].
    apply bitAt_lookup; [lia | lia | exact Hf].
Qed.

Lemma write_frame_witness :
  exists s',
    writeBits 9 (mem32 noise 257) (setCurPos 13 exampleStream) = Some s' /\
    (exists last,
        dataPtr s' !! Z.to_nat ((13 + 9 - 1) / 8) = Some last /\
        forall b, (13 + 9 - 1) mod 8 < b -> Z.testbit last b = false) /\
    (exists first first',
        dataPtr exampleStream !! Z.to_nat (13 / 8) = Some first /\
        dataPtr s' !! Z.to_nat (13 / 8) = Some first' /\
        forall b, 0 <= b < 13 mod 8 -> Z.testbit first' b = Z.testbit first b) /\
    (forall j : nat,
        Z.of_nat j < 13 / 8 \/ (13 + 9 - 1) / 8 < Z.of_nat j ->
        dataPtr s' !! j = dataPtr exampleStream !! j).
Proof.
  eexists. split; [vm_compute; reflexivity |].
  apply (write_frame 9 (mem32 noise 257) (setCurPos 13 exampleStream));
    [vm_compute; discriminate | lia | vm_compute; reflexivity
    | vm_compute; discriminate | vm_compute; reflexivity].
Defined.

(** ** The byte after the field (C10) *)

(** C10: an in-range [readBits n] (one that passes the guard
    [bit_cursor + n <= max_read_bits]) loads the byte at index
    [bit_cursor / 8 + ceil(n / 8)], and the guard does not cover that load:
    when the index is outside the buffer the load, and with it the read,
    has no result; when the byte is there (and the destination has
    [ceil(n / 8)] bytes) the read returns the [n] bits from the cursor on,
    byte by byte, and advances the cursor by [n].  The first witness is the
    read of 8 bits at cursor 0 from a one-byte buffer with
    [max_read_bits = 8]: the last byte of the field is byte 0, the byte
    loaded after it is byte 1.  The second is the same read with byte 1
    present. *)
Theorem read_touches_next_byte (s : BitStream) (n : Z) (dst : list Z) :
  0 <= bitNum s -> 0 < n -> n + 7 < 2 ^ 31 -> bitNum s + n < 2 ^ 31 ->
  bitNum s + n <= maxReadBitNum s ->
  (load (dataPtr s) (bitNum s / 8 + (n + 7) / 8) = None ->
     readBits n dst s = None) /\
  ((n + 7) / 8 <= Z.of_nat (length dst) ->
   is_Some (load (dataPtr s) (bitNum s / 8 + (n + 7) / 8)) ->
     exists dst',
       readBits n dst s = Some (dst', set_bitNum (bitNum s + n) s) /\
       length dst' = length dst /\
       (forall j : nat, (n + 7) / 8 <= Z.of_nat j -> dst' !! j = dst !! j) /\
       (forall t, 0 <= t < (n + 7) / 8 ->
          exists v, dst' !! Z.to_nat t = Some v /\ 0 <= v < 256 /\
            forall b, 0 <= b < 8 ->
              Z.testbit v b = bitAt (dataPtr s) (bitNum s + 8 * t + b))).
Proof.
  intros Hc Hn Hov7 Hov Hmax.
  destruct (div8_facts (bitNum s)) as [Hcd Hcm].
  destruct (div8_facts (n + 7)) as [Hnd Hnm].
  split.
  - intros Hload.
    destruct (readBits n dst s) as [[dst' s'] |] eqn:Hrd; [| reflexivity].
    apply readBits_run in Hrd as (_ & _ & _ & Hlen & _); try lia.
    destruct (load_in_range (dataPtr s) (bitNum s / 8 + (n + 7) / 8))
      as (b & Hb & _); [lia |].
    congruence.
  - intros Hdst Hload. apply load_is_Some in Hload.
    destruct (readBits_total n dst s) as [[dst' s'] Hrd]; try lia.
    pose proof (readBits_run n dst s dst' s' Hc Hn Hov Hov7 Hmax Hrd)
      as (-> & Hlen & _ & _ & Hout & Hin).
    exists dst'. split; [exact Hrd |]. split; [exact Hlen |].
    split; [exact Hout | exact Hin].
Qed.

Lemma read_touches_next_byte_witness :
  (bitNum oneByteStream = 0 /\ bufSize oneByteStream = 1 /\
   maxReadBitNum oneByteStream = 8 /\
   bitNum oneByteStream + 8 <= maxReadBitNum oneByteStream /\
   (bitNum oneByteStream + 8 - 1) / 8 = 0 /\
   load (dataPtr oneByteStream) (0 / 8 + (8 + 7) / 8) = None /\
   readBits 8 [0] oneByteStream = None) /\
  (maxReadBitNum twoByteStream = 8 /\
   load (dataPtr twoByteStream) (0 / 8 + (8 + 7) / 8) = Some 205 /\
   readBits 8 [0] twoByteStream = Some ([171], set_bitNum 8 twoByteStream) /\
   exists dst',
     readBits 8 [0] twoByteStream
     = Some (dst', set_bitNum (bitNum twoByteStream + 8) twoByteStream) /\
     length dst' = length [0] /\
     (forall j : nat, (8 + 7) / 8 <= Z.of_nat j -> dst' !! j = [0] !! j) /\
     (forall t, 0 <= t < (8 + 7) / 8 ->
        exists v, dst' !! Z.to_nat t = Some v /\ 0 <= v < 256 /\
          forall b, 0 <= b < 8 ->
            Z.testbit v b
            = bitAt (dataPtr twoByteStream) (bitNum twoByteStream + 8 * t + b))).
Proof.
  split.
  - repeat (split; [vm_compute; try reflexivity; discriminate |]).
    destruct (read_touches_next_byte oneByteStream 8 [0]) as [Hnone _];
      [vm_compute; discriminate | lia | lia | vm_compute; reflexivity
      | vm_compute; discriminate |].
    apply Hnone. vm_compute. reflexivity.
  - repeat (split; [vm_compute; reflexivity |]).
    destruct (read_touches_next_byte twoByteStream 8 [0]) as [_ Hsome];
      [vm_compute; discriminate | lia | lia | vm_compute; reflexivity
      | vm_compute; discriminate |].
    apply Hsome; [vm_compute; discriminate | vm_compute; eauto].
Defined.

(** ** The Huffman body (C8) *)

(** C8: for a string of [len <= 255] characters, [writeHuffBuffer] sums the
    code lengths of the characters into [numBits] and picks the shorter
    encoding, ties going to raw: when [numBits >= 8 * len] it appends flag
    0, [len] in 8 bits and the [len] raw bytes; otherwise flag 1, [len] in
    8 bits and each character's code at its code length. *)
Theorem huffman_body_selection (adjacent : Z -> Z) (hp hp' : HuffmanProcessor)
    (s : BitStream) (str rest : list Z) (maxLen k : Z) :
  tablesOf hp = Some hp' -> leaves_ok (m_huffLeaves hp') ->
  Forall (fun c => wrapU8 c <> 0) str ->
  Z.of_nat (length str) <= 255 -> Z.of_nat (length str) <= maxLen <= 255 ->
  room s k ->
  9 + Z.max (8 * Z.of_nat (length str)) (totalBits (m_huffLeaves hp') str) <= k ->
  exists s',
    writeHuffBuffer adjacent hp s (Some (str ++ 0 :: rest)) maxLen
    = Some (hp', s') /\
    appended s s'
      (if totalBits (m_huffLeaves hp') str >=? 8 * Z.of_nat (length str)
       then false :: intBits (Z.of_nat (length str)) 8 ++ rawBits str
       else true :: intBits (Z.of_nat (length str)) 8
                 ++ mjoin (codeBits (m_huffLeaves hp') <$> str)).
Proof.
  intros Htab Hok Hnz Hlen Hmax Hroom Hfit.
  assert (Htake : take (Z.to_nat maxLen) str = str) by (apply take_ge; lia).
  destruct (writeHuffBuffer_chars adjacent hp hp' s str rest maxLen k)
    as (s' & Hw & Ha); auto; try lia.
  - rewrite Htake, (length_huffmanBody _ _ Hok).
    destruct (_ >=? _); lia.
  - exists s'. rewrite Htake in Ha. auto.
Qed.

Lemma huffman_body_selection_witness :
  totalBits (m_huffLeaves builtTables) hello = 24 /\
  exists s',
    writeHuffBuffer noise g_huffProcessor exampleStream (Some (hello ++ [0])) 255
    = Some (builtTables, s') /\
    appended exampleStream s'
      (if totalBits (m_huffLeaves builtTables) hello >=? 8 * Z.of_nat (length hello)
       then false :: intBits (Z.of_nat (length hello)) 8 ++ rawBits hello
       else true :: intBits (Z.of_nat (length hello)) 8
                 ++ mjoin (codeBits (m_huffLeaves builtTables) <$> hello)).
Proof.
  split; [vm_compute; reflexivity |].
  apply (huffman_body_selection noise g_huffProcessor builtTables exampleStream
           hello [] 255 256).
  - apply buildTables_fresh.
  - apply builtTables_ok.
  - repeat constructor; vm_compute; discriminate.
  - vm_compute; discriminate.
  - vm_compute; split; discriminate.
  - vm_compute; repeat split; discriminate.
  - vm_compute; discriminate.
Defined.

(** ** Strings on the wire (C7) *)

(** C7, as amended: with a scratch buffer bound, [j] is the length of the
    longest common prefix of the scratch contents and the input, capped by
    [maxLen]; the scratch is overwritten with the input truncated to
    [maxLen] and NUL-terminated; the stream gets flag 1, [j] in 8 bits and
    the Huffman body of the rest of the truncated input when [j > 2], and
    flag 0 followed by the body of the whole truncated input otherwise.
    With no scratch buffer bound the stream gets the Huffman body alone,
    with no flag before it. *)
Theorem writeString_wire (adjacent : Z -> Z) (hp hp' : HuffmanProcessor)
    (s : BitStream) (str rest : list Z) (maxLen k : Z) :
  tablesOf hp = Some hp' -> leaves_ok (m_huffLeaves hp') ->
  Forall (fun c => wrapU8 c <> 0) str ->
  0 <= maxLen <= 255 -> room s k ->
  (forall sb,
      stringBuffer s = Some sb -> length sb = 256%nat ->
      let j := Z.of_nat (Nat.min (Z.to_nat maxLen) (commonPrefix sb str)) in
      let wire := stringWire (m_huffLeaves hp') j (take (Z.to_nat maxLen) str) in
      Z.of_nat (length wire) <= k ->
      exists s' sb',
        writeString adjacent hp (Some (str ++ 0 :: rest)) maxLen s
        = Some (hp', s') /\
        stringBuffer s' = Some sb' /\
        sb' = truncated str maxLen ++ drop (Z.to_nat maxLen + 1) sb /\
        appended (set_stringBuffer (Some sb') s) s' wire) /\
  (stringBuffer s = None ->
   let wire := huffmanBody (m_huffLeaves hp') (take (Z.to_nat maxLen) str) in
   Z.of_nat (length wire) <= k ->
   exists s',
     writeString adjacent hp (Some (str ++ 0 :: rest)) maxLen s = Some (hp', s') /\
     appended s s' wire).
Proof.
  intros Htab Hok Hnz Hmax Hroom. split.
  - intros sb Hsb Hlen j wire Hfit. unfold writeString. rewrite Hsb.
    simpl default.
    pose proof (prefixLoop_spec (Z.to_nat maxLen) [] sb [] str rest 0
                  eq_refl eq_refl ltac:(lia) Hnz) as Hj.
    simpl app in Hj. rewrite Hj. cbn [mbind option_bind].
    change (0 + Z.of_nat (Nat.min (Z.to_nat maxLen) (commonPrefix sb str)))
      with (0 + j).
    rewrite Z.add_0_l.
    destruct (scratch_update_steps sb str rest maxLen Hnz ltac:(lia))
      as (sb1 & Hcopy & Hterm).
    rewrite Hcopy. cbn [mbind option_bind]. rewrite Hterm.
    cbn [mbind option_bind].
    set (sb' := truncated str maxLen ++ drop (Z.to_nat maxLen + 1) sb).
    set (s0 := set_stringBuffer (Some sb') s).
    assert (Hroom0 : room s0 k) by exact Hroom.
    pose proof (commonPrefix_le sb str) as Hcp.
    assert (Hjr : 0 <= j <= maxLen /\ j <= Z.of_nat (length str)) by lia.
    unfold wire, stringWire in Hfit |- *.
    destruct (writeFlag_appended (j >? 2) s0 k Hroom0) as (s1 & Hw1 & Ha1).
    { revert Hfit. destruct (j >? 2); cbn [length]; lia. }
    rewrite Hw1. cbn [mbind option_bind].
    pose proof (appended_room _ _ _ _ Ha1 Hroom0) as Hroom1. simpl in Hroom1.
    assert (Hsb1 : stringBuffer s1 = Some sb')
      by (destruct (appended_fields _ _ _ Ha1) as (_ & _ & -> & _); reflexivity).
    revert Hfit. destruct (j >? 2) eqn:Hj2; cbn [length]; intros Hfit.
    + assert (Hi8 : Z.of_nat (length (intBits j 8)) = 8)
        by (unfold intBits; rewrite length_bitsOf; lia).
      rewrite length_app in Hfit.
      destruct (writeInt_appended adjacent j 8 s1 (k - 1) Hroom1)
        as (s2 & Hw2 & Ha2); [lia | lia |].
      rewrite Hw2. cbn [mbind option_bind].
      pose proof (appended_room _ _ _ _ Ha2 Hroom1) as Hroom2.
      rewrite Hi8 in Hroom2.
      rewrite drop_app_le by lia.
      rewrite (wrapS32_id (maxLen - j)) by lia.
      assert (Hsent : take (Z.to_nat (maxLen - j)) (drop (Z.to_nat j) str)
                      = drop (Z.to_nat j) (take (Z.to_nat maxLen) str)).
      { rewrite take_drop_commute. do 2 f_equal. lia. }
      destruct (writeHuffBuffer_chars adjacent hp hp' s2
                  (drop (Z.to_nat j) str) rest (maxLen - j) (k - 1 - 8))
        as (s3 & Hw3 & Ha3); auto; try lia.
      { apply Forall_drop, Hnz. }
      { rewrite Hsent. lia. }
      rewrite Hw3. exists s3, sb'.
      split; [reflexivity |]. split.
      { destruct (appended_fields _ _ _ Ha3) as (_ & _ & -> & _).
        destruct (appended_fields _ _ _ Ha2) as (_ & _ & -> & _).
        exact Hsb1. }
      split; [reflexivity |].
      rewrite Hsent in Ha3.
      apply (appended_trans _ _ _ [true] _ Ha1).
      apply (appended_trans _ _ _ _ _ Ha2 Ha3).
    + destruct (writeHuffBuffer_chars adjacent hp hp' s1 str rest maxLen (k - 1))
        as (s2 & Hw2 & Ha2); auto; try lia.
      rewrite Hw2. exists s2, sb'.
      split; [reflexivity |]. split.
      { destruct (appended_fields _ _ _ Ha2) as (_ & _ & -> & _). exact Hsb1. }
      split; [reflexivity |].
      apply (appended_trans _ _ _ [false] _ Ha1 Ha2).
  - intros Hsb wire Hfit. unfold writeString. rewrite Hsb. simpl default.
    apply (writeHuffBuffer_chars adjacent hp hp' s str rest maxLen k); auto.
Qed.

Lemma writeString_wire_witness :
  commonPrefix scratchHelloX helloworld = 5%nat /\
  (exists s' sb',
      writeString noise g_huffProcessor (Some (helloworld ++ [0])) 255 scratchStream
      = Some (builtTables, s') /\
      stringBuffer s' = Some sb' /\
      sb' = truncated helloworld 255 ++ drop (Z.to_nat 255 + 1) scratchHelloX /\
      appended (set_stringBuffer (Some sb') scratchStream) s'
        (stringWire (m_huffLeaves builtTables) 5 helloworld)) /\
  (exists s',
      writeString noise g_huffProcessor (Some (hello ++ [0])) 255 exampleStream
      = Some (builtTables, s') /\
      appended exampleStream s' (huffmanBody (m_huffLeaves builtTables) hello)).
Proof.
  split; [reflexivity |]. split.
  - destruct (writeString_wire noise g_huffProcessor builtTables scratchStream
                helloworld [] 255 256) as [Hbound _].
    + apply buildTables_fresh.
    + apply builtTables_ok.
    + repeat constructor; vm_compute; discriminate.
    + lia.
    + vm_compute; repeat split; discriminate.
    + apply (Hbound scratchHelloX); [reflexivity | reflexivity |].
      vm_compute; discriminate.
  - destruct (writeString_wire noise g_huffProcessor builtTables exampleStream
                hello [] 255 256) as [_ Hunbound].
    + apply buildTables_fresh.
    + apply builtTables_ok.
    + repeat constructor; vm_compute; discriminate.
    + lia.
    + vm_compute; repeat split; discriminate.
    + apply Hunbound; [reflexivity |]. vm_compute; discriminate.
Defined.

(** C7 as stated fails when no scratch buffer is bound: "hello" goes out
    as its 33-bit Huffman body, whose first bit is the compressed flag 1;
    the claimed flag 0 followed by the body would be 34 bits starting
    with 0. *)
Lemma writeString_without_scratch_writes_no_flag :
  stringBuffer exampleStream = None /\
  exists s',
    writeString noise g_huffProcessor (Some (hello ++ [0])) 255 exampleStream
    = Some (builtTables, s') /\
    bitNum s' = bitNum exampleStream + 33 /\
    Z.of_nat (length (false :: huffmanBody (m_huffLeaves builtTables) hello)) = 34 /\
    bitAt (dataPtr s') (bitNum exampleStream) = true.
Proof.
  split; [reflexivity |]. eexists.
  split; [vm_compute; reflexivity |].
  split; [reflexivity |]. split; vm_compute; reflexivity.
Qed.

(** ** Compaction (C9) *)

(** C9 against the code: [compact] sets [bufSize] and both ceilings to
    [position + 2 * mMinSpace] and keeps the cursor and the content, but the
    buffer it installs has the size [bufSize] had on entry, not
    [position + 2 * mMinSpace]. *)
Theorem compact_keeps_old_allocation (uninit : Z -> Z) (s : BitStream) :
  0 <= bufSize s < 2 ^ 31 ->
  bufSize s <= Z.of_nat (length (dataPtr s)) ->
  exists s',
    InfiniteBitStream.compact uninit s = Some s' /\
    Z.of_nat (length (dataPtr s')) = bufSize s /\
    dataPtr s' = take (Z.to_nat (bufSize s)) (dataPtr s) /\
    bufSize s' = wrapS32 (wrapU32 (getPosition s + wrapU32 (mMinSpace s * 2))) /\
    maxReadBitNum s' = wrapS32 (Z.shiftl (bufSize s') 3) /\
    maxWriteBitNum s' = wrapS32 (Z.shiftl (bufSize s') 3) /\
    bitNum s' = bitNum s.
Proof.
  intros Hsize Hlen. unfold InfiniteBitStream.compact, dMemcpy, dMalloc.
  assert (Hw : wrapU32 (bufSize s) = bufSize s)
    by (unfold wrapU32; apply Z.mod_small; lia).
  rewrite Hw, length_fmap, length_seqZ.
  destruct (Z.leb_spec 0 (bufSize s)); [| lia].
  destruct (Z.leb_spec (bufSize s) (Z.of_nat (Z.to_nat (bufSize s)))); [| lia].
  destruct (Z.leb_spec (bufSize s) (Z.of_nat (length (dataPtr s)))); [| lia].
  simpl. eexists. split; [reflexivity |]. simpl.
  rewrite drop_ge by (rewrite length_fmap, length_seqZ; lia).
  rewrite app_nil_r, length_take. repeat split. lia.
Qed.

Lemma compact_keeps_old_allocation_witness :
  getPosition compactExample + 2 * mMinSpace compactExample = 18 /\
  exists s',
    InfiniteBitStream.compact noise compactExample = Some s' /\
    Z.of_nat (length (dataPtr s')) = 4 /\
    dataPtr s' = take (Z.to_nat 4) (dataPtr compactExample) /\
    bufSize s' = 18 /\ maxReadBitNum s' = 144 /\ maxWriteBitNum s' = 144 /\
    bitNum s' = bitNum compactExample.
Proof.
  split; [reflexivity |].
  destruct (compact_keeps_old_allocation noise compactExample)
    as (s' & Hrun & Hlen & Hdata & Hsize & Hread & Hwrite & Hcur).
  - vm_compute. split; [discriminate | reflexivity].
  - vm_compute. discriminate.
  - exists s'. rewrite Hread, Hwrite, Hsize.
    repeat split; auto.
Defined.

(** ** The compressed point (C6) *)

(** C6, as amended: [writeCompressedPoint p scale] appends the 2-bit tier
    [T] chosen from the scaled distance [|p - a| * (1 / scale)], the
    product of the length with the rounded reciprocal of the scale, by the
    thresholds [2^15], [2^17], [2^19]; for [T] in 0..2 the three components
    [(p - a) * (1 / scale)], cast to integers, as signed ints of width 16,
    18, 20; for [T = 3] the three raw 32-bit floats of [p]; all this
    provided the field fits under the write ceiling inside the buffer.
    Reading the point back from the same position adds the anchor to the
    scaled integers on the tiered paths and returns the raw floats as they
    are on tier 3.  Floating-point arithmetic is the interface [MathOps];
    the statement holds for every instance of it. *)
Theorem compressed_point_codec {math : MathOps} (adjacent : Z -> Z)
    (s : BitStream) (p : Point3F) (scale k : Z) :
  room s k ->
  Z.of_nat (length (pointWire (mCompressPoint s) p scale)) <= k ->
  exists s',
    writeCompressedPoint adjacent p scale s = Some s' /\
    appended s s' (pointWire (mCompressPoint s) p scale) /\
    forall p0,
      readable (setCurPos (bitNum s) s')
        (Z.of_nat (length (pointWire (mCompressPoint s) p scale))) ->
      exists r',
        readCompressedPoint p0 scale (setCurPos (bitNum s) s')
        = Some (pointRead (mCompressPoint s) p scale, r') /\
        bitNum r' = bitNum s'.
Proof.
  intros Hroom Hfit. set (a := mCompressPoint s) in *.
  set (T := tierOf (scaledDist a p scale)).
  assert (HT : T = 0 \/ T = 1 \/ T = 2 \/ T = 3).
  { unfold T, tierOf. repeat destruct (flt _ _); auto. }
  assert (Hwrite : exists s',
            writeCompressedPoint adjacent p scale s = Some s' /\
            appended s s' (pointWire a p scale)).
  { unfold writeCompressedPoint. fold a.
    change (Z.shiftl 1 15) with (2 ^ 15). change (Z.shiftl 1 17) with (2 ^ 17).
    change (Z.shiftl 1 19) with (2 ^ 19).
    change (if flt _ (f32_of_s32 (2 ^ 15)) then 0 else _) with T.
    unfold pointWire in Hfit |- *. fold T in Hfit |- *.
    rewrite length_app, Nat2Z.inj_add, length_intBits in Hfit by lia.
    destruct (writeInt_appended adjacent T 2 s k Hroom) as (s1 & H1 & A1);
      [lia | lia |].
    rewrite H1. cbn [mbind option_bind].
    pose proof (appended_room _ _ _ _ A1 Hroom) as R1.
    rewrite length_intBits in R1 by lia.
    assert (Hcase : (T <? 3) = negb (T =? 3)) by (destruct HT as [-> | [-> | [-> | ->]]]; reflexivity).
    rewrite <- Hcase. revert Hfit.
    destruct (T <? 3) eqn:Hlt; intros Hfit.
    - assert (Hw : getAt gBitCounts T = Some (tierWidth T) /\
                   (tierWidth T = 16 \/ tierWidth T = 18 \/ tierWidth T = 20)).
      { destruct HT as [-> | [-> | [-> | ->]]]; try discriminate; cbn; auto. }
      destruct Hw as [-> Hw]. cbn [mbind option_bind].
      rewrite !length_app, !Nat2Z.inj_add, !length_signedBits in Hfit by lia.
      destruct (tiered_write adjacent (px (quantized a p scale))
                  (py (quantized a p scale)) (pz (quantized a p scale))
                  (tierWidth T) s1 (k - 2) R1) as (s3 & H3 & A3); [lia | lia |].
      exists s3. split; [exact H3 |].
      apply (appended_trans _ _ _ _ _ A1 A3).
    - rewrite !length_app, !Nat2Z.inj_add, !length_intBits in Hfit by lia.
      destruct (raw_write adjacent (px p) (py p) (pz p) s1 (k - 2) R1)
        as (s3 & H3 & A3); [lia |].
      exists s3. split; [exact H3 |].
      apply (appended_trans _ _ _ _ _ A1 A3). }
  destruct Hwrite as (s' & Hw & Ha). exists s'.
  split; [exact Hw |]. split; [exact Ha |].
  intros p0 Hread.
  set (r := setCurPos (bitNum s) s') in *.
  pose proof (appended_holds _ _ _ Ha) as Hh.
  change (dataPtr s') with (dataPtr r) in Hh.
  change (bitNum s) with (bitNum r) in Hh.
  destruct (appended_fields _ _ _ Ha) as (Hc' & _ & _ & _ & _ & Hanchor & _).
  assert (Hra : mCompressPoint r = a) by exact Hanchor.
  unfold pointWire in Hh, Hread, Hc'. fold T in Hh, Hread, Hc'.
  rewrite length_app, Nat2Z.inj_add, length_intBits in Hread, Hc' by lia.
  unfold readCompressedPoint.
  destruct (readInt_holds r _ 2 T _ Hread ltac:(lia) ltac:(lia) Hh)
    as (t & Hri & _ & Ht & _).
  rewrite Hri. cbn [mbind option_bind].
  assert (Htt : wrapU32 t = T).
  { rewrite (Ht ltac:(lia)).
    destruct HT as [-> | [-> | [-> | ->]]]; reflexivity. }
  rewrite Htt.
  apply holds_app in Hh as [_ Hh]. rewrite length_intBits in Hh by lia.
  pose proof (readable_advance r _ 2 Hread ltac:(lia)) as R1.
  set (r1 := set_bitNum (bitNum r + 2) r) in *.
  change (bitNum r + 2) with (bitNum r1) in Hh.
  change (dataPtr r) with (dataPtr r1) in Hh.
  unfold pointRead. fold T.
  assert (Hcase : (T =? 3) = negb (T <? 3))
    by (destruct HT as [-> | [-> | [-> | ->]]]; reflexivity).
  rewrite Hcase. revert Hh R1 Hc'.
  destruct (T <? 3) eqn:Hlt; intros Hh R1 Hc'; cbn [negb].
  - assert (Hwd : getAt gBitCounts T = Some (tierWidth T) /\
                  (tierWidth T = 16 \/ tierWidth T = 18 \/ tierWidth T = 20)).
    { destruct HT as [-> | [-> | [-> | ->]]]; try discriminate; cbn; auto. }
    destruct Hwd as [-> Hwd]. cbn [mbind option_bind].
    rewrite !length_app, !Nat2Z.inj_add, !length_signedBits in R1, Hc' by lia.
    destruct (tiered_read (px (quantized a p scale)) (py (quantized a p scale))
                (pz (quantized a p scale)) (tierWidth T) r1 _ R1)
      as (q1 & q2 & H1 & H2 & H3); [lia | lia | exact Hh |].
    rewrite H1. cbn [mbind option_bind]. rewrite H2. cbn [mbind option_bind].
    rewrite H3. cbn [mbind option_bind].
    eexists. split.
    + unfold r1, r, setCurPos. cbn [mCompressPoint set_bitNum].
      rewrite Hanchor. reflexivity.
    + simpl. lia.
  - rewrite !length_app, !Nat2Z.inj_add, !length_intBits in R1, Hc' by lia.
    destruct (raw_read (px p) (py p) (pz p) (px p0) (py p0) (pz p0) r1 _ R1)
      as (q1 & q2 & H1 & H2 & H3); [lia | exact Hh |].
    rewrite H1. cbn [mbind option_bind]. rewrite H2. cbn [mbind option_bind].
    rewrite H3. cbn [mbind option_bind].
    eexists. split; [reflexivity |]. simpl. lia.
Qed.

Lemma compressed_point_codec_witness :
  @tierOf binary32Math
    (@scaledDist binary32Math (mCompressPoint exampleStream) floatPoint
       1065353216) = 0 /\
  @pointRead binary32Math (mCompressPoint exampleStream) floatPoint 1065353216
  = floatPoint /\
  exists s',
    @writeCompressedPoint binary32Math noise floatPoint 1065353216 exampleStream
    = Some s' /\
    appended exampleStream s'
      (@pointWire binary32Math (mCompressPoint exampleStream) floatPoint
         1065353216) /\
    bitNum s' = 2 + 3 * 16 /\
    forall p0,
      exists r',
        @readCompressedPoint binary32Math p0 1065353216
          (setCurPos (bitNum exampleStream) s')
        = Some (@pointRead binary32Math (mCompressPoint exampleStream)
                  floatPoint 1065353216, r') /\
        bitNum r' = bitNum s'.
Proof.
  split; [vm_compute; reflexivity |]. split; [vm_compute; reflexivity |].
  destruct (@compressed_point_codec binary32Math noise exampleStream
              floatPoint 1065353216 256) as (s' & Hw & Ha & Hr).
  - vm_compute. repeat split; discriminate.
  - vm_compute. discriminate.
  - pose proof Hw as Hs. vm_compute in Hs. injection Hs as <-.
    eexists. split; [exact Hw |]. split; [exact Ha |].
    split; [vm_compute; reflexivity |].
    intros p0. apply Hr. vm_compute. repeat split; discriminate.
Defined.

(** C6 as stated takes the tier from the quotient [|p - a| / s] and sends
    the quotients [(p - a) / s].  In binary32 the product with the rounded
    reciprocal is another number: for the point [118710.0f] on the x axis,
    the anchor at the origin and the scale [0x4067DB01] the quotient is
    just below [2^15] (tier 0, component 32767 in 16 bits) while the
    product the code computes is [32768.0f]: the stream gets tier 1 and the
    component 32768 in 18 bits, 56 bits in all instead of 50. *)
Lemma compressed_point_not_by_quotient :
  @quotientDist binary32Math (mCompressPoint exampleStream) reciprocalPoint
    reciprocalScale = 1191182335 /\
  @scaledDist binary32Math (mCompressPoint exampleStream) reciprocalPoint
    reciprocalScale = 1191182336 /\
  @f32_of_s32 binary32Math (2 ^ 15) = 1191182336 /\
  @tierOf binary32Math
    (@quotientDist binary32Math (mCompressPoint exampleStream) reciprocalPoint
       reciprocalScale) = 0 /\
  @quotientQuantized binary32Math (mCompressPoint exampleStream)
    reciprocalPoint reciprocalScale = mkPoint3F 32767 0 0 /\
  @quantized binary32Math (mCompressPoint exampleStream) reciprocalPoint
    reciprocalScale = mkPoint3F 32768 0 0 /\
  exists s',
    @writeCompressedPoint binary32Math noise reciprocalPoint reciprocalScale
      exampleStream = Some s' /\
    error s' = false /\
    readInt 2 (setCurPos 0 s') = Some (1, setCurPos 2 s') /\
    readSignedInt 18 (setCurPos 2 s') = Some (32768, setCurPos 20 s') /\
    bitNum s' = 2 + 3 * 18 /\
    1 <> 0 /\ 32768 <> 32767.
Proof.
  repeat (split; [vm_compute; reflexivity |]).
  eexists. split; [vm_compute; reflexivity |].
  repeat (split; [vm_compute; reflexivity |]).
  split; discriminate.
Qed.

(** ** The error flag (C5) *)

(** C5, as amended: every operation of the stream interface other than
    buffer binding keeps a set error flag set: bit, integer, float, vector,
    transform, point, class-id and string reads and writes, position
    changes, anchor and scratch binding, [clear] and the growth operations.
    The binding operations [setBuffer] and [getPacketStream] start the
    stream afresh and leave the flag cleared. *)
Theorem error_flag_sticky {math : MathOps} (adjacent uninit : Z -> Z)
    (op : StreamOp) (s s' : BitStream) :
  runOp adjacent uninit op s = Some s' ->
  (rebinds op = false -> error s = true -> error s' = true) /\
  (rebinds op = true -> error s' = false).
Proof.
  intros H. split.
  - intros Hb He. destruct op; try discriminate Hb; cbn [runOp] in H;
      try (sticky_op; fail).
    + unfold clear in H. sticky_op.
    + unfold ResizeBitStream.validate in H. sticky_step.
      destruct (_ >? _); exact He.
    + unfold InfiniteBitStream.validate in H. sticky_step.
      destruct (_ >? _); exact He.
    + unfold InfiniteBitStream.compact in H. sticky_op.
  - intros Hb. destruct op; try discriminate Hb; cbn [runOp] in H;
      injection H as <-; reflexivity.
Qed.

Lemma error_flag_sticky_witness :
  error (set_error true exampleStream) = true /\
  (forall s',
      runOp noise noise (OpWriteInt 5 8) (set_error true exampleStream) = Some s' ->
      error s' = true) /\
  (forall s',
      runOp noise noise (OpSetBuffer [0; 0; 0; 0] 4 (-1))
        (set_error true exampleStream) = Some s' ->
      error s' = false).
Proof.
  split; [reflexivity |]. split; intros s' Hrun.
  - apply (@error_flag_sticky integerMath noise noise (OpWriteInt 5 8)
             (set_error true exampleStream) s' Hrun); reflexivity.
  - apply (@error_flag_sticky integerMath noise noise
             (OpSetBuffer [0; 0; 0; 0] 4 (-1))
             (set_error true exampleStream) s' Hrun); reflexivity.
Defined.

(** C5 as stated fails for buffer binding: [setBuffer], and
    [getPacketStream] which calls it, clear a set error flag. *)
Lemma binding_clears_error :
  error (set_error true exampleStream) = true /\
  error (setBuffer [0; 0; 0; 0] 4 (-1) (set_error true exampleStream)) = false /\
  error (getPacketStream 1500 (replicate 1500 0) 0 (set_error true exampleStream))
  = false.
Proof. repeat split. Qed.
(* ================================================================== *)
(** * Further properties of the stream *)

(** ** Helper lemmas *)

Lemma bitsOf_lookup (f : Z -> bool) (n j : Z) :
  0 <= j < n -> bitsOf f n !! Z.to_nat j = Some (f j).
Proof.
  intros Hj. unfold bitsOf. rewrite list_lookup_fmap.
  rewrite (lookup_seqZ_lt 0 n (Z.to_nat j)) by lia.
  simpl. f_equal. f_equal. lia.
Qed.

Lemma set_bitNum_back (s : BitStream) (x y : Z) :
  bitNum s = x -> set_bitNum x (set_bitNum y s) = s.
Proof. destruct s. simpl. intros <-. reflexivity. Qed.

Lemma appended_bit (s s' : BitStream) (f : Z -> bool) (n j : Z) :
  appended s s' (bitsOf f n) -> 0 <= j < n ->
  bitAt (dataPtr s') (bitNum s + j) = f j.
Proof.
  intros (_ & _ & _ & Hb) Hj.
  specialize (Hb (Z.to_nat j) (f j) (bitsOf_lookup f n j Hj)).
  rewrite Z2Nat.id in Hb by lia. exact Hb.
Qed.

Lemma appended_back (s s' : BitStream) (bits : list bool) (n : Z) :
  appended s s' bits -> Z.of_nat (length bits) = n ->
  set_bitNum (bitNum s + n) (setCurPos (bitNum s) s') = s'.
Proof.
  intros Happ Hn. apply set_bitNum_back.
  destruct (appended_fields s s' bits Happ) as (-> & _). lia.
Qed.

Lemma appended_readable (s s' : BitStream) (bits : list bool) (k : Z) :
  appended s s' bits -> readable s k -> readable (setCurPos (bitNum s) s') k.
Proof.
  intros Happ (Hc & Hmax & Hlen & Hov).
  destruct (appended_fields s s' bits Happ) as (_ & _ & _ & _ & Hr & _).
  destruct Happ as (_ & Hl & _).
  unfold readable, setCurPos. destruct s'; simpl in *. rewrite Hl, Hr.
  repeat split; lia.
Qed.

(** The bits of a byte determine it. *)
Lemma byte_of_bits (v w : Z) :
  0 <= v < 256 ->
  (forall b, 0 <= b < 8 -> Z.testbit v b = Z.testbit (wrapU8 w) b) ->
  v = wrapU8 w.
Proof.
  intros Hv Hb. pose proof (wrapU8_range w) as Hw.
  assert (E : 2 ^ 8 = 256) by reflexivity.
  apply (Z_bits_small v (wrapU8 w) 8); rewrite ?E; try lia. exact Hb.
Qed.

(** A write followed by a read at the same cursor. *)
Lemma write_read_bits (n : Z) (src : Z -> Z) (dst : list Z) (s : BitStream) :
  room s n -> readable s n -> 0 < n -> n + 7 < 2 ^ 31 ->
  (n + 7) / 8 <= Z.of_nat (length dst) ->
  exists s' dst',
    writeBits n src s = Some s' /\
    appended s s' (srcBits src n) /\
    readBits n dst (setCurPos (bitNum s) s') = Some (dst', s') /\
    length dst' = length dst /\
    (forall j : nat, (n + 7) / 8 <= Z.of_nat j -> dst' !! j = dst !! j) /\
    (forall t, 0 <= t < (n + 7) / 8 ->
      exists v, dst' !! Z.to_nat t = Some v /\ 0 <= v < 256 /\
        forall b, 0 <= b < 8 -> 8 * t + b < n ->
          Z.testbit v b = srcBit src (8 * t + b)).
Proof.
  intros Hroom Hread Hn Hn7 Hdst.
  destruct (writeBits_appended n src s n Hroom ltac:(lia)) as (s' & Hw & Happ).
  pose proof (appended_readable s s' _ n Happ Hread) as Hr'.
  assert (Hlen : Z.of_nat (length (srcBits src n)) = n).
  { unfold srcBits. rewrite length_bitsOf. lia. }
  pose proof (appended_back s s' _ n Happ Hlen) as Hback.
  set (r := setCurPos (bitNum s) s') in *.
  assert (Hrc : bitNum r = bitNum s) by (unfold r; destruct s'; reflexivity).
  assert (Hrd : dataPtr r = dataPtr s') by (unfold r; destruct s'; reflexivity).
  destruct Hr' as (Hc & Hmax & Hl & Hov).
  destruct (div8_facts (bitNum s)) as [Hcd Hcm].
  destruct (div8_facts (n + 7)) as [Hnd Hnm].
  assert (Hfit : bitNum r / 8 + (n + 7) / 8 < Z.of_nat (length (dataPtr r))).
  { rewrite Hrc. lia. }
  destruct (readBits_total n dst r ltac:(lia) Hn ltac:(lia) ltac:(lia)
              ltac:(lia) Hdst Hfit) as [[dst' r'] Hrun].
  destruct (readBits_run n dst r dst' r' ltac:(lia) Hn ltac:(lia) ltac:(lia)
              ltac:(lia) Hrun) as (Hr' & Hl' & _ & _ & Hout & Hbytes).
  rewrite Hrc, Hback in Hr'. subst r'.
  exists s', dst'.
  split; [exact Hw |]. split; [exact Happ |]. split; [exact Hrun |].
  split; [exact Hl' |]. split; [exact Hout |].
  intros t Ht. destruct (Hbytes t Ht) as (v & Hv & Hrange & Hbits).
  exists v. split; [exact Hv |]. split; [exact Hrange |].
  intros b Hb Hlt. rewrite Hbits by exact Hb. rewrite Hrc, Hrd.
  replace (bitNum s + 8 * t + b) with (bitNum s + (8 * t + b)) by lia.
  apply (appended_bit s s' (srcBit src) n); [exact Happ | lia].
Qed.

(** Two 32-bit signed values with the same low 32 bits are equal. *)
Lemma s32_of_bits (a b : Z) :
  - 2 ^ 31 <= a < 2 ^ 31 ->
  (forall j, 0 <= j < 32 -> Z.testbit a j = Z.testbit b j) ->
  a = wrapS32 b.
Proof.
  intros Ha Hb.
  assert (E : a mod 2 ^ 32 = wrapS32 b mod 2 ^ 32).
  { apply (Z_bits_small _ _ 32); try lia.
    - apply Z.mod_pos_bound. lia.
    - apply Z.mod_pos_bound. lia.
    - intros j Hj. rewrite !Z.mod_pow2_bits_low by lia.
      rewrite testbit_wrapS32 by lia. apply Hb. lia. }
  pose proof (wrapS32_range b) as Hr.
  pose proof (Z.div_mod a (2 ^ 32) ltac:(lia)) as Da.
  pose proof (Z.div_mod (wrapS32 b) (2 ^ 32) ltac:(lia)) as Db.
  pose proof (Z.mod_pos_bound a (2 ^ 32) ltac:(lia)) as Ma.
  rewrite E in Da. rewrite <- E in Db.
  change (2 ^ 32) with 4294967296 in *. change (2 ^ 31) with 2147483648 in *.
  lia.
Qed.

Lemma testBit_bitAt (i : Z) (s : BitStream) :
  0 <= i -> i / 8 < Z.of_nat (length (dataPtr s)) ->
  testBit i s = Some (bitAt (dataPtr s) i).
Proof.
  intros Hi Hlen. unfold testBit, bitAt. rewrite shiftr3, land7.
  destruct (div8_facts i) as [Hd Hm].
  destruct (load_in_range (dataPtr s) (i / 8)) as (o & -> & _); [lia |].
  simpl. f_equal.
  destruct (Z.testbit (wrapU8 o) (i mod 8)) eqn:Hbit.
  - destruct (Z.eqb_spec (Z.land (wrapU8 o) (Z.shiftl 1 (i mod 8))) 0) as [E | _];
      [| reflexivity].
    apply (f_equal (fun v => Z.testbit v (i mod 8))) in E.
    rewrite Z.land_spec, testbit_shiftl, testbit_1, Hbit, Z.testbit_0_l in E by lia.
    destruct (Z.leb_spec (i mod 8) (i mod 8)); [| lia].
    rewrite Z.sub_diag in E. discriminate.
  - destruct (Z.eqb_spec (Z.land (wrapU8 o) (Z.shiftl 1 (i mod 8))) 0) as [_ | N];
      [reflexivity |].
    exfalso. apply N. apply Z.bits_inj'. intros k Hk.
    rewrite Z.land_spec, testbit_shiftl, testbit_1, Z.testbit_0_l by lia.
    destruct (Z.leb_spec (i mod 8) k); simpl; [| now rewrite andb_false_r].
    destruct (Z.eqb_spec (k - i mod 8) 0) as [E | _];
      [| now rewrite andb_false_r].
    replace k with (i mod 8) by lia. now rewrite Hbit.
Qed.

Lemma setBit_bit (old k b : Z) (v : bool) :
  0 <= k < 8 -> 0 <= b < 8 ->
  Z.testbit (wrapU8 (if v then Z.lor old (Z.shiftl 1 k)
                     else Z.land old (Z.lnot (Z.shiftl 1 k)))) b
  = if b =? k then v else Z.testbit old b.
Proof.
  intros Hk Hb. rewrite testbit_wrapU8.
  destruct (Z.ltb_spec b 8); [| lia]. simpl.
  destruct v.
  - rewrite Z.lor_spec, testbit_shiftl, testbit_1 by lia.
    destruct (Z.eqb_spec b k) as [-> | N].
    + rewrite Z.sub_diag. destruct (Z.leb_spec k k); [| lia].
      simpl. apply orb_true_r.
    + destruct (Z.leb_spec k b); simpl; [| apply orb_false_r].
      destruct (Z.eqb_spec (b - k) 0); [lia |]. apply orb_false_r.
  - rewrite Z.land_spec, Z.lnot_spec, testbit_shiftl, testbit_1 by lia.
    destruct (Z.eqb_spec b k) as [-> | N].
    + rewrite Z.sub_diag. destruct (Z.leb_spec k k); [| lia].
      simpl. apply andb_false_r.
    + destruct (Z.leb_spec k b); simpl; [| apply andb_true_r].
      destruct (Z.eqb_spec (b - k) 0); [lia |]. apply andb_true_r.
Qed.

(** ** Bit fields *)

(** X1.  [writeBits] and [readBits] are inverse on the field: [n] bits
    written from [src] and read back at the same cursor arrive in the
    destination as the first [n] bits of [src], the destination bytes past
    [ceil(n/8)] stay as they were, and the read leaves the stream exactly
    as the write left it. *)
Theorem written_bits_read_back (n : Z) (src : Z -> Z) (dst : list Z)
    (s : BitStream) :
  room s n -> readable s n -> 0 < n -> n + 7 < 2 ^ 31 ->
  (n + 7) / 8 <= Z.of_nat (length dst) ->
  exists s' dst',
    writeBits n src s = Some s' /\
    readBits n dst (setCurPos (bitNum s) s') = Some (dst', s') /\
    bitNum s' = bitNum s + n /\ error s' = error s /\
    (forall j, 0 <= j < n -> bitAt dst' j = srcBit src j) /\
    (forall j : nat, (n + 7) / 8 <= Z.of_nat j -> dst' !! j = dst !! j).
Proof.
  intros Hroom Hread Hn Hn7 Hdst.
  destruct (write_read_bits n src dst s Hroom Hread Hn Hn7 Hdst)
    as (s' & dst' & Hw & Happ & Hr & Hl & Hout & Hbytes).
  destruct (appended_fields s s' _ Happ) as (Hc & He & _).
  exists s', dst'.
  split; [exact Hw |]. split; [exact Hr |].
  split; [rewrite Hc; unfold srcBits; rewrite length_bitsOf; lia |].
  split; [exact He |]. split; [| exact Hout].
  { intros j Hj. destruct (div8_facts j) as [Hd Hm].
    destruct (div8_facts (n + 7)) as [Hnd Hnm].
    destruct (Hbytes (j / 8) ltac:(lia)) as (v & Hv & _ & Hbits).
    rewrite Hd at 1. rewrite (bitAt_lookup dst' (j / 8) (j mod 8) v);
      [| lia | lia | exact Hv].
    rewrite Hbits by lia. f_equal. lia. }
Qed.

Lemma written_bits_read_back_witness :
  exists s' dst',
    writeBits 11 (mem32 noise 1501) (setCurPos 5 exampleStream) = Some s' /\
    readBits 11 [7; 7; 7] (setCurPos 5 s') = Some (dst', s') /\
    bitNum s' = 5 + 11 /\ error s' = false /\
    (forall j, 0 <= j < 11 -> bitAt dst' j = srcBit (mem32 noise 1501) j) /\
    (forall j : nat, (11 + 7) / 8 <= Z.of_nat j -> dst' !! j = [7; 7; 7] !! j).
Proof.
  apply (written_bits_read_back 11 (mem32 noise 1501) [7; 7; 7]
           (setCurPos 5 exampleStream));
    [vm_compute; repeat split; discriminate
    | vm_compute; repeat split; discriminate | lia | lia
    | vm_compute; discriminate].
Defined.

(** X2.  Whole bytes survive [_write] followed by [_read]: the destination
    receives exactly the [size] source bytes, and nothing after them is
    touched. *)
Theorem bytes_roundtrip (size : Z) (src : Z -> Z) (dst : list Z)
    (s : BitStream) :
  0 <= size < 2 ^ 28 - 1 -> room s (8 * size) -> readable s (8 * size) ->
  size <= Z.of_nat (length dst) ->
  exists s',
    _write size src s = Some s' /\
    _read size dst (setCurPos (bitNum s) s')
    = Some (((fun t => wrapU8 (src t)) <$> seqZ 0 size)
              ++ drop (Z.to_nat size) dst, s').
Proof.
  intros Hsz Hroom Hread Hdst. unfold _write, _read.
  assert (H8 : 8 * size < 2 ^ 31) by (destruct Hroom as (? & ? & ? & ?); lia).
  rewrite Z.shiftl_mul_pow2 by lia. change (2 ^ 3) with 8.
  rewrite wrapS32_id by lia. replace (size * 8) with (8 * size) by lia.
  destruct (Z.eq_dec size 0) as [-> | Hne].
  { exists s. split; [reflexivity |].
    replace (setCurPos (bitNum s) s) with s by (destruct s; reflexivity).
    reflexivity. }
  assert (Hceil : (8 * size + 7) / 8 = size).
  { replace (8 * size + 7) with (7 + size * 8) by lia.
    rewrite Z.div_add by lia. reflexivity. }
  destruct (write_read_bits (8 * size) src dst s Hroom Hread ltac:(lia)
              ltac:(lia) ltac:(lia))
    as (s' & dst' & Hw & _ & Hr & Hl & Hout & Hbytes).
  exists s'. split; [exact Hw |]. rewrite Hr. f_equal. f_equal.
  rewrite Hceil in *.
  apply list_eq. intros i.
  destruct (Z_lt_le_dec (Z.of_nat i) size) as [Hi | Hi].
  - rewrite lookup_app_l by (rewrite length_fmap, length_seqZ; lia).
    rewrite list_lookup_fmap, lookup_seqZ_lt by lia. simpl.
    destruct (Hbytes (Z.of_nat i) ltac:(lia)) as (v & Hv & Hrange & Hbits).
    rewrite Nat2Z.id in Hv. rewrite Hv. f_equal.
    apply byte_of_bits; [exact Hrange |].
    intros b Hb. rewrite Hbits by lia. apply srcBit_at. exact Hb.
  - rewrite Hout by lia.
    rewrite lookup_app_r by (rewrite length_fmap, length_seqZ; lia).
    rewrite length_fmap, length_seqZ, lookup_drop. f_equal. lia.
Qed.

Lemma bytes_roundtrip_witness :
  exists s',
    _write 3 noise (setCurPos 5 exampleStream) = Some s' /\
    _read 3 [1; 2; 3; 4] (setCurPos 5 s') = Some ([165; 166; 167; 4], s').
Proof.
  apply (bytes_roundtrip 3 noise [1; 2; 3; 4] (setCurPos 5 exampleStream));
    [lia | vm_compute; repeat split; discriminate
    | vm_compute; repeat split; discriminate | vm_compute; discriminate].
Defined.

(** Two integer fields written one after the other and read back. *)
Lemma writeInt_readInt (adjacent : Z -> Z) (v n : Z) (s : BitStream) (k : Z) :
  room s k -> readable s k -> 0 < n <= 32 -> n <= k ->
  exists s',
    writeInt adjacent v n s = Some s' /\
    appended s s' (intBits v n) /\
    readInt n (setCurPos (bitNum s) s')
    = Some (if n =? 32 then wrapS32 v else v mod 2 ^ n, s').
Proof.
  intros Hroom Hread Hn Hk.
  destruct (writeInt_appended adjacent v n s k Hroom ltac:(lia) ltac:(lia))
    as (s' & Hw & Happ).
  exists s'. split; [exact Hw |]. split; [exact Happ |].
  pose proof (appended_readable s s' _ k Happ Hread) as Hr'.
  pose proof (appended_back s s' _ n Happ (length_intBits v n ltac:(lia))) as Hback.
  pose proof (appended_holds s s' _ Happ) as Hh.
  set (r := setCurPos (bitNum s) s') in *.
  assert (Hrc : bitNum r = bitNum s) by (unfold r; destruct s'; reflexivity).
  assert (Hrd : dataPtr r = dataPtr s') by (unfold r; destruct s'; reflexivity).
  destruct (readInt_holds r k n v [] Hr' Hn ltac:(lia)) as (x & Hrun & Hbits & Hlow & Hrange).
  { rewrite app_nil_r, Hrc, Hrd. exact Hh. }
  rewrite Hrun, Hrc, Hback. f_equal. f_equal.
  destruct (Z.eqb_spec n 32) as [-> | Hne].
  - apply s32_of_bits; [exact Hrange | exact Hbits].
  - apply Hlow. lia.
Qed.

(** X3.  [writeInt] followed by [readInt] at the same cursor returns the
    value reduced to the field: [v mod 2^n] for a width below 32, and the
    32-bit two's-complement value of [v] at width 32. *)
Theorem int_roundtrip (adjacent : Z -> Z) (v n : Z) (s : BitStream) :
  room s n -> readable s n -> 0 < n <= 32 ->
  exists s',
    writeInt adjacent v n s = Some s' /\
    readInt n (setCurPos (bitNum s) s')
    = Some (if n =? 32 then wrapS32 v else v mod 2 ^ n, s').
Proof.
  intros Hroom Hread Hn.
  destruct (writeInt_readInt adjacent v n s n Hroom Hread Hn ltac:(lia))
    as (s' & Hw & _ & Hr).
  exists s'. split; [exact Hw | exact Hr].
Qed.

Lemma int_roundtrip_witness :
  exists s',
    writeInt noise (-3) 32 (setCurPos 3 exampleStream) = Some s' /\
    readInt 32 (setCurPos 3 s') = Some (-3, s').
Proof.
  apply (int_roundtrip noise (-3) 32 (setCurPos 3 exampleStream));
    [vm_compute; repeat split; discriminate
    | vm_compute; repeat split; discriminate | lia].
Defined.

(** X4.  [setBit] writes one bit wherever it lies in the buffer, whatever
    the cursor, the ceilings and the error flag are: [testBit] at that
    index returns the value set, every other bit is unchanged, and nothing
    but the buffer changes. *)
Theorem setBit_testBit (i : Z) (v : bool) (s : BitStream) :
  0 <= i < 8 * Z.of_nat (length (dataPtr s)) ->
  exists s',
    setBit i v s = Some s' /\
    s' = set_dataPtr (dataPtr s') s /\
    length (dataPtr s') = length (dataPtr s) /\
    testBit i s' = Some v /\
    (forall j, 0 <= j < 8 * Z.of_nat (length (dataPtr s)) -> j <> i ->
       testBit j s' = testBit j s).
Proof.
  intros Hi. unfold setBit. rewrite shiftr3, land7.
  destruct (div8_facts i) as [Hd Hm].
  destruct (load_in_range (dataPtr s) (i / 8)) as (o & Hload & Ho); [lia |].
  rewrite Hload. cbn [mbind option_bind].
  set (nv := if v then _ else _).
  pose proof (store_in_range (dataPtr s) (i / 8) nv ltac:(lia)) as Hst.
  rewrite Hst. cbn [mbind option_bind].
  eexists. split; [reflexivity |].
  assert (Hl : length (<[Z.to_nat (i / 8) := wrapU8 nv]> (dataPtr s))
               = length (dataPtr s)) by apply length_insert.
  assert (Hbit : forall j, 0 <= j < 8 * Z.of_nat (length (dataPtr s)) ->
            bitAt (<[Z.to_nat (i / 8) := wrapU8 nv]> (dataPtr s)) j
            = if j =? i then v else bitAt (dataPtr s) j).
  { intros j Hj. destruct (div8_facts j) as [Hjd Hjm].
    destruct (Z.eq_dec (j / 8) (i / 8)) as [E | N].
    - rewrite (bitAt_byte _ j (wrapU8 nv)); [| lia |].
      2:{ rewrite E. apply list_lookup_insert_eq. lia. }
      unfold nv. rewrite setBit_bit by lia.
      destruct (Z.eqb_spec (j mod 8) (i mod 8)) as [Em | Nm].
      + destruct (Z.eqb_spec j i); [reflexivity | lia].
      + destruct (Z.eqb_spec j i) as [-> | _]; [lia |].
        unfold bitAt. rewrite E, Hload. simpl.
        rewrite !testbit_wrapU8. reflexivity.
    - destruct (Z.eqb_spec j i) as [-> | _]; [lia |].
      unfold bitAt. f_equal. apply load_ext.
      apply list_lookup_insert_ne. lia. }
  destruct s as [d c bs e mr mw sb cp ms]; unfold set_dataPtr; simpl in *.
  split; [reflexivity |]. split; [exact Hl |]. split.
  - rewrite testBit_bitAt; simpl; rewrite ?length_insert; try lia.
    rewrite Hbit by lia. rewrite Z.eqb_refl. reflexivity.
  - intros j Hj Hne. destruct (div8_facts j) as [Hjd Hjm].
    rewrite !testBit_bitAt; simpl; rewrite ?length_insert; try lia.
    rewrite Hbit by lia.
    destruct (Z.eqb_spec j i); [lia | reflexivity].
Qed.

Lemma setBit_testBit_witness :
  exists s',
    setBit 200 true (set_error true exampleStream) = Some s' /\
    s' = set_dataPtr (dataPtr s') (set_error true exampleStream) /\
    length (dataPtr s') = length (dataPtr (set_error true exampleStream)) /\
    testBit 200 s' = Some true /\
    (forall j,
       0 <= j < 8 * Z.of_nat (length (dataPtr (set_error true exampleStream))) ->
       j <> 200 -> testBit j s' = testBit j (set_error true exampleStream)).
Proof.
  apply (setBit_testBit 200 true (set_error true exampleStream)).
  vm_compute. split; [discriminate | reflexivity].
Defined.

(** ** Cursor and ceilings *)

(** X5.  The byte position is the bit cursor rounded up to whole bytes, and
    [setPosition] puts the cursor on the byte boundary asked for, where
    [getPosition] gives the same position back. *)
Theorem byte_position (s : BitStream) (pos : Z) :
  0 <= bitNum s < 2 ^ 31 - 7 -> 0 <= pos < 2 ^ 28 ->
  bitNum s <= 8 * getPosition s < bitNum s + 8 /\
  bitNum (setPosition pos s) = 8 * pos /\
  getPosition (setPosition pos s) = pos.
Proof.
  intros Hc Hp. unfold getPosition, setPosition.
  assert (E31 : 2 ^ 31 = 2147483648) by reflexivity.
  assert (E28 : 2 ^ 28 = 268435456) by reflexivity.
  rewrite Z.shiftl_mul_pow2 by lia. change (2 ^ 3) with 8.
  rewrite !shiftr3. rewrite (wrapS32_id (pos * 8)) by lia.
  replace (bitNum (set_bitNum (pos * 8) s)) with (pos * 8)
    by (destruct s; reflexivity).
  rewrite !wrapS32_id by lia.
  destruct (div8_facts (bitNum s + 7)) as [Hd Hm].
  split.
  - unfold wrapU32. rewrite Z.mod_small; [lia |].
    change (2 ^ 32) with 4294967296. lia.
  - split; [lia |].
    replace (pos * 8 + 7) with (7 + pos * 8) by lia.
    rewrite Z.div_add by lia. change (7 / 8) with 0.
    unfold wrapU32. rewrite Z.mod_small; [lia |].
    change (2 ^ 32) with 4294967296. lia.
Qed.

Lemma byte_position_witness :
  bitNum (setCurPos 13 exampleStream)
    <= 8 * getPosition (setCurPos 13 exampleStream)
    < bitNum (setCurPos 13 exampleStream) + 8 /\
  bitNum (setPosition 5 (setCurPos 13 exampleStream)) = 8 * 5 /\
  getPosition (setPosition 5 (setCurPos 13 exampleStream)) = 5.
Proof.
  apply (byte_position (setCurPos 13 exampleStream) 5);
    vm_compute; split; (discriminate || reflexivity).
Defined.

(** X6.  For a cursor that is an [S32] value and a width [0 < n <= 32]
    with [bit_cursor + n < 2^31] (so that the [S32] sum of the guard does
    not wrap): an integer read that does not fit under the read ceiling
    ([max_read_bits < bit_cursor + n]) returns 0, sets the error flag and
    leaves the rest of the stream, cursor included, as it was. *)
Theorem readInt_past_ceiling (n : Z) (s : BitStream) :
  0 < n <= 32 -> - 2 ^ 31 <= bitNum s -> bitNum s + n < 2 ^ 31 ->
  maxReadBitNum s < bitNum s + n ->
  readInt n s = Some (0, set_error true s).
Proof.
  intros Hn Hc Hov Hmax. unfold readInt, readBits.
  destruct (Z.eqb_spec n 0); [lia |].
  rewrite (wrapS32_id (n + bitNum s)) by lia.
  destruct (Z.gtb_spec (n + bitNum s) (maxReadBitNum s)); [| lia].
  cbn [mbind option_bind].
  destruct (n =? 32); reflexivity.
Qed.

Lemma readInt_past_ceiling_witness :
  (0 < 12 <= 32) /\ - 2 ^ 31 <= bitNum (setCurPos 250 exampleStream) /\
  bitNum (setCurPos 250 exampleStream) + 12 < 2 ^ 31 /\
  maxReadBitNum (setCurPos 250 exampleStream)
    < bitNum (setCurPos 250 exampleStream) + 12 /\
  readInt 12 (setCurPos 250 exampleStream)
  = Some (0, set_error true (setCurPos 250 exampleStream)).
Proof.
  split; [lia |]. split; [vm_compute; discriminate |].
  split; [vm_compute; reflexivity |]. split; [vm_compute; reflexivity |].
  apply (readInt_past_ceiling 12 (setCurPos 250 exampleStream));
    [lia | vm_compute; discriminate | vm_compute; reflexivity
    | vm_compute; reflexivity].
Defined.

(** X7.  [writeSignedInt] is not all-or-nothing: when the sign flag fits
    under the write ceiling and the magnitude does not, the sign bit is
    written, the cursor advances by one bit, and the error flag is set. *)
Theorem writeSignedInt_partial (adjacent : Z -> Z) (v n : Z) (s : BitStream) :
  room s 1 -> 2 <= n <= 32 -> maxWriteBitNum s < bitNum s + n < 2 ^ 31 ->
  exists s',
    writeSignedInt adjacent v n s = Some s' /\
    bitNum s' = bitNum s + 1 /\ error s' = true /\
    bitAt (dataPtr s') (bitNum s) = (v <? 0).
Proof.
  intros Hroom Hn Hmax.
  destruct (writeFlag_appended (v <? 0) s 1 Hroom ltac:(lia)) as (s1 & Hf & Happ).
  destruct (appended_fields s s1 _ Happ) as (Hc & _ & _ & Hw & _).
  simpl in Hc.
  pose proof (appended_holds s s1 _ Happ 0%nat (v <? 0) eq_refl) as Hbit.
  rewrite Z.add_0_r in Hbit.
  destruct Hroom as (H0 & H1 & H2 & H3).
  assert (Hover : forall x,
    writeInt adjacent x (wrapS32 (n - 1)) s1 = Some (set_error true s1)).
  { intros x. unfold writeInt, writeBits.
    rewrite (wrapS32_id (n - 1)) by lia.
    destruct (Z.eqb_spec (n - 1) 0); [lia |].
    rewrite (wrapS32_id (n - 1 + bitNum s1)) by lia.
    destruct (Z.gtb_spec (n - 1 + bitNum s1) (maxWriteBitNum s1)); [| lia].
    reflexivity. }
  exists (set_error true s1). unfold writeSignedInt. rewrite Hf.
  cbn [mbind option_bind]. rewrite !Hover.
  split; [destruct (v <? 0); reflexivity |].
  destruct s1; simpl in *. repeat split; assumption.
Qed.

Lemma writeSignedInt_partial_witness :
  exists s',
    writeSignedInt noise (-5) 8 (setCurPos 250 exampleStream) = Some s' /\
    bitNum s' = bitNum (setCurPos 250 exampleStream) + 1 /\ error s' = true /\
    bitAt (dataPtr s') (bitNum (setCurPos 250 exampleStream)) = (-5 <? 0).
Proof.
  apply (writeSignedInt_partial noise (-5) 8 (setCurPos 250 exampleStream));
    [vm_compute; repeat split; discriminate | lia
    | vm_compute; split; reflexivity].
Defined.

(** X8.  The cursor never passes a ceiling: a bit-field write or read that
    starts at or below its ceiling ends at or below it, having advanced by
    exactly the field width or not at all (and then with the error flag
    set); a read never changes the buffer. *)
Theorem cursor_stays_under_ceilings (n : Z) (src : Z -> Z) (dst : list Z)
    (s : BitStream) :
  0 <= n -> 0 <= bitNum s -> bitNum s + n < 2 ^ 31 ->
  (bitNum s <= maxWriteBitNum s ->
   forall s', writeBits n src s = Some s' ->
     maxWriteBitNum s' = maxWriteBitNum s /\
     bitNum s' <= maxWriteBitNum s' /\
     (bitNum s' = bitNum s + n /\ error s' = error s \/
      bitNum s' = bitNum s /\ error s' = true)) /\
  (bitNum s <= maxReadBitNum s ->
   forall dst' s', readBits n dst s = Some (dst', s') ->
     maxReadBitNum s' = maxReadBitNum s /\ dataPtr s' = dataPtr s /\
     bitNum s' <= maxReadBitNum s' /\
     (bitNum s' = bitNum s + n /\ error s' = error s \/
      bitNum s' = bitNum s /\ error s' = true)).
Proof.
  intros Hn Hc Hov. split.
  - intros Hmax s'. unfold writeBits.
    destruct (Z.eqb_spec n 0) as [-> | Hne].
    { intros [= <-]. split; [reflexivity |]. split; [exact Hmax |].
      left. split; [lia | reflexivity]. }
    rewrite !wrapS32_id by lia.
    destruct (Z.gtb_spec (n + bitNum s) (maxWriteBitNum s)).
    { intros [= <-]. destruct s; simpl in *.
      split; [reflexivity |]. split; [exact Hmax |]. right. split; reflexivity. }
    destruct (load _ _); cbn [mbind option_bind]; [| discriminate].
    destruct (store _ _ _); cbn [mbind option_bind]; [| discriminate].
    destruct (writeBits_loop _ _ _ _ _ _ _ _); cbn [mbind option_bind];
      [| discriminate].
    destruct (load _ _); cbn [mbind option_bind]; [| discriminate].
    destruct (store _ _ _); cbn [mbind option_bind]; [| discriminate].
    intros [= <-]. destruct s; simpl in *. rewrite ?wrapS32_id by lia.
    split; [reflexivity |]. split; [lia |]. left. split; reflexivity.
  - intros Hmax dst' s'. unfold readBits.
    destruct (Z.eqb_spec n 0) as [-> | Hne].
    { intros [= <- <-]. split; [reflexivity |]. split; [reflexivity |].
      split; [exact Hmax |]. left. split; [lia | reflexivity]. }
    rewrite !wrapS32_id by lia.
    destruct (Z.gtb_spec (n + bitNum s) (maxReadBitNum s)).
    { intros [= <- <-]. destruct s; simpl in *.
      split; [reflexivity |]. split; [reflexivity |].
      split; [exact Hmax |]. right. split; reflexivity. }
    destruct (_ <? 0); [discriminate |].
    destruct (load _ _); cbn [mbind option_bind]; [| discriminate].
    destruct (readBits_loop _ _ _ _ _ _ _ _); cbn [mbind option_bind];
      [| discriminate].
    intros [= <- <-]. destruct s; simpl in *. rewrite ?wrapS32_id by lia.
    split; [reflexivity |]. split; [reflexivity |].
    split; [lia |]. left. split; reflexivity.
Qed.

Lemma cursor_stays_under_ceilings_witness :
  (bitNum (setCurPos 250 exampleStream)
     <= maxWriteBitNum (setCurPos 250 exampleStream) ->
   forall s', writeBits 9 noise (setCurPos 250 exampleStream) = Some s' ->
     maxWriteBitNum s' = maxWriteBitNum (setCurPos 250 exampleStream) /\
     bitNum s' <= maxWriteBitNum s' /\
     (bitNum s' = bitNum (setCurPos 250 exampleStream) + 9 /\
      error s' = error (setCurPos 250 exampleStream) \/
      bitNum s' = bitNum (setCurPos 250 exampleStream) /\ error s' = true)) /\
  (bitNum (setCurPos 250 exampleStream)
     <= maxReadBitNum (setCurPos 250 exampleStream) ->
   forall dst' s',
     readBits 9 [0; 0] (setCurPos 250 exampleStream) = Some (dst', s') ->
     maxReadBitNum s' = maxReadBitNum (setCurPos 250 exampleStream) /\
     dataPtr s' = dataPtr (setCurPos 250 exampleStream) /\
     bitNum s' <= maxReadBitNum s' /\
     (bitNum s' = bitNum (setCurPos 250 exampleStream) + 9 /\
      error s' = error (setCurPos 250 exampleStream) \/
      bitNum s' = bitNum (setCurPos 250 exampleStream) /\ error s' = true)).
Proof.
  apply (cursor_stays_under_ceilings 9 noise [0; 0]
           (setCurPos 250 exampleStream));
    [lia | vm_compute; discriminate | vm_compute; reflexivity].
Defined.

(** ** Growing streams *)

Lemma length_dRealloc (uninit : Z -> Z) (p : list Z) (n : Z) :
  Z.of_nat (length p) <= n -> Z.of_nat (length (dRealloc uninit p n)) = n.
Proof.
  intros Hn. unfold dRealloc.
  rewrite length_app, length_take, length_fmap, length_seqZ. lia.
Qed.

Lemma take_dRealloc (uninit : Z -> Z) (p : list Z) (n : Z) :
  Z.of_nat (length p) <= n -> take (length p) (dRealloc uninit p n) = p.
Proof.
  intros Hn. unfold dRealloc.
  rewrite (take_ge p (Z.to_nat n)) by lia. apply take_app_length.
Qed.

Lemma getPosition_sized (s : BitStream) :
  sized s -> bufSize s < 2 ^ 28 ->
  0 <= getPosition s <= bufSize s /\ bitNum s <= 8 * getPosition s.
Proof.
  intros (Hl & Hr & Hw & Hc) Hb.
  assert (E28 : 2 ^ 28 = 268435456) by reflexivity.
  assert (E31 : 2 ^ 31 = 2147483648) by reflexivity.
  unfold getPosition. rewrite wrapS32_id by lia. rewrite shiftr3.
  destruct (div8_facts (bitNum s + 7)) as [Hd Hm].
  unfold wrapU32. rewrite Z.mod_small; [lia |].
  change (2 ^ 32) with 4294967296. lia.
Qed.

(** What a growth to [pos + extra] bytes, decided by the test
    [pos + need > bufSize], leaves. *)
Lemma grown_sized (uninit : Z -> Z) (s : BitStream) (n : Z) :
  sized s -> bufSize s < n < 2 ^ 28 ->
  let s' :=
    mkBitStream (dRealloc uninit (dataPtr s) (wrapS32 (wrapU32 n))) (bitNum s)
      (wrapS32 (wrapU32 n)) (error s)
      (wrapS32 (Z.shiftl (wrapS32 (wrapU32 n)) 3))
      (wrapS32 (Z.shiftl (wrapS32 (wrapU32 n)) 3))
      (stringBuffer s) (mCompressPoint s) (mMinSpace s) in
  sized s' /\ bufSize s' = n /\
  take (length (dataPtr s)) (dataPtr s') = dataPtr s.
Proof.
  intros (Hl & Hr & Hw & Hc) Hn.
  assert (E28 : 2 ^ 28 = 268435456) by reflexivity.
  assert (E31 : 2 ^ 31 = 2147483648) by reflexivity.
  assert (E : wrapS32 (wrapU32 n) = n).
  { unfold wrapU32. rewrite Z.mod_small by (change (2 ^ 32) with 4294967296; lia).
    apply wrapS32_id. lia. }
  rewrite E. rewrite Z.shiftl_mul_pow2 by lia. change (2 ^ 3) with 8.
  rewrite wrapS32_id by lia.
  unfold sized. simpl.
  rewrite length_dRealloc by lia. rewrite take_dRealloc by lia.
  repeat split; lia.
Qed.

Lemma sized_room (s : BitStream) (k : Z) :
  sized s -> bufSize s < 2 ^ 28 -> 0 <= k ->
  8 * getPosition s + k <= 8 * bufSize s -> room s k.
Proof.
  intros Hs Hb Hk Hfit.
  destruct (getPosition_sized s Hs Hb) as [Hp Hc].
  destruct Hs as (Hl & Hr & Hw & Hc').
  assert (E28 : 2 ^ 28 = 268435456) by reflexivity.
  assert (E31 : 2 ^ 31 = 2147483648) by reflexivity.
  unfold room. repeat split; lia.
Qed.

Lemma resize_validate_sized (uninit : Z -> Z) (s : BitStream) :
  sized s -> 0 <= mMinSpace s -> bufSize s + 2 * mMinSpace s < 2 ^ 28 ->
  let s' := ResizeBitStream.validate uninit s in
  sized s' /\ room s' (8 * mMinSpace s) /\
  bitNum s' = bitNum s /\ error s' = error s /\
  mMinSpace s' = mMinSpace s /\
  bufSize s <= bufSize s' <= bufSize s + 2 * mMinSpace s /\
  take (length (dataPtr s)) (dataPtr s') = dataPtr s.
Proof.
  intros Hs Hm Hb.
  assert (E28 : 2 ^ 28 = 268435456) by reflexivity.
  destruct (getPosition_sized s Hs ltac:(lia)) as [Hp Hc].
  pose proof Hs as (Hl & Hr & Hw & Hc').
  unfold ResizeBitStream.validate.
  assert (E1 : wrapU32 (getPosition s + mMinSpace s) = getPosition s + mMinSpace s).
  { unfold wrapU32. apply Z.mod_small. change (2 ^ 32) with 4294967296. lia. }
  assert (E2 : wrapU32 (bufSize s) = bufSize s).
  { unfold wrapU32. apply Z.mod_small. change (2 ^ 32) with 4294967296. lia. }
  assert (E3 : wrapU32 (mMinSpace s * 2) = 2 * mMinSpace s).
  { unfold wrapU32. rewrite Z.mod_small; [lia |].
    change (2 ^ 32) with 4294967296. lia. }
  rewrite E1, E2, E3.
  destruct (Z.gtb_spec (getPosition s + mMinSpace s) (bufSize s)) as [Hgrow | Hfit].
  - destruct (grown_sized uninit s (getPosition s + 2 * mMinSpace s) Hs
                ltac:(lia)) as (Hs' & Hb' & Htake).
    cbv zeta in *. set (s' := mkBitStream _ _ _ _ _ _ _ _ _) in *.
    split; [exact Hs' |].
    assert (Hpos : getPosition s' = getPosition s) by reflexivity.
    split; [apply sized_room; [exact Hs' | lia | lia | rewrite Hpos; lia] |].
    split; [reflexivity |]. split; [reflexivity |]. split; [reflexivity |].
    split; [lia | exact Htake].
  - cbv zeta.
    split; [exact Hs |].
    split; [apply sized_room; [exact Hs | lia | lia | lia] |].
    split; [reflexivity |]. split; [reflexivity |]. split; [reflexivity |].
    split; [lia |]. rewrite take_ge; [reflexivity | lia].
Qed.

(** X9.  [ResizeBitStream::validate] leaves at least [mMinSpace] writable
    bytes after the cursor: the next [8 * mMinSpace] bits fit.  The
    allocation keeps matching the recorded size, it never shrinks and grows
    by at most [2 * mMinSpace] bytes, and the cursor, the error flag and
    the bytes already in the buffer are unchanged. *)
Theorem resize_validate_makes_room (uninit : Z -> Z) (s : BitStream) :
  sized s -> 0 <= mMinSpace s -> bufSize s + 2 * mMinSpace s < 2 ^ 28 ->
  sized (ResizeBitStream.validate uninit s) /\
  room (ResizeBitStream.validate uninit s) (8 * mMinSpace s) /\
  bitNum (ResizeBitStream.validate uninit s) = bitNum s /\
  error (ResizeBitStream.validate uninit s) = error s /\
  bufSize s <= bufSize (ResizeBitStream.validate uninit s)
            <= bufSize s + 2 * mMinSpace s /\
  take (length (dataPtr s)) (dataPtr (ResizeBitStream.validate uninit s))
  = dataPtr s.
Proof.
  intros Hs Hm Hb.
  destruct (resize_validate_sized uninit s Hs Hm Hb)
    as (H1 & H2 & H3 & H4 & _ & H5 & H6).
  split; [exact H1 |]. split; [exact H2 |]. split; [exact H3 |].
  split; [exact H4 |]. split; [exact H5 | exact H6].
Qed.

Lemma resize_validate_makes_room_witness :
  sized (ResizeBitStream.validate noise compactExample) /\
  room (ResizeBitStream.validate noise compactExample)
    (8 * mMinSpace compactExample) /\
  bitNum (ResizeBitStream.validate noise compactExample)
  = bitNum compactExample /\
  error (ResizeBitStream.validate noise compactExample)
  = error compactExample /\
  bufSize compactExample
    <= bufSize (ResizeBitStream.validate noise compactExample)
    <= bufSize compactExample + 2 * mMinSpace compactExample /\
  take (length (dataPtr compactExample))
    (dataPtr (ResizeBitStream.validate noise compactExample))
  = dataPtr compactExample.
Proof.
  apply (resize_validate_makes_room noise compactExample);
    [vm_compute; repeat split; discriminate | vm_compute; discriminate
    | vm_compute; reflexivity].
Defined.

(** X10.  [InfiniteBitStream::validate] with an advised [upcomingBytes]
    leaves room for that many bytes and [mMinSpace] more after the cursor,
    keeping the cursor, the error flag and the bytes already written. *)
Theorem infinite_validate_makes_room (uninit : Z -> Z) (upcomingBytes : Z)
    (s : BitStream) :
  sized s -> 0 <= mMinSpace s -> 0 <= upcomingBytes ->
  bufSize s + upcomingBytes + mMinSpace s < 2 ^ 28 ->
  sized (InfiniteBitStream.validate uninit upcomingBytes s) /\
  room (InfiniteBitStream.validate uninit upcomingBytes s)
    (8 * (upcomingBytes + mMinSpace s)) /\
  bitNum (InfiniteBitStream.validate uninit upcomingBytes s) = bitNum s /\
  error (InfiniteBitStream.validate uninit upcomingBytes s) = error s /\
  bufSize s <= bufSize (InfiniteBitStream.validate uninit upcomingBytes s) /\
  take (length (dataPtr s))
    (dataPtr (InfiniteBitStream.validate uninit upcomingBytes s))
  = dataPtr s.
Proof.
  intros Hs Hm Hu Hb.
  assert (E28 : 2 ^ 28 = 268435456) by reflexivity.
  destruct (getPosition_sized s Hs ltac:(lia)) as [Hp Hc].
  pose proof Hs as (Hl & Hr & Hw & Hc').
  unfold InfiniteBitStream.validate.
  assert (E0 : wrapU32 (getPosition s + upcomingBytes)
               = getPosition s + upcomingBytes).
  { unfold wrapU32. apply Z.mod_small. change (2 ^ 32) with 4294967296. lia. }
  assert (E1 : wrapU32 (getPosition s + upcomingBytes + mMinSpace s)
               = getPosition s + upcomingBytes + mMinSpace s).
  { unfold wrapU32. apply Z.mod_small. change (2 ^ 32) with 4294967296. lia. }
  assert (E2 : wrapU32 (bufSize s) = bufSize s).
  { unfold wrapU32. apply Z.mod_small. change (2 ^ 32) with 4294967296. lia. }
  rewrite E0, E2.
  destruct (Z.gtb_spec (wrapU32 (getPosition s + upcomingBytes + mMinSpace s))
              (bufSize s)) as [Hgrow | Hfit];
    [rewrite E1 in Hgrow | rewrite E1 in Hfit].
  - destruct (grown_sized uninit s (getPosition s + upcomingBytes + mMinSpace s)
                Hs ltac:(lia)) as (Hs' & Hb' & Htake).
    cbv zeta in *. set (s' := mkBitStream _ _ _ _ _ _ _ _ _) in *.
    split; [exact Hs' |].
    assert (Hpos : getPosition s' = getPosition s) by reflexivity.
    split; [apply sized_room; [exact Hs' | lia | lia | rewrite Hpos; lia] |].
    split; [reflexivity |]. split; [reflexivity |].
    split; [lia | exact Htake].
  - split; [exact Hs |].
    split; [apply sized_room; [exact Hs | lia | lia | lia] |].
    split; [reflexivity |]. split; [reflexivity |].
    split; [lia |]. rewrite take_ge; [reflexivity | lia].
Qed.

Lemma infinite_validate_makes_room_witness :
  sized (InfiniteBitStream.validate noise 3 compactExample) /\
  room (InfiniteBitStream.validate noise 3 compactExample)
    (8 * (3 + mMinSpace compactExample)) /\
  bitNum (InfiniteBitStream.validate noise 3 compactExample)
  = bitNum compactExample /\
  error (InfiniteBitStream.validate noise 3 compactExample)
  = error compactExample /\
  bufSize compactExample
    <= bufSize (InfiniteBitStream.validate noise 3 compactExample) /\
  take (length (dataPtr compactExample))
    (dataPtr (InfiniteBitStream.validate noise 3 compactExample))
  = dataPtr compactExample.
Proof.
  apply (infinite_validate_makes_room noise 3 compactExample);
    [vm_compute; repeat split; discriminate | vm_compute; discriminate
    | lia | vm_compute; reflexivity].
Defined.

(** X11.  A [ResizeBitStream] is ready for use once constructed: its
    allocation has the recorded size ([initialSize], or [2 * minSpace] when
    that is 0), the cursor is 0, the error flag is clear, and after
    [validate] any field of up to [minSpace] bytes is written without
    error. *)
Theorem fresh_resize_stream_accepts (uninit : Z -> Z)
    (minSpace initialSize n : Z) (src : Z -> Z) :
  0 <= minSpace -> 0 <= initialSize ->
  initialSize + 4 * minSpace < 2 ^ 28 ->
  0 <= n <= 8 * minSpace ->
  sized (newResizeBitStream uninit minSpace initialSize) /\
  bufSize (newResizeBitStream uninit minSpace initialSize)
  = (if initialSize =? 0 then 2 * minSpace else initialSize) /\
  exists s',
    writeBits n src
      (ResizeBitStream.validate uninit
         (newResizeBitStream uninit minSpace initialSize)) = Some s' /\
    error s' = false /\ bitNum s' = n.
Proof.
  intros Hm Hi Hb Hn.
  assert (E28 : 2 ^ 28 = 268435456) by reflexivity.
  assert (E31 : 2 ^ 31 = 2147483648) by reflexivity.
  set (size := if initialSize =? 0 then 2 * minSpace else initialSize).
  assert (Hsize : 0 <= size <= initialSize + 2 * minSpace).
  { unfold size. destruct (Z.eqb_spec initialSize 0); lia. }
  assert (Hnew : newResizeBitStream uninit minSpace initialSize
                 = mkBitStream (dMalloc uninit size) 0 size false (8 * size)
                     (8 * size) None (mkPoint3F 0 0 0) minSpace).
  { unfold newResizeBitStream, newBitStream, setBuffer, clearCompressionPoint,
      set_mCompressPoint, blankStream. simpl.
    replace (if initialSize =? 0 then wrapU32 (minSpace * 2) else initialSize)
      with size.
    2:{ unfold size. destruct (initialSize =? 0); [| reflexivity].
        unfold wrapU32. rewrite Z.mod_small; [lia |].
        change (2 ^ 32) with 4294967296. lia. }
    rewrite (wrapS32_id size) by lia.
    destruct (Z.ltb_spec size 0); [lia |].
    rewrite Z.shiftl_mul_pow2 by lia. change (2 ^ 3) with 8.
    rewrite wrapS32_id by lia.
    replace (size * 8) with (8 * size) by lia. reflexivity. }
  rewrite Hnew.
  set (s0 := mkBitStream _ _ _ _ _ _ _ _ _).
  assert (Hs0 : sized s0).
  { unfold sized, s0, dMalloc. simpl.
    rewrite length_fmap, length_seqZ. repeat split; lia. }
  split; [exact Hs0 |]. split; [reflexivity |].
  destruct (resize_validate_sized uninit s0 Hs0)
    as (Hs' & Hroom & Hc & He & _); [simpl; lia | simpl; lia |].
  change (mMinSpace s0) with minSpace in Hroom.
  destruct (writeBits_appended n src _ _ Hroom Hn) as (s' & Hw & Happ).
  exists s'. split; [exact Hw |].
  destruct (appended_fields _ _ _ Happ) as (Hc' & He' & _).
  split; [rewrite He', He; reflexivity |].
  rewrite Hc', Hc. unfold srcBits. rewrite length_bitsOf. simpl. lia.
Qed.

Lemma fresh_resize_stream_accepts_witness :
  sized (newResizeBitStream noise 2 0) /\
  bufSize (newResizeBitStream noise 2 0) = (if 0 =? 0 then 2 * 2 else 0) /\
  exists s',
    writeBits 16 noise
      (ResizeBitStream.validate noise (newResizeBitStream noise 2 0)) = Some s' /\
    error s' = false /\ bitNum s' = 16.
Proof.
  apply (fresh_resize_stream_accepts noise 2 0 16 noise);
    [lia | lia | vm_compute; reflexivity | lia].
Defined.

(** X12.  After [InfiniteBitStream::compact] on a full buffer the ceilings
    promise space that the allocation does not have: the next flag write
    passes the range check and stores outside the allocation. *)
Theorem write_after_compact_leaves_allocation (uninit : Z -> Z) (v : bool)
    (s : BitStream) :
  sized s -> bitNum s = 8 * bufSize s -> 0 < mMinSpace s ->
  bufSize s + 2 * mMinSpace s < 2 ^ 28 ->
  exists s',
    InfiniteBitStream.compact uninit s = Some s' /\
    error s' = error s /\
    bitNum s' + 1 <= maxWriteBitNum s' /\
    Z.of_nat (length (dataPtr s')) <= bitNum s' / 8 /\
    writeFlag v s' = None.
Proof.
  intros Hs Hfull Hm Hb.
  assert (E28 : 2 ^ 28 = 268435456) by reflexivity.
  assert (E31 : 2 ^ 31 = 2147483648) by reflexivity.
  destruct (getPosition_sized s Hs ltac:(lia)) as [Hp Hc].
  pose proof Hs as (Hl & Hr & Hw & Hc').
  assert (Hpos : getPosition s = bufSize s) by lia.
  unfold InfiniteBitStream.compact.
  assert (E2 : wrapU32 (bufSize s) = bufSize s).
  { unfold wrapU32. apply Z.mod_small. change (2 ^ 32) with 4294967296. lia. }
  assert (E3 : wrapU32 (mMinSpace s * 2) = 2 * mMinSpace s).
  { unfold wrapU32. rewrite Z.mod_small; [lia |].
    change (2 ^ 32) with 4294967296. lia. }
  assert (E4 : wrapS32 (wrapU32 (getPosition s + 2 * mMinSpace s))
               = bufSize s + 2 * mMinSpace s).
  { unfold wrapU32. rewrite Z.mod_small by (change (2 ^ 32) with 4294967296; lia).
    rewrite wrapS32_id by lia. lia. }
  rewrite E2, E3, E4. cbv zeta.
  rewrite Z.shiftl_mul_pow2 by lia. change (2 ^ 3) with 8.
  rewrite wrapS32_id by lia.
  unfold dMemcpy, dMalloc. rewrite length_fmap, length_seqZ.
  destruct (Z.leb_spec 0 (bufSize s)); [| lia].
  destruct (Z.leb_spec (bufSize s) (Z.of_nat (Z.to_nat (bufSize s)))); [| lia].
  destruct (Z.leb_spec (bufSize s) (Z.of_nat (length (dataPtr s)))); [| lia].
  cbn [andb mbind option_bind].
  eexists. split; [reflexivity |]. simpl.
  assert (Hlen : Z.of_nat (length (take (Z.to_nat (bufSize s)) (dataPtr s)
                   ++ drop (Z.to_nat (bufSize s)) (uninit <$> seqZ 0 (bufSize s))))
                 = bufSize s).
  { rewrite length_app, length_take, length_drop, length_fmap, length_seqZ. lia. }
  split; [reflexivity |]. split; [lia |].
  assert (Hdiv : bitNum s / 8 = bufSize s).
  { rewrite Hfull. replace (8 * bufSize s) with (bufSize s * 8) by lia.
    apply Z.div_mul. lia. }
  split; [rewrite Hlen, Hdiv; lia |].
  unfold writeFlag. simpl. rewrite wrapS32_id by lia.
  destruct (Z.gtb_spec (bitNum s + 1) ((bufSize s + 2 * mMinSpace s) * 8));
    [lia |].
  rewrite shiftr3, Hdiv. rewrite load_out_of_range by (rewrite Hlen; lia).
  reflexivity.
Qed.

Lemma write_after_compact_leaves_allocation_witness :
  exists s',
    InfiniteBitStream.compact noise (setCurPos 32 compactExample) = Some s' /\
    error s' = error (setCurPos 32 compactExample) /\
    bitNum s' + 1 <= maxWriteBitNum s' /\
    Z.of_nat (length (dataPtr s')) <= bitNum s' / 8 /\
    writeFlag true s' = None.
Proof.
  apply (write_after_compact_leaves_allocation noise true
           (setCurPos 32 compactExample));
    [vm_compute; repeat split; discriminate | vm_compute; reflexivity
    | vm_compute; reflexivity | vm_compute; reflexivity].
Defined.

(** ** The Huffman tables *)

Lemma forallb_seqZ (p : Z -> bool) (n : Z) :
  forallb p (seqZ 0 n) = true -> forall c, 0 <= c < n -> p c = true.
Proof.
  intros H c Hc.
  pose proof (Forall_of_forallb p (fun x => p x = true) (seqZ 0 n)
                (fun x Hx => Hx) H) as HF.
  rewrite Forall_forall in HF. apply HF. apply list_elem_of_In.
  apply elem_of_seqZ. lia.
Qed.

Lemma builtTables_reach : tables_ok builtTables.
Proof.
  split; [apply builtTables_ok |].
  apply forallb_seqZ. vm_compute. reflexivity.
Qed.

Lemma descend_app (nodes : list HuffNode) :
  forall (b1 : list bool) (i : Z) (b2 : list bool),
    descend nodes i (b1 ++ b2)
    = descend nodes i b1 ≫= fun j => descend nodes j b2.
Proof.
  induction b1 as [| b b1 IH]; intros i b2; [reflexivity |].
  cbn [descend app]. destruct (i <? 0); [reflexivity |].
  destruct (getAt nodes i) as [rNode |]; cbn [mbind option_bind];
    [apply IH | reflexivity].
Qed.

Lemma code_reaches_inv (hp : HuffmanProcessor) (c : Z) :
  code_reaches hp c = true ->
  descend (m_huffNodes hp) 0 (codeBits (m_huffLeaves hp) c) = Some (- (c + 1)) /\
  symbol (leafOf (m_huffLeaves hp) c) = c /\
  1 <= numBits (leafOf (m_huffLeaves hp) c).
Proof.
  unfold code_reaches.
  destruct (descend _ _ _) as [i |]; [| discriminate].
  intros H. apply andb_true_iff in H as [H H3].
  apply andb_true_iff in H as [H1 H2].
  apply Z.eqb_eq in H1, H2. apply Z.leb_le in H3.
  subst i. repeat split; assumption.
Qed.

(** X13.  The codes that [buildTables] derives from the frequency table
    are prefix-free: the code of one byte value is never a prefix of the
    code of another.  (So a reader that follows the tree bit by bit knows
    where each symbol ends.) *)
Theorem huffman_codes_prefix_free (hp : HuffmanProcessor) (c c' : Z) :
  buildTables g_huffProcessor = Some hp ->
  0 <= c < 256 -> 0 <= c' < 256 -> c <> c' ->
  ~ codeBits (m_huffLeaves hp) c `prefix_of` codeBits (m_huffLeaves hp) c'.
Proof.
  rewrite buildTables_fresh. intros [= <-] Hc Hc' Hne [k Hk].
  destruct builtTables_reach as [_ Hreach].
  destruct (code_reaches_inv _ _ (Hreach c Hc)) as (Hd & _).
  destruct (code_reaches_inv _ _ (Hreach c' Hc')) as (Hd' & _).
  rewrite Hk, descend_app, Hd in Hd'. cbn [mbind option_bind] in Hd'.
  destruct k as [| b k].
  - cbn [descend] in Hd'. injection Hd' as E. lia.
  - cbn [descend] in Hd'.
    destruct (Z.ltb_spec (- (c + 1)) 0); [discriminate | lia].
Qed.

Lemma huffman_codes_prefix_free_witness :
  ~ codeBits (m_huffLeaves builtTables) 101
      `prefix_of` codeBits (m_huffLeaves builtTables) 122.
Proof.
  apply (huffman_codes_prefix_free builtTables 101 122);
    [vm_compute; reflexivity | lia | lia | lia].
Defined.

(** ** Reading what the Huffman writer wrote *)

Lemma holds_cons (m : list Z) (c : Z) (b : bool) (l : list bool) :
  holds m c (b :: l) -> bitAt m c = b /\ holds m (c + 1) l.
Proof.
  intros H. destruct (holds_app m c [b] l H) as [H1 H2]. split.
  - specialize (H1 0%nat b eq_refl). rewrite Z.add_0_r in H1. exact H1.
  - exact H2.
Qed.

Lemma set_bitNum_twice (s : BitStream) (x y : Z) :
  set_bitNum x (set_bitNum y s) = set_bitNum x s.
Proof. destruct s. reflexivity. Qed.

Lemma set_bitNum_same (s : BitStream) : set_bitNum (bitNum s) s = s.
Proof. destruct s. reflexivity. Qed.

Lemma bitNum_set_bitNum (s : BitStream) (x : Z) : bitNum (set_bitNum x s) = x.
Proof. destruct s. reflexivity. Qed.

Ltac same_stream :=
  repeat (rewrite set_bitNum_twice || rewrite bitNum_set_bitNum);
  f_equal; lia.

Lemma decodeSymbol_descend (hp : HuffmanProcessor) :
  forall (bits : list bool) (fuel : nat) (index : Z) (r : BitStream) (k : Z)
         (rest : list bool) (leaf : Z) (l : HuffLeaf),
    (length bits < fuel)%nat ->
    descend (m_huffNodes hp) index bits = Some leaf -> leaf < 0 ->
    getAt (m_huffLeaves hp) (- (leaf + 1)) = Some l ->
    readable r k -> Z.of_nat (length bits) <= k ->
    holds (dataPtr r) (bitNum r) (bits ++ rest) ->
    decodeSymbol fuel hp index r
    = Some (symbol l, set_bitNum (bitNum r + Z.of_nat (length bits)) r).
Proof.
  induction bits as [| b bits IH];
    intros fuel index r k rest leaf l Hfuel Hd Hneg Hleaf Hr Hk Hh.
  - cbn [descend] in Hd. injection Hd as ->.
    destruct fuel as [| fuel]; [simpl in Hfuel; lia |].
    cbn [decodeSymbol].
    destruct (Z.geb_spec leaf 0); [lia |].
    rewrite Hleaf. cbn [mbind option_bind length].
    change (Z.of_nat 0) with 0. rewrite Z.add_0_r, set_bitNum_same. reflexivity.
  - cbn [descend] in Hd.
    destruct (Z.ltb_spec index 0) as [| Hidx]; [discriminate |].
    destruct (getAt (m_huffNodes hp) index) as [rNode |] eqn:Hnode;
      cbn [mbind option_bind] in Hd; [| discriminate].
    destruct fuel as [| fuel]; [simpl in Hfuel; lia |].
    cbn [decodeSymbol].
    destruct (Z.geb_spec index 0); [| lia].
    cbn [length] in Hk, Hfuel. cbn [app] in Hh.
    rewrite (readFlag_holds r k b (bits ++ rest) Hr ltac:(lia) Hh).
    cbn [mbind option_bind]. rewrite Hnode. cbn [mbind option_bind].
    destruct (holds_cons _ _ _ _ Hh) as [_ Hh'].
    rewrite (IH fuel _ (set_bitNum (bitNum r + 1) r) (k - 1) rest leaf l);
      try assumption; try lia.
    + rewrite set_bitNum_twice. f_equal. f_equal.
      replace (bitNum (set_bitNum (bitNum r + 1) r)) with (bitNum r + 1)
        by (destruct r; reflexivity).
      cbn [length]. f_equal. lia.
    + apply readable_advance; [exact Hr | lia].
Qed.

Lemma length_codeBits (leaves : list HuffLeaf) (c : Z) :
  leaves_ok leaves ->
  Z.of_nat (length (codeBits leaves c)) = numBits (leafOf leaves c) /\
  0 <= numBits (leafOf leaves c) <= 32.
Proof.
  intros Hok.
  destruct (leaves_ok_leaf leaves (wrapU8 c) Hok (wrapU8_range c))
    as (l & _ & Hl & Hn).
  rewrite leafOf_wrap in Hl. subst l.
  split; [| exact Hn]. unfold codeBits. apply length_intBits. lia.
Qed.

Lemma decodeSymbols_holds (hp : HuffmanProcessor) :
  tables_ok hp ->
  forall (str pre mid post : list Z) (i : Z) (r : BitStream) (k : Z)
         (rest : list bool),
    Z.of_nat (length pre) = i -> length mid = length str ->
    readable r k -> totalBits (m_huffLeaves hp) str <= k ->
    holds (dataPtr r) (bitNum r)
      (mjoin (codeBits (m_huffLeaves hp) <$> str) ++ rest) ->
    decodeSymbols (length str) hp (pre ++ mid ++ post) i r
    = Some (pre ++ (wrapU8 <$> str) ++ post,
            set_bitNum (bitNum r + totalBits (m_huffLeaves hp) str) r).
Proof.
  intros [Hok Hreach].
  induction str as [| c str IH]; intros pre mid post i r k rest Hi Hmid Hr Hk Hh.
  - destruct mid; [| discriminate]. cbn [decodeSymbols length fmap list_fmap app].
    unfold totalBits. cbn [foldr]. rewrite Z.add_0_r, set_bitNum_same.
    reflexivity.
  - destruct mid as [| x mid]; [discriminate |].
    cbn [length] in Hmid. injection Hmid as Hmid.
    cbn [decodeSymbols length].
    destruct (length_codeBits (m_huffLeaves hp) c Hok) as [Hlen Hnb].
    pose proof (totalBits_bounds (m_huffLeaves hp) str Hok) as Htb.
    change (totalBits (m_huffLeaves hp) (c :: str))
      with (numBits (leafOf (m_huffLeaves hp) c) + totalBits (m_huffLeaves hp) str)
      in *.
    destruct (code_reaches_inv hp (wrapU8 c) (Hreach _ (wrapU8_range c)))
      as (Hd & Hsym & _).
    rewrite leafOf_wrap in Hsym.
    assert (Hcb : codeBits (m_huffLeaves hp) (wrapU8 c)
                  = codeBits (m_huffLeaves hp) c).
    { unfold codeBits. rewrite leafOf_wrap. reflexivity. }
    rewrite Hcb in Hd.
    destruct (leaves_ok_leaf (m_huffLeaves hp) (wrapU8 c) Hok (wrapU8_range c))
      as (l & Hget & Hl & _).
    rewrite leafOf_wrap in Hl.
    change (mjoin (codeBits (m_huffLeaves hp) <$> c :: str))
      with (codeBits (m_huffLeaves hp) c
            ++ mjoin (codeBits (m_huffLeaves hp) <$> str)) in Hh.
    rewrite <- app_assoc in Hh.
    pose proof (wrapU8_range c) as Hwc.
    rewrite (decodeSymbol_descend hp (codeBits (m_huffLeaves hp) c) 512 0 r k
               (mjoin (codeBits (m_huffLeaves hp) <$> str) ++ rest)
               (- (wrapU8 c + 1)) l); try assumption; try lia.
    2:{ replace (- (- (wrapU8 c + 1) + 1)) with (wrapU8 c) by lia. exact Hget. }
    cbn [mbind option_bind]. rewrite <- Hl, Hsym.
    change ((x :: mid) ++ post) with (x :: mid ++ post).
    rewrite (store_app_at pre (mid ++ post) x (wrapU8 c) i Hi).
    cbn [mbind option_bind]. rewrite wrapU8_idemp.
    destruct (holds_app _ _ _ _ Hh) as [_ Hh'].
    replace (pre ++ wrapU8 c :: mid ++ post)
      with ((pre ++ [wrapU8 c]) ++ mid ++ post)
      by (rewrite <- app_assoc; reflexivity).
    rewrite (IH (pre ++ [wrapU8 c]) mid post (i + 1)
               (set_bitNum (bitNum r + Z.of_nat (length (codeBits (m_huffLeaves hp) c))) r)
               (k - Z.of_nat (length (codeBits (m_huffLeaves hp) c))) rest).
    + rewrite set_bitNum_twice. f_equal. f_equal.
      * cbn [fmap list_fmap]. rewrite <- app_assoc. reflexivity.
      * replace (bitNum (set_bitNum _ r))
          with (bitNum r + Z.of_nat (length (codeBits (m_huffLeaves hp) c)))
          by (destruct r; reflexivity).
        f_equal. lia.
    + rewrite length_app. cbn [length]. lia.
    + exact Hmid.
    + apply readable_advance; [exact Hr | lia].
    + lia.
    + replace (dataPtr (set_bitNum _ r)) with (dataPtr r)
        by (destruct r; reflexivity).
      replace (bitNum (set_bitNum _ r))
        with (bitNum r + Z.of_nat (length (codeBits (m_huffLeaves hp) c)))
        by (destruct r; reflexivity).
      exact Hh'.
Qed.

Lemma readBits_holds_bytes (size : Z) (src : Z -> Z) (dst : list Z)
    (r : BitStream) (rest : list bool) :
  0 < size -> 8 * size + 7 < 2 ^ 31 -> readable r (8 * size) ->
  size <= Z.of_nat (length dst) ->
  holds (dataPtr r) (bitNum r) (srcBits src (8 * size) ++ rest) ->
  readBits (8 * size) dst r
  = Some (((fun t => wrapU8 (src t)) <$> seqZ 0 size)
            ++ drop (Z.to_nat size) dst,
          set_bitNum (bitNum r + 8 * size) r).
Proof.
  intros Hsz Hov (Hc & Hmax & Hl & Hov') Hdst Hh.
  assert (Hceil : (8 * size + 7) / 8 = size).
  { replace (8 * size + 7) with (7 + size * 8) by lia.
    rewrite Z.div_add by lia. reflexivity. }
  destruct (div8_facts (bitNum r)) as [Hcd Hcm].
  assert (Hfit : bitNum r / 8 + (8 * size + 7) / 8
                 < Z.of_nat (length (dataPtr r))) by (rewrite Hceil; lia).
  destruct (readBits_total (8 * size) dst r Hc ltac:(lia) ltac:(lia) Hov
              ltac:(lia) ltac:(rewrite Hceil; lia) Hfit) as [[dst' r'] Hrun].
  destruct (readBits_run (8 * size) dst r dst' r' Hc ltac:(lia) ltac:(lia) Hov
              ltac:(lia) Hrun) as (-> & Hl' & _ & _ & Hout & Hbytes).
  rewrite Hrun. f_equal. f_equal. rewrite Hceil in *.
  apply list_eq. intros i.
  destruct (Z_lt_le_dec (Z.of_nat i) size) as [Hi | Hi].
  - rewrite lookup_app_l by (rewrite length_fmap, length_seqZ; lia).
    rewrite list_lookup_fmap, lookup_seqZ_lt by lia. simpl.
    destruct (Hbytes (Z.of_nat i) ltac:(lia)) as (v & Hv & Hrange & Hbits).
    rewrite Nat2Z.id in Hv. rewrite Hv. f_equal.
    apply byte_of_bits; [exact Hrange |].
    intros b Hb. rewrite Hbits by lia.
    transitivity (srcBit src (8 * Z.of_nat i + b));
      [| apply srcBit_at; exact Hb].
    replace (bitNum r + 8 * Z.of_nat i + b)
      with (bitNum r + Z.of_nat (Z.to_nat (8 * Z.of_nat i + b))) by lia.
    apply Hh. apply lookup_app_l_Some.
    apply bitsOf_lookup. lia.
  - rewrite Hout by lia.
    rewrite lookup_app_r by (rewrite length_fmap, length_seqZ; lia).
    rewrite length_fmap, length_seqZ, lookup_drop. f_equal. lia.
Qed.

Lemma rawBits_srcBits (str : list Z) :
  rawBits str
  = srcBits (fun k => default 0 (str !! Z.to_nat k)) (8 * Z.of_nat (length str)).
Proof.
  symmetry. apply srcBits_raw. intros t x Hx.
  rewrite Nat2Z.id, Hx. reflexivity.
Qed.

Lemma fmap_seqZ_lookup (str : list Z) :
  (fun t => wrapU8 (default 0 (str !! Z.to_nat t))) <$> seqZ 0 (Z.of_nat (length str))
  = wrapU8 <$> str.
Proof.
  apply list_eq. intros i. rewrite !list_lookup_fmap.
  destruct (str !! i) as [x |] eqn:Hx.
  - pose proof (lookup_lt_Some _ _ _ Hx) as Hlt.
    rewrite lookup_seqZ_lt by lia. simpl.
    rewrite Z.add_0_l, Nat2Z.id, Hx. reflexivity.
  - pose proof (lookup_ge_None_1 _ _ Hx) as Hge.
    rewrite lookup_seqZ_ge by lia. reflexivity.
Qed.

Lemma readHuffBuffer_holds (hp hp' : HuffmanProcessor) (str out : list Z)
    (r : BitStream) (k : Z) (rest : list bool) :
  tablesOf hp = Some hp' -> tables_ok hp' ->
  Z.of_nat (length str) <= 255 ->
  Z.of_nat (length str) < Z.of_nat (length out) ->
  readable r k ->
  Z.of_nat (length (huffmanBody (m_huffLeaves hp') str)) <= k ->
  holds (dataPtr r) (bitNum r) (huffmanBody (m_huffLeaves hp') str ++ rest) ->
  readHuffBuffer hp r out
  = Some (hp', (wrapU8 <$> str) ++ 0 :: drop (S (length str)) out,
          set_bitNum
            (bitNum r + Z.of_nat (length (huffmanBody (m_huffLeaves hp') str)))
            r).
Proof.
  intros Htab Hok Hlen Hout Hr Hk Hh.
  pose proof Hok as [Hlok _].
  pose proof (length_huffmanBody (m_huffLeaves hp') str Hlok) as Hbody.
  pose proof (totalBits_bounds (m_huffLeaves hp') str Hlok) as Htb.
  assert (E31 : 2 ^ 31 = 2147483648) by reflexivity.
  unfold readHuffBuffer. unfold tablesOf in Htab. rewrite Htab.
  cbn [mbind option_bind].
  rewrite Hbody in *. unfold huffmanBody in Hh.
  set (len := Z.of_nat (length str)) in *.
  assert (Hdrop : exists x, drop (length str) out = x :: drop (S (length str)) out).
  { destruct (lookup_lt_is_Some_2 out (length str) ltac:(lia)) as [x Hx].
    exists x. apply drop_S. exact Hx. }
  destruct Hdrop as [x Hdrop].
  assert (Hsplit : out = take (length str) out ++ x :: drop (S (length str)) out).
  { rewrite <- Hdrop. symmetry. apply take_drop. }
  assert (Htl : length (take (length str) out) = length str).
  { rewrite length_take. lia. }
  assert (Hlenmod : len mod 2 ^ 8 = len).
  { apply Z.mod_small. change (2 ^ 8) with 256. lia. }
  assert (Hk9 : 9 <= k) by (destruct (_ >=? _); lia).
  pose proof (readable_advance r k 1 Hr ltac:(lia)) as Hr1.
  set (r1 := set_bitNum (bitNum r + 1) r) in *.
  assert (Hr1c : bitNum r1 = bitNum r + 1) by (destruct r; reflexivity).
  assert (Hr1d : dataPtr r1 = dataPtr r) by (destruct r; reflexivity).
  pose proof (readable_advance r1 (k - 1) 8 Hr1 ltac:(lia)) as Hr2.
  set (r2 := set_bitNum (bitNum r1 + 8) r1) in *.
  assert (Hr2c : bitNum r2 = bitNum r + 9) by (destruct r; simpl; lia).
  assert (Hr2d : dataPtr r2 = dataPtr r) by (destruct r; reflexivity).
  destruct (totalBits (m_huffLeaves hp') str >=? 8 * len) eqn:Hsel.
  - (* raw *)
    rewrite <- app_comm_cons in Hh.
    rewrite (readFlag_holds r k false _ Hr ltac:(lia) Hh).
    cbn [mbind option_bind].
    destruct (holds_cons _ _ _ _ Hh) as [_ Hh1].
    rewrite <- app_assoc in Hh1.
    destruct (readInt_holds r1 (k - 1) 8 len (rawBits str ++ rest) Hr1
                ltac:(lia) ltac:(lia)) as (v & Hri & _ & Hv & _).
    { rewrite Hr1c, Hr1d. exact Hh1. }
    fold r1. rewrite Hri. cbn [mbind option_bind].
    rewrite (Hv ltac:(lia)), Hlenmod.
    fold r2.
    assert (Hw : wrapU32 len = len).
    { unfold wrapU32. apply Z.mod_small. change (2 ^ 32) with 4294967296. lia. }
    rewrite Hw. unfold _read.
    rewrite Z.shiftl_mul_pow2 by lia. change (2 ^ 3) with 8.
    rewrite wrapS32_id by lia. replace (len * 8) with (8 * len) by lia.
    destruct (holds_app _ _ _ _ Hh1) as [_ Hh2].
    rewrite length_intBits in Hh2 by lia.
    destruct (Z.eq_dec len 0) as [Hz | Hnz].
    + assert (Hnil : str = []) by (destruct str; [reflexivity | simpl in *; lia]).
      subst str. rewrite Hz. change (8 * 0) with 0.
      unfold readBits. change (0 =? 0) with true. cbv iota.
      cbn [mbind option_bind].
      rewrite Hsplit at 1. cbn [length]. change (take 0 out) with (@nil Z).
      rewrite (store_app_at [] _ x 0 0 eq_refl).
      cbn [mbind option_bind fmap list_fmap app].
      f_equal. f_equal. unfold r2, r1. same_stream.
    + rewrite rawBits_srcBits in Hh2. fold len in Hh2.
      rewrite (readBits_holds_bytes len
                 (fun k => default 0 (str !! Z.to_nat k)) out r2 rest);
        try lia.
      * cbn [mbind option_bind]. unfold len.
        rewrite fmap_seqZ_lookup. rewrite Nat2Z.id, Hdrop.
        rewrite (store_app_at (wrapU8 <$> str) _ x 0 (Z.of_nat (length str)))
          by (rewrite length_fmap; reflexivity).
        cbn [mbind option_bind]. f_equal. f_equal.
        unfold r2, r1. same_stream.
      * replace (8 * len) with (k - 1 - 8 - (k - 9 - 8 * len)) by lia.
        destruct Hr2 as (A & B & C & D).
        unfold readable. repeat split; lia.
      * rewrite Hr2c, Hr2d.
        replace (bitNum r + 9) with (bitNum r + 1 + 8) by lia. exact Hh2.
  - (* compressed *)
    rewrite <- app_comm_cons in Hh.
    rewrite (readFlag_holds r k true _ Hr ltac:(lia) Hh).
    cbn [mbind option_bind].
    destruct (holds_cons _ _ _ _ Hh) as [_ Hh1].
    rewrite <- app_assoc in Hh1.
    destruct (readInt_holds r1 (k - 1) 8 len
                (mjoin (codeBits (m_huffLeaves hp') <$> str) ++ rest) Hr1
                ltac:(lia) ltac:(lia)) as (v & Hri & _ & Hv & _).
    { rewrite Hr1c, Hr1d. exact Hh1. }
    fold r1. rewrite Hri. cbn [mbind option_bind].
    rewrite (Hv ltac:(lia)), Hlenmod.
    fold r2.
    destruct (holds_app _ _ _ _ Hh1) as [_ Hh2].
    rewrite length_intBits in Hh2 by lia.
    replace (Z.to_nat len) with (length str) by (unfold len; lia).
    rewrite Hsplit at 1.
    assert (Hr2' : readable r2 (k - 9)).
    { replace (k - 9) with (k - 1 - 8) by lia. exact Hr2. }
    assert (Hh2' : holds (dataPtr r2) (bitNum r2)
                     (mjoin (codeBits (m_huffLeaves hp') <$> str) ++ rest)).
    { rewrite Hr2c, Hr2d.
      replace (bitNum r + 9) with (bitNum r + 1 + 8) by lia. exact Hh2. }
    pose proof (decodeSymbols_holds hp' Hok str [] (take (length str) out)
                  (x :: drop (S (length str)) out) 0 r2 (k - 9) rest
                  eq_refl Htl Hr2' ltac:(lia) Hh2') as Hds.
    cbn [app] in Hds. rewrite Hds.
    cbn [mbind option_bind].
    rewrite (store_app_at (wrapU8 <$> str) _ x 0 len)
      by (rewrite length_fmap; reflexivity).
    cbn [mbind option_bind]. f_equal. f_equal.
    unfold r2, r1. same_stream.
Qed.

Lemma huffmanBody_fits (leaves : list HuffLeaf) (str : list Z) (n : Z) :
  leaves_ok leaves -> Z.of_nat (length str) <= n ->
  Z.of_nat (length (huffmanBody leaves str)) <= 9 + 8 * n.
Proof.
  intros Hok Hn. rewrite length_huffmanBody by exact Hok.
  destruct (Z.geb_spec (totalBits leaves str) (8 * Z.of_nat (length str))); lia.
Qed.

Lemma length_take_le (str : list Z) (n : Z) :
  0 <= n -> Z.of_nat (length (take (Z.to_nat n) str)) <= n.
Proof. intros Hn. rewrite length_take. lia. Qed.

(** X14.  A string written by [writeHuffBuffer] is read back by
    [readHuffBuffer] byte for byte, in the compressed and in the raw form
    alike: the output buffer receives the characters sent (the string cut
    at [maxLen]) and the terminator, the bytes after the terminator are
    untouched, and the reader ends on the bit where the writer ended. *)
Theorem huffman_roundtrip (adjacent : Z -> Z) (hp hpR : HuffmanProcessor)
    (str rest out : list Z) (maxLen : Z) (s : BitStream) :
  tablesOf hp = Some builtTables -> tablesOf hpR = Some builtTables ->
  Forall (fun c => wrapU8 c <> 0) str ->
  0 <= maxLen <= 255 -> maxLen < Z.of_nat (length out) ->
  room s (9 + 8 * maxLen) -> readable s (9 + 8 * maxLen) ->
  exists s',
    writeHuffBuffer adjacent hp s (Some (str ++ 0 :: rest)) maxLen
    = Some (builtTables, s') /\
    readHuffBuffer hpR (setCurPos (bitNum s) s') out
    = Some (builtTables,
            (wrapU8 <$> take (Z.to_nat maxLen) str)
              ++ 0 :: drop (S (length (take (Z.to_nat maxLen) str))) out,
            s').
Proof.
  intros Htab HtabR Hnz Hmax Hout Hroom Hread.
  destruct builtTables_reach as [Hok Hreach].
  set (sent := take (Z.to_nat maxLen) str).
  pose proof (length_take_le str maxLen ltac:(lia)) as Hsent. fold sent in Hsent.
  pose proof (huffmanBody_fits _ sent maxLen Hok Hsent) as Hfit.
  destruct (writeHuffBuffer_chars adjacent hp builtTables s str rest maxLen
              (9 + 8 * maxLen) Htab Hok Hnz Hmax Hroom Hfit)
    as (s' & Hw & Happ).
  fold sent in Happ.
  exists s'. split; [exact Hw |].
  pose proof (appended_readable s s' _ _ Happ Hread) as Hr.
  pose proof (appended_holds s s' _ Happ) as Hh.
  rewrite (readHuffBuffer_holds hpR builtTables sent out
             (setCurPos (bitNum s) s') (9 + 8 * maxLen) []
             HtabR (conj Hok Hreach)); try lia.
  - f_equal. f_equal.
    replace (bitNum (setCurPos (bitNum s) s')) with (bitNum s)
      by (destruct s'; reflexivity).
    apply (appended_back s s' _ _ Happ eq_refl).
  - exact Hr.
  - rewrite app_nil_r.
    replace (dataPtr (setCurPos (bitNum s) s')) with (dataPtr s')
      by (destruct s'; reflexivity).
    replace (bitNum (setCurPos (bitNum s) s')) with (bitNum s)
      by (destruct s'; reflexivity).
    exact Hh.
Qed.

Lemma huffman_roundtrip_witness :
  exists s',
    writeHuffBuffer noise g_huffProcessor exampleStream
      (Some (helloworld ++ 0 :: [9; 9])) 7 = Some (builtTables, s') /\
    readHuffBuffer builtTables (setCurPos (bitNum exampleStream) s')
      [1; 2; 3; 4; 5; 6; 7; 8; 9; 10]
    = Some (builtTables,
            (wrapU8 <$> take (Z.to_nat 7) helloworld)
              ++ 0 :: drop (S (length (take (Z.to_nat 7) helloworld)))
                        [1; 2; 3; 4; 5; 6; 7; 8; 9; 10],
            s').
Proof.
  apply (huffman_roundtrip noise g_huffProcessor builtTables helloworld [9; 9]
           [1; 2; 3; 4; 5; 6; 7; 8; 9; 10] 7 exampleStream).
  - apply buildTables_fresh.
  - reflexivity.
  - repeat constructor; vm_compute; discriminate.
  - lia.
  - vm_compute; reflexivity.
  - vm_compute; repeat split; discriminate.
  - vm_compute; repeat split; discriminate.
Defined.

(** ** Strings through the scratch buffer *)

Lemma dStrcpy_loop_spec :
  forall (X pre mid post srcPre tl : list Z) (i : Z) (fuel : nat),
    Z.of_nat (length pre) = i -> Z.of_nat (length srcPre) = i ->
    length mid = S (length X) -> Forall (fun c => wrapU8 c <> 0) X ->
    (length X < fuel)%nat ->
    dStrcpy_loop fuel (pre ++ mid ++ post) (srcPre ++ X ++ 0 :: tl) i
    = Some (pre ++ ((wrapU8 <$> X) ++ [0]) ++ post).
Proof.
  induction X as [| c X IH];
    intros pre mid post srcPre tl i fuel Hpre Hsrc Hmid Hnz Hfuel.
  - destruct mid as [| m [| ? ?]]; try discriminate.
    destruct fuel as [| fuel]; [simpl in Hfuel; lia |].
    cbn [dStrcpy_loop app fmap list_fmap].
    rewrite (load_app_at srcPre tl 0 i Hsrc). cbn [mbind option_bind].
    rewrite (store_app_at pre post m (wrapU8 0) i Hpre).
    cbn [mbind option_bind]. reflexivity.
  - destruct mid as [| m mid]; [discriminate |].
    cbn [length] in Hmid, Hfuel. injection Hmid as Hmid.
    destruct fuel as [| fuel]; [lia |].
    apply Forall_cons_1 in Hnz as [Hc Hnz].
    cbn [dStrcpy_loop].
    change ((c :: X) ++ 0 :: tl) with (c :: (X ++ 0 :: tl)).
    rewrite (load_app_at srcPre (X ++ 0 :: tl) c i Hsrc).
    cbn [mbind option_bind].
    change ((m :: mid) ++ post) with (m :: (mid ++ post)).
    rewrite (store_app_at pre (mid ++ post) m (wrapU8 c) i Hpre).
    cbn [mbind option_bind]. rewrite wrapU8_idemp.
    destruct (Z.eqb_spec (wrapU8 c) 0); [contradiction |].
    replace (pre ++ wrapU8 c :: mid ++ post)
      with ((pre ++ [wrapU8 c]) ++ mid ++ post)
      by (rewrite <- app_assoc; reflexivity).
    replace (srcPre ++ c :: X ++ 0 :: tl)
      with ((srcPre ++ [c]) ++ X ++ 0 :: tl)
      by (rewrite <- app_assoc; reflexivity).
    rewrite (IH (pre ++ [wrapU8 c]) mid post (srcPre ++ [c]) tl (i + 1) fuel);
      try assumption; try lia.
    + cbn [fmap list_fmap]. rewrite <- !app_assoc. reflexivity.
    + rewrite length_app. cbn [length]. lia.
    + rewrite length_app. cbn [length]. lia.
Qed.

Lemma dStrcpy_spec (X tl dst : list Z) :
  Forall (fun c => wrapU8 c <> 0) X ->
  (length X < length dst)%nat ->
  dStrcpy dst (X ++ 0 :: tl)
  = Some ((wrapU8 <$> X) ++ 0 :: drop (S (length X)) dst).
Proof.
  intros Hnz Hlen. unfold dStrcpy.
  rewrite <- (take_drop (S (length X)) dst) at 1.
  rewrite (dStrcpy_loop_spec X [] (take (S (length X)) dst)
             (drop (S (length X)) dst) [] tl 0 _ eq_refl eq_refl).
  - cbn [app]. rewrite <- app_assoc. reflexivity.
  - rewrite length_take. lia.
  - exact Hnz.
  - rewrite length_app. cbn [length]. lia.
Qed.

Lemma commonPrefix_take :
  forall (j : nat) (a b : list Z),
    (j <= commonPrefix a b)%nat ->
    wrapU8 <$> take j a = wrapU8 <$> take j b /\ length (take j a) = j.
Proof.
  induction j as [| j IH]; intros a b Hj.
  - rewrite !take_0. split; reflexivity.
  - destruct a as [| x a], b as [| y b]; cbn [commonPrefix] in Hj; try lia.
    destruct (Z.eqb_spec (wrapU8 x) (wrapU8 y)) as [E | _]; [| lia].
    destruct (IH a b ltac:(lia)) as [H1 H2].
    cbn [take fmap list_fmap length]. rewrite E.
    split; [f_equal; exact H1 | f_equal; exact H2].
Qed.

Lemma fmap_wrapU8_idemp (l : list Z) : wrapU8 <$> (wrapU8 <$> l) = wrapU8 <$> l.
Proof.
  induction l as [| x l IH]; [reflexivity |].
  cbn [fmap list_fmap]. rewrite wrapU8_idemp. f_equal. exact IH.
Qed.

Lemma Forall_nz_wrap (l : list Z) :
  Forall (fun c => wrapU8 c <> 0) l ->
  Forall (fun c => wrapU8 c <> 0) (wrapU8 <$> l).
Proof.
  induction 1 as [| x l Hx _ IH]; [constructor |].
  cbn [fmap list_fmap]. constructor; [rewrite wrapU8_idemp; exact Hx | exact IH].
Qed.

Lemma Forall_nz_of_wrap (l l' : list Z) :
  wrapU8 <$> l = wrapU8 <$> l' ->
  Forall (fun c => wrapU8 c <> 0) l' -> Forall (fun c => wrapU8 c <> 0) l.
Proof.
  revert l'. induction l as [| x l IH]; intros [| y l'] E H;
    try discriminate; [constructor |].
  cbn [fmap list_fmap] in E. injection E as Ex El.
  apply Forall_cons_1 in H as [Hy H].
  constructor; [rewrite Ex; exact Hy | apply (IH l' El H)].
Qed.

Lemma chars_app (X tl : list Z) :
  Forall (fun c => wrapU8 c <> 0) X -> chars (X ++ 0 :: tl) = X.
Proof.
  intros Hnz. unfold chars. rewrite (dStrlen_chars X tl Hnz).
  change (default 0 (Some (Z.of_nat (length X)))) with (Z.of_nat (length X)).
  rewrite Nat2Z.id. apply take_app_length.
Qed.

Lemma replicate_zero_end (n : nat) (l : list Z) :
  replicate n 0 ++ 0 :: l = 0 :: replicate n 0 ++ l.
Proof.
  induction n as [| n IH]; [reflexivity |].
  cbn [replicate app]. rewrite IH. reflexivity.
Qed.

Lemma truncated_chars (str tl : list Z) (maxLen : Z) :
  Forall (fun c => wrapU8 c <> 0) str -> 0 <= maxLen ->
  wrapU8 <$> chars (truncated str maxLen ++ tl)
  = wrapU8 <$> take (Z.to_nat maxLen) str.
Proof.
  intros Hnz Hm. unfold truncated.
  rewrite <- !app_assoc. cbn [app]. rewrite replicate_zero_end.
  rewrite <- fmap_take.
  rewrite chars_app.
  - apply fmap_wrapU8_idemp.
  - apply Forall_nz_wrap, Forall_take, Hnz.
Qed.

(** What [writeString] does with a scratch buffer bound. *)
Lemma writeString_scratch (adjacent : Z -> Z) (hp hp' : HuffmanProcessor)
    (s : BitStream) (str rest sb : list Z) (maxLen k : Z) :
  tablesOf hp = Some hp' -> leaves_ok (m_huffLeaves hp') ->
  Forall (fun c => wrapU8 c <> 0) str ->
  0 <= maxLen <= 255 -> room s k ->
  stringBuffer s = Some sb -> maxLen < Z.of_nat (length sb) ->
  let j := Z.of_nat (Nat.min (Z.to_nat maxLen) (commonPrefix sb str)) in
  let wire := stringWire (m_huffLeaves hp') j (take (Z.to_nat maxLen) str) in
  let sb' := truncated str maxLen ++ drop (Z.to_nat maxLen + 1) sb in
  Z.of_nat (length wire) <= k ->
  exists s',
    writeString adjacent hp (Some (str ++ 0 :: rest)) maxLen s = Some (hp', s') /\
    stringBuffer s' = Some sb' /\
    appended (set_stringBuffer (Some sb') s) s' wire.
Proof.
  intros Htab Hok Hnz Hmax Hroom Hsb Hlen j wire sb' Hfit.
  unfold writeString. rewrite Hsb. simpl default.
  pose proof (prefixLoop_spec (Z.to_nat maxLen) [] sb [] str rest 0
                eq_refl eq_refl ltac:(lia) Hnz) as Hj.
  simpl app in Hj. rewrite Hj. cbn [mbind option_bind].
  change (0 + Z.of_nat (Nat.min (Z.to_nat maxLen) (commonPrefix sb str)))
    with (0 + j).
  rewrite Z.add_0_l.
  destruct (scratch_update_steps sb str rest maxLen Hnz ltac:(lia))
    as (sb1 & Hcopy & Hterm).
  rewrite Hcopy. cbn [mbind option_bind]. rewrite Hterm.
  cbn [mbind option_bind]. fold sb'.
  set (s0 := set_stringBuffer (Some sb') s).
  assert (Hroom0 : room s0 k) by exact Hroom.
  pose proof (commonPrefix_le sb str) as Hcp.
  assert (Hjr : 0 <= j <= maxLen /\ j <= Z.of_nat (length str)) by lia.
  unfold wire, stringWire in Hfit |- *.
  destruct (writeFlag_appended (j >? 2) s0 k Hroom0) as (s1 & Hw1 & Ha1).
  { revert Hfit. destruct (j >? 2); cbn [length]; lia. }
  rewrite Hw1. cbn [mbind option_bind].
  pose proof (appended_room _ _ _ _ Ha1 Hroom0) as Hroom1. simpl in Hroom1.
  assert (Hsb1 : stringBuffer s1 = Some sb')
    by (destruct (appended_fields _ _ _ Ha1) as (_ & _ & -> & _); reflexivity).
  revert Hfit. destruct (j >? 2) eqn:Hj2; cbn [length]; intros Hfit.
  - assert (Hi8 : Z.of_nat (length (intBits j 8)) = 8)
      by (unfold intBits; rewrite length_bitsOf; lia).
    rewrite length_app in Hfit.
    destruct (writeInt_appended adjacent j 8 s1 (k - 1) Hroom1)
      as (s2 & Hw2 & Ha2); [lia | lia |].
    rewrite Hw2. cbn [mbind option_bind].
    pose proof (appended_room _ _ _ _ Ha2 Hroom1) as Hroom2.
    rewrite Hi8 in Hroom2.
    rewrite drop_app_le by lia.
    rewrite (wrapS32_id (maxLen - j)) by lia.
    assert (Hsent : take (Z.to_nat (maxLen - j)) (drop (Z.to_nat j) str)
                    = drop (Z.to_nat j) (take (Z.to_nat maxLen) str)).
    { rewrite take_drop_commute. do 2 f_equal. lia. }
    destruct (writeHuffBuffer_chars adjacent hp hp' s2
                (drop (Z.to_nat j) str) rest (maxLen - j) (k - 1 - 8))
      as (s3 & Hw3 & Ha3); auto; try lia.
    { apply Forall_drop, Hnz. }
    { rewrite Hsent. lia. }
    rewrite Hw3. exists s3.
    split; [reflexivity |]. split.
    { destruct (appended_fields _ _ _ Ha3) as (_ & _ & -> & _).
      destruct (appended_fields _ _ _ Ha2) as (_ & _ & -> & _).
      exact Hsb1. }
    rewrite Hsent in Ha3.
    apply (appended_trans _ _ _ [true] _ Ha1).
    apply (appended_trans _ _ _ _ _ Ha2 Ha3).
  - destruct (writeHuffBuffer_chars adjacent hp hp' s1 str rest maxLen (k - 1))
      as (s2 & Hw2 & Ha2); auto; try lia.
    rewrite Hw2. exists s2.
    split; [reflexivity |]. split.
    { destruct (appended_fields _ _ _ Ha2) as (_ & _ & -> & _). exact Hsb1. }
    apply (appended_trans _ _ _ [false] _ Ha1 Ha2).
Qed.

Lemma readString_plain (hp hp' : HuffmanProcessor) (str buf : list Z)
    (r : BitStream) (k : Z) (rest : list bool) :
  tablesOf hp = Some hp' -> tables_ok hp' ->
  Z.of_nat (length str) <= 255 ->
  Z.of_nat (length str) < Z.of_nat (length buf) ->
  readable r k ->
  Z.of_nat (length (huffmanBody (m_huffLeaves hp') str)) <= k ->
  holds (dataPtr r) (bitNum r) (huffmanBody (m_huffLeaves hp') str ++ rest) ->
  stringBuffer r = None ->
  readString hp buf r
  = Some (hp', (wrapU8 <$> str) ++ 0 :: drop (S (length str)) buf,
          set_bitNum
            (bitNum r + Z.of_nat (length (huffmanBody (m_huffLeaves hp') str)))
            r).
Proof.
  intros Htab Hok Hlen Hbuf Hr Hk Hh Hsb.
  unfold readString. rewrite Hsb.
  rewrite (readHuffBuffer_holds hp hp' str buf r k rest Htab Hok Hlen Hbuf Hr Hk Hh).
  cbn [mbind option_bind].
  replace (stringBuffer (set_bitNum _ r)) with (stringBuffer r)
    by (destruct r; reflexivity).
  rewrite Hsb. reflexivity.
Qed.

Lemma readString_whole (hp hp' : HuffmanProcessor) (str buf sb : list Z)
    (r : BitStream) (k : Z) :
  tablesOf hp = Some hp' -> tables_ok hp' ->
  Forall (fun c => wrapU8 c <> 0) str ->
  Z.of_nat (length str) <= 255 ->
  Z.of_nat (length str) < Z.of_nat (length buf) ->
  Z.of_nat (length str) < Z.of_nat (length sb) ->
  readable r k ->
  1 + Z.of_nat (length (huffmanBody (m_huffLeaves hp') str)) <= k ->
  holds (dataPtr r) (bitNum r) (false :: huffmanBody (m_huffLeaves hp') str) ->
  stringBuffer r = Some sb ->
  exists bufR sbR r',
    readString hp buf r = Some (hp', bufR, r') /\
    stringBuffer r' = Some sbR /\
    bitNum r'
    = bitNum r + 1 + Z.of_nat (length (huffmanBody (m_huffLeaves hp') str)) /\
    wrapU8 <$> chars bufR = wrapU8 <$> str /\
    wrapU8 <$> chars sbR = wrapU8 <$> str.
Proof.
  intros Htab Hok Hnz Hlen Hbuf Hsbl Hr Hk Hh Hsb.
  unfold readString. rewrite Hsb.
  rewrite (readFlag_holds r k false _ Hr ltac:(lia) Hh).
  cbn [mbind option_bind]. cbv iota.
  destruct (holds_cons _ _ _ _ Hh) as [_ Hh1].
  pose proof (readable_advance r k 1 Hr ltac:(lia)) as Hr1.
  set (r1 := set_bitNum (bitNum r + 1) r) in *.
  assert (Hr1c : bitNum r1 = bitNum r + 1) by (destruct r; reflexivity).
  assert (Hr1d : dataPtr r1 = dataPtr r) by (destruct r; reflexivity).
  assert (Hr1s : stringBuffer r1 = Some sb) by (destruct r; exact Hsb).
  rewrite (readHuffBuffer_holds hp hp' str buf r1 (k - 1) [] Htab Hok Hlen Hbuf
             Hr1 ltac:(lia)).
  2:{ rewrite app_nil_r, Hr1c, Hr1d. exact Hh1. }
  cbn [mbind option_bind].
  replace (stringBuffer (set_bitNum _ r1)) with (stringBuffer r1)
    by (destruct r1; reflexivity).
  rewrite Hr1s.
  rewrite (dStrcpy_spec (wrapU8 <$> str) _ sb (Forall_nz_wrap _ Hnz))
    by (rewrite length_fmap; lia).
  cbn [mbind option_bind].
  eexists _, _, _. split; [reflexivity |].
  split; [destruct r1; reflexivity |].
  split.
  { replace (bitNum (set_stringBuffer _ (set_bitNum _ r1)))
      with (bitNum r1 + Z.of_nat (length (huffmanBody (m_huffLeaves hp') str)))
      by (destruct r1; reflexivity).
    lia. }
  rewrite !chars_app by (repeat apply Forall_nz_wrap; exact Hnz).
  rewrite !fmap_wrapU8_idemp. split; reflexivity.
Qed.

Lemma readString_suffix (hp hp' : HuffmanProcessor) (suffix buf sb : list Z)
    (j : Z) (r : BitStream) (k : Z) :
  tablesOf hp = Some hp' -> tables_ok hp' ->
  Forall (fun c => wrapU8 c <> 0) suffix ->
  Forall (fun c => wrapU8 c <> 0) (take (Z.to_nat j) sb) ->
  0 <= j -> j + Z.of_nat (length suffix) <= 255 ->
  j + Z.of_nat (length suffix) < Z.of_nat (length buf) ->
  j + Z.of_nat (length suffix) < Z.of_nat (length sb) ->
  readable r k ->
  9 + Z.of_nat (length (huffmanBody (m_huffLeaves hp') suffix)) <= k ->
  holds (dataPtr r) (bitNum r)
    (true :: intBits j 8 ++ huffmanBody (m_huffLeaves hp') suffix) ->
  stringBuffer r = Some sb ->
  exists bufR sbR r',
    readString hp buf r = Some (hp', bufR, r') /\
    stringBuffer r' = Some sbR /\
    bitNum r'
    = bitNum r + 9 + Z.of_nat (length (huffmanBody (m_huffLeaves hp') suffix)) /\
    wrapU8 <$> chars bufR = wrapU8 <$> (take (Z.to_nat j) sb ++ suffix) /\
    wrapU8 <$> chars sbR = wrapU8 <$> (take (Z.to_nat j) sb ++ suffix).
Proof.
  intros Htab Hok Hnz Hpre Hj Hlen Hbuf Hsbl Hr Hk Hh Hsb.
  unfold readString. rewrite Hsb.
  rewrite (readFlag_holds r k true _ Hr ltac:(lia) Hh).
  cbn [mbind option_bind]. cbv iota.
  destruct (holds_cons _ _ _ _ Hh) as [_ Hh1].
  pose proof (readable_advance r k 1 Hr ltac:(lia)) as Hr1.
  set (r1 := set_bitNum (bitNum r + 1) r) in *.
  assert (Hr1c : bitNum r1 = bitNum r + 1) by (destruct r; reflexivity).
  assert (Hr1d : dataPtr r1 = dataPtr r) by (destruct r; reflexivity).
  destruct (readInt_holds r1 (k - 1) 8 j (huffmanBody (m_huffLeaves hp') suffix)
              Hr1 ltac:(lia) ltac:(lia)) as (v & Hri & _ & Hv & _).
  { rewrite Hr1c, Hr1d. exact Hh1. }
  rewrite Hri. cbn [mbind option_bind].
  rewrite (Hv ltac:(lia)).
  rewrite Z.mod_small by (change (2 ^ 8) with 256; lia).
  pose proof (readable_advance r1 (k - 1) 8 Hr1 ltac:(lia)) as Hr2.
  set (r2 := set_bitNum (bitNum r1 + 8) r1) in *.
  assert (Hr2c : bitNum r2 = bitNum r + 9) by (destruct r; simpl; lia).
  assert (Hr2d : dataPtr r2 = dataPtr r) by (destruct r; reflexivity).
  destruct (holds_app _ _ _ _ Hh1) as [_ Hh2].
  rewrite length_intBits in Hh2 by lia.
  rewrite (readHuffBuffer_holds hp hp' suffix (drop (Z.to_nat j) sb) r2
             (k - 1 - 8) [] Htab Hok ltac:(lia)); try lia.
  2:{ rewrite length_drop. lia. }
  2:{ exact Hr2. }
  2:{ rewrite app_nil_r, Hr2c, Hr2d.
      replace (bitNum r + 9) with (bitNum r + 1 + 8) by lia. exact Hh2. }
  cbn [mbind option_bind]. cbv zeta.
  set (tl := drop (S (length suffix)) (drop (Z.to_nat j) sb)).
  assert (Hnzw : Forall (fun c => wrapU8 c <> 0)
                   (take (Z.to_nat j) sb ++ (wrapU8 <$> suffix))).
  { apply Forall_app. split; [exact Hpre | apply Forall_nz_wrap, Hnz]. }
  replace (take (Z.to_nat j) sb ++ (wrapU8 <$> suffix) ++ 0 :: tl)
    with ((take (Z.to_nat j) sb ++ (wrapU8 <$> suffix)) ++ 0 :: tl)
    by (rewrite <- app_assoc; reflexivity).
  rewrite (dStrcpy_spec _ tl buf Hnzw).
  2:{ rewrite length_app, length_take, length_fmap. lia. }
  cbn [mbind option_bind].
  eexists _, _, _. split; [reflexivity |].
  split; [destruct r2; reflexivity |].
  split.
  { replace (bitNum (set_stringBuffer _ (set_bitNum _ r2)))
      with (bitNum r2 + Z.of_nat (length (huffmanBody (m_huffLeaves hp') suffix)))
      by (destruct r2; reflexivity).
    lia. }
  rewrite !chars_app; [| exact Hnzw | apply Forall_nz_wrap, Hnzw].
  rewrite fmap_wrapU8_idemp.
  rewrite !fmap_app, fmap_wrapU8_idemp. split; reflexivity.
Qed.

(** X15.  A string sent with [writeString] arrives through [readString]
    when both ends hold the same scratch buffer, whichever form goes over
    the wire (prefix reuse or whole string): the reader's buffer, the
    reader's scratch and the writer's scratch all end up holding the
    string cut at [maxLen], and the reader ends on the bit where the
    writer ended.  With no scratch buffer bound the string arrives byte for
    byte as well. *)
Theorem string_roundtrip (adjacent : Z -> Z) (hp hpR : HuffmanProcessor)
    (str rest buf : list Z) (maxLen : Z) (s : BitStream) :
  tablesOf hp = Some builtTables -> tablesOf hpR = Some builtTables ->
  Forall (fun c => wrapU8 c <> 0) str ->
  0 <= maxLen <= 255 -> maxLen < Z.of_nat (length buf) ->
  room s (18 + 8 * maxLen) -> readable s (18 + 8 * maxLen) ->
  (forall sb,
      stringBuffer s = Some sb -> maxLen < Z.of_nat (length sb) ->
      exists s' sbW bufR sbR r',
        writeString adjacent hp (Some (str ++ 0 :: rest)) maxLen s
        = Some (builtTables, s') /\
        stringBuffer s' = Some sbW /\
        readString hpR buf
          (setStringBuffer (Some sb) (setCurPos (bitNum s) s'))
        = Some (builtTables, bufR, r') /\
        stringBuffer r' = Some sbR /\ bitNum r' = bitNum s' /\
        wrapU8 <$> chars bufR = wrapU8 <$> take (Z.to_nat maxLen) str /\
        wrapU8 <$> chars sbR = wrapU8 <$> take (Z.to_nat maxLen) str /\
        wrapU8 <$> chars sbW = wrapU8 <$> take (Z.to_nat maxLen) str) /\
  (stringBuffer s = None ->
   exists s',
     writeString adjacent hp (Some (str ++ 0 :: rest)) maxLen s
     = Some (builtTables, s') /\
     readString hpR buf (setCurPos (bitNum s) s')
     = Some (builtTables,
             (wrapU8 <$> take (Z.to_nat maxLen) str)
               ++ 0 :: drop (S (length (take (Z.to_nat maxLen) str))) buf,
             s')).
Proof.
  intros Htab HtabR Hnz Hmax Hbuf Hroom Hread.
  destruct builtTables_reach as [Hok Hreach].
  set (sent := take (Z.to_nat maxLen) str).
  pose proof (length_take_le str maxLen ltac:(lia)) as Hsent. fold sent in Hsent.
  assert (Hsnz : Forall (fun c => wrapU8 c <> 0) sent) by apply Forall_take, Hnz.
  split.
  - intros sb Hsb Hsbl.
    set (j := Z.of_nat (Nat.min (Z.to_nat maxLen) (commonPrefix sb str))).
    pose proof (commonPrefix_le sb str) as Hcp.
    assert (Hjr : 0 <= j <= maxLen /\ j <= Z.of_nat (length str)) by lia.
    assert (Hjs : j <= Z.of_nat (length sent)).
    { unfold sent. rewrite length_take. lia. }
    pose proof (huffmanBody_fits _ sent maxLen Hok Hsent) as Hfit0.
    pose proof (huffmanBody_fits _ (drop (Z.to_nat j) sent) maxLen Hok) as Hfit1.
    rewrite length_drop in Hfit1. specialize (Hfit1 ltac:(lia)).
    assert (Hwire : Z.of_nat (length (stringWire (m_huffLeaves builtTables) j sent))
                    <= 18 + 8 * maxLen).
    { unfold stringWire. destruct (j >? 2); cbn [length];
        rewrite ?length_app, ?Nat2Z.inj_succ, ?Nat2Z.inj_add;
        rewrite ?length_intBits by lia; lia. }
    destruct (writeString_scratch adjacent hp builtTables s str rest sb maxLen
                (18 + 8 * maxLen) Htab Hok Hnz Hmax Hroom Hsb Hsbl Hwire)
      as (s' & Hw & Hsb' & Happ).
    fold j sent in Happ.
    set (sbW := truncated str maxLen ++ drop (Z.to_nat maxLen + 1) sb) in *.
    set (s0 := set_stringBuffer (Some sbW) s) in *.
    assert (Hread0 : readable s0 (18 + 8 * maxLen)) by exact Hread.
    pose proof (appended_readable s0 s' _ _ Happ Hread0) as Hr.
    pose proof (appended_holds s0 s' _ Happ) as Hh.
    destruct (appended_fields s0 s' _ Happ) as (Hc' & _).
    change (bitNum s0) with (bitNum s) in *.
    set (r := setStringBuffer (Some sb) (setCurPos (bitNum s) s')).
    assert (Hrr : readable r (18 + 8 * maxLen)).
    { revert Hr. unfold r, readable. destruct s'; simpl. tauto. }
    assert (Hrc : bitNum r = bitNum s) by (unfold r; destruct s'; reflexivity).
    assert (Hrd : dataPtr r = dataPtr s') by (unfold r; destruct s'; reflexivity).
    assert (Hrs : stringBuffer r = Some sb) by (unfold r; destruct s'; reflexivity).
    destruct (commonPrefix_take (Z.to_nat j) sb str ltac:(lia)) as [Hpre Hprel].
    assert (Hjoin : wrapU8 <$> (take (Z.to_nat j) sb ++ drop (Z.to_nat j) sent)
                    = wrapU8 <$> sent).
    { rewrite fmap_app, Hpre, <- fmap_app. f_equal.
      rewrite <- (take_drop (Z.to_nat j) sent) at 2. f_equal.
      unfold sent. rewrite take_take. f_equal. lia. }
    assert (Hchw : wrapU8 <$> chars sbW = wrapU8 <$> sent).
    { apply truncated_chars; [exact Hnz | lia]. }
    unfold stringWire in Hh, Hc'.
    destruct (j >? 2) eqn:Hj2.
    + assert (Hdl : Z.of_nat (length (drop (Z.to_nat j) sent))
                    = Z.of_nat (length sent) - j)
        by (rewrite length_drop; lia).
      assert (Hh' : holds (dataPtr r) (bitNum r)
                      (true :: intBits j 8
                         ++ huffmanBody (m_huffLeaves builtTables)
                              (drop (Z.to_nat j) sent)))
        by (rewrite Hrc, Hrd; exact Hh).
      destruct (readString_suffix hpR builtTables (drop (Z.to_nat j) sent) buf sb
                  j r (18 + 8 * maxLen) HtabR (conj Hok Hreach)
                  (Forall_drop _ _ _ Hsnz)
                  (Forall_nz_of_wrap _ _ Hpre (Forall_take _ _ _ Hnz))
                  ltac:(lia) ltac:(lia) ltac:(lia) ltac:(lia) Hrr ltac:(lia)
                  Hh' Hrs)
        as (bufR & sbR & r' & Hrun & Hsr & Hcr & Hb1 & Hb2).
      exists s', sbW, bufR, sbR, r'.
      split; [exact Hw |]. split; [exact Hsb' |]. split; [exact Hrun |].
      split; [exact Hsr |]. split.
      { rewrite Hcr, Hc', Hrc. cbn [length].
        rewrite length_app, Nat2Z.inj_succ, Nat2Z.inj_add.
        rewrite length_intBits by lia. lia. }
      rewrite Hb1, Hb2, Hjoin. repeat split; try reflexivity. exact Hchw.
    + assert (Hh' : holds (dataPtr r) (bitNum r)
                      (false :: huffmanBody (m_huffLeaves builtTables) sent))
        by (rewrite Hrc, Hrd; exact Hh).
      destruct (readString_whole hpR builtTables sent buf sb r (18 + 8 * maxLen)
                  HtabR (conj Hok Hreach) Hsnz ltac:(lia) ltac:(lia) ltac:(lia)
                  Hrr ltac:(lia) Hh' Hrs)
        as (bufR & sbR & r' & Hrun & Hsr & Hcr & Hb1 & Hb2).
      exists s', sbW, bufR, sbR, r'.
      split; [exact Hw |]. split; [exact Hsb' |]. split; [exact Hrun |].
      split; [exact Hsr |]. split.
      { rewrite Hcr, Hc', Hrc. cbn [length]. lia. }
      rewrite Hb1, Hb2. repeat split; try reflexivity. exact Hchw.
  - intros Hsb.
    pose proof (huffmanBody_fits _ sent maxLen Hok Hsent) as Hfit.
    assert (Hroom' : room s (9 + 8 * maxLen)).
    { destruct Hroom as (A & B & C & D). unfold room. repeat split; lia. }
    assert (Hread' : readable s (9 + 8 * maxLen)).
    { destruct Hread as (A & B & C & D). unfold readable. repeat split; lia. }
    assert (Hws : writeString adjacent hp (Some (str ++ 0 :: rest)) maxLen s
                  = writeHuffBuffer adjacent hp s (Some (str ++ 0 :: rest)) maxLen).
    { unfold writeString. rewrite Hsb. reflexivity. }
    rewrite Hws.
    destruct (writeHuffBuffer_chars adjacent hp builtTables s str rest maxLen
                (9 + 8 * maxLen) Htab Hok Hnz Hmax Hroom' Hfit)
      as (s' & Hw & Happ).
    fold sent in Happ.
    exists s'. split; [exact Hw |].
    pose proof (appended_readable s s' _ _ Happ Hread') as Hr.
    pose proof (appended_holds s s' _ Happ) as Hh.
    destruct (appended_fields s s' _ Happ) as (_ & _ & Hsb' & _).
    rewrite (readString_plain hpR builtTables sent buf
               (setCurPos (bitNum s) s') (9 + 8 * maxLen) []
               HtabR (conj Hok Hreach)); try lia.
    + f_equal. f_equal.
      replace (bitNum (setCurPos (bitNum s) s')) with (bitNum s)
        by (destruct s'; reflexivity).
      apply (appended_back s s' _ _ Happ eq_refl).
    + exact Hr.
    + rewrite app_nil_r.
      replace (dataPtr (setCurPos (bitNum s) s')) with (dataPtr s')
        by (destruct s'; reflexivity).
      replace (bitNum (setCurPos (bitNum s) s')) with (bitNum s)
        by (destruct s'; reflexivity).
      exact Hh.
    + replace (stringBuffer (setCurPos (bitNum s) s')) with (stringBuffer s')
        by (destruct s'; reflexivity).
      rewrite Hsb'. exact Hsb.
Qed.

Lemma string_roundtrip_witness :
  (forall sb,
      stringBuffer scratchStream = Some sb -> 20 < Z.of_nat (length sb) ->
      exists s' sbW bufR sbR r',
        writeString noise g_huffProcessor (Some (helloworld ++ 0 :: [])) 20
          scratchStream = Some (builtTables, s') /\
        stringBuffer s' = Some sbW /\
        readString builtTables (replicate 32 7)
          (setStringBuffer (Some sb) (setCurPos (bitNum scratchStream) s'))
        = Some (builtTables, bufR, r') /\
        stringBuffer r' = Some sbR /\ bitNum r' = bitNum s' /\
        wrapU8 <$> chars bufR = wrapU8 <$> take (Z.to_nat 20) helloworld /\
        wrapU8 <$> chars sbR = wrapU8 <$> take (Z.to_nat 20) helloworld /\
        wrapU8 <$> chars sbW = wrapU8 <$> take (Z.to_nat 20) helloworld) /\
  (stringBuffer scratchStream = None ->
   exists s',
     writeString noise g_huffProcessor (Some (helloworld ++ 0 :: [])) 20
       scratchStream = Some (builtTables, s') /\
     readString builtTables (replicate 32 7)
       (setCurPos (bitNum scratchStream) s')
     = Some (builtTables,
             (wrapU8 <$> take (Z.to_nat 20) helloworld)
               ++ 0 :: drop (S (length (take (Z.to_nat 20) helloworld)))
                         (replicate 32 7),
             s')).
Proof.
  apply (string_roundtrip noise g_huffProcessor builtTables helloworld []
           (replicate 32 7) 20 scratchStream).
  - apply buildTables_fresh.
  - reflexivity.
  - repeat constructor; vm_compute; discriminate.
  - lia.
  - vm_compute; reflexivity.
  - vm_compute; repeat split; discriminate.
  - vm_compute; repeat split; discriminate.
Defined.

(** X16.  A null string pointer goes over the wire as the empty string:
    [writeHuffBuffer] writes nine 0 bits (raw form, length 0) without
    building the tables, and [readHuffBuffer] makes of them the empty
    string, storing only the terminator. *)
Theorem null_string_is_empty (adjacent : Z -> Z) (hp hpR : HuffmanProcessor)
    (out : list Z) (maxLen : Z) (s : BitStream) :
  tablesOf hpR = Some builtTables ->
  (0 < length out)%nat -> room s 9 -> readable s 9 ->
  exists s',
    writeHuffBuffer adjacent hp s None maxLen = Some (hp, s') /\
    appended s s' (replicate 9 false) /\
    readHuffBuffer hpR (setCurPos (bitNum s) s') out
    = Some (builtTables, 0 :: drop 1 out, s').
Proof.
  intros HtabR Hout Hroom Hread.
  destruct builtTables_reach as [Hok Hreach].
  destruct (writeFlag_appended false s 9 Hroom ltac:(lia)) as (s1 & Hw1 & Ha1).
  pose proof (appended_room _ _ _ _ Ha1 Hroom) as Hroom1. simpl in Hroom1.
  destruct (writeInt_appended adjacent 0 8 s1 (9 - 1) Hroom1 ltac:(lia) ltac:(lia))
    as (s2 & Hw2 & Ha2).
  pose proof (appended_trans _ _ _ _ _ Ha1 Ha2) as Happ.
  assert (Hbits : [false] ++ intBits 0 8 = replicate 9 false) by reflexivity.
  assert (Hbody : huffmanBody (m_huffLeaves builtTables) [] = replicate 9 false)
    by reflexivity.
  rewrite Hbits in Happ.
  exists s2. unfold writeHuffBuffer. rewrite Hw1. cbn [mbind option_bind].
  rewrite Hw2. cbn [mbind option_bind].
  split; [reflexivity |]. split; [exact Happ |].
  pose proof (appended_readable s s2 _ _ Happ Hread) as Hr.
  pose proof (appended_holds s s2 _ Happ) as Hh.
  rewrite (readHuffBuffer_holds hpR builtTables [] out
             (setCurPos (bitNum s) s2) 9 [] HtabR (conj Hok Hreach));
    cbn [length]; try lia.
  - f_equal. f_equal.
    replace (bitNum (setCurPos (bitNum s) s2)) with (bitNum s)
      by (destruct s2; reflexivity).
    rewrite Hbody.
    apply (appended_back s s2 _ _ Happ eq_refl).
  - exact Hr.
  - rewrite Hbody. simpl. lia.
  - rewrite app_nil_r, Hbody.
    replace (dataPtr (setCurPos (bitNum s) s2)) with (dataPtr s2)
      by (destruct s2; reflexivity).
    replace (bitNum (setCurPos (bitNum s) s2)) with (bitNum s)
      by (destruct s2; reflexivity).
    exact Hh.
Qed.

Lemma null_string_is_empty_witness :
  exists s',
    writeHuffBuffer noise g_huffProcessor (setCurPos 3 exampleStream) None 255
    = Some (g_huffProcessor, s') /\
    appended (setCurPos 3 exampleStream) s' (replicate 9 false) /\
    readHuffBuffer builtTables
      (setCurPos (bitNum (setCurPos 3 exampleStream)) s') [5; 6; 7]
    = Some (builtTables, 0 :: drop 1 [5; 6; 7], s').
Proof.
  apply (null_string_is_empty noise g_huffProcessor builtTables [5; 6; 7] 255
           (setCurPos 3 exampleStream));
    [reflexivity | vm_compute; lia
    | vm_compute; repeat split; discriminate
    | vm_compute; repeat split; discriminate].
Defined.

(** ** Floats, vectors and transforms *)

(** The reader put where the writer started. *)
Lemma reader_at_start (s s' : BitStream) (bits : list bool) (k : Z) :
  appended s s' bits -> readable s k ->
  readable (setCurPos (bitNum s) s') k /\
  holds (dataPtr (setCurPos (bitNum s) s')) (bitNum (setCurPos (bitNum s) s')) bits /\
  bitNum (setCurPos (bitNum s) s') = bitNum s /\
  set_bitNum (bitNum s + Z.of_nat (length bits)) (setCurPos (bitNum s) s') = s'.
Proof.
  intros Happ Hread.
  split; [exact (appended_readable s s' bits k Happ Hread) |].
  replace (dataPtr (setCurPos (bitNum s) s')) with (dataPtr s')
    by (destruct s'; reflexivity).
  replace (bitNum (setCurPos (bitNum s) s')) with (bitNum s)
    by (destruct s'; reflexivity).
  split; [exact (appended_holds s s' bits Happ) |].
  split; [reflexivity |].
  apply (appended_back s s' bits _ Happ eq_refl).
Qed.

Lemma top_of_width (n : Z) :
  0 <= n < 32 -> wrapS32 (wrapS32 (Z.shiftl 1 n) - 1) = 2 ^ n - 1.
Proof.
  intros Hn. rewrite mask_ones by exact Hn. rewrite Z.ones_equiv. lia.
Qed.

Section FloatProperties.

Context {math : MathOps}.
Variable adjacent : Z -> Z.

Lemma signed_floats_chain (f1 n1 f2 n2 : Z) (s : BitStream) :
  room s (n1 + n2) -> readable s (n1 + n2) -> 0 < n1 < 32 -> 0 < n2 < 32 ->
  exists s1 s2 r1,
    writeSignedFloat adjacent f1 n1 s = Some s1 /\
    writeSignedFloat adjacent f2 n2 s1 = Some s2 /\
    readSignedFloat n1 (setCurPos (bitNum s) s2)
    = Some (signedFloatRead f1 n1, r1) /\
    readSignedFloat n2 r1 = Some (signedFloatRead f2 n2, s2).
Proof.
  intros Hroom Hread Hn1 Hn2.
  unfold writeSignedFloat, readSignedFloat, signedFloatRead, signedFloatCode.
  rewrite !top_of_width by lia.
  set (v1 := s32_of_f32 (fmul (fmul (fadd f1 f_one) f_half) (f32_of_s32 (2 ^ n1 - 1)))).
  set (v2 := s32_of_f32 (fmul (fmul (fadd f2 f_one) f_half) (f32_of_s32 (2 ^ n2 - 1)))).
  destruct (writeInt_appended adjacent v1 n1 s (n1 + n2) Hroom ltac:(lia) ltac:(lia))
    as (s1 & Hw1 & Ha1).
  pose proof (appended_room _ _ _ _ Ha1 Hroom) as Hroom1.
  rewrite length_intBits in Hroom1 by lia.
  destruct (writeInt_appended adjacent v2 n2 s1 _ Hroom1 ltac:(lia) ltac:(lia))
    as (s2 & Hw2 & Ha2).
  pose proof (appended_trans _ _ _ _ _ Ha1 Ha2) as Happ.
  destruct (reader_at_start s s2 _ _ Happ Hread) as (Hr & Hh & Hrc & Hback).
  set (r := setCurPos (bitNum s) s2) in *.
  destruct (readInt_holds r (n1 + n2) n1 v1 (intBits v2 n2) Hr ltac:(lia)
              ltac:(lia) Hh) as (x1 & Hrun1 & _ & Hx1 & _).
  pose proof (readable_advance r (n1 + n2) n1 Hr ltac:(lia)) as Hr1.
  set (r1 := set_bitNum (bitNum r + n1) r) in *.
  destruct (holds_app _ _ _ _ Hh) as [_ Hh2].
  rewrite length_intBits in Hh2 by lia.
  destruct (readInt_holds r1 (n1 + n2 - n1) n2 v2 [] Hr1 ltac:(lia) ltac:(lia))
    as (x2 & Hrun2 & _ & Hx2 & _).
  { rewrite app_nil_r.
    replace (dataPtr r1) with (dataPtr r) by (destruct r; reflexivity).
    replace (bitNum r1) with (bitNum r + n1) by (destruct r; reflexivity).
    exact Hh2. }
  exists s1, s2, r1. split; [exact Hw1 |]. split; [exact Hw2 |].
  fold r. rewrite Hrun1, Hrun2. cbn [mbind option_bind].
  rewrite (Hx1 ltac:(lia)), (Hx2 ltac:(lia)).
  split; [reflexivity |]. f_equal. f_equal.
  rewrite <- Hback. unfold r1.
  rewrite length_app, Nat2Z.inj_add, !length_intBits by lia.
  same_stream.
Qed.

End FloatProperties.

(** X17.  [writeFloat] and [writeSignedFloat] quantise to [n] bits with
    [2^n - 1] steps: reading back gives the integer that was sent, reduced
    to the field, divided by [2^n - 1] (for the signed pair: doubled,
    divided, less one). *)
Theorem float_quantisation {math : MathOps} (adjacent : Z -> Z) (f n : Z)
    (s : BitStream) :
  room s n -> readable s n -> 0 < n < 32 ->
  (exists s',
      writeFloat adjacent f n s = Some s' /\
      readFloat n (setCurPos (bitNum s) s') = Some (floatRead f n, s')) /\
  (exists s',
      writeSignedFloat adjacent f n s = Some s' /\
      readSignedFloat n (setCurPos (bitNum s) s')
      = Some (signedFloatRead f n, s')).
Proof.
  intros Hroom Hread Hn.
  unfold writeFloat, readFloat, writeSignedFloat, readSignedFloat,
    floatRead, signedFloatRead, floatCode, signedFloatCode.
  rewrite !top_of_width by lia.
  assert (Hne : (n =? 32) = false) by (apply Z.eqb_neq; lia).
  split.
  - destruct (writeInt_readInt adjacent
                (s32_of_f32 (fmul f (f32_of_s32 (2 ^ n - 1)))) n s n
                Hroom Hread ltac:(lia) ltac:(lia)) as (s' & Hw & _ & Hr).
    exists s'. split; [exact Hw |]. rewrite Hr, Hne. reflexivity.
  - destruct (writeInt_readInt adjacent
                (s32_of_f32 (fmul (fmul (fadd f f_one) f_half)
                               (f32_of_s32 (2 ^ n - 1)))) n s n
                Hroom Hread ltac:(lia) ltac:(lia)) as (s' & Hw & _ & Hr).
    exists s'. split; [exact Hw |]. rewrite Hr, Hne. reflexivity.
Qed.

Lemma float_quantisation_witness :
  (exists s',
      writeFloat noise 3 7 (setCurPos 5 exampleStream) = Some s' /\
      readFloat 7 (setCurPos (bitNum (setCurPos 5 exampleStream)) s')
      = Some (floatRead 3 7, s')) /\
  (exists s',
      writeSignedFloat noise 3 7 (setCurPos 5 exampleStream) = Some s' /\
      readSignedFloat 7 (setCurPos (bitNum (setCurPos 5 exampleStream)) s')
      = Some (signedFloatRead 3 7, s')).
Proof.
  apply (float_quantisation noise 3 7 (setCurPos 5 exampleStream));
    [vm_compute; repeat split; discriminate
    | vm_compute; repeat split; discriminate | lia].
Defined.

(** X18.  [dumbDownNormal] always returns: for a width of 1 to 30 bits it
    gives the normal rebuilt from the two quantised angles, whatever the
    uninitialised content of its 128-byte stack buffer and of the memory
    next to its temporaries. *)
Theorem dumbDownNormal_value {math : MathOps} (adjacent : Z -> Z)
    (stack : list Z) (vec : Point3F) (bitCount : Z) :
  length stack = 128%nat -> 1 <= bitCount <= 30 ->
  dumbDownNormal adjacent stack vec bitCount
  = Some (quantizedNormal vec bitCount).
Proof.
  intros Hlen Hn. unfold dumbDownNormal, writeNormalVector, readNormalVector.
  set (temp := newBitStream stack 128 (-1)).
  assert (Hroom : room temp (bitCount + 1 + bitCount)).
  { unfold room, temp. simpl. rewrite Hlen.
    change (wrapS32 (Z.shiftl 128 3)) with 1024.
    change (2 ^ 31) with 2147483648. lia. }
  assert (Hread : readable temp (bitCount + 1 + bitCount)).
  { unfold readable, temp. simpl. rewrite Hlen.
    change (wrapS32 (Z.shiftl 128 3)) with 1024.
    change (2 ^ 31) with 2147483648. lia. }
  assert (E31 : 2 ^ 31 = 2147483648) by reflexivity.
  rewrite !(wrapS32_id (bitCount + 1)) by lia.
  cbv zeta.
  match goal with
  | |- context [writeSignedFloat adjacent ?f1 (bitCount + 1) temp] =>
      match goal with
      | |- context [writeSignedFloat adjacent ?f2 bitCount] =>
          destruct (signed_floats_chain adjacent f1 (bitCount + 1) f2 bitCount
                      temp Hroom Hread ltac:(lia) ltac:(lia))
            as (s1 & s2 & r1 & Hw1 & Hw2 & Hr1 & Hr2)
      end
  end.
  rewrite Hw1. cbn [mbind option_bind]. rewrite Hw2. cbn [mbind option_bind].
  change (setCurPos 0 s2) with (setCurPos (bitNum temp) s2).
  rewrite Hr1. cbn [mbind option_bind]. rewrite Hr2. cbn [mbind option_bind].
  reflexivity.
Qed.

Lemma dumbDownNormal_value_witness :
  dumbDownNormal noise (replicate 128 77) (mkPoint3F 3 4 5) 10
  = Some (quantizedNormal (mkPoint3F 3 4 5) 10).
Proof.
  apply (dumbDownNormal_value noise (replicate 128 77) (mkPoint3F 3 4 5) 10);
    [reflexivity | lia].
Defined.

(** X19.  A vector no longer than [minMag] costs one bit: [writeVector]
    writes a single 0 flag and nothing else, and [readVector] makes the
    zero vector of it. *)
Theorem short_vector_is_one_bit {math : MathOps} (adjacent : Z -> Z)
    (vec vec0 : Point3F) (minMag maxMag magBits angleBits zBits : Z)
    (s : BitStream) :
  fgt (len vec) minMag = false -> room s 1 -> readable s 1 ->
  exists s',
    writeVector adjacent vec minMag maxMag magBits angleBits zBits s = Some s' /\
    appended s s' [false] /\
    readVector vec0 minMag maxMag magBits angleBits zBits
      (setCurPos (bitNum s) s')
    = Some (mkPoint3F 0 0 0, s').
Proof.
  intros Hshort Hroom Hread.
  destruct (writeFlag_appended false s 1 Hroom ltac:(lia)) as (s' & Hw & Happ).
  exists s'. unfold writeVector, readVector. cbv zeta. rewrite Hshort, Hw.
  cbn [mbind option_bind].
  split; [reflexivity |]. split; [exact Happ |].
  destruct (reader_at_start s s' _ _ Happ Hread) as (Hr & Hh & Hrc & Hback).
  rewrite (readFlag_holds _ 1 false [] Hr ltac:(lia) Hh).
  cbn [mbind option_bind]. rewrite Hrc. cbn [length] in Hback.
  change (Z.of_nat 1) with 1 in Hback. rewrite Hback. reflexivity.
Qed.

Lemma short_vector_is_one_bit_witness :
  exists s',
    writeVector noise (mkPoint3F 1 2 2) 5 100 8 8 8 (setCurPos 5 exampleStream)
    = Some s' /\
    appended (setCurPos 5 exampleStream) s' [false] /\
    readVector (mkPoint3F 9 9 9) 5 100 8 8 8
      (setCurPos (bitNum (setCurPos 5 exampleStream)) s')
    = Some (mkPoint3F 0 0 0, s').
Proof.
  apply (short_vector_is_one_bit noise (mkPoint3F 1 2 2) (mkPoint3F 9 9 9)
           5 100 8 8 8 (setCurPos 5 exampleStream));
    [reflexivity | vm_compute; repeat split; discriminate
    | vm_compute; repeat split; discriminate].
Defined.

(** X20.  A class id written with [writeClassId] is read back by
    [readClassId] as long as it does not exceed the class count, the count
    itself included; an id above the count reads as -1. *)
Theorem class_id_roundtrip (adjacent : Z -> Z)
    (NetClassBitSize NetClassCount : Z -> Z -> Z)
    (classId classType classGroup : Z) (s : BitStream) :
  room s (NetClassBitSize classGroup classType) ->
  readable s (NetClassBitSize classGroup classType) ->
  0 < NetClassBitSize classGroup classType < 32 ->
  0 <= classId < 2 ^ NetClassBitSize classGroup classType ->
  exists s',
    writeClassId adjacent NetClassBitSize classId classType classGroup s
    = Some s' /\
    readClassId NetClassBitSize NetClassCount classType classGroup
      (setCurPos (bitNum s) s')
    = Some (if classId >? NetClassCount classGroup classType then -1
            else classId, s').
Proof.
  intros Hroom Hread Hn Hid. unfold writeClassId, readClassId.
  destruct (writeInt_readInt adjacent classId
              (NetClassBitSize classGroup classType) s
              (NetClassBitSize classGroup classType) Hroom Hread
              ltac:(lia) ltac:(lia)) as (s' & Hw & _ & Hr).
  exists s'. split; [exact Hw |]. rewrite Hr. cbn [mbind option_bind].
  destruct (Z.eqb_spec (NetClassBitSize classGroup classType) 32); [lia |].
  rewrite Z.mod_small by lia.
  destruct (classId >? NetClassCount classGroup classType); reflexivity.
Qed.

Lemma class_id_roundtrip_witness :
  exists s',
    writeClassId noise (fun _ _ => 5) 12 0 0 (setCurPos 5 exampleStream)
    = Some s' /\
    readClassId (fun _ _ => 5) (fun _ _ => 12) 0 0
      (setCurPos (bitNum (setCurPos 5 exampleStream)) s')
    = Some (if 12 >? 12 then -1 else 12, s').
Proof.
  apply (class_id_roundtrip noise (fun _ _ => 5) (fun _ _ => 12) 12 0 0
           (setCurPos 5 exampleStream));
    [vm_compute; repeat split; discriminate
    | vm_compute; repeat split; discriminate | lia | lia].
Defined.

(** X21.  An affine transform takes 193 bits: the translation column and
    the x, y, z of the normalised rotation quaternion as raw 32-bit
    floats, then one flag for the sign of w.  The quaternion's w is not
    sent: [readAffineTransform] rebuilds it as the square root of
    [1 - min(x^2 + y^2 + z^2, 1)], negated when the flag is set. *)
Theorem affine_transform_roundtrip {math : MathOps} (adjacent : Z -> Z)
    (matrix : MatrixF) (pos0 : Point3F) (q0 : QuatF) (s : BitStream) :
  room s 193 -> readable s 193 ->
  let p := getColumn3 matrix in
  let q := quatOfMatrix matrix in
  let x := wrapU32 (quat_x q) in
  let y := wrapU32 (quat_y q) in
  let z := wrapU32 (quat_z q) in
  let w := mSqrt (fsub f_one
                    (getMin (fadd (fadd (fmul x x) (fmul y y)) (fmul z z))
                       f_one)) in
  exists s',
    writeAffineTransform adjacent matrix s = Some s' /\
    appended s s'
      (((intBits (px p) 32 ++ intBits (py p) 32 ++ intBits (pz p) 32)
        ++ intBits (quat_x q) 32 ++ intBits (quat_y q) 32
        ++ intBits (quat_z q) 32)
       ++ [flt (quat_w q) 0]) /\
    bitNum s' = bitNum s + 193 /\
    readAffineTransform pos0 q0 (setCurPos (bitNum s) s')
    = Some (setColumn3
              (mkPoint3F (wrapU32 (px p)) (wrapU32 (py p)) (wrapU32 (pz p)))
              (matrixOfQuat
                 (mkQuatF x y z (if flt (quat_w q) 0 then fneg w else w))),
            s').
Proof.
  intros Hroom Hread p q x y z w.
  destruct (raw_write adjacent (px p) (py p) (pz p) s 193 Hroom ltac:(lia))
    as (s3 & Hw3 & Ha3).
  pose proof (appended_room _ _ _ _ Ha3 Hroom) as Hroom3.
  rewrite !length_app, !Nat2Z.inj_add, !length_intBits in Hroom3 by lia.
  destruct (raw_write adjacent (quat_x q) (quat_y q) (quat_z q) s3 _ Hroom3
              ltac:(lia)) as (s6 & Hw6 & Ha6).
  pose proof (appended_room _ _ _ _ Ha6 Hroom3) as Hroom6.
  rewrite !length_app, !Nat2Z.inj_add, !length_intBits in Hroom6 by lia.
  destruct (writeFlag_appended (flt (quat_w q) 0) s6 _ Hroom6 ltac:(lia))
    as (s7 & Hw7 & Ha7).
  pose proof (appended_trans _ _ _ _ _ (appended_trans _ _ _ _ _ Ha3 Ha6) Ha7)
    as Happ.
  assert (Hlen : Z.of_nat (length
            (((intBits (px p) 32 ++ intBits (py p) 32 ++ intBits (pz p) 32)
              ++ intBits (quat_x q) 32 ++ intBits (quat_y q) 32
              ++ intBits (quat_z q) 32) ++ [flt (quat_w q) 0])) = 193).
  { rewrite !length_app, !Nat2Z.inj_add, !length_intBits by lia.
    cbn [length]. lia. }
  exists s7. split.
  { unfold writeAffineTransform, mathWrite. fold p q.
    destruct (writeF32 adjacent (px p) s) as [t1 |]; [| discriminate].
    cbn [mbind option_bind] in Hw3 |- *.
    destruct (writeF32 adjacent (py p) t1) as [t2 |]; [| discriminate].
    cbn [mbind option_bind] in Hw3 |- *.
    rewrite Hw3. cbn [mbind option_bind].
    destruct (writeF32 adjacent (quat_x q) s3) as [t4 |]; [| discriminate].
    cbn [mbind option_bind] in Hw6 |- *.
    destruct (writeF32 adjacent (quat_y q) t4) as [t5 |]; [| discriminate].
    cbn [mbind option_bind] in Hw6 |- *.
    rewrite Hw6. cbn [mbind option_bind]. rewrite Hw7. reflexivity. }
  split; [exact Happ |].
  destruct (appended_fields _ _ _ Happ) as (Hc & _).
  split; [rewrite Hc, Hlen; reflexivity |].
  destruct (reader_at_start s s7 _ _ Happ Hread) as (Hr & Hh & Hrc & Hback).
  rewrite Hlen in Hback.
  set (r := setCurPos (bitNum s) s7) in *.
  destruct (holds_app _ _ _ _ Hh) as [Hh6 Hhf].
  destruct (holds_app _ _ _ _ Hh6) as [Hh3 Hhq].
  rewrite !length_app, !Nat2Z.inj_add, !length_intBits in Hhf, Hhq by lia.
  destruct (raw_read (px p) (py p) (pz p) (px pos0) (py pos0) (pz pos0) r 193
              Hr ltac:(lia) Hh3) as (r1 & r2 & Hr1 & Hr2 & Hr3).
  pose proof (readable_advance r 193 96 Hr ltac:(lia)) as Hrd3.
  set (r3 := set_bitNum (bitNum r + 96) r) in *.
  assert (Hr3c : bitNum r3 = bitNum r + 96) by (destruct r; reflexivity).
  assert (Hr3d : dataPtr r3 = dataPtr r) by (destruct r; reflexivity).
  destruct (raw_read (quat_x q) (quat_y q) (quat_z q)
              (quat_x q0) (quat_y q0) (quat_z q0) r3 (193 - 96)
              Hrd3 ltac:(lia)) as (r4 & r5 & Hr4 & Hr5 & Hr6).
  { rewrite Hr3c, Hr3d.
    replace (bitNum r + 96) with (bitNum r + (32 + (32 + 32))) by lia.
    exact Hhq. }
  pose proof (readable_advance r3 (193 - 96) 96 Hrd3 ltac:(lia)) as Hrd6.
  set (r6 := set_bitNum (bitNum r3 + 96) r3) in *.
  assert (Hr6c : bitNum r6 = bitNum r + 192) by (destruct r; simpl; lia).
  assert (Hr6d : dataPtr r6 = dataPtr r) by (destruct r; reflexivity).
  assert (Hrf : readFlag r6
                = Some (flt (quat_w q) 0, set_bitNum (bitNum r6 + 1) r6)).
  { apply (readFlag_holds r6 (193 - 96 - 96) _ [] Hrd6 ltac:(lia)).
    rewrite Hr6c, Hr6d.
    replace (bitNum r + 192)
      with (bitNum r + (32 + (32 + 32) + (32 + (32 + 32)))) by lia.
    exact Hhf. }
  unfold readAffineTransform, mathRead.
  rewrite Hr1. cbn [mbind option_bind]. rewrite Hr2. cbn [mbind option_bind].
  rewrite Hr3. cbn [mbind option_bind]. rewrite Hr4. cbn [mbind option_bind].
  rewrite Hr5. cbn [mbind option_bind]. rewrite Hr6. cbn [mbind option_bind].
  cbv zeta. rewrite Hrf. cbn [mbind option_bind].
  f_equal. f_equal. rewrite <- Hback. unfold r6, r3. rewrite Hrc.
  same_stream.
Qed.

Lemma affine_transform_roundtrip_witness :
  exists s',
    @writeAffineTransform integerMath noise (mkPoint3F 1 2 3) exampleStream
    = Some s' /\
    appended exampleStream s'
      (((intBits 1 32 ++ intBits 2 32 ++ intBits 3 32)
        ++ intBits 1 32 ++ intBits 2 32 ++ intBits 3 32) ++ [false]) /\
    bitNum s' = bitNum exampleStream + 193 /\
    @readAffineTransform integerMath (mkPoint3F 0 0 0) (mkPoint3F 0 0 0)
      (setCurPos (bitNum exampleStream) s')
    = Some (@setColumn3 integerMath (mkPoint3F 1 2 3)
              (@matrixOfQuat integerMath
                 (@mkQuatF integerMath 1 2 3
                    (@mSqrt integerMath
                       (1 - @getMin integerMath (1 * 1 + 2 * 2 + 3 * 3) 1)))),
            s').
Proof.
  apply (@affine_transform_roundtrip integerMath noise (mkPoint3F 1 2 3)
           (mkPoint3F 0 0 0) (mkPoint3F 0 0 0) exampleStream);
    vm_compute; repeat split; discriminate.
Defined.

(** ** Reading at a given cursor *)

Lemma dataPtr_set_bitNum (r : BitStream) (c : Z) :
  dataPtr (set_bitNum c r) = dataPtr r.
Proof. destruct r. reflexivity. Qed.

Lemma readable_at (r : BitStream) (c k n : Z) :
  readable (set_bitNum c r) k -> 0 <= n ->
  readable (set_bitNum (c + n) r) (k - n).
Proof.
  intros Hr Hn. pose proof (readable_advance _ k n Hr Hn) as H.
  rewrite set_bitNum_twice, bitNum_set_bitNum in H. exact H.
Qed.

Lemma readFlag_at (r : BitStream) (c k : Z) (b : bool) (rest : list bool) :
  readable (set_bitNum c r) k -> 1 <= k ->
  holds (dataPtr r) c (b :: rest) ->
  readFlag (set_bitNum c r) = Some (b, set_bitNum (c + 1) r).
Proof.
  intros Hr Hk Hh.
  rewrite (readFlag_holds (set_bitNum c r) k b rest Hr Hk).
  - rewrite set_bitNum_twice, bitNum_set_bitNum. reflexivity.
  - rewrite dataPtr_set_bitNum, bitNum_set_bitNum. exact Hh.
Qed.

Lemma readF32_at (r : BitStream) (c k old x : Z) (rest : list bool) :
  readable (set_bitNum c r) k -> 32 <= k ->
  holds (dataPtr r) c (intBits x 32 ++ rest) ->
  readF32 old (set_bitNum c r) = Some (wrapU32 x, set_bitNum (c + 32) r).
Proof.
  intros Hr Hk Hh.
  rewrite (readF32_holds (set_bitNum c r) k old x rest Hr Hk).
  - rewrite set_bitNum_twice, bitNum_set_bitNum. reflexivity.
  - rewrite dataPtr_set_bitNum, bitNum_set_bitNum. exact Hh.
Qed.

Section FloatFields.

Context {math : MathOps}.
Variable adjacent : Z -> Z.

Lemma writeFloat_appended (f n : Z) (s : BitStream) (k : Z) :
  room s k -> 0 < n < 32 -> n <= k ->
  exists s', writeFloat adjacent f n s = Some s' /\
             appended s s' (intBits (floatCode f n) n).
Proof.
  intros Hroom Hn Hk. unfold writeFloat, floatCode.
  rewrite top_of_width by lia.
  apply (writeInt_appended adjacent _ n s k Hroom); lia.
Qed.

Lemma writeSignedFloat_appended (f n : Z) (s : BitStream) (k : Z) :
  room s k -> 0 < n < 32 -> n <= k ->
  exists s', writeSignedFloat adjacent f n s = Some s' /\
             appended s s' (intBits (signedFloatCode f n) n).
Proof.
  intros Hroom Hn Hk. unfold writeSignedFloat, signedFloatCode.
  rewrite top_of_width by lia.
  apply (writeInt_appended adjacent _ n s k Hroom); lia.
Qed.

Lemma readInt_at (r : BitStream) (c k n x : Z) (rest : list bool) :
  readable (set_bitNum c r) k -> 0 < n < 32 -> n <= k ->
  holds (dataPtr r) c (intBits x n ++ rest) ->
  readInt n (set_bitNum c r) = Some (x mod 2 ^ n, set_bitNum (c + n) r).
Proof.
  intros Hr Hn Hk Hh.
  destruct (readInt_holds (set_bitNum c r) k n x rest Hr ltac:(lia) Hk)
    as (v & Hrun & _ & Hv & _).
  { rewrite dataPtr_set_bitNum, bitNum_set_bitNum. exact Hh. }
  rewrite Hrun, (Hv ltac:(lia)).
  rewrite set_bitNum_twice, bitNum_set_bitNum. reflexivity.
Qed.

Lemma readFloat_at (r : BitStream) (c k f n : Z) (rest : list bool) :
  readable (set_bitNum c r) k -> 0 < n < 32 -> n <= k ->
  holds (dataPtr r) c (intBits (floatCode f n) n ++ rest) ->
  readFloat n (set_bitNum c r) = Some (floatRead f n, set_bitNum (c + n) r).
Proof.
  intros Hr Hn Hk Hh. unfold readFloat, floatRead.
  rewrite (readInt_at r c k n _ rest Hr Hn Hk Hh).
  cbn [mbind option_bind]. rewrite top_of_width by lia. reflexivity.
Qed.

Lemma readSignedFloat_at (r : BitStream) (c k f n : Z) (rest : list bool) :
  readable (set_bitNum c r) k -> 0 < n < 32 -> n <= k ->
  holds (dataPtr r) c (intBits (signedFloatCode f n) n ++ rest) ->
  readSignedFloat n (set_bitNum c r)
  = Some (signedFloatRead f n, set_bitNum (c + n) r).
Proof.
  intros Hr Hn Hk Hh. unfold readSignedFloat, signedFloatRead.
  rewrite (readInt_at r c k n _ rest Hr Hn Hk Hh).
  cbn [mbind option_bind]. rewrite top_of_width by lia. reflexivity.
Qed.

End FloatFields.

(** X22.  A vector longer than [minMag] goes over the wire as flag 1, a
    flag telling whether the magnitude is below [maxMag], the magnitude
    (quantised to [magBits] as a fraction of [maxMag] when below, else as
    a raw 32-bit float), then the unit vector as its clamped z in [zBits]
    and its azimuth in [angleBits]; [readVector] rebuilds the vector from
    exactly these fields. *)
Theorem vector_roundtrip {math : MathOps} (adjacent : Z -> Z)
    (vec vec0 : Point3F) (minMag maxMag magBits angleBits zBits : Z)
    (s : BitStream) :
  fgt (len vec) minMag = true ->
  0 < magBits < 32 -> 0 < angleBits < 32 -> 0 < zBits < 32 ->
  room s (34 + zBits + angleBits) -> readable s (34 + zBits + angleBits) ->
  exists s',
    writeVector adjacent vec minMag maxMag magBits angleBits zBits s = Some s' /\
    appended s s' (vectorWire vec maxMag magBits angleBits zBits) /\
    readVector vec0 minMag maxMag magBits angleBits zBits
      (setCurPos (bitNum s) s')
    = Some (vectorRead vec maxMag magBits angleBits zBits, s').
Proof.
  intros Hlong Hmb Hab Hzb Hroom Hread.
  set (K := 34 + zBits + angleBits) in *.
  set (mag := len vec).
  set (unit := scalePoint (fdiv f_one mag) vec).
  set (M := if flt mag maxMag
            then intBits (floatCode (fdiv mag maxMag) magBits) magBits
            else intBits mag 32).
  set (Zb := intBits (signedFloatCode (mClampF (pz unit) (fneg f_one) f_one) zBits)
               zBits).
  set (Ab := intBits (signedFloatCode (azimuthOf unit) angleBits) angleBits).
  assert (HM : 0 < Z.of_nat (length M) <= 32).
  { unfold M. destruct (flt mag maxMag); rewrite length_intBits; lia. }
  assert (HZ : Z.of_nat (length Zb) = zBits) by (apply length_intBits; lia).
  assert (HA : Z.of_nat (length Ab) = angleBits) by (apply length_intBits; lia).
  destruct (writeFlag_appended true s K Hroom ltac:(lia)) as (s1 & Hw1 & Ha1).
  pose proof (appended_room _ _ _ _ Ha1 Hroom) as Hroom1.
  change (Z.of_nat (length [true])) with 1 in Hroom1.
  destruct (writeFlag_appended (flt mag maxMag) s1 _ Hroom1 ltac:(lia))
    as (s2 & Hw2 & Ha2).
  pose proof (appended_room _ _ _ _ Ha2 Hroom1) as Hroom2.
  change (Z.of_nat (length [flt mag maxMag])) with 1 in Hroom2.
  assert (Hw3 : exists s3,
            (if flt mag maxMag
             then writeFloat adjacent (fdiv mag maxMag) magBits s2
             else writeF32 adjacent mag s2) = Some s3 /\ appended s2 s3 M).
  { unfold M. destruct (flt mag maxMag).
    - apply (writeFloat_appended adjacent _ magBits s2 _ Hroom2); lia.
    - apply (writeF32_appended adjacent mag s2 _ Hroom2); lia. }
  destruct Hw3 as (s3 & Hw3 & Ha3).
  pose proof (appended_room _ _ _ _ Ha3 Hroom2) as Hroom3.
  destruct (writeSignedFloat_appended adjacent
              (mClampF (pz unit) (fneg f_one) f_one) zBits s3 _ Hroom3
              Hzb ltac:(lia)) as (s4 & Hw4 & Ha4).
  fold Zb in Ha4.
  pose proof (appended_room _ _ _ _ Ha4 Hroom3) as Hroom4.
  destruct (writeSignedFloat_appended adjacent (azimuthOf unit) angleBits s4 _
              Hroom4 Hab ltac:(lia)) as (s5 & Hw5 & Ha5).
  fold Ab in Ha5.
  pose proof (appended_trans _ _ _ _ _ Ha1
                (appended_trans _ _ _ _ _ Ha2
                   (appended_trans _ _ _ _ _ Ha3
                      (appended_trans _ _ _ _ _ Ha4 Ha5)))) as Happ.
  cbn [app] in Happ.
  exists s5. split.
  { unfold writeVector. cbv zeta. rewrite Hlong. fold mag. rewrite Hw1.
    cbn [mbind option_bind]. rewrite Hw2. cbn [mbind option_bind].
    rewrite Hw3. cbn [mbind option_bind].
    unfold writeNormalVector2. fold unit. rewrite Hw4.
    cbn [mbind option_bind].
    unfold azimuthOf in Hw5.
    destruct (fgt (mFabs (px unit)) f_epsilon || fgt (mFabs (py unit)) f_epsilon);
      exact Hw5. }
  split; [exact Happ |].
  destruct (reader_at_start s s5 _ _ Happ Hread) as (Hr & Hh & Hrc & Hback).
  set (r := setCurPos (bitNum s) s5) in *.
  set (c := bitNum s) in *.
  rewrite <- (set_bitNum_same r) in Hr |- *. rewrite Hrc in Hr |- *.
  rewrite Hrc in Hh.
  unfold readVector.
  rewrite (readFlag_at r c K true _ Hr ltac:(lia) Hh).
  cbn [mbind option_bind].
  destruct (holds_cons _ _ _ _ Hh) as [_ Hh1].
  pose proof (readable_at r c K 1 Hr ltac:(lia)) as Hr1.
  rewrite (readFlag_at r (c + 1) (K - 1) _ _ Hr1 ltac:(lia) Hh1).
  cbn [mbind option_bind].
  destruct (holds_cons _ _ _ _ Hh1) as [_ Hh2].
  pose proof (readable_at r (c + 1) (K - 1) 1 Hr1 ltac:(lia)) as Hr2.
  destruct (holds_app _ _ _ _ Hh2) as [_ Hh3].
  destruct (holds_app _ _ _ _ Hh3) as [_ Hh4].
  pose proof (readable_at r (c + 1 + 1) (K - 1 - 1) (Z.of_nat (length M)) Hr2
                ltac:(lia)) as Hr3.
  pose proof (readable_at r (c + 1 + 1 + Z.of_nat (length M))
                (K - 1 - 1 - Z.of_nat (length M)) zBits Hr3 ltac:(lia)) as Hr4.
  assert (Hmag : (if flt mag maxMag
                  then readFloat magBits (set_bitNum (c + 1 + 1) r)
                       ≫= (fun '(m, s') => Some (fmul m maxMag, s'))
                  else readF32 0 (set_bitNum (c + 1 + 1) r))
                 = Some (if flt mag maxMag
                         then fmul (floatRead (fdiv mag maxMag) magBits) maxMag
                         else wrapU32 mag,
                         set_bitNum (c + 1 + 1 + Z.of_nat (length M)) r)).
  { revert Hh2 HM. unfold M. destruct (flt mag maxMag); intros Hh2 HM;
      rewrite length_intBits by lia.
    - rewrite (readFloat_at r (c + 1 + 1) (K - 1 - 1) (fdiv mag maxMag) magBits
                 (Zb ++ Ab) Hr2 Hmb ltac:(lia) Hh2).
      reflexivity.
    - apply (readF32_at r (c + 1 + 1) (K - 1 - 1) 0 mag (Zb ++ Ab) Hr2
               ltac:(lia) Hh2). }
  rewrite Hmag. cbn [mbind option_bind].
  unfold readNormalVector2.
  rewrite (readSignedFloat_at r (c + 1 + 1 + Z.of_nat (length M))
             (K - 1 - 1 - Z.of_nat (length M)) _ zBits _ Hr3 Hzb ltac:(lia) Hh3).
  cbn [mbind option_bind].
  rewrite HZ in Hh4.
  rewrite (readSignedFloat_at r (c + 1 + 1 + Z.of_nat (length M) + zBits)
             (K - 1 - 1 - Z.of_nat (length M) - zBits) (azimuthOf unit)
             angleBits [] Hr4 Hab ltac:(lia)).
  2:{ rewrite app_nil_r. exact Hh4. }
  cbn [mbind option_bind]. cbv zeta.
  f_equal. f_equal. rewrite <- Hback. unfold c.
  cbn [length]. rewrite !length_app, !Nat2Z.inj_succ, !Nat2Z.inj_add, HZ, HA.
  f_equal. lia.
Qed.

Lemma vector_roundtrip_witness :
  exists s',
    @writeVector integerMath noise (mkPoint3F 3 4 12) 5 100 8 9 7
      (setCurPos 5 exampleStream) = Some s' /\
    appended (setCurPos 5 exampleStream) s'
      (@vectorWire integerMath (mkPoint3F 3 4 12) 100 8 9 7) /\
    @readVector integerMath (mkPoint3F 0 0 0) 5 100 8 9 7
      (setCurPos (bitNum (setCurPos 5 exampleStream)) s')
    = Some (@vectorRead integerMath (mkPoint3F 3 4 12) 100 8 9 7, s').
Proof.
  apply (@vector_roundtrip integerMath noise (mkPoint3F 3 4 12)
           (mkPoint3F 0 0 0) 5 100 8 9 7 (setCurPos 5 exampleStream));
    [reflexivity | lia | lia | lia
    | vm_compute; repeat split; discriminate
    | vm_compute; repeat split; discriminate].
Defined.

(** ** Binding, clearing and sizes *)

Lemma wrapS32_scaled (x : Z) : wrapS32 (wrapS32 x * 8) = wrapS32 (8 * x).
Proof.
  unfold wrapS32. f_equal.
  pose proof (Z_div_mod_eq_full (x + 2 ^ 31) (2 ^ 32)) as H.
  set (q := (x + 2 ^ 31) / 2 ^ 32) in *.
  set (r := (x + 2 ^ 31) mod 2 ^ 32) in *.
  replace ((r - 2 ^ 31) * 8 + 2 ^ 31)
    with ((8 * x + 2 ^ 31) + (- 8 * q) * 2 ^ 32).
  - apply Z_mod_plus_full.
  - change (2 ^ 32) with 4294967296 in *. change (2 ^ 31) with 2147483648 in *.
    lia.
Qed.

(** X23.  For a packet buffer of [MaxPacketDataSize] bytes
    ([0 < MaxPacketDataSize < 2^28]): [getPacketStream] rewinds the packet
    stream and clears its error flag; [writeSize] ([MaxPacketDataSize]
    when it is 0) only sets the recorded buffer size, its value converted
    to [S32], and the read ceiling, 8 times it reduced to [S32]; whatever
    [writeSize] is, the write ceiling is [8 * MaxPacketDataSize] bits and
    the whole packet buffer can be written without error.  The witness has
    [writeSize = 4294967295], recorded as the size -1 with the read
    ceiling -8. *)
Theorem packet_stream_capacity (MaxPacketDataSize : Z) (gPacketBuffer : list Z)
    (writeSize : Z) (gPacketStream : BitStream) (src : Z -> Z) :
  Z.of_nat (length gPacketBuffer) = MaxPacketDataSize ->
  0 < MaxPacketDataSize < 2 ^ 28 ->
  bitNum (getPacketStream MaxPacketDataSize gPacketBuffer writeSize gPacketStream)
  = 0 /\
  error (getPacketStream MaxPacketDataSize gPacketBuffer writeSize gPacketStream)
  = false /\
  bufSize (getPacketStream MaxPacketDataSize gPacketBuffer writeSize gPacketStream)
  = wrapS32 (if writeSize =? 0 then MaxPacketDataSize else writeSize) /\
  maxReadBitNum
    (getPacketStream MaxPacketDataSize gPacketBuffer writeSize gPacketStream)
  = wrapS32 (8 * (if writeSize =? 0 then MaxPacketDataSize else writeSize)) /\
  maxWriteBitNum
    (getPacketStream MaxPacketDataSize gPacketBuffer writeSize gPacketStream)
  = 8 * MaxPacketDataSize /\
  exists s',
    _write MaxPacketDataSize src
      (getPacketStream MaxPacketDataSize gPacketBuffer writeSize gPacketStream)
    = Some s' /\
    error s' = false /\ bitNum s' = 8 * MaxPacketDataSize.
Proof.
  intros Hlen Hmax.
  assert (E28 : 2 ^ 28 = 268435456) by reflexivity.
  assert (E31 : 2 ^ 31 = 2147483648) by reflexivity.
  set (size := if writeSize =? 0 then MaxPacketDataSize else writeSize).
  assert (Hs : getPacketStream MaxPacketDataSize gPacketBuffer writeSize
                 gPacketStream
               = mkBitStream gPacketBuffer 0 (wrapS32 size) false
                   (wrapS32 (8 * size))
                   (8 * MaxPacketDataSize) (stringBuffer gPacketStream)
                   (mkPoint3F 0 0 0) (mMinSpace gPacketStream)).
  { unfold getPacketStream, setPosition, setBuffer, clearCompressionPoint,
      set_mCompressPoint, set_bitNum. fold size. simpl.
    rewrite (wrapS32_id MaxPacketDataSize) by lia.
    destruct (Z.ltb_spec MaxPacketDataSize 0); [lia |].
    rewrite !Z.shiftl_mul_pow2 by lia. change (2 ^ 3) with 8.
    rewrite (wrapS32_id (MaxPacketDataSize * 8)) by lia.
    change (wrapS32 0) with 0.
    rewrite wrapS32_scaled. f_equal. lia. }
  rewrite Hs. cbn [bitNum error bufSize maxReadBitNum maxWriteBitNum].
  split; [reflexivity |]. split; [reflexivity |]. split; [reflexivity |].
  split; [reflexivity |]. split; [reflexivity |].
  set (s := mkBitStream _ _ _ _ _ _ _ _ _).
  assert (Hroom : room s (8 * MaxPacketDataSize)).
  { unfold room, s. simpl. lia. }
  unfold _write. rewrite Z.shiftl_mul_pow2 by lia. change (2 ^ 3) with 8.
  rewrite wrapS32_id by lia.
  destruct (writeBits_appended (MaxPacketDataSize * 8) src s
              (8 * MaxPacketDataSize) Hroom ltac:(lia)) as (s' & Hw & Happ).
  exists s'. split; [exact Hw |].
  destruct (appended_fields _ _ _ Happ) as (Hc & He & _).
  split; [rewrite He; reflexivity |].
  rewrite Hc. unfold srcBits. rewrite length_bitsOf. simpl. lia.
Qed.

Lemma packet_stream_capacity_witness :
  Z.of_nat (length (replicate 16 9)) = 16 /\ (0 < 16 < 2 ^ 28) /\
  wrapS32 (if 4294967295 =? 0 then 16 else 4294967295) = -1 /\
  wrapS32 (8 * (if 4294967295 =? 0 then 16 else 4294967295)) = -8 /\
  bitNum (getPacketStream 16 (replicate 16 9) 4294967295
            (set_error true exampleStream)) = 0 /\
  error (getPacketStream 16 (replicate 16 9) 4294967295
           (set_error true exampleStream)) = false /\
  bufSize (getPacketStream 16 (replicate 16 9) 4294967295
             (set_error true exampleStream))
  = wrapS32 (if 4294967295 =? 0 then 16 else 4294967295) /\
  maxReadBitNum (getPacketStream 16 (replicate 16 9) 4294967295
                   (set_error true exampleStream))
  = wrapS32 (8 * (if 4294967295 =? 0 then 16 else 4294967295)) /\
  maxWriteBitNum (getPacketStream 16 (replicate 16 9) 4294967295
                    (set_error true exampleStream)) = 8 * 16 /\
  exists s',
    _write 16 noise
      (getPacketStream 16 (replicate 16 9) 4294967295
         (set_error true exampleStream))
    = Some s' /\
    error s' = false /\ bitNum s' = 8 * 16.
Proof.
  split; [reflexivity |]. split; [lia |].
  split; [reflexivity |]. split; [reflexivity |].
  apply (packet_stream_capacity 16 (replicate 16 9) 4294967295
           (set_error true exampleStream) noise);
    [reflexivity | lia].
Defined.

(** X24.  [clear] zeroes the buffer and leaves the cursor and the error
    flag alone: afterwards an integer read anywhere inside the cleared
    bytes returns 0. *)
Theorem cleared_buffer_reads_zero (s : BitStream) (c n : Z) :
  0 <= bufSize s <= Z.of_nat (length (dataPtr s)) ->
  0 < n <= 32 -> 0 <= c -> c + n + 8 <= 8 * bufSize s ->
  c + n <= maxReadBitNum s -> c + n < 2 ^ 31 ->
  exists s',
    clear s = Some s' /\
    bitNum s' = bitNum s /\ error s' = error s /\
    readInt n (setCurPos c s') = Some (0, setCurPos (c + n) s').
Proof.
  intros Hb Hn Hc Hfit Hmax Hov. unfold clear.
  destruct (Z.leb_spec 0 (bufSize s)); [| lia].
  destruct (Z.leb_spec (bufSize s) (Z.of_nat (length (dataPtr s)))); [| lia].
  cbn [andb]. eexists. split; [reflexivity |].
  set (d' := replicate (Z.to_nat (bufSize s)) 0
             ++ drop (Z.to_nat (bufSize s)) (dataPtr s)).
  assert (Hlen : length d' = length (dataPtr s)).
  { unfold d'. rewrite length_app, length_replicate, length_drop. lia. }
  split; [destruct s; reflexivity |]. split; [destruct s; reflexivity |].
  set (r := setCurPos c (set_dataPtr d' s)).
  assert (Hrc : bitNum r = c) by (destruct s; reflexivity).
  assert (Hrd : dataPtr r = d') by (destruct s; reflexivity).
  assert (Hr : readable r n).
  { unfold readable. rewrite Hrc, Hrd, Hlen.
    replace (maxReadBitNum r) with (maxReadBitNum s) by (destruct s; reflexivity).
    lia. }
  assert (Hh : holds (dataPtr r) (bitNum r) (intBits 0 n ++ [])).
  { rewrite app_nil_r, Hrc, Hrd. intros j b Hj.
    apply lookup_bitsOf in Hj as [Hjn ->]. rewrite Z.testbit_0_l.
    destruct (div8_facts (c + Z.of_nat j)) as [Hd Hm].
    rewrite (bitAt_byte d' (c + Z.of_nat j) 0); [apply Z.testbit_0_l | lia |].
    unfold d'. rewrite lookup_app_l by (rewrite length_replicate; lia).
    apply lookup_replicate_2. lia. }
  destruct (readInt_holds r n n 0 [] Hr Hn ltac:(lia) Hh)
    as (v & Hrun & Hbits & Hlow & Hrange).
  rewrite Hrun.
  assert (Hv : v = 0).
  { destruct (Z.eq_dec n 32) as [-> | Hne].
    - apply (s32_of_bits v 0 Hrange Hbits).
    - rewrite (Hlow ltac:(lia)). apply Z.mod_0_l.
      apply Z.pow_nonzero; lia. }
  rewrite Hv, Hrc. destruct s; reflexivity.
Qed.

Lemma cleared_buffer_reads_zero_witness :
  exists s',
    clear (setCurPos 9 compactExample) = Some s' /\
    bitNum s' = bitNum (setCurPos 9 compactExample) /\
    error s' = error (setCurPos 9 compactExample) /\
    readInt 12 (setCurPos 3 s') = Some (0, setCurPos (3 + 12) s').
Proof.
  apply (cleared_buffer_reads_zero (setCurPos 9 compactExample) 3 12);
    [vm_compute; split; discriminate | lia | lia | vm_compute; discriminate
    | vm_compute; discriminate | reflexivity].
Defined.

(** X25.  [getReadByteSize] is the number of whole bytes between the byte
    position and the read ceiling; when the position lies past the read
    ceiling the unsigned difference wraps around to a value near 2^32. *)
Theorem read_byte_size (s : BitStream) :
  0 <= maxReadBitNum s < 2 ^ 31 -> 0 <= bitNum s < 2 ^ 31 - 7 ->
  getReadByteSize s
  = if getPosition s <=? maxReadBitNum s / 8
    then maxReadBitNum s / 8 - getPosition s
    else 2 ^ 32 - (getPosition s - maxReadBitNum s / 8).
Proof.
  intros Hmax Hc.
  assert (E31 : 2 ^ 31 = 2147483648) by reflexivity.
  assert (E32 : 2 ^ 32 = 4294967296) by reflexivity.
  assert (Hp : 0 <= getPosition s < 2 ^ 28).
  { unfold getPosition. rewrite wrapS32_id by lia. rewrite shiftr3.
    destruct (div8_facts (bitNum s + 7)) as [Hd Hm].
    unfold wrapU32. rewrite Z.mod_small by lia.
    change (2 ^ 28) with 268435456. lia. }
  assert (E28 : 2 ^ 28 = 268435456) by reflexivity.
  unfold getReadByteSize. rewrite shiftr3.
  destruct (div8_facts (maxReadBitNum s)) as [Hd Hm].
  unfold wrapU32.
  destruct (Z.leb_spec (getPosition s) (maxReadBitNum s / 8)).
  - apply Z.mod_small. lia.
  - symmetry. apply (Z.mod_unique _ _ (-1)); lia.
Qed.

Lemma read_byte_size_witness :
  getReadByteSize (setCurPos 300 exampleStream)
  = if getPosition (setCurPos 300 exampleStream)
       <=? maxReadBitNum (setCurPos 300 exampleStream) / 8
    then maxReadBitNum (setCurPos 300 exampleStream) / 8
         - getPosition (setCurPos 300 exampleStream)
    else 2 ^ 32 - (getPosition (setCurPos 300 exampleStream)
                   - maxReadBitNum (setCurPos 300 exampleStream) / 8).
Proof.
  apply (read_byte_size (setCurPos 300 exampleStream));
    vm_compute; split; (discriminate || reflexivity).
Defined.

(** X26.  A string costs at most 9 bits more than its raw bytes: what
    [writeHuffBuffer] appends for a string of [len] characters is between
    9 and [9 + 8 * min(len, maxLen)] bits, and fits without error whenever
    [9 + 8 * maxLen] bits are free. *)
Theorem string_wire_bound (adjacent : Z -> Z) (hp : HuffmanProcessor)
    (str rest : list Z) (maxLen : Z) (s : BitStream) :
  tablesOf hp = Some builtTables ->
  Forall (fun c => wrapU8 c <> 0) str ->
  0 <= maxLen <= 255 -> room s (9 + 8 * maxLen) ->
  exists s',
    writeHuffBuffer adjacent hp s (Some (str ++ 0 :: rest)) maxLen
    = Some (builtTables, s') /\
    error s' = error s /\
    9 <= bitNum s' - bitNum s
      <= 9 + 8 * Z.min (Z.of_nat (length str)) maxLen.
Proof.
  intros Htab Hnz Hmax Hroom.
  destruct builtTables_ok as [_ Hok].
  set (sent := take (Z.to_nat maxLen) str).
  pose proof (length_take_le str maxLen ltac:(lia)) as Hsent. fold sent in Hsent.
  pose proof (huffmanBody_fits _ sent maxLen Hok Hsent) as Hfit.
  destruct (writeHuffBuffer_chars adjacent hp builtTables s str rest maxLen
              (9 + 8 * maxLen) Htab Hok Hnz Hmax Hroom Hfit)
    as (s' & Hw & Happ).
  fold sent in Happ.
  exists s'. split; [exact Hw |].
  destruct (appended_fields _ _ _ Happ) as (Hc & He & _).
  split; [exact He |].
  rewrite Hc, (length_huffmanBody _ sent Hok).
  pose proof (totalBits_bounds (m_huffLeaves builtTables) sent Hok) as Htb.
  assert (Hl : Z.of_nat (length sent) = Z.min (Z.of_nat (length str)) maxLen).
  { unfold sent. rewrite length_take. lia. }
  destruct (Z.geb_spec (totalBits (m_huffLeaves builtTables) sent)
              (8 * Z.of_nat (length sent))); lia.
Qed.

Lemma string_wire_bound_witness :
  exists s',
    writeHuffBuffer noise g_huffProcessor exampleStream
      (Some (helloworld ++ 0 :: [])) 7 = Some (builtTables, s') /\
    error s' = error exampleStream /\
    9 <= bitNum s' - bitNum exampleStream
      <= 9 + 8 * Z.min (Z.of_nat (length helloworld)) 7.
Proof.
  apply (string_wire_bound noise g_huffProcessor helloworld [] 7 exampleStream).
  - apply buildTables_fresh.
  - repeat constructor; vm_compute; discriminate.
  - lia.
  - vm_compute; repeat split; discriminate.
Defined.

(** ** Sending a string again *)

Lemma commonPrefix_kept (str : list Z) :
  Forall (fun c => wrapU8 c <> 0) str ->
  forall (m : nat) (tl : list Z),
    commonPrefix (take m (wrapU8 <$> str) ++ 0 :: tl) str
    = Nat.min m (length str).
Proof.
  induction 1 as [| c str Hc _ IH]; intros m tl.
  - rewrite fmap_nil, take_nil. cbn [app commonPrefix length]. lia.
  - destruct m as [| m].
    + rewrite take_0. cbn [app commonPrefix].
      change (wrapU8 0) with 0.
      destruct (Z.eqb_spec 0 (wrapU8 c)); [congruence | reflexivity].
    + cbn [fmap list_fmap take app commonPrefix length].
      rewrite wrapU8_idemp, Z.eqb_refl.
      change (list_fmap Z Z wrapU8 str) with (wrapU8 <$> str).
      rewrite IH. reflexivity.
Qed.

Lemma truncated_split (str : list Z) (maxLen : Z) :
  0 <= maxLen ->
  truncated str maxLen
  = take (Z.to_nat maxLen) (wrapU8 <$> str)
      ++ 0 :: replicate (Z.to_nat maxLen - length str) 0 /\
  length (truncated str maxLen) = S (Z.to_nat maxLen).
Proof.
  intros Hm. unfold truncated. split.
  - f_equal. rewrite <- (app_nil_r (replicate _ 0)) at 2.
    rewrite <- replicate_zero_end. reflexivity.
  - rewrite !length_app, length_take, length_fmap, length_replicate.
    cbn [length]. lia.
Qed.

(** X27.  Sending again the string the scratch buffer already holds costs
    18 bits whatever its length (above two characters): flag 1, the prefix
    count (the length of the string cut at [maxLen]) in 8 bits, and the
    9-bit body of the empty suffix; the scratch buffer is left as it
    was. *)
Theorem repeated_string_costs_18_bits (adjacent : Z -> Z)
    (hp : HuffmanProcessor) (str rest tl : list Z) (maxLen : Z)
    (s : BitStream) :
  tablesOf hp = Some builtTables ->
  Forall (fun c => wrapU8 c <> 0) str ->
  2 < maxLen <= 255 -> 2 < Z.of_nat (length str) ->
  stringBuffer s = Some (truncated str maxLen ++ tl) ->
  room s 18 ->
  exists s',
    writeString adjacent hp (Some (str ++ 0 :: rest)) maxLen s
    = Some (builtTables, s') /\
    stringBuffer s' = Some (truncated str maxLen ++ tl) /\
    bitNum s' = bitNum s + 18 /\ error s' = error s /\
    holds (dataPtr s') (bitNum s)
      (true :: intBits (Z.min (Z.of_nat (length str)) maxLen) 8
         ++ replicate 9 false).
Proof.
  intros Htab Hnz Hmax Hlen Hsb Hroom.
  destruct builtTables_ok as [_ Hok].
  destruct (truncated_split str maxLen ltac:(lia)) as [Htr Htl].
  set (sb := truncated str maxLen ++ tl) in *.
  assert (Hcp : commonPrefix sb str = Nat.min (Z.to_nat maxLen) (length str)).
  { unfold sb. rewrite Htr, <- app_assoc. cbn [app].
    apply (commonPrefix_kept str Hnz). }
  assert (Hsame : truncated str maxLen ++ drop (Z.to_nat maxLen + 1) sb = sb).
  { unfold sb. rewrite drop_app_length'; [reflexivity | lia]. }
  assert (Hj : Z.of_nat (Nat.min (Z.to_nat maxLen) (commonPrefix sb str))
               = Z.min (Z.of_nat (length str)) maxLen) by lia.
  assert (Hdrop : drop (Z.to_nat (Z.min (Z.of_nat (length str)) maxLen))
                    (take (Z.to_nat maxLen) str) = []).
  { apply drop_ge. rewrite length_take. lia. }
  assert (Hwire : stringWire (m_huffLeaves builtTables)
                    (Z.min (Z.of_nat (length str)) maxLen)
                    (take (Z.to_nat maxLen) str)
                  = true :: intBits (Z.min (Z.of_nat (length str)) maxLen) 8
                      ++ replicate 9 false).
  { unfold stringWire.
    destruct (Z.gtb_spec (Z.min (Z.of_nat (length str)) maxLen) 2); [| lia].
    rewrite Hdrop. reflexivity. }
  assert (Hwl : Z.of_nat (length
                  (true :: intBits (Z.min (Z.of_nat (length str)) maxLen) 8
                     ++ replicate 9 false)) = 18).
  { cbn [length]. rewrite length_app, Nat2Z.inj_succ, Nat2Z.inj_add.
    rewrite length_intBits by lia. rewrite length_replicate. lia. }
  destruct (writeString_scratch adjacent hp builtTables s str rest sb maxLen 18
              Htab Hok Hnz ltac:(lia) Hroom Hsb)
    as (s' & Hw & Hsb' & Happ).
  { unfold sb. rewrite length_app, Htl. lia. }
  { rewrite Hj, Hwire, Hwl. lia. }
  rewrite Hj, Hwire, Hsame in *.
  exists s'. split; [exact Hw |]. split; [exact Hsb' |].
  destruct (appended_fields _ _ _ Happ) as (Hc & He & _).
  rewrite Hwl in Hc.
  split; [exact Hc |]. split; [exact He |].
  exact (appended_holds _ _ _ Happ).
Qed.

Lemma repeated_string_costs_18_bits_witness :
  exists s',
    writeString noise g_huffProcessor (Some (helloworld ++ 0 :: [])) 20
      (setStringBuffer (Some (truncated helloworld 20 ++ [7; 7]))
         exampleStream)
    = Some (builtTables, s') /\
    stringBuffer s' = Some (truncated helloworld 20 ++ [7; 7]) /\
    bitNum s'
    = bitNum (setStringBuffer (Some (truncated helloworld 20 ++ [7; 7]))
                exampleStream) + 18 /\
    error s'
    = error (setStringBuffer (Some (truncated helloworld 20 ++ [7; 7]))
               exampleStream) /\
    holds (dataPtr s')
      (bitNum (setStringBuffer (Some (truncated helloworld 20 ++ [7; 7]))
                 exampleStream))
      (true :: intBits (Z.min (Z.of_nat (length helloworld)) 20) 8
         ++ replicate 9 false).
Proof.
  apply (repeated_string_costs_18_bits noise g_huffProcessor helloworld []
           [7; 7] 20
           (setStringBuffer (Some (truncated helloworld 20 ++ [7; 7]))
              exampleStream)).
  - apply buildTables_fresh.
  - repeat constructor; vm_compute; discriminate.
  - lia.
  - vm_compute; reflexivity.
  - reflexivity.
  - vm_compute; repeat split; discriminate.
Defined.

(** ** Compaction with slack, and the byte order of integers *)

(** X28.  When the buffer has slack ([position + 2 * mMinSpace] does not
    exceed the recorded size), [InfiniteBitStream::compact] is safe: the
    copy carries the old content at the old allocation size, the recorded
    size and both ceilings come down to [position + 2 * mMinSpace] and so
    stay inside the allocation, the cursor and the error flag are
    unchanged, and [2 * mMinSpace] bytes remain writable. *)
Theorem compact_with_slack (uninit : Z -> Z) (s : BitStream) :
  sized s -> 0 <= mMinSpace s -> bufSize s < 2 ^ 28 ->
  getPosition s + 2 * mMinSpace s <= bufSize s ->
  exists s',
    InfiniteBitStream.compact uninit s = Some s' /\
    dataPtr s' = dataPtr s /\ bitNum s' = bitNum s /\ error s' = error s /\
    bufSize s' = getPosition s + 2 * mMinSpace s /\
    maxReadBitNum s' = 8 * bufSize s' /\ maxWriteBitNum s' = 8 * bufSize s' /\
    room s' (8 * (2 * mMinSpace s)).
Proof.
  intros Hs Hm Hb Hslack.
  assert (E28 : 2 ^ 28 = 268435456) by reflexivity.
  assert (E31 : 2 ^ 31 = 2147483648) by reflexivity.
  destruct (getPosition_sized s Hs Hb) as [Hp Hc].
  pose proof Hs as (Hl & Hr & Hw & Hc').
  unfold InfiniteBitStream.compact.
  assert (E2 : wrapU32 (bufSize s) = bufSize s).
  { unfold wrapU32. apply Z.mod_small. change (2 ^ 32) with 4294967296. lia. }
  assert (E3 : wrapU32 (mMinSpace s * 2) = 2 * mMinSpace s).
  { unfold wrapU32. rewrite Z.mod_small; [lia |].
    change (2 ^ 32) with 4294967296. lia. }
  assert (E4 : wrapS32 (wrapU32 (getPosition s + 2 * mMinSpace s))
               = getPosition s + 2 * mMinSpace s).
  { unfold wrapU32. rewrite Z.mod_small by (change (2 ^ 32) with 4294967296; lia).
    apply wrapS32_id. lia. }
  rewrite E2, E3, E4. cbv zeta.
  rewrite Z.shiftl_mul_pow2 by lia. change (2 ^ 3) with 8.
  rewrite wrapS32_id by lia.
  unfold dMemcpy, dMalloc. rewrite length_fmap, length_seqZ.
  destruct (Z.leb_spec 0 (bufSize s)); [| lia].
  destruct (Z.leb_spec (bufSize s) (Z.of_nat (Z.to_nat (bufSize s)))); [| lia].
  destruct (Z.leb_spec (bufSize s) (Z.of_nat (length (dataPtr s)))); [| lia].
  cbn [andb mbind option_bind].
  assert (Hcopy : take (Z.to_nat (bufSize s)) (dataPtr s)
                    ++ drop (Z.to_nat (bufSize s)) (uninit <$> seqZ 0 (bufSize s))
                  = dataPtr s).
  { rewrite take_ge by lia.
    rewrite drop_ge by (rewrite length_fmap, length_seqZ; lia).
    apply app_nil_r. }
  rewrite Hcopy.
  eexists. split; [reflexivity |]. simpl.
  split; [reflexivity |]. split; [reflexivity |]. split; [reflexivity |].
  split; [reflexivity |]. split; [lia |]. split; [lia |].
  unfold room. simpl. lia.
Qed.

Lemma compact_with_slack_witness :
  exists s',
    InfiniteBitStream.compact noise
      (mkBitStream (replicate 32 5) 16 32 false 256 256 None (mkPoint3F 0 0 0) 8)
    = Some s' /\
    dataPtr s' = replicate 32 5 /\ bitNum s' = 16 /\ error s' = false /\
    bufSize s' = 2 + 2 * 8 /\
    maxReadBitNum s' = 8 * bufSize s' /\ maxWriteBitNum s' = 8 * bufSize s' /\
    room s' (8 * (2 * 8)).
Proof.
  apply (compact_with_slack noise
           (mkBitStream (replicate 32 5) 16 32 false 256 256 None
              (mkPoint3F 0 0 0) 8));
    [vm_compute; repeat split; discriminate | vm_compute; discriminate
    | reflexivity | vm_compute; discriminate].
Defined.

Lemma bitAt_aligned (d : list Z) (p j : Z) :
  0 <= p -> 0 <= j ->
  bitAt d (8 * p + j)
  = from_option (fun v => Z.testbit (wrapU8 v) (j mod 8)) false
      (d !! Z.to_nat (p + j / 8)).
Proof.
  intros Hp Hj. destruct (div8_facts j) as [Hd Hm].
  assert (Hq : 0 <= j / 8) by (apply Z.div_pos; lia).
  unfold bitAt.
  replace ((8 * p + j) / 8) with (p + j / 8)
    by (symmetry; rewrite Hd at 1;
        replace (8 * p + (8 * (j / 8) + j mod 8))
          with (8 * (p + j / 8) + j mod 8) by lia;
        apply div8_eq; lia).
  replace ((8 * p + j) mod 8) with (j mod 8)
    by (symmetry; rewrite Hd at 1;
        replace (8 * p + (8 * (j / 8) + j mod 8))
          with (8 * (p + j / 8) + j mod 8) by lia;
        apply mod8_eq; lia).
  unfold load. destruct (Z.leb_spec 0 (p + j / 8)); [| lia].
  destruct (d !! Z.to_nat (p + j / 8)); reflexivity.
Qed.

(** X29.  Integers are little-endian on the wire: at a byte-aligned cursor
    [readInt] of [k] whole bytes returns the little-endian value of the
    next [k] buffer bytes (as a 32-bit two's-complement number when
    [k = 4]) and advances the cursor by [8 * k] bits. *)
Theorem readInt_little_endian (k p : Z) (s : BitStream) :
  1 <= k <= 4 -> 0 <= p -> bitNum s = 8 * p -> readable s (8 * k) ->
  readInt (8 * k) s
  = Some (let v := leU32 (take (Z.to_nat k) (drop (Z.to_nat p) (dataPtr s))) in
          if k =? 4 then wrapS32 v else v,
          set_bitNum (8 * p + 8 * k) s).
Proof.
  intros Hk Hp Hal Hr. cbv zeta.
  pose proof Hr as (Hc & Hmax & Hlen & Hov).
  destruct (div8_facts (bitNum s)) as [Hcd Hcm].
  assert (Hceil : (8 * k + 7) / 8 = k).
  { replace (8 * k + 7) with (7 + k * 8) by lia.
    rewrite Z.div_add by lia. reflexivity. }
  destruct (readInt_total (8 * k) s Hc ltac:(lia) Hov Hmax) as [[v s'] Hrun].
  { rewrite Hceil. lia. }
  destruct (readInt_run (8 * k) s v s' Hc ltac:(lia) Hov Hmax Hrun)
    as (-> & Hbits & Hsmall & Hrange).
  rewrite Hrun, Hal. f_equal. f_equal.
  set (bytes := take (Z.to_nat k) (drop (Z.to_nat p) (dataPtr s))).
  assert (Hbl : Z.of_nat (length bytes) = k).
  { unfold bytes. rewrite length_take, length_drop. lia. }
  assert (Hsame : forall j, 0 <= j < 8 * k ->
            Z.testbit v j = Z.testbit (leU32 bytes) j).
  { intros j Hj. rewrite Hbits by exact Hj. rewrite Hal.
    rewrite bitAt_aligned by lia. rewrite testbit_leU32 by lia.
    destruct (div8_facts j) as [Hd Hm].
    assert (Hq : 0 <= j / 8 < k) by lia.
    unfold bytes. rewrite lookup_take_lt by lia. rewrite lookup_drop.
    replace (Z.to_nat p + Z.to_nat (j / 8))%nat with (Z.to_nat (p + j / 8))
      by lia.
    reflexivity. }
  pose proof (leU32_range bytes) as Hle. rewrite Hbl in Hle.
  destruct (Z.eqb_spec k 4) as [-> | Hne].
  - apply (s32_of_bits v (leU32 bytes) Hrange). exact Hsame.
  - assert (H256 : 256 ^ k = 2 ^ (8 * k)).
    { change 256 with (2 ^ 8). rewrite <- Z.pow_mul_r by lia. reflexivity. }
    specialize (Hsmall ltac:(lia)). rewrite H256 in Hle.
    apply (Z_bits_small v (leU32 bytes) (8 * k) ltac:(lia) Hsmall Hle Hsame).
Qed.

Lemma readInt_little_endian_witness :
  readInt (8 * 2) (setCurPos 8 compactExample)
  = Some (let v := leU32 (take (Z.to_nat 2)
                            (drop (Z.to_nat 1)
                               (dataPtr (setCurPos 8 compactExample)))) in
          if 2 =? 4 then wrapS32 v else v,
          set_bitNum (8 * 1 + 8 * 2) (setCurPos 8 compactExample)).
Proof.
  apply (readInt_little_endian 2 1 (setCurPos 8 compactExample));
    [lia | lia | reflexivity | vm_compute; repeat split; discriminate].
Defined.

(** X30.  [writeInt] of [k] whole bytes at a byte-aligned cursor stores the
    [k] low bytes of the value in little-endian order at the cursor's byte
    and after it, changes no other byte, and advances the cursor by
    [8 * k] bits. *)
Theorem writeInt_little_endian (adjacent : Z -> Z) (v k p : Z)
    (s : BitStream) :
  1 <= k <= 4 -> 0 <= p -> bitNum s = 8 * p -> room s (8 * k) ->
  exists s',
    writeInt adjacent v (8 * k) s = Some s' /\
    bitNum s' = 8 * p + 8 * k /\ error s' = error s /\
    length (dataPtr s') = length (dataPtr s) /\
    (forall t, 0 <= t < k ->
       dataPtr s' !! Z.to_nat (p + t) = Some (byteOf v t)) /\
    (forall j : nat,
       Z.of_nat j < p \/ p + k <= Z.of_nat j ->
       dataPtr s' !! j = dataPtr s !! j).
Proof.
  intros Hk Hp Hal Hroom.
  pose proof Hroom as (Hc & Hmax & Hlen & Hov).
  destruct (writeInt_appended adjacent v (8 * k) s (8 * k) Hroom
              ltac:(lia) ltac:(lia)) as (s' & Hw & Happ).
  exists s'. split; [exact Hw |].
  destruct (appended_fields _ _ _ Happ) as (Hc' & He & _).
  rewrite length_intBits in Hc' by lia.
  split; [lia |]. split; [exact He |].
  pose proof Happ as (_ & Hl & _ & _).
  split; [exact Hl |].
  unfold writeInt in Hw.
  destruct (writeBits_run (8 * k) (mem32 adjacent v) s s' Hc ltac:(lia)
              ltac:(lia) ltac:(lia) Hw) as (_ & _ & _ & Hout & Hbytes).
  assert (Hfirst : bitNum s / 8 = p).
  { rewrite Hal. replace (8 * p) with (p * 8) by lia. apply Z.div_mul. lia. }
  assert (Hlast : (bitNum s + 8 * k - 1) / 8 = p + k - 1).
  { rewrite Hal. replace (8 * p + 8 * k - 1) with (8 * (p + k - 1) + 7) by lia.
    apply div8_eq. lia. }
  rewrite Hfirst, Hlast in Hout, Hbytes.
  split.
  - intros t Ht.
    destruct (Hbytes (p + t) ltac:(lia)) as (b & Hb & Hrange & Hbits).
    rewrite Hb. f_equal. unfold byteOf.
    apply byte_of_bits; [exact Hrange |].
    intros i Hi. rewrite Hbits by exact Hi. rewrite Hal.
    destruct (Z.ltb_spec (8 * (p + t) + i) (8 * p)); [lia |].
    destruct (Z.ltb_spec (8 * (p + t) + i) (8 * p + 8 * k)); [| lia].
    replace (8 * (p + t) + i - 8 * p) with (8 * t + i) by lia.
    rewrite srcBit_mem32 by lia.
    rewrite testbit_wrapU8, testbit_shiftr by lia.
    destruct (Z.ltb_spec i 8); [| lia]. simpl. f_equal. lia.
  - intros j Hj. apply Hout. lia.
Qed.

Lemma writeInt_little_endian_witness :
  exists s',
    writeInt noise 258 (8 * 2) (setCurPos 8 exampleStream) = Some s' /\
    bitNum s' = 8 * 1 + 8 * 2 /\
    error s' = error (setCurPos 8 exampleStream) /\
    length (dataPtr s') = length (dataPtr (setCurPos 8 exampleStream)) /\
    (forall t, 0 <= t < 2 ->
       dataPtr s' !! Z.to_nat (1 + t) = Some (byteOf 258 t)) /\
    (forall j : nat,
       Z.of_nat j < 1 \/ 1 + 2 <= Z.of_nat j ->
       dataPtr s' !! j = dataPtr (setCurPos 8 exampleStream) !! j).
Proof.
  apply (writeInt_little_endian noise 258 2 1 (setCurPos 8 exampleStream));
    [lia | lia | reflexivity | vm_compute; repeat split; discriminate].
Defined.
